(** * Object/graph codec of commerce-engine-ts: [ObjectBuilder]

    A shallow embedding of the [ObjectBuilder] class (build: typed object to
    triples, decode: triples to typed object) together with the properties
    its specification states about it.

    Conventions of the embedding.
    - JavaScript values are the inductive [JsVal]; numbers are integers,
      NaN and finite non-integer numbers [m * 2 ^ e], printed and parsed by
      the host; strings are sequences of 8-bit characters (the embedding is
      exact on ASCII text).
    - Plain JavaScript objects are association lists in insertion order
      ([Object.entries] order); keys are assumed not to be integer-like nor
      names inherited from [Object.prototype].
    - The N3 store is a duplicate-free list of quads; [getQuads] filters it
      in enumeration order.
    - The cache and the maps it points to live in an explicit heap, so that
      two references to the same JavaScript object are the same location.
    - Exceptions ([TypeError]) and exhaustion of the recursion budget are
      outcomes of the monad [M]. *)

From Stdlib Require Import ZArith String Ascii List Lia Bool Decimal DecimalString DecimalNat DecimalZ.
From stdpp Require Import base tactics option list gmap strings sorting.

Import ListNotations.
#[local] Set Warnings "-register-all".
#[local] Set Warnings "-notation-overridden".
#[local] Set Warnings "-notation-incompatible-prefix".
Local Open Scope string_scope.
Local Open Scope list_scope.
Local Open Scope Z_scope.

(** ** Strings *)

Module JsString.

Definition isUpper (c : ascii) : bool :=
  let n := nat_of_ascii c in (Nat.leb 65 n && Nat.leb n 90)%bool.

Definition lowerChar (c : ascii) : ascii :=
  if isUpper c then ascii_of_nat (nat_of_ascii c + 32) else c.

(** [s.toLowerCase()] *)
Fixpoint toLowerCase (s : string) : string :=
  match s with
  | EmptyString => EmptyString
  | String c r => String (lowerChar c) (toLowerCase r)
  end.

(** [s.substring(n)]: the suffix of [s] from index [n]. *)
Fixpoint substringFrom (n : nat) (s : string) : string :=
  match n, s with
  | O, _ => s
  | S n', String _ r => substringFrom n' r
  | S _, EmptyString => EmptyString
  end.

(** [arr.join(sep)] on strings *)
Fixpoint join (sep : string) (l : list string) : string :=
  match l with
  | [] => ""
  | [x] => x
  | x :: r => x +:+ sep +:+ join sep r
  end.

Definition isDigit (c : ascii) : bool :=
  let n := nat_of_ascii c in (Nat.leb 48 n && Nat.leb n 57)%bool.

Definition digitVal (c : ascii) : Z := Z.of_nat (nat_of_ascii c - 48).

Definition isSpace (c : ascii) : bool :=
  let n := nat_of_ascii c in
  (Nat.eqb n 32 || (Nat.leb 9 n && Nat.leb n 13))%bool.

Fixpoint trimStart (s : string) : string :=
  match s with
  | String c r => if isSpace c then trimStart r else s
  | EmptyString => EmptyString
  end.

(** Value of a hexadecimal digit, if [c] is one. *)
Definition hexVal (c : ascii) : option Z :=
  let n := nat_of_ascii c in
  if isDigit c then Some (digitVal c)
  else if (Nat.leb 97 n && Nat.leb n 102)%bool then Some (Z.of_nat (n - 87))
  else if (Nat.leb 65 n && Nat.leb n 70)%bool then Some (Z.of_nat (n - 55))
  else None.

(** Longest prefix of decimal digits, accumulated; [None] when the prefix
    is empty. *)
Fixpoint decDigits (acc : option Z) (s : string) : option Z * string :=
  match s with
  | String c r =>
      if isDigit c
      then decDigits (Some (10 * default 0 acc + digitVal c)) r
      else (acc, s)
  | EmptyString => (acc, s)
  end.

Fixpoint hexDigits (acc : option Z) (s : string) : option Z * string :=
  match s with
  | String c r =>
      match hexVal c with
      | Some v => hexDigits (Some (16 * default 0 acc + v)) r
      | None => (acc, s)
      end
  | EmptyString => (acc, s)
  end.

Definition hasHexPrefix (s : string) : option string :=
  match s with
  | String "0" (String "x" r) => Some r
  | String "0" (String "X" r) => Some r
  | _ => None
  end.

Definition splitSign (s : string) : bool * string :=
  match s with
  | String "-" r => (true, r)
  | String "+" r => (false, r)
  | _ => (false, s)
  end.

Definition applySign (neg : bool) (z : Z) : Z := if neg then - z else z.

(** [parseInt(s)] with no radix argument; [None] is NaN. *)
Definition parseInt (s : string) : option Z :=
  let '(neg, body) := splitSign (trimStart s) in
  match hasHexPrefix body with
  | Some r => applySign neg <$> fst (hexDigits None r)
  | None => applySign neg <$> fst (decDigits None body)
  end.

Fixpoint trimEnd (s : string) : string :=
  match s with
  | EmptyString => EmptyString
  | String c r =>
      match trimEnd r with
      | EmptyString => if isSpace c then EmptyString else String c EmptyString
      | r' => String c r'
      end
  end.

Definition wholeNumber (r : option Z * string) : option Z :=
  match r with
  | (Some z, EmptyString) => Some z
  | _ => None
  end.

(** [Number(s)] for a string; [None] is NaN.  Numerals that do not denote
    an integer lie outside the number model and read as NaN. *)
Definition toNumber (s : string) : option Z :=
  let t := trimEnd (trimStart s) in
  match t with
  | EmptyString => Some 0
  | _ =>
      match hasHexPrefix t with
      | Some r => wholeNumber (hexDigits None r)
      | None =>
          let '(neg, body) := splitSign t in
          applySign neg <$> wholeNumber (decDigits None body)
      end
  end.

(** [String(z)] for an integer number. *)
Definition ofZ (z : Z) : string := NilZero.string_of_int (Z.to_int z).

End JsString.

(** ** JavaScript values and plain objects *)

(** Plain objects: association lists in insertion order. *)
Module Obj.
Section Assoc.
Context {V : Type}.

(** [o[k]] *)
Fixpoint get (k : string) (o : list (string * V)) : option V :=
  match o with
  | [] => None
  | (k', v) :: r => if String.eqb k k' then Some v else get k r
  end.

(** [k in o] *)
Definition has (k : string) (o : list (string * V)) : bool :=
  match get k o with Some _ => true | None => false end.

(** [o[k] = v]: overwrite in place, or append a new last key. *)
Fixpoint set (k : string) (v : V) (o : list (string * V)) : list (string * V) :=
  match o with
  | [] => [(k, v)]
  | (k', v') :: r =>
      if String.eqb k k' then (k, v) :: r else (k', v') :: set k v r
  end.

(** [Object.entries(src).forEach(([k, v]) => { dst[k] = v })] *)
Definition assign (dst src : list (string * V)) : list (string * V) :=
  fold_left (fun acc kv => set (fst kv) (snd kv) acc) src dst.
End Assoc.
End Obj.

Inductive JsVal : Type :=
| JUndefined
| JString (s : string)
| JNumber (n : option Z)          (* [None] is NaN *)
| JBool (b : bool)
| JDate (t : option Z)            (* time value in ms; [None] is Invalid Date *)
| JArray (l : list JsVal)
| JObject (o : list (string * JsVal))
| JFraction (m e : Z).            (* the finite non-integer number [m * 2 ^ e], [e < 0] *)

Definition emptyObject : JsVal := JObject [].

(** ** RDF terms, quads and the store *)

Inductive Term : Type :=
| NamedNode (value : string)
| BlankNode (value : string)
| Literal (value : string) (datatype : string).

Definition termValue (t : Term) : string :=
  match t with
  | NamedNode v => v
  | BlankNode v => v
  | Literal v _ => v
  end.

Definition isNamedNode (t : Term) : bool :=
  match t with NamedNode _ => true | _ => false end.

Definition isBlankNode (t : Term) : bool :=
  match t with BlankNode _ => true | _ => false end.

Definition term_eqb (a b : Term) : bool :=
  match a, b with
  | NamedNode x, NamedNode y => String.eqb x y
  | BlankNode x, BlankNode y => String.eqb x y
  | Literal x dx, Literal y dy => (String.eqb x y && String.eqb dx dy)%bool
  | _, _ => false
  end.

Record Quad : Type := quad {
  subject : Term;
  predicate : Term;
  object : Term;
}.

Definition quad_eqb (a b : Quad) : bool :=
  (term_eqb (subject a) (subject b)
   && term_eqb (predicate a) (predicate b)
   && term_eqb (object a) (object b))%bool.

Abbreviation Store := (list Quad).

(** [store.addQuad(q)]: the store is a set of quads. *)
Definition storeAdd (q : Quad) (st : Store) : Store :=
  if existsb (quad_eqb q) st then st else st ++ [q].

Definition matchTerm (pat : option Term) (t : Term) : bool :=
  match pat with
  | None => true
  | Some p => term_eqb p t
  end.

(** [store.getQuads(s, p, o, null)]; [None] is the wildcard [null]. *)
Definition getQuads (st : Store) (s p o : option Term) : list Quad :=
  filter (fun q => matchTerm s (subject q) && matchTerm p (predicate q)
                   && matchTerm o (object q))%bool st.

Definition rdf_type : string := "http://www.w3.org/1999/02/22-rdf-syntax-ns#type".
Definition schema_ItemList : string := "http://schema.org/ItemList".
Definition schema_itemListElement : string := "http://schema.org/itemListElement".
Definition schema_position : string := "http://schema.org/position".
Definition schema_item : string := "http://schema.org/item".

Definition xsd_string : string := "http://www.w3.org/2001/XMLSchema#string".
Definition xsd_boolean : string := "http://www.w3.org/2001/XMLSchema#boolean".
Definition xsd_integer : string := "http://www.w3.org/2001/XMLSchema#integer".
Definition xsd_double : string := "http://www.w3.org/2001/XMLSchema#double".

(** ** Host environment

    What the code takes from its runtime: the identifiers the uuid generator
    hands out (the [k]-th call returns [uuidv4 k]) and the time-zone and
    locale dependent [Date] operations. *)

Class Host : Type := {
  uuidv4 : nat -> string;
  (** time value after [setHours(0, 0, 0, 0)] *)
  startOfLocalDay : Z -> Z;
  (** [d.toLocaleDateString()] *)
  toLocaleDateString : Z -> string;
  (** [String(d)] *)
  dateToString : Z -> string;
  (** time value of [new Date(s)] *)
  dateParse : string -> option Z;
  (** [String(x)] for the non-integer number [x = m * 2 ^ e] *)
  numberToString : Z -> Z -> string;
  (** [Number(s)] for a numeral that is not written as an integer:
      [Some (m, e)] is [m * 2 ^ e], [None] is NaN *)
  numberOfString : string -> option (Z * Z);
}.

(** ** Schema *)

Record AbstractProperty : Type := {
  uri : string;
  type : string;
  isArray : bool;
  isOptional : bool;
  isMultiType : bool;
}.

Record AbstractDefinition : Type := {
  def_uri : string;
  extends : option string;
  properties : list (string * AbstractProperty);
  propertyUris : list (string * string);
}.

Abbreviation AbstractDefinitionMap := (list (string * AbstractDefinition)).
Abbreviation AbstractPropertyMap := (list (string * AbstractProperty)).
Abbreviation AbstractTypeUriMap := (list (string * string)).
Abbreviation UriMap := (list (string * string)).

Record ObjectBuilder : Type := {
  defs : AbstractDefinitionMap;
  typeDefs : AbstractTypeUriMap;
}.

(** [new ObjectBuilder(defs)] *)
Definition newObjectBuilder (d : AbstractDefinitionMap) : ObjectBuilder :=
  {| defs := d;
     typeDefs := fold_left (fun acc kv => Obj.set (def_uri (snd kv)) (fst kv) acc) d [] |}.

(** ** Heap, cache and the state of one operation *)

(** References to map objects: indices into the heaps. *)
Record CacheEntry : Type := {
  uris : nat;
  props : nat;
}.

Record State : Type := {
  store : Store;
  cache : gmap string CacheEntry;
  propHeap : list AbstractPropertyMap;
  uriHeap : list UriMap;
  minted : nat;                       (* number of uuids drawn so far *)
  console : list string;              (* console.error / console.log lines *)
}.

Definition initState : State :=
  {| store := []; cache := ∅; propHeap := []; uriHeap := []; minted := 0%nat; console := [] |}.

Inductive Outcome (A : Type) : Type :=
| Ret (a : A)
| Throw (e : string)       (* an uncaught exception *)
| Diverge.                 (* recursion budget exhausted *)
Arguments Ret {A} a.
Arguments Throw {A} e.
Arguments Diverge {A}.

Definition M (A : Type) : Type := State -> Outcome A * State.

Definition ret {A} (a : A) : M A := fun s => (Ret a, s).
Definition throw {A} (e : string) : M A := fun s => (Throw e, s).
Definition diverge {A} : M A := fun s => (Diverge, s).

Definition bind {A B} (m : M A) (k : A -> M B) : M B :=
  fun s =>
    match m s with
    | (Ret a, s') => k a s'
    | (Throw e, s') => (Throw e, s')
    | (Diverge, s') => (Diverge, s')
    end.

Notation "'let*' x := m 'in' k" := (bind m (fun x => k))
  (at level 10, x name, m at level 100, k at level 200).
Notation "'do' m 'then' k" := (bind m (fun _ => k))
  (at level 10, m at level 100, k at level 200).

(** [l.forEach(f)] / a [for] loop over [l] *)
Fixpoint forEach {A} (f : A -> M unit) (l : list A) : M unit :=
  match l with
  | [] => ret tt
  | x :: r => do f x then forEach f r
  end.

(** [l.map(f)] for an effectful [f] *)
Fixpoint mapM {A B} (f : A -> M B) (l : list A) : M (list B) :=
  match l with
  | [] => ret []
  | x :: r => let* y := f x in let* ys := mapM f r in ret (y :: ys)
  end.

Definition typeError : string := "TypeError".

(** Left-to-right loop threading an accumulator (a local variable updated by
    the loop body). *)
Fixpoint foldM {A B} (f : B -> A -> M B) (acc : B) (l : list A) : M B :=
  match l with
  | [] => ret acc
  | x :: r => let* acc' := f acc x in foldM f acc' r
  end.

(** *** Primitive effects *)

Definition addQuad (q : Quad) : M unit :=
  fun s => (Ret tt,
            {| store := storeAdd q (store s); cache := cache s; propHeap := propHeap s;
               uriHeap := uriHeap s; minted := minted s; console := console s |}).

(** One call of [uuidv4()]. *)
Definition freshUuid `{Host} : M string :=
  fun s => (Ret (uuidv4 (minted s)),
            {| store := store s; cache := cache s; propHeap := propHeap s;
               uriHeap := uriHeap s; minted := S (minted s); console := console s |}).

Definition consoleWrite (line : string) : M unit :=
  fun s => (Ret tt,
            {| store := store s; cache := cache s; propHeap := propHeap s;
               uriHeap := uriHeap s; minted := minted s; console := console s ++ [line] |}).

Definition getStore : M Store := fun s => (Ret (store s), s).

(** [cache[type]], when [type in cache]. *)
Definition cacheLookup (ty : string) : M (option CacheEntry) :=
  fun s => (Ret (cache s !! ty), s).

(** [cache[type] = entry] *)
Definition cacheStore (ty : string) (e : CacheEntry) : M unit :=
  fun s => (Ret tt,
            {| store := store s; cache := <[ty := e]> (cache s); propHeap := propHeap s;
               uriHeap := uriHeap s; minted := minted s; console := console s |}).

(** A fresh [{}] holding a property map; the result is its reference. *)
Definition newPropMap : M nat :=
  fun s => (Ret (length (propHeap s)),
            {| store := store s; cache := cache s; propHeap := propHeap s ++ [[]];
               uriHeap := uriHeap s; minted := minted s; console := console s |}).

Definition newUriMap : M nat :=
  fun s => (Ret (length (uriHeap s)),
            {| store := store s; cache := cache s; propHeap := propHeap s;
               uriHeap := uriHeap s ++ [[]]; minted := minted s; console := console s |}).

Definition readPropMap (r : nat) : M AbstractPropertyMap :=
  fun s => (Ret (default [] (propHeap s !! r)), s).

Definition readUriMap (r : nat) : M UriMap :=
  fun s => (Ret (default [] (uriHeap s !! r)), s).

(** [Object.entries(src).forEach(([k, v]) => { r[k] = v })] on the object
    behind reference [r]. *)
Definition assignPropMap (r : nat) (src : AbstractPropertyMap) : M unit :=
  fun s => (Ret tt,
            {| store := store s; cache := cache s;
               propHeap := alter (fun o => Obj.assign o src) r (propHeap s);
               uriHeap := uriHeap s; minted := minted s; console := console s |}).

Definition assignUriMap (r : nat) (src : UriMap) : M unit :=
  fun s => (Ret tt,
            {| store := store s; cache := cache s; propHeap := propHeap s;
               uriHeap := alter (fun o => Obj.assign o src) r (uriHeap s);
               minted := minted s; console := console s |}).

(** *** Dynamic property access *)

Definition indexKeys (n : nat) : list string :=
  map (fun i => JsString.ofZ (Z.of_nat i)) (seq 0 n).

(** [String(v)] *)
Fixpoint jsToString `{Host} (v : JsVal) : string :=
  match v with
  | JUndefined => "undefined"
  | JString s => s
  | JNumber (Some z) => JsString.ofZ z
  | JNumber None => "NaN"
  | JBool true => "true"
  | JBool false => "false"
  | JDate (Some t) => dateToString t
  | JDate None => "Invalid Date"
  | JArray l =>
      JsString.join ","
        (map (fun x => match x with JUndefined => "" | _ => jsToString x end) l)
  | JObject _ => "[object Object]"
  | JFraction m e => numberToString m e
  end.

(** [k in v]; a [TypeError] when [v] is not an object. *)
Definition jsIn (k : string) (v : JsVal) : M bool :=
  match v with
  | JObject o => ret (Obj.has k o)
  | JArray l => ret (String.eqb k "length" || existsb (String.eqb k) (indexKeys (length l)))%bool
  | JDate _ => ret false
  | _ => throw typeError
  end.

Definition charAt (i : nat) (s : string) : JsVal :=
  match String.get i s with
  | Some c => JString (String c EmptyString)
  | None => JUndefined
  end.

Definition indexOfKey (k : string) (n : nat) : option nat :=
  fst <$> list_find (String.eqb k) (indexKeys n).

(** [v[k]] for a string key; a [TypeError] when [v] is [undefined].
    Methods of primitives are not represented and read as [undefined]. *)
Definition jsGet (k : string) (v : JsVal) : M JsVal :=
  match v with
  | JUndefined => throw typeError
  | JObject o => ret (default JUndefined (Obj.get k o))
  | JArray l =>
      if String.eqb k "length" then ret (JNumber (Some (Z.of_nat (length l))))
      else match indexOfKey k (length l) with
           | Some i => ret (nth i l JUndefined)
           | None => ret JUndefined
           end
  | JString s =>
      if String.eqb k "length" then ret (JNumber (Some (Z.of_nat (String.length s))))
      else match indexOfKey k (String.length s) with
           | Some i => ret (charAt i s)
           | None => ret JUndefined
           end
  | _ => ret JUndefined
  end.

(** [v[i]] for a loop index [i]. *)
Definition jsIndex (i : nat) (v : JsVal) : M JsVal :=
  match v with
  | JUndefined => throw typeError
  | JArray l => ret (nth i l JUndefined)
  | JString s => ret (charAt i s)
  | JObject o => ret (default JUndefined (Obj.get (JsString.ofZ (Z.of_nat i)) o))
  | _ => ret JUndefined
  end.

(** The numeric value of [v.length] as the loop bound and the [> 1] test
    see it; a [length] that is not a number counts as absent. *)
Definition jsLength (v : JsVal) : M (option Z) :=
  let* len := jsGet "length" v in
  match len with
  | JNumber (Some z) => ret (Some z)
  | _ => ret None
  end.

(** *** Term construction: [N3.DataFactory] *)

Abbreviation namedNode := NamedNode.

(** [literal(v)] with no language or datatype argument. *)
Definition literal `{Host} (v : JsVal) : Term :=
  match v with
  | JBool _ => Literal (jsToString v) xsd_boolean
  | JNumber (Some _) => Literal (jsToString v) xsd_integer
  | JNumber None => Literal (jsToString v) xsd_double
  | JFraction _ _ => Literal (jsToString v) xsd_double
  | _ => Literal (jsToString v) xsd_string
  end.

(** ** The code *)

(** [isBeginningOfDay(date)] *)
Definition isBeginningOfDay `{Host} (date : JsVal) : M bool :=
  match date with
  | JDate (Some t) => ret (startOfLocalDay t =? t)
  | JDate None => ret false
  | _ => throw typeError           (* [date.getTime] is not a function *)
  end.

(** [getBeginningOfDay(date)] for a Date argument. *)
Definition getBeginningOfDay `{Host} (t : option Z) : option Z :=
  startOfLocalDay <$> t.

(** [this.defs[type]] followed by a field access, which throws on
    [undefined]. *)
Definition lookupDef (this : ObjectBuilder) (ty : string) : M AbstractDefinition :=
  match Obj.get ty (defs this) with
  | Some d => ret d
  | None => throw typeError
  end.

(** [def.extends && def.extends !== 'IObject'] *)
Definition parentOf (d : AbstractDefinition) : option string :=
  match extends d with
  | Some p => if (String.eqb p "" || String.eqb p "IObject")%bool then None else Some p
  | None => None
  end.

(** [getAllProperties(type, cache)]: returns a reference to a property map. *)
Fixpoint getAllProperties (this : ObjectBuilder) (fuel : nat) (ty : string) : M nat :=
  match fuel with
  | O => diverge
  | S fuel' =>
      let* c := cacheLookup ty in
      match c with
      | Some e => ret (props e)
      | None =>
          let* def := lookupDef this ty in
          let* allProps := match parentOf def with
                     | Some p => getAllProperties this fuel' p
                     | None => newPropMap
                     end in
          do assignPropMap allProps (properties def) then
          ret allProps
      end
  end.

(** [getAllPropertyUris(type, cache)] *)
Fixpoint getAllPropertyUris (this : ObjectBuilder) (fuel : nat) (ty : string) : M nat :=
  match fuel with
  | O => diverge
  | S fuel' =>
      let* c := cacheLookup ty in
      match c with
      | Some e => ret (uris e)
      | None =>
          let* def := lookupDef this ty in
          let* allProps := match parentOf def with
                     | Some p => getAllPropertyUris this fuel' p
                     | None => newUriMap
                     end in
          do assignUriMap allProps (propertyUris def) then
          ret allProps
      end
  end.

(** [isLiteral(type)] *)
Definition isLiteral (ty : string) : bool :=
  (String.eqb ty "string" || String.eqb ty "number"
   || String.eqb ty "boolean" || String.eqb ty "Date")%bool.

(** [buildLiteral(store, node, property, type, dkey, dval)] *)
Definition buildLiteral `{Host} (node property ty dkey : string) (dval : JsVal) : M unit :=
  if (String.eqb ty "string" || String.eqb ty "number" || String.eqb ty "boolean")%bool then
    if String.eqb dkey "uuid" then
      match dval with
      | JString s =>
          addQuad (quad (namedNode node) (namedNode property)
                        (namedNode ("urn:uuid:" +:+ JsString.toLowerCase s)))
      | _ => throw typeError        (* [dval.toLowerCase] is not a function *)
      end
    else
      addQuad (quad (namedNode node) (namedNode property) (literal dval))
  else if String.eqb ty "Date" then
    let* midnight := isBeginningOfDay dval in
    if midnight then
      match dval with
      | JDate (Some t) =>
          addQuad (quad (namedNode node) (namedNode property)
                        (literal (JString (toLocaleDateString t))))
      | _ => throw typeError
      end
    else
      addQuad (quad (namedNode node) (namedNode property) (literal dval))
  else ret tt.

(** [buildObject(store, propertyDef, dval, cache, baseUri)]; the recursive
    call of [buildResource] is the parameter [buildResource]. *)
Definition buildObject `{Host}
    (buildResource : string -> string -> JsVal -> string -> M unit)
    (propertyDef : AbstractProperty) (dval : JsVal) (baseUri : string) : M string :=
  let* hasId := jsIn "id" dval in
  let* subItemUri :=
    if hasId then let* v := jsGet "id" dval in ret (jsToString v)
    else let* u := freshUuid in ret (baseUri +:+ "#" +:+ u) in
  let* subType :=
    if isMultiType propertyDef then
      let* hasType := jsIn "type" dval in
      if hasType then let* t := jsGet "type" dval in ret (jsToString t)
      else
        do consoleWrite ("Unable to determine object type from "
                         +:+ type propertyDef +:+ " without 'type'")
        then ret (type propertyDef)
    else ret (type propertyDef) in
  do buildResource subType subItemUri dval baseUri then
  ret subItemUri.

(** Body of the [for] loop over the elements of an array value. *)
Definition buildListItem `{Host}
    (buildObject : AbstractProperty -> JsVal -> string -> M string)
    (itemList : Term) (value : AbstractProperty) (dkey : string) (dval : JsVal)
    (baseUri : string) (i : nat) : M unit :=
  let* u := freshUuid in
  let itemUri := baseUri +:+ "#" +:+ u in
  let item := namedNode itemUri in
  do addQuad (quad itemList (namedNode schema_itemListElement) item) then
  do addQuad (quad item (namedNode schema_position)
                   (literal (JNumber (Some (Z.of_nat i))))) then
  let* elem := jsIndex i dval in
  if isLiteral (type value) then
    buildLiteral itemUri schema_item (type value) dkey elem
  else
    let* subItemUri := buildObject value elem baseUri in
    addQuad (quad item (namedNode schema_item) (namedNode subItemUri)).

(** Body of the [forEach] over the effective properties. *)
Definition buildProperty `{Host}
    (buildObject : AbstractProperty -> JsVal -> string -> M string)
    (node : string) (obj : JsVal) (baseUri : string)
    (kv : string * AbstractProperty) : M unit :=
  let dkey := fst kv in
  let value := snd kv in
  let* skip :=
    if isOptional value then let* present := jsIn dkey obj in ret (negb present)
    else ret false in
  if skip then ret tt
  else
    let* dval := jsGet dkey obj in
    let* len := if isArray value then jsLength dval else ret None in
    if match len with Some n => 1 <? n | None => false end then
      let* u := freshUuid in
      let itemList := namedNode (baseUri +:+ "#" +:+ u) in
      do addQuad (quad itemList (namedNode rdf_type) (namedNode schema_ItemList)) then
      do addQuad (quad (namedNode node) (namedNode (uri value)) itemList) then
      forEach (buildListItem buildObject itemList value dkey dval baseUri)
              (seq 0 (Z.to_nat (default 0 len)))
    else
      let* dval := if isArray value then jsIndex 0 dval else ret dval in
      if isLiteral (type value) then
        buildLiteral node (uri value) (type value) dkey dval
      else
        let* subItemUri := buildObject value dval baseUri in
        addQuad (quad (namedNode node) (namedNode (uri value)) (namedNode subItemUri)).

(** Recursion budget for walking an [extends] chain: a chain of distinct
    type keys is no longer than the registry. *)
Definition typeFuel (this : ObjectBuilder) : nat := S (length (defs this)).

(** [buildResource(store, type, node, obj, cache, baseUri)] *)
Fixpoint buildResource `{Host} (this : ObjectBuilder) (fuel : nat)
    (ty node : string) (obj : JsVal) (baseUri : string) : M unit :=
  match fuel with
  | O => diverge
  | S fuel' =>
      let* def := lookupDef this ty in
      do addQuad (quad (namedNode node) (namedNode rdf_type) (namedNode (def_uri def))) then
      let* c := cacheLookup ty in
      let* allProps :=
        match c with
        | Some e => ret (props e)
        | None =>
            let* r := getAllProperties this (typeFuel this) ty in
            let* u := newUriMap in
            do cacheStore ty {| props := r; uris := u |} then
            ret r
        end in
      let baseUri := if String.eqb baseUri "" then node else baseUri in
      let* entries := readPropMap allProps in
      forEach (buildProperty (buildObject (buildResource this fuel')) node obj baseUri)
              entries
  end.

(** [output.sort(cmp)]: a stable sort; for a comparator that is a total
    preorder on the elements every conforming engine returns this list. *)
Section Sort.
Context {A : Type} (cmp : A -> A -> Z).

Fixpoint sortInsert (x : A) (l : list A) : list A :=
  match l with
  | [] => [x]
  | y :: r => if cmp x y <=? 0 then x :: y :: r else y :: sortInsert x r
  end.

Definition jsSort (l : list A) : list A := fold_right sortInsert [] l.
End Sort.

Definition numLt (a b : option Z) : bool :=
  match a, b with
  | Some x, Some y => x <? y
  | _, _ => false
  end.

(** The comparator of [decodeArray]: by first component. *)
Definition comparePosition (a b : option Z * Term) : Z :=
  if numLt (fst a) (fst b) then -1
  else if numLt (fst b) (fst a) then 1
  else 0.

(** [decodeLiteral(type, propKey, value)] *)
Definition decodeLiteral `{Host} (ty propKey value : string) : JsVal :=
  if String.eqb ty "string" then
    if String.eqb propKey "uuid"
    then JString (JsString.toLowerCase (JsString.substringFrom 9 value))
    else JString value
  else if String.eqb ty "Date" then JDate (dateParse value)
  else if String.eqb ty "number" then
    match JsString.toNumber value with
    | Some z => JNumber (Some z)
    | None =>
        match numberOfString value with
        | Some (m, e) => if 0 <=? e then JNumber (Some (m * 2 ^ e)) else JFraction m e
        | None => JNumber None
        end
    end
  else if String.eqb ty "boolean" then
    JBool (String.eqb (JsString.toLowerCase value) "true")
  else JUndefined.

(** [isItemList(store, term)] *)
Definition isItemList (st : Store) (term : Term) : bool :=
  (isNamedNode term
   && Nat.eqb (length (getQuads st (Some term) (Some (namedNode rdf_type))
                                (Some (namedNode schema_ItemList)))) 1)%bool.

(** The [forEach] of [decodeArray]: keeps a list element only when it has
    exactly one position and exactly one item. *)
Definition collectListItems (st : Store) (vals : list Quad) : list (option Z * Term) :=
  flat_map
    (fun q =>
       let listItem := object q in
       let pos := getQuads st (Some listItem) (Some (namedNode schema_position)) None in
       let item := getQuads st (Some listItem) (Some (namedNode schema_item)) None in
       match pos, item with
       | [p], [it] => [(JsString.parseInt (termValue (object p)), object it)]
       | _, _ => []
       end)
    vals.

(** A node argument of [decodeResource]: a URI string or a term. *)
Inductive NodeArg : Type :=
| ByUri (u : string)
| ByTerm (t : Term).

Definition nodeOf (a : NodeArg) : Term :=
  match a with
  | ByUri u => namedNode u
  | ByTerm t => t
  end.

(** [decodeArray(store, nodeUri, literalVal, type, propKey, cache)] *)
Definition decodeArray `{Host}
    (decodeResource : NodeArg -> string -> M JsVal)
    (nodeUri : string) (literalVal : bool) (ty propKey : string) : M JsVal :=
  let* st := getStore in
  let node := namedNode nodeUri in
  let vals := getQuads st (Some node) (Some (namedNode schema_itemListElement)) None in
  let output := jsSort comparePosition (collectListItems st vals) in
  if literalVal then
    ret (JArray (map (fun r => decodeLiteral ty propKey (termValue (snd r))) output))
  else
    let* l := mapM (fun r => decodeResource (ByTerm (snd r)) "") output in
    ret (JArray l).

(** The type-discovery loop of [decodeResource]: the key of the first
    registered type URI, or [''] when there is none. *)
Fixpoint discoverType (typeDefs : AbstractTypeUriMap) (types : list Quad) : string :=
  match types with
  | [] => ""
  | q :: r =>
      match Obj.get (termValue (object q)) typeDefs with
      | Some k => k
      | None => discoverType typeDefs r
      end
  end.

(** Body of the loop of [decodeResource] over the triples of the node. *)
Definition decodeTriple `{Host}
    (decodeResource : NodeArg -> string -> M JsVal)
    (st : Store) (allProps allUris : nat)
    (item : list (string * JsVal)) (q : Quad) : M (list (string * JsVal)) :=
  let propUri := termValue (predicate q) in
  let* uriMap := readUriMap allUris in
  match Obj.get propUri uriMap with
  | None => ret item
  | Some propKey =>
      let* propMap := readPropMap allProps in
      match Obj.get propKey propMap with
      | None => throw typeError        (* [prop.type] of [undefined] *)
      | Some prop =>
          let literalVal := isLiteral (type prop) in
          if (isArray prop && isItemList st (object q))%bool then
            let* arr := decodeArray decodeResource (termValue (object q))
                                    literalVal (type prop) propKey in
            ret (Obj.set propKey arr item)
          else
            let* newval :=
              if literalVal then
                ret (decodeLiteral (type prop) propKey (termValue (object q)))
              else if isMultiType prop then decodeResource (ByTerm (object q)) ""
              else decodeResource (ByTerm (object q)) (type prop) in
            if isArray prop then
              match Obj.get propKey item with
              | Some (JArray l) => ret (Obj.set propKey (JArray (l ++ [newval])) item)
              | Some _ => throw typeError      (* [push] is not a function *)
              | None => ret (Obj.set propKey (JArray [newval]) item)
              end
            else ret (Obj.set propKey newval item)
      end
  end.

(** [decodeResource(store, nodeUri, cache, specifyType)] *)
Fixpoint decodeResource `{Host} (this : ObjectBuilder) (fuel : nat)
    (nodeUri : NodeArg) (specifyType : string) : M JsVal :=
  match fuel with
  | O => diverge
  | S fuel' =>
      let node := nodeOf nodeUri in
      let* st := getStore in
      let types := getQuads st (Some node) (Some (namedNode rdf_type)) None in
      let nodeId := if isBlankNode node then "_:" +:+ termValue node else termValue node in
      let found := discoverType (typeDefs this) types in
      if (String.eqb found "" && String.eqb specifyType "")%bool then
        let typeList := JsString.join ", " (map (fun t => termValue (object t)) types) in
        let shown := match nodeUri with ByUri _ => "undefined" | ByTerm t => termValue t end in
        do consoleWrite ("Type not found for URI: " +:+ shown
                         +:+ " (types: " +:+ typeList +:+ ")") then
        ret (JObject [])
      else
        let ty := if String.eqb found "" then specifyType else found in
        let item := [("id", JString nodeId); ("type", JString ty)] in
        let* c := cacheLookup ty in
        let* maps :=
          match c with
          | Some e => ret (props e, uris e)
          | None =>
              let* p := getAllProperties this (typeFuel this) ty in
              let* u := getAllPropertyUris this (typeFuel this) ty in
              do cacheStore ty {| props := p; uris := u |} then
              ret (p, u)
          end in
        let vals := getQuads st (Some node) None None in
        let* item := foldM (decodeTriple (decodeResource this fuel') st (fst maps) (snd maps))
                           item vals in
        ret (JObject item)
  end.

(** [getType(store, nodeUri)]; [None] is [null]. *)
Definition getType (this : ObjectBuilder) (st : Store) (nodeUri : string) : option string :=
  let vals := getQuads st (Some (namedNode nodeUri)) (Some (namedNode rdf_type)) None in
  (fix scan (l : list Quad) : option string :=
     match l with
     | [] => None
     | q :: r =>
         match Obj.get (termValue (object q)) (typeDefs this) with
         | Some k => Some k
         | None => scan r
         end
     end) vals.

(** ** Example host and schemas *)

(** The text before and after the first [p]. *)
Fixpoint splitAtP (s : string) : option (string * string) :=
  match s with
  | EmptyString => None
  | String c r =>
      if Ascii.eqb c "p" then Some (EmptyString, r)
      else match splitAtP r with
           | Some (a, b) => Some (String c a, b)
           | None => None
           end
  end.

(** A numeral [<m>p<e>] for [m * 2 ^ e]. *)
Definition binaryNumeral (m e : Z) : string :=
  JsString.ofZ m +:+ "p" +:+ JsString.ofZ e.

Definition readBinaryNumeral (s : string) : option (Z * Z) :=
  match splitAtP s with
  | Some (a, b) =>
      match JsString.toNumber a, JsString.toNumber b with
      | Some m, Some e => Some (m, e)
      | _, _ => None
      end
  | None => None
  end.

(** A host in the UTC time zone whose dates print as their time value in
    milliseconds, whose non-integer numbers print as binary numerals and
    whose uuid generator counts. *)
Definition exampleHost : Host :=
  {| uuidv4 := fun k => "u" +:+ JsString.ofZ (Z.of_nat k);
     startOfLocalDay := fun t => t - t mod 86400000;
     toLocaleDateString := fun t => JsString.ofZ (t - t mod 86400000);
     dateToString := fun t => JsString.ofZ t;
     dateParse := JsString.toNumber;
     numberToString := binaryNumeral;
     numberOfString := readBinaryNumeral |}.

Definition stringProp (u : string) : AbstractProperty :=
  {| uri := u; type := "string"; isArray := false; isOptional := false; isMultiType := false |}.

Definition stringArrayProp (u : string) : AbstractProperty :=
  {| uri := u; type := "string"; isArray := true; isOptional := true; isMultiType := false |}.

Definition objectProp (u ty : string) (multi : bool) : AbstractProperty :=
  {| uri := u; type := ty; isArray := false; isOptional := true; isMultiType := multi |}.

(** A parent type and a child type that redeclares [label] and adds [note]. *)
Definition parentDef : AbstractDefinition :=
  {| def_uri := "http://example.org/Parent";
     extends := Some "IObject";
     properties := [("name", stringProp "http://example.org/name");
                    ("label", stringProp "http://example.org/label")];
     propertyUris := [("http://example.org/name", "name");
                      ("http://example.org/label", "label")] |}.

Definition childDef : AbstractDefinition :=
  {| def_uri := "http://example.org/Child";
     extends := Some "Parent";
     properties := [("label", stringProp "http://example.org/childLabel");
                    ("note", stringProp "http://example.org/note")];
     propertyUris := [("http://example.org/childLabel", "label");
                      ("http://example.org/note", "note")] |}.

(** A type with a polymorphic property, an array property and a property
    keyed [type]. *)
Definition holderDef : AbstractDefinition :=
  {| def_uri := "http://example.org/Holder";
     extends := None;
     properties := [("content", objectProp "http://example.org/content" "Parent" true);
                    ("tags", stringArrayProp "http://example.org/tags")];
     propertyUris := [("http://example.org/content", "content");
                      ("http://example.org/tags", "tags")] |}.

Definition taggedDef : AbstractDefinition :=
  {| def_uri := "http://example.org/Tagged";
     extends := None;
     properties := [("type", stringProp "http://example.org/kind")];
     propertyUris := [("http://example.org/kind", "type")] |}.

Definition exampleDefs : AbstractDefinitionMap :=
  [("Parent", parentDef); ("Child", childDef); ("Holder", holderDef); ("Tagged", taggedDef)].

Definition exampleBuilder : ObjectBuilder := newObjectBuilder exampleDefs.

(** A state holding the given store and nothing else. *)
Definition stateOfStore (st : Store) : State :=
  {| store := st; cache := ∅; propHeap := []; uriHeap := []; minted := 0%nat; console := [] |}.

(** ** Predicates used to state the properties *)

(** The test of [decodeArray] on a list-item node: exactly one position and
    exactly one item. *)
Definition wellFormedItem (st : Store) (listItem : Term) : bool :=
  (Nat.eqb (length (getQuads st (Some listItem) (Some (namedNode schema_position)) None)) 1
   && Nat.eqb (length (getQuads st (Some listItem) (Some (namedNode schema_item)) None)) 1)%bool.

(** The store without the [itemListElement] triples of the malformed
    elements of list [nodeUri]. *)
Definition dropMalformed (st : Store) (nodeUri : string) : Store :=
  filter (fun q => negb (term_eqb (namedNode nodeUri) (subject q)
                         && term_eqb (namedNode schema_itemListElement) (predicate q)
                         && negb (wellFormedItem st (object q))))%bool st.

Definition setStore (st : Store) (s : State) : State :=
  {| store := st; cache := cache s; propHeap := propHeap s; uriHeap := uriHeap s;
     minted := minted s; console := console s |}.

(** A list with a well-formed element and one that has two positions. *)
Definition raggedList : Store :=
  [ quad (NamedNode "l") (NamedNode schema_itemListElement) (NamedNode "i1");
    quad (NamedNode "l") (NamedNode schema_itemListElement) (NamedNode "i0");
    quad (NamedNode "i0") (NamedNode schema_position) (Literal "0" xsd_integer);
    quad (NamedNode "i0") (NamedNode schema_item) (Literal "a" xsd_string);
    quad (NamedNode "i1") (NamedNode schema_position) (Literal "1" xsd_integer);
    quad (NamedNode "i1") (NamedNode schema_position) (Literal "7" xsd_integer);
    quad (NamedNode "i1") (NamedNode schema_item) (Literal "b" xsd_string) ].

(** Specifications of monadic code: from a state satisfying [P], a normal
    return satisfies [Q] and an exceptional or diverging end satisfies [E]. *)
Definition triple {A} (P : State -> Prop) (m : M A)
    (Q : A -> State -> Prop) (E : State -> Prop) : Prop :=
  forall s, P s ->
    match m s with
    | (Ret a, s') => Q a s'
    | (_, s') => E s'
    end.

(** [m] keeps the state predicate [I], however it ends. *)
Definition preserves {A} (I : State -> Prop) (m : M A) : Prop :=
  triple I m (fun _ s' => I s') I.

(** Two runs from states related by [R] end with the same outcome in
    related states. *)
Definition respects {A} (R : State -> State -> Prop) (m : M A) : Prop :=
  forall s1 s2, R s1 s2 -> fst (m s1) = fst (m s2) /\ R (snd (m s1)) (snd (m s2)).

(** Equality of states up to what was written to the console. *)
Definition sameButConsole (s1 s2 : State) : Prop :=
  store s1 = store s2 /\ cache s1 = cache s2 /\ propHeap s1 = propHeap s2
  /\ uriHeap s1 = uriHeap s2 /\ minted s1 = minted s2.

(** No entry of a URI map sends a URI to the key [id] or [type]. *)
Definition keepsIdAndType (m : UriMap) : Prop :=
  Forall (fun kv => snd kv <> "id" /\ snd kv <> "type") m.

Definition schemaKeepsIdAndType (this : ObjectBuilder) : Prop :=
  Forall (fun td => keepsIdAndType (propertyUris (snd td))) (defs this).

Definition heapKeepsIdAndType (s : State) : Prop :=
  Forall keepsIdAndType (uriHeap s).

(** The identifier [decodeResource] gives a node. *)
Definition nodeIdOf (node : Term) : string :=
  if isBlankNode node then "_:" +:+ termValue node else termValue node.

(** The type key [decodeResource] settles on: the first registered
    [rdf:type], else the type the caller expects; [''] when neither. *)
Definition resolvedType (this : ObjectBuilder) (st : Store) (node : Term)
    (specifyType : string) : string :=
  let found := discoverType (typeDefs this)
                 (getQuads st (Some node) (Some (namedNode rdf_type)) None) in
  if String.eqb found "" then specifyType else found.

(** A node of an unregistered type next to a node of type [Parent]. *)
Definition strangerStore : Store :=
  [ quad (NamedNode "http://example.org/x") (NamedNode rdf_type)
         (NamedNode "http://example.org/Unknown");
    quad (NamedNode "http://example.org/x") (NamedNode "http://example.org/name")
         (Literal "x" xsd_string);
    quad (NamedNode "http://example.org/p") (NamedNode rdf_type)
         (NamedNode "http://example.org/Parent");
    quad (NamedNode "http://example.org/p") (NamedNode "http://example.org/name")
         (Literal "p" xsd_string) ].

(** A node of type [Tagged], whose schema maps a property URI to the key
    [type]. *)
Definition taggedStore : Store :=
  [ quad (NamedNode "http://example.org/t") (NamedNode rdf_type)
         (NamedNode "http://example.org/Tagged");
    quad (NamedNode "http://example.org/t") (NamedNode "http://example.org/kind")
         (Literal "special" xsd_string) ].

(** What the decoding loop may do to the object under construction: keys are
    never lost, and under [C] the values of [id] and [type] stay. *)
Definition keepsKeys (C : Prop) (item item' : list (string * JsVal)) : Prop :=
  (forall k, Obj.has k item = true -> Obj.has k item' = true)
  /\ (C -> Obj.get "id" item' = Obj.get "id" item
           /\ Obj.get "type" item' = Obj.get "type" item).

(** The [extends] chain of a type key, from the type itself up to the last
    ancestor that has a parent other than the root [IObject]. *)
Inductive ExtendsChain (this : ObjectBuilder) :
    string -> list (string * AbstractDefinition) -> Prop :=
| chain_root ty d :
    Obj.get ty (defs this) = Some d ->
    parentOf d = None ->
    ExtendsChain this ty [(ty, d)]
| chain_step ty d p rest :
    Obj.get ty (defs this) = Some d ->
    parentOf d = Some p ->
    ExtendsChain this p rest ->
    ExtendsChain this ty ((ty, d) :: rest).

(** The maps a fresh resolution of a chain produces: the declared maps laid
    over each other, the root's first. *)
Fixpoint overlayProperties (chain : list (string * AbstractDefinition)) : AbstractPropertyMap :=
  match chain with
  | [] => []
  | td :: rest => Obj.assign (overlayProperties rest) (properties (snd td))
  end.

Fixpoint overlayUris (chain : list (string * AbstractDefinition)) : UriMap :=
  match chain with
  | [] => []
  | td :: rest => Obj.assign (overlayUris rest) (propertyUris (snd td))
  end.

(** No type key of the chain has a cache entry. *)
Definition uncached (s : State) (chain : list (string * AbstractDefinition)) : Prop :=
  Forall (fun td => cache s !! fst td = None) chain.

Definition setPropHeap (h : list AbstractPropertyMap) (s : State) : State :=
  {| store := store s; cache := cache s; propHeap := h; uriHeap := uriHeap s;
     minted := minted s; console := console s |}.

Definition setUriHeap (h : list UriMap) (s : State) : State :=
  {| store := store s; cache := cache s; propHeap := propHeap s; uriHeap := h;
     minted := minted s; console := console s |}.

(** The effective property map of a type as [buildResource] and
    [decodeResource] obtain it: resolve, then read through the reference. *)
Definition resolveProperties (this : ObjectBuilder) (ty : string) (s : State)
    : Outcome AbstractPropertyMap :=
  fst ((let* r := getAllProperties this (typeFuel this) ty in readPropMap r) s).

Definition resolveUris (this : ObjectBuilder) (ty : string) (s : State) : Outcome UriMap :=
  fst ((let* r := getAllPropertyUris this (typeFuel this) ty in readUriMap r) s).

(** A [Parent] node, carrying a stray triple of the child's [note]
    property, and a [Child] node. *)
Definition familyStore : Store :=
  [ quad (NamedNode "http://example.org/p") (NamedNode rdf_type)
         (NamedNode "http://example.org/Parent");
    quad (NamedNode "http://example.org/p") (NamedNode "http://example.org/name")
         (Literal "p" xsd_string);
    quad (NamedNode "http://example.org/p") (NamedNode "http://example.org/note")
         (Literal "stray" xsd_string);
    quad (NamedNode "http://example.org/c") (NamedNode rdf_type)
         (NamedNode "http://example.org/Child");
    quad (NamedNode "http://example.org/c") (NamedNode "http://example.org/note")
         (Literal "n" xsd_string) ].

(** Specifications relating the state before and after: from a state
    satisfying [P] the run ends in a state related by [F], and a normal
    return also satisfies [Q]. *)
Definition framed {A} (F : State -> State -> Prop) (P : State -> Prop) (m : M A)
    (Q : A -> State -> Prop) : Prop :=
  forall s, P s ->
    match m s with
    | (Ret a, s') => F s s' /\ Q a s'
    | (_, s') => F s s'
    end.

(** The [k]-th node URI minted under [b]. *)
Definition mintedUri `{Host} (b : string) (k : nat) : string := b +:+ "#" +:+ uuidv4 k.

(** The values of the [id] fields found anywhere inside a value. *)
Fixpoint idsOf `{Host} (v : JsVal) : list string :=
  match v with
  | JObject o =>
      match Obj.get "id" o with Some i => [jsToString i] | None => [] end
      ++ flat_map (fun kv => idsOf (snd kv)) o
  | JArray l => flat_map idsOf l
  | _ => []
  end.

(** A subject the build rooted at [b] may write under: a node named in
    [ids], or a node minted with an index in [[lo, hi)]. *)
Definition allowedSubject `{Host} (b : string) (ids : list string) (lo hi : nat)
    (t : Term) : Prop :=
  (exists x, x ∈ ids /\ t = NamedNode x)
  \/ (exists j, (lo <= j < hi)%nat /\ t = NamedNode (mintedUri b j)).

(** The store grew from [s] to [s'] by quads with allowed subjects only. *)
Definition addedUnder `{Host} (b : string) (ids : list string) (lo : nat)
    (s s' : State) : Prop :=
  (minted s <= minted s')%nat
  /\ (forall q, q ∈ store s -> q ∈ store s')
  /\ (forall q, q ∈ store s' ->
                q ∈ store s \/ allowedSubject b ids lo (minted s') (subject q))
  /\ (NoDup (store s) -> NoDup (store s')).

(** A computation that touches neither the store nor the uuid generator. *)
Definition quiet {A} (m : M A) : Prop :=
  forall s, store (snd (m s)) = store s /\ minted (snd (m s)) = minted s.

(** At least [hi] uuids have been drawn. *)
Definition atLeast (hi : nat) (s : State) : Prop := (hi <= minted s)%nat.

(** The order the comparator of [decodeArray] induces. *)
Definition positionLe (a b : option Z * Term) : Prop := comparePosition a b <= 0.

(** The pairs the decoder should end with: position [from + j] with the
    [j]-th item. *)
Definition positioned (from : nat) (terms : list Term) : list (option Z * Term) :=
  imap (fun j t => (Some (Z.of_nat (from + j)), t)) terms.

(** The literal [literal(j)] of a loop index. *)
Definition positionLiteral (j : nat) : Term :=
  Literal (JsString.ofZ (Z.of_nat j)) xsd_integer.

(** List item [it] (node and value) sits at position [j] of list [L] in
    store [st], with exactly one position and exactly one item. *)
Definition itemAt (st : Store) (L : Term) (j : nat) (it : Term * Term) : Prop :=
  quad L (NamedNode schema_itemListElement) (fst it) ∈ st
  /\ quad (fst it) (NamedNode schema_position) (positionLiteral j) ∈ st
  /\ (forall q, q ∈ st -> subject q = fst it -> predicate q = NamedNode schema_position ->
                q = quad (fst it) (NamedNode schema_position) (positionLiteral j))
  /\ quad (fst it) (NamedNode schema_item) (snd it) ∈ st
  /\ (forall q, q ∈ st -> subject q = fst it -> predicate q = NamedNode schema_item ->
                q = quad (fst it) (NamedNode schema_item) (snd it)).

(** Store [st] holds the list [L] with exactly the elements [items], in
    this order of positions. *)
Definition listShape (st : Store) (L : Term) (items : list (Term * Term)) : Prop :=
  NoDup (map fst items)
  /\ (forall q, q ∈ st -> subject q = L ->
                predicate q = NamedNode schema_itemListElement ->
                exists it, it ∈ items /\ object q = fst it)
  /\ (forall j it, items !! j = Some it -> itemAt st L j it).

(** The object term [buildLiteral] writes for a value, when it writes one. *)
Definition literalObject `{Host} (ty dkey : string) (dval : JsVal) : option Term :=
  if (String.eqb ty "string" || String.eqb ty "number" || String.eqb ty "boolean")%bool then
    if String.eqb dkey "uuid" then
      match dval with
      | JString s => Some (NamedNode ("urn:uuid:" +:+ JsString.toLowerCase s))
      | _ => None
      end
    else Some (literal dval)
  else if String.eqb ty "Date" then
    match dval with
    | JDate (Some t) =>
        if startOfLocalDay t =? t then Some (literal (JString (toLocaleDateString t)))
        else Some (literal dval)
    | JDate None => Some (literal dval)
    | _ => None
    end
  else None.

(** No quad of the store has a subject minted under [b] with index [k] or
    later. *)
Definition freshFrom `{Host} (b : string) (k : nat) (st : Store) : Prop :=
  forall q, q ∈ st -> forall j, (k <= j)%nat -> subject q <> NamedNode (mintedUri b j).

(** None of the identifiers is a node URI the generator could mint. *)
Definition foreignIds `{Host} (b : string) (ids : list string) : Prop :=
  forall x, x ∈ ids -> forall j, x <> mintedUri b j.

(** The node [buildObject] builds a value at: the text of its [id] when it
    has one, else the node minted with index [k]. *)
Definition subjectOf `{Host} (b : string) (k : nat) (e : JsVal) : string :=
  match e with
  | JObject o =>
      match Obj.get "id" o with
      | Some i => jsToString i
      | None => mintedUri b k
      end
  | _ => mintedUri b k
  end.

(** The type key [buildObject] builds a value of property [p] with. *)
Definition subTypeOf `{Host} (p : AbstractProperty) (e : JsVal) : string :=
  if isMultiType p then
    match e with
    | JObject o =>
        match Obj.get "type" o with
        | Some t => jsToString t
        | None => type p
        end
    | _ => type p
    end
  else type p.

(** The invariant of the loop that builds the list minted at index [k0]:
    the elements built so far form the list, every node involved was minted
    after the list node, and nothing in the store sits on a node that is
    still to be minted. *)
Definition listInv `{Host} (this : ObjectBuilder) (b : string) (k0 : nat)
    (value : AbstractProperty) (dkey : string) (elems : list JsVal) (s : State)
    (items : list (Term * Term)) : Prop :=
  listShape (store s) (NamedNode (mintedUri b k0)) items
  /\ NoDup (store s)
  /\ freshFrom b (minted s) (store s)
  /\ (k0 < minted s)%nat
  /\ (forall it, it ∈ items ->
        exists k, (k0 < k < minted s)%nat /\ fst it = NamedNode (mintedUri b k))
  /\ (forall j it, items !! j = Some it ->
        (isLiteral (type value) = true ->
         literalObject (type value) dkey (nth j elems JUndefined) = Some (snd it))
        /\ (isLiteral (type value) = false ->
            exists k d,
              fst it = NamedNode (mintedUri b k)
              /\ snd it = NamedNode (subjectOf b (S k) (nth j elems JUndefined))
              /\ Obj.get (subTypeOf value (nth j elems JUndefined)) (defs this) = Some d
              /\ quad (snd it) (NamedNode rdf_type) (NamedNode (def_uri d)) ∈ store s)).

(** An object with a three-element string array. *)
Definition taggedHolder : list (string * JsVal) :=
  [("tags", JArray [JString "a"; JString "b"; JString "c"])].

(** ** Round trip: the objects, the schemas and the graph shape *)

(** Equality of values up to the order of object keys. *)
Inductive sameValue : JsVal -> JsVal -> Prop :=
| same_undefined : sameValue JUndefined JUndefined
| same_string s : sameValue (JString s) (JString s)
| same_number n : sameValue (JNumber n) (JNumber n)
| same_bool b : sameValue (JBool b) (JBool b)
| same_date t : sameValue (JDate t) (JDate t)
| same_array l1 l2 : Forall2 sameValue l1 l2 -> sameValue (JArray l1) (JArray l2)
| same_object o1 o2 :
    (forall k, option_Forall2 sameValue (Obj.get k o1) (Obj.get k o2)) ->
    sameValue (JObject o1) (JObject o2)
| same_fraction m e : sameValue (JFraction m e) (JFraction m e).

(** A literal survives the round trip when [buildLiteral] writes a term for
    it and [decodeLiteral] reads the value back from that term. *)
Definition goodLiteral `{Host} (ty dkey : string) (e : JsVal) : Prop :=
  exists O, literalObject ty dkey e = Some O /\ decodeLiteral ty dkey (termValue O) = e.

(** The schema shape the round trip relies on: no inheritance beyond the
    root, property keys and property URIs without repetition, a URI map
    that lists exactly the declared properties, no property keyed [id] or
    [type] and none on [rdf:type], and the reverse type map sending each
    type URI back to its key. *)
Record schemaOK (this : ObjectBuilder) : Prop := {
  ok_parent : forall ty d, Obj.get ty (defs this) = Some d -> parentOf d = None;
  ok_keys : forall ty d, Obj.get ty (defs this) = Some d -> NoDup (map fst (properties d));
  ok_uris : forall ty d, Obj.get ty (defs this) = Some d ->
              NoDup (map (fun kp => uri (snd kp)) (properties d));
  ok_uriMap : forall ty d, Obj.get ty (defs this) = Some d ->
                propertyUris d = map (fun kp => (uri (snd kp), fst kp)) (properties d);
  ok_reserved : forall ty d key p, Obj.get ty (defs this) = Some d ->
                  (key, p) ∈ properties d ->
                  key <> "id" /\ key <> "type" /\ uri p <> rdf_type;
  ok_typeDefs : forall ty d, Obj.get ty (defs this) = Some d ->
                  Obj.get (def_uri d) (typeDefs this) = Some ty
                  /\ ty <> "" /\ def_uri d <> schema_ItemList;
}.

(** The objects found anywhere inside a value, the value itself included. *)
Fixpoint subObjects (v : JsVal) : list (list (string * JsVal)) :=
  match v with
  | JObject o => o :: flat_map (fun kv => subObjects (snd kv)) o
  | JArray l => flat_map subObjects l
  | _ => []
  end.

Section Shapes.
  Context `{Host} (this : ObjectBuilder).

(** An element value of property [p] is acceptable when it is a good literal
    of the declared kind, or an object acceptable (by [rec]) for the
    declared type, or for its own type when the property is polymorphic. *)
Definition conformsElem (rec : string -> JsVal -> Prop) (p : AbstractProperty)
    (dkey : string) (e : JsVal) : Prop :=
  if isLiteral (type p) then goodLiteral (type p) dkey e
  else exists ty, (isMultiType p = false -> ty = type p) /\ rec ty e.

(** [conforms n ty v]: [v] is an object of type [ty], nested at most [n]
    deep, that carries its [id] and [type], has only declared keys, has
    every required property, and has non-empty arrays for array
    properties. *)
Fixpoint conforms (n : nat) (ty : string) (v : JsVal) : Prop :=
  match n with
  | O => False
  | S n' =>
      exists o d id,
        v = JObject o
        /\ Obj.get ty (defs this) = Some d
        /\ NoDup (map fst o)
        /\ Obj.get "id" o = Some (JString id)
        /\ Obj.get "type" o = Some (JString ty)
        /\ (forall k, k ∈ map fst o ->
                      k = "id" \/ k = "type" \/ k ∈ map fst (properties d))
        /\ (forall key p, (key, p) ∈ properties d ->
              match Obj.get key o with
              | None => isOptional p = true
              | Some val =>
                  if isArray p then
                    exists elems, val = JArray elems /\ elems <> []
                                  /\ Forall (conformsElem (conforms n') p key) elems
                  else conformsElem (conforms n') p key val
              end)
  end.

(** Object term [O] stands for element [e] of property [p]: the term
    [buildLiteral] writes for a literal, the node named by its [id] for an
    object. *)
Definition elemTerm (p : AbstractProperty) (dkey : string) (e : JsVal) (O : Term) : Prop :=
  if isLiteral (type p) then literalObject (type p) dkey e = Some O
  else exists o id, e = JObject o /\ Obj.get "id" o = Some (JString id) /\ O = NamedNode id.

(** Object term [O] stands for the value [val] of property [p] in store
    [st]: the term of the single element, or a list node (in [fp], as its
    items) with one positioned item per element. *)
Definition valueTerm (fp : Term -> Prop) (st : Store) (p : AbstractProperty)
    (dkey : string) (val : JsVal) (O : Term) : Prop :=
  if isArray p then
    exists elems,
      val = JArray elems
      /\ match elems with
         | [] => False
         | [e] => elemTerm p dkey e O
         | _ =>
             exists items,
               fp O
               /\ quad O (NamedNode rdf_type) (NamedNode schema_ItemList) ∈ st
               /\ listShape st O items
               /\ Forall (fun it => fp (fst it)) items
               /\ Forall2 (fun e it => elemTerm p dkey e (snd it)) elems items
         end
  else elemTerm p dkey val O.

(** Quad [q] of store [st] sits on the node of object [o] and is the type
    triple of [o] or a triple of one of its properties, standing for the
    property's value. *)
Definition explainedBy (fp : Term -> Prop) (st : Store) (o : list (string * JsVal))
    (q : Quad) : Prop :=
  exists id ty d,
    Obj.get "id" o = Some (JString id)
    /\ Obj.get "type" o = Some (JString ty)
    /\ Obj.get ty (defs this) = Some d
    /\ subject q = NamedNode id
    /\ (q = quad (NamedNode id) (NamedNode rdf_type) (NamedNode (def_uri d))
        \/ exists key p val,
             (key, p) ∈ properties d /\ Obj.get key o = Some val
             /\ predicate q = NamedNode (uri p)
             /\ valueTerm fp st p key val (object q)).

(** Store [st] holds the type triple of object [o] and at least one triple
    for each property [o] has. *)
Definition written (st : Store) (o : list (string * JsVal)) : Prop :=
  exists id ty d,
    Obj.get "id" o = Some (JString id)
    /\ Obj.get "type" o = Some (JString ty)
    /\ Obj.get ty (defs this) = Some d
    /\ quad (NamedNode id) (NamedNode rdf_type) (NamedNode (def_uri d)) ∈ st
    /\ (forall key p val, (key, p) ∈ properties d -> Obj.get key o = Some val ->
          exists O, quad (NamedNode id) (NamedNode (uri p)) O ∈ st).

(** Store [st] is a graph of the value [v]: it has no duplicates, each of
    its quads sits on a node in [fp] (a list node or a list item) or is
    explained by an object inside [v], and every object inside [v] is
    written. *)
Definition graphOf (fp : Term -> Prop) (v : JsVal) (st : Store) : Prop :=
  NoDup st
  /\ (forall q, q ∈ st ->
        fp (subject q) \/ exists o, o ∈ subObjects v /\ explainedBy fp st o q)
  /\ (forall o, o ∈ subObjects v -> written st o).

End Shapes.

(** A node minted under [b]. *)
Definition mintedNode `{Host} (b : string) (t : Term) : Prop :=
  exists k, t = NamedNode (mintedUri b k).

(** A node minted under [b] with an index in [[lo, hi)]. *)
Definition mintedIn `{Host} (b : string) (lo hi : nat) (t : Term) : Prop :=
  exists k, (lo <= k < hi)%nat /\ t = NamedNode (mintedUri b k).

(** Quad [q] is explained by an object inside [v], with the list nodes of
    its value minted in [[lo, hi)]. *)
Definition explainedWithin `{Host} (this : ObjectBuilder) (b : string) (lo hi : nat)
    (st : Store) (v : JsVal) (q : Quad) : Prop :=
  exists o lo' hi',
    o ∈ subObjects v /\ (lo <= lo')%nat /\ (hi' <= hi)%nat
    /\ explainedBy this (mintedIn b lo' hi') st o q.

(** The cache as the decoder needs it: an entry of a type holds the type's
    declared property map and URI map. *)
Definition decodeInv (this : ObjectBuilder) (s : State) : Prop :=
  forall ty e, cache s !! ty = Some e ->
    exists d, Obj.get ty (defs this) = Some d
              /\ propHeap s !! props e = Some (properties d)
              /\ uriHeap s !! uris e = Some (propertyUris d).

(** The cache as the builder needs it. *)
Definition buildInv (this : ObjectBuilder) (s : State) : Prop :=
  forall ty e, cache s !! ty = Some e ->
    exists d, Obj.get ty (defs this) = Some d
              /\ propHeap s !! props e = Some (properties d).

(** The decoder only adds maps to the heaps and leaves the store alone. *)
Definition heapExt (s s' : State) : Prop :=
  store s' = store s
  /\ (forall r m, propHeap s !! r = Some m -> propHeap s' !! r = Some m)
  /\ (forall r m, uriHeap s !! r = Some m -> uriHeap s' !! r = Some m).

(** What a build needs of the state it starts in. *)
Definition buildReady `{Host} (this : ObjectBuilder) (b : string) (s : State) : Prop :=
  buildInv this s /\ NoDup (store s) /\ freshFrom b (minted s) (store s).

(** A part of a build that led from [s] to [s']: it removed nothing, and
    each quad it added satisfies [P], sits on a node it minted, or is
    explained by an object inside [v]. *)
Definition wrote `{Host} (this : ObjectBuilder) (b : string) (P : Quad -> Prop)
    (v : JsVal) (s s' : State) : Prop :=
  buildReady this b s'
  /\ (minted s <= minted s')%nat
  /\ (forall q, q ∈ store s -> q ∈ store s')
  /\ (forall q, q ∈ store s' ->
        q ∈ store s \/ P q
        \/ mintedIn b (minted s) (minted s') (subject q)
        \/ explainedWithin this b (minted s) (minted s') (store s') v q).

(** Two objects inside the value that carry the same [id] are the same
    object; no [id] is a node URI the build could mint, and neither is the
    reference of a one-element [uuid] array. *)
Definition properIds `{Host} (b : string) (v : JsVal) : Prop :=
  (forall o1 o2 id, o1 ∈ subObjects v -> o2 ∈ subObjects v ->
     Obj.get "id" o1 = Some id -> Obj.get "id" o2 = Some id -> o1 = o2)
  /\ foreignIds b (idsOf v)
  /\ (forall o x, o ∈ subObjects v -> Obj.get "uuid" o = Some (JArray [JString x]) ->
        forall j, "urn:uuid:" +:+ JsString.toLowerCase x <> mintedUri b j).

(** The object under construction in the loop of [decodeResource] when the
    triples [rest] of node [X] are still to be read: [id] and [type] are
    set; a property none of whose triples has been read is unset, and a
    property one of whose triples has been read holds a value equal to the
    one of the object [o]. *)
Definition partlyDecoded (st : Store) (X : Term) (id ty : string)
    (o : list (string * JsVal)) (d : AbstractDefinition)
    (rest : list Quad) (acc : list (string * JsVal)) : Prop :=
  Obj.get "id" acc = Some (JString id)
  /\ Obj.get "type" acc = Some (JString ty)
  /\ (forall k, Obj.has k acc = true ->
                k = "id" \/ k = "type" \/ k ∈ map fst (properties d))
  /\ (forall key p, (key, p) ∈ properties d ->
        match Obj.get key o with
        | None => Obj.get key acc = None
        | Some val =>
            ((forall O, quad X (NamedNode (uri p)) O ∈ st ->
                        quad X (NamedNode (uri p)) O ∈ rest)
             /\ Obj.get key acc = None)
            \/ ((exists O, quad X (NamedNode (uri p)) O ∈ st
                           /\ quad X (NamedNode (uri p)) O ∉ rest)
                /\ exists v', Obj.get key acc = Some v' /\ sameValue val v')
        end).

(** The text of the [id] of an object, when it is a string. *)
Definition idText (o : list (string * JsVal)) : string :=
  match Obj.get "id" o with Some (JString x) => x | _ => "" end.

(** ** A catalogue schema for the round trip *)

Definition numberProp (u : string) : AbstractProperty :=
  {| uri := u; type := "number"; isArray := false; isOptional := false; isMultiType := false |}.

Definition booleanProp (u : string) : AbstractProperty :=
  {| uri := u; type := "boolean"; isArray := false; isOptional := true; isMultiType := false |}.

Definition objectArrayProp (u ty : string) : AbstractProperty :=
  {| uri := u; type := ty; isArray := true; isOptional := true; isMultiType := false |}.

(** An item with a name, a price and an optional flag. *)
Definition itemDef : AbstractDefinition :=
  {| def_uri := "http://example.org/Item";
     extends := Some "IObject";
     properties := [("name", stringProp "http://example.org/name");
                    ("price", numberProp "http://example.org/price");
                    ("inStock", booleanProp "http://example.org/inStock")];
     propertyUris := [("http://example.org/name", "name");
                      ("http://example.org/price", "price");
                      ("http://example.org/inStock", "inStock")] |}.

(** A shelf with a polymorphic featured item, a list of labels, a list of
    items and a list of spare items. *)
Definition shelfDef : AbstractDefinition :=
  {| def_uri := "http://example.org/Shelf";
     extends := None;
     properties := [("featured", objectProp "http://example.org/featured" "Item" true);
                    ("labels", stringArrayProp "http://example.org/labels");
                    ("items", objectArrayProp "http://example.org/items" "Item");
                    ("spares", objectArrayProp "http://example.org/spares" "Item")];
     propertyUris := [("http://example.org/featured", "featured");
                      ("http://example.org/labels", "labels");
                      ("http://example.org/items", "items");
                      ("http://example.org/spares", "spares")] |}.

Definition catalogDefs : AbstractDefinitionMap :=
  [("Item", itemDef); ("Shelf", shelfDef)].

Definition catalogBuilder : ObjectBuilder := newObjectBuilder catalogDefs.

Definition exampleItem (id name : string) (price : Z) : JsVal :=
  JObject [("id", JString id); ("type", JString "Item");
           ("name", JString name); ("price", JNumber (Some price))].

(** A shelf: a nested item behind the polymorphic property, three labels,
    two listed items, the second with its flag, and one spare item. *)
Definition exampleShelf : list (string * JsVal) :=
  [("id", JString "http://example.org/shelf");
   ("type", JString "Shelf");
   ("featured", exampleItem "http://example.org/i0" "lamp" 12);
   ("labels", JArray [JString "a"; JString "b"; JString "c"]);
   ("items", JArray [exampleItem "http://example.org/i1" "desk" (-3);
                     JObject [("id", JString "http://example.org/i2");
                              ("type", JString "Item");
                              ("name", JString "chair");
                              ("price", JNumber (Some 0));
                              ("inStock", JBool true)]]);
   ("spares", JArray [exampleItem "http://example.org/i3" "bulb" 2])].

(** A shelf whose list of labels is empty. *)
Definition emptyShelf : list (string * JsVal) :=
  [("id", JString "http://example.org/shelf");
   ("type", JString "Shelf");
   ("labels", JArray [])].

(** An item given without its [id] and [type]. *)
Definition bareItem : list (string * JsVal) :=
  [("name", JString "lamp"); ("price", JNumber (Some 12))].

(** ** A ledger schema for the round trip *)

Definition dateProp (u : string) : AbstractProperty :=
  {| uri := u; type := "Date"; isArray := false; isOptional := true; isMultiType := false |}.

(** An entry with a uuid, an amount and an optional booking date. *)
Definition entryDef : AbstractDefinition :=
  {| def_uri := "http://example.org/Entry";
     extends := None;
     properties := [("uuid", stringProp "http://rdf.atellix.net/1.0/schema/catalog/Object.uuid");
                    ("amount", numberProp "http://example.org/amount");
                    ("booked", dateProp "http://example.org/booked")];
     propertyUris := [("http://rdf.atellix.net/1.0/schema/catalog/Object.uuid", "uuid");
                      ("http://example.org/amount", "amount");
                      ("http://example.org/booked", "booked")] |}.

(** A ledger with a first entry, a list of entries and a list of uuids. *)
Definition ledgerDef : AbstractDefinition :=
  {| def_uri := "http://example.org/Ledger";
     extends := None;
     properties := [("first", objectProp "http://example.org/first" "Entry" false);
                    ("entries", objectArrayProp "http://example.org/entries" "Entry");
                    ("uuid", stringArrayProp "http://example.org/uuids")];
     propertyUris := [("http://example.org/first", "first");
                      ("http://example.org/entries", "entries");
                      ("http://example.org/uuids", "uuid")] |}.

Definition ledgerDefs : AbstractDefinitionMap :=
  [("Entry", entryDef); ("Ledger", ledgerDef)].

Definition ledgerBuilder : ObjectBuilder := newObjectBuilder ledgerDefs.

(** An entry of 12.5, booked at the start of the second day. *)
Definition entryA : list (string * JsVal) :=
  [("id", JString "http://example.org/e1"); ("type", JString "Entry");
   ("uuid", JString "0a1b-2c3d"); ("amount", JFraction 25 (-1));
   ("booked", JDate (Some 86400000))].

(** An entry of 3, booked half a second into the first day. *)
Definition entryB : list (string * JsVal) :=
  [("id", JString "http://example.org/e2"); ("type", JString "Entry");
   ("uuid", JString "ff"); ("amount", JNumber (Some 3));
   ("booked", JDate (Some 500))].

(** A ledger whose first entry is also the first and the last of its three
    listed entries. *)
Definition exampleLedger : list (string * JsVal) :=
  [("id", JString "http://example.org/ledger"); ("type", JString "Ledger");
   ("first", JObject entryA);
   ("entries", JArray [JObject entryA; JObject entryB; JObject entryA]);
   ("uuid", JArray [JString "c0de"])].

(** An entry with an upper-case uuid, booked one and a half seconds into
    the first day. *)
Definition stampedEntry : list (string * JsVal) :=
  [("id", JString "http://example.org/e3"); ("type", JString "Entry");
   ("uuid", JString "AB"); ("amount", JNumber (Some 1));
   ("booked", JDate (Some 1500))].

(** ** A schema with inheritance for the round trip *)

(** A type with two [Parent] values around a [Child] value. *)
Definition trioDef : AbstractDefinition :=
  {| def_uri := "http://example.org/Trio";
     extends := None;
     properties := [("first", objectProp "http://example.org/first" "Parent" false);
                    ("second", objectProp "http://example.org/second" "Child" false);
                    ("third", objectProp "http://example.org/third" "Parent" false)];
     propertyUris := [("http://example.org/first", "first");
                      ("http://example.org/second", "second");
                      ("http://example.org/third", "third")] |}.

Definition familyDefs : AbstractDefinitionMap :=
  [("Parent", parentDef); ("Child", childDef); ("Trio", trioDef)].

Definition familyBuilder : ObjectBuilder := newObjectBuilder familyDefs.

Definition person (id ty name label : string) (note : option string) : JsVal :=
  JObject ([("id", JString id); ("type", JString ty);
            ("name", JString name); ("label", JString label)]
           ++ match note with Some x => [("note", JString x)] | None => [] end).

Definition exampleTrio : JsVal :=
  JObject [("id", JString "http://example.org/t"); ("type", JString "Trio");
           ("first", person "http://example.org/p1" "Parent" "a" "b" None);
           ("second", person "http://example.org/c" "Child" "c" "d" (Some "n"));
           ("third", person "http://example.org/p2" "Parent" "e" "f" None)].

(** ** Lookup by uuid *)

Definition object_uuid : string := "http://rdf.atellix.net/1.0/schema/catalog/Object.uuid".

(** [getUriForUUID(store, uuid)]; [None] is [null]. *)
Definition getUriForUUID (st : Store) (uuid : string) : option string :=
  let vals := getQuads st None (Some (namedNode object_uuid))
                (Some (namedNode ("urn:uuid:" +:+ JsString.toLowerCase uuid))) in
  match vals with
  | [q] => Some (termValue (subject q))
  | _ => None
  end.

(** A store in which two nodes carry the same uuid, and one carries
    another. *)
Definition uuidStore : Store :=
  [ quad (NamedNode "http://example.org/a") (NamedNode object_uuid)
         (NamedNode "urn:uuid:1b4e28ba-2fa1-11d2-883f-0016d3cca427");
    quad (NamedNode "http://example.org/b") (NamedNode object_uuid)
         (NamedNode "urn:uuid:1b4e28ba-2fa1-11d2-883f-0016d3cca427");
    quad (NamedNode "http://example.org/c") (NamedNode object_uuid)
         (NamedNode "urn:uuid:6fa459ea-ee8a-3ca4-894e-db77e160355e") ].

(** A single [Item] node of the catalogue. *)
Definition itemStore : Store :=
  [ quad (NamedNode "http://example.org/i0") (NamedNode rdf_type)
         (NamedNode "http://example.org/Item");
    quad (NamedNode "http://example.org/i0") (NamedNode "http://example.org/name")
         (Literal "lamp" xsd_string) ].

(** The cache entry of type [ty] points to an empty URI map. *)
Definition emptyUrisFor (ty : string) (s : State) : Prop :=
  exists e, cache s !! ty = Some e /\ uriHeap s !! uris e = Some [].

(** A computation that leaves the cache and the URI maps alone. *)
Definition keepsCache {A} (m : M A) : Prop :=
  forall s, cache (snd (m s)) = cache s /\ uriHeap (snd (m s)) = uriHeap s.

(** Two types that extend each other. *)
Definition loopDefs : AbstractDefinitionMap :=
  [("A", {| def_uri := "http://example.org/A"; extends := Some "B";
            properties := []; propertyUris := [] |});
   ("B", {| def_uri := "http://example.org/B"; extends := Some "A";
            properties := []; propertyUris := [] |})].

Definition loopBuilder : ObjectBuilder := newObjectBuilder loopDefs.

(** Every type a decode can be sent to is registered: the type of each
    property holding objects of one declared type, and each key the reverse
    type map returns. *)
Definition typesClosed (this : ObjectBuilder) : Prop :=
  (forall ty d key p, Obj.get ty (defs this) = Some d -> (key, p) ∈ properties d ->
     isLiteral (type p) = false -> isMultiType p = false ->
     is_Some (Obj.get (type p) (defs this)))
  /\ (forall u k, Obj.get u (typeDefs this) = Some k -> is_Some (Obj.get k (defs this))).

(** The object under construction holds an array under every array
    property it has. *)
Definition arraysOK (d : AbstractDefinition) (item : list (string * JsVal)) : Prop :=
  forall k p v, Obj.get k (properties d) = Some p -> isArray p = true ->
                Obj.get k item = Some v -> exists l, v = JArray l.

(** The names every JavaScript object inherits from [Object.prototype]. *)
Definition prototypeNames : list string :=
  ["constructor"; "hasOwnProperty"; "isPrototypeOf"; "propertyIsEnumerable";
   "toLocaleString"; "toString"; "valueOf"; "__proto__"; "__defineGetter__";
   "__defineSetter__"; "__lookupGetter__"; "__lookupSetter__"].

(** No predicate and no object of the store is spelled like an inherited
    name, so that a look-up of it in a plain object finds own keys only. *)
Definition plainTerms (st : Store) : Prop :=
  forall q, q ∈ st ->
    (termValue (predicate q) ∉ prototypeNames) /\ (termValue (object q) ∉ prototypeNames).

(** The run [r] from state [s] has not thrown, and has not run out of
    budget where [T] promises an end; when it has returned, the cache is
    sound, the maps of [s] are in place and the result is in [Q]. *)
Definition decodesSafely (this : ObjectBuilder) (T : Prop) {A} (Q : A -> Prop)
    (r : Outcome A * State) (s : State) : Prop :=
  match r with
  | (Ret a, s') => decodeInv this s' /\ heapExt s s' /\ Q a
  | (Throw _, _) => False
  | (Diverge, _) => ~ T
  end.

(** A property URI some registered definition maps to a key. *)
Definition declaredUri (this : ObjectBuilder) (u : string) : Prop :=
  exists ty d k, (ty, d) ∈ defs this /\ (u, k) ∈ propertyUris d.

(** The predicates the codec itself reads. *)
Definition codecPredicates : list string :=
  [rdf_type; schema_itemListElement; schema_position; schema_item].

(** A quad the schema has no use for: its predicate is none the codec
    reads and none a definition maps to a key. *)
Definition undeclared (this : ObjectBuilder) (q : Quad) : Prop :=
  (forall p, p ∈ codecPredicates -> predicate q <> NamedNode p)
  /\ ~ declaredUri this (termValue (predicate q)).

(** Every URI map of the heap lists declared property URIs only. *)
Definition urisDeclared (this : ObjectBuilder) (s : State) : Prop :=
  Forall (Forall (fun uk => declaredUri this (fst uk))) (uriHeap s).

(** [m2] on the store [st'] does what [m1] does on the part of [st']
    that [keep] selects. *)
Definition simulates (this : ObjectBuilder) (keep : Quad -> bool) (st' : Store)
    {A} (m1 m2 : M A) : Prop :=
  forall s, store s = filter keep st' -> urisDeclared this s ->
    m2 (setStore st' s) = (fst (m1 s), setStore st' (snd (m1 s)))
    /\ store (snd (m1 s)) = filter keep st'
    /\ urisDeclared this (snd (m1 s)).

(** An item with a colour, which the catalogue schema does not declare. *)
Definition paintedStore : Store :=
  [ quad (NamedNode "http://example.org/i0") (NamedNode rdf_type)
         (NamedNode "http://example.org/Item");
    quad (NamedNode "http://example.org/i0") (NamedNode "http://example.org/color")
         (Literal "red" xsd_string);
    quad (NamedNode "http://example.org/i0") (NamedNode "http://example.org/name")
         (Literal "lamp" xsd_string) ].

(** The quads [w] added to a store one after the other. *)
Definition addQuads (st : Store) (w : list Quad) : Store :=
  fold_left (fun acc q => storeAdd q acc) w st.

(** Two states that agree on everything but the store, and whose stores
    have come from [st1] and [st2] by the same additions. *)
Definition wroteSame (st1 st2 : Store) (s1 s2 : State) : Prop :=
  cache s1 = cache s2 /\ propHeap s1 = propHeap s2 /\ uriHeap s1 = uriHeap s2
  /\ minted s1 = minted s2 /\ console s1 = console s2
  /\ exists w, store s1 = addQuads st1 w /\ store s2 = addQuads st2 w.

(** A second child of [Parent], which redeclares both of its properties. *)
Definition sibDef : AbstractDefinition :=
  {| def_uri := "http://example.org/Sib";
     extends := Some "Parent";
     properties := [("name", stringProp "http://example.org/sibName");
                    ("label", stringProp "http://example.org/sibLabel")];
     propertyUris := [("http://example.org/sibName", "name");
                      ("http://example.org/sibLabel", "label")] |}.

Definition kinDefs : AbstractDefinitionMap :=
  [("Parent", parentDef); ("Child", childDef); ("Sib", sibDef)].

Definition kinBuilder : ObjectBuilder := newObjectBuilder kinDefs.

(** One node of each of the three types. *)
Definition kinStore : Store :=
  [ quad (NamedNode "http://example.org/p") (NamedNode rdf_type)
         (NamedNode "http://example.org/Parent");
    quad (NamedNode "http://example.org/c") (NamedNode rdf_type)
         (NamedNode "http://example.org/Child");
    quad (NamedNode "http://example.org/s") (NamedNode rdf_type)
         (NamedNode "http://example.org/Sib") ].

(** A host in the UTC time zone whose [String(d)] prints whole seconds, as
    [Date.prototype.toString] does, whose calendar dates print as a day
    number, and whose parser reads both texts back. *)
Definition secondsHost : Host :=
  {| uuidv4 := fun k => "u" +:+ JsString.ofZ (Z.of_nat k);
     startOfLocalDay := fun t => t - t mod 86400000;
     toLocaleDateString := fun t => String "D" (JsString.ofZ (t / 86400000));
     dateToString := fun t => String "T" (JsString.ofZ (t / 1000));
     dateParse := fun s =>
       match s with
       | String c r =>
           if Ascii.eqb c "D" then (fun n => n * 86400000) <$> JsString.toNumber r
           else if Ascii.eqb c "T" then (fun n => n * 1000) <$> JsString.toNumber r
           else None
       | EmptyString => None
       end;
     numberToString := binaryNumeral;
     numberOfString := readBinaryNumeral |}.

(** State [s2] is state [s1] with [line] written to the console right after
    the lines [pre]. *)
Definition lineInserted (pre : list string) (line : string) (s1 s2 : State) : Prop :=
  store s1 = store s2 /\ cache s1 = cache s2 /\ propHeap s1 = propHeap s2
  /\ uriHeap s1 = uriHeap s2 /\ minted s1 = minted s2
  /\ exists post, console s1 = pre ++ post /\ console s2 = pre ++ [line] ++ post.

(** The property [p] declared with one type only. *)
Definition singleType (p : AbstractProperty) : AbstractProperty :=
  {| uri := uri p; type := type p; isArray := isArray p; isOptional := isOptional p;
     isMultiType := false |}.

(** * Properties *)

(** ** Strings *)

Lemma lowerChar_idem (c : ascii) :
  JsString.lowerChar (JsString.lowerChar c) = JsString.lowerChar c.
Proof. destruct c as [[] [] [] [] [] [] [] []]; reflexivity. Qed.

Lemma toLowerCase_idem (s : string) :
  JsString.toLowerCase (JsString.toLowerCase s) = JsString.toLowerCase s.
Proof.
  induction s as [|c r IH]; simpl; [reflexivity|].
  by rewrite lowerChar_idem, IH.
Qed.

Lemma substringFrom_app (p s : string) :
  JsString.substringFrom (String.length p) (p +:+ s) = s.
Proof. induction p as [|c p IH]; simpl; [by destruct s | exact IH]. Qed.

(** C7. A string property keyed [uuid] is built as the named node
    [urn:uuid:] followed by the lower-cased value, not as a literal; decoding
    a [urn:uuid:] reference for such a property drops the nine-character
    prefix and lower-cases the rest, so the built reference decodes to the
    lower-cased UUID, as for the value of the specification's example. *)
Theorem uuid_reference_build_decode `{Host} (node property s : string) (st : State) :
  let ref := NamedNode ("urn:uuid:" +:+ JsString.toLowerCase s) in
  buildLiteral node property "string" "uuid" (JString s) st
    = addQuad (quad (NamedNode node) (NamedNode property) ref) st
  /\ (forall v, decodeLiteral "string" "uuid" ("urn:uuid:" +:+ v)
                = JString (JsString.toLowerCase v))
  /\ decodeLiteral "string" "uuid" (termValue ref) = JString (JsString.toLowerCase s)
  /\ JsString.toLowerCase "ABCDEF12-3456-7890-ABCD-EF1234567890"
     = "abcdef12-3456-7890-abcd-ef1234567890"
  /\ decodeLiteral "string" "uuid" "urn:uuid:abcdef12-3456-7890-abcd-ef1234567890"
     = JString "abcdef12-3456-7890-abcd-ef1234567890".
Proof.
  assert (Hdec : forall v, decodeLiteral "string" "uuid" ("urn:uuid:" +:+ v)
                           = JString (JsString.toLowerCase v)).
  { intros v. unfold decodeLiteral. simpl String.eqb. cbv iota.
    change 9%nat with (String.length "urn:uuid:").
    by rewrite substringFrom_app. }
  split; [reflexivity|]. split; [exact Hdec|]. split.
  - cbv zeta. unfold termValue. rewrite Hdec. by rewrite toLowerCase_idem.
  - split; reflexivity.
Qed.

(** ** Building a polymorphic value without a discriminator *)


#[global] Arguments term_eqb : simpl never.
#[global] Arguments String.eqb : simpl never.

Lemma term_eqb_eq a b : term_eqb a b = true <-> a = b.
Proof.
  destruct a, b; unfold term_eqb; rewrite ?andb_true_iff, ?String.eqb_eq;
    intuition (try discriminate; congruence).
Qed.

Lemma term_eqb_refl a : term_eqb a a = true.
Proof. by apply term_eqb_eq. Qed.

Lemma term_eqb_neq a b : term_eqb a b = false <-> a <> b.
Proof. rewrite <- term_eqb_eq. by destruct (term_eqb a b). Qed.

Lemma collect_one st q :
  collectListItems st [q] =
    if wellFormedItem st (object q)
    then match getQuads st (Some (object q)) (Some (namedNode schema_position)) None,
               getQuads st (Some (object q)) (Some (namedNode schema_item)) None with
         | [p], [it] => [(JsString.parseInt (termValue (object p)), object it)]
         | _, _ => []
         end
    else [].
Proof.
  unfold collectListItems, wellFormedItem. simpl. rewrite app_nil_r.
  destruct (getQuads st _ (Some (namedNode schema_position)) None) as [|p [|??]];
    destruct (getQuads st _ (Some (namedNode schema_item)) None) as [|i [|??]]; reflexivity.
Qed.

Lemma collect_cons st q vals :
  collectListItems st (q :: vals) = collectListItems st [q] ++ collectListItems st vals.
Proof. unfold collectListItems. simpl. by rewrite app_nil_r. Qed.

Lemma collect_filter st vals :
  collectListItems st (filter (fun q => wellFormedItem st (object q)) vals)
  = collectListItems st vals.
Proof.
  induction vals as [|q vals IH]; [reflexivity|].
  rewrite filter_cons. destruct (decide _) as [Hwf|Hwf].
  - rewrite (collect_cons st q (filter _ vals)), (collect_cons st q vals). by rewrite IH.
  - rewrite (collect_cons st q vals), IH, collect_one.
    by destruct (wellFormedItem st (object q)).
Qed.

Lemma wellFormedItem_true st t :
  wellFormedItem st t = true ->
  exists p it,
    getQuads st (Some t) (Some (namedNode schema_position)) None = [p]
    /\ getQuads st (Some t) (Some (namedNode schema_item)) None = [it].
Proof.
  unfold wellFormedItem. intros Hwf.
  apply andb_true_iff in Hwf as [Hp Hi].
  apply Nat.eqb_eq in Hp, Hi.
  destruct (getQuads st _ (Some (namedNode schema_position)) None) as [|p [|??]];
    try discriminate.
  destruct (getQuads st _ (Some (namedNode schema_item)) None) as [|i [|??]];
    try discriminate.
  by exists p, i.
Qed.

Lemma collect_length st vals :
  length (collectListItems st vals)
  = length (filter (fun q => wellFormedItem st (object q)) vals).
Proof.
  induction vals as [|q vals IH]; [reflexivity|].
  rewrite collect_cons, length_app, IH, collect_one, filter_cons.
  destruct (wellFormedItem st (object q)) eqn:Hwf.
  - destruct (wellFormedItem_true _ _ Hwf) as (p & it & -> & ->).
    by rewrite decide_True by exact I.
  - by rewrite decide_False by (intros []).
Qed.

Lemma sortInsert_Permutation {A} (cmp : A -> A -> Z) x l :
  sortInsert cmp x l ≡ₚ x :: l.
Proof.
  induction l as [|y l IH]; simpl; [done|].
  destruct (cmp x y <=? 0); [done|].
  rewrite IH. apply perm_swap.
Qed.

Lemma jsSort_Permutation {A} (cmp : A -> A -> Z) l : jsSort cmp l ≡ₚ l.
Proof.
  induction l as [|x l IH]; simpl; [done|].
  by rewrite sortInsert_Permutation, IH.
Qed.

Lemma jsSort_length {A} (cmp : A -> A -> Z) l : length (jsSort cmp l) = length l.
Proof. apply Permutation_length, jsSort_Permutation. Qed.

Lemma getQuads_filter (f : Quad -> bool) st s p o :
  getQuads (filter f st) s p o = filter f (getQuads st s p o).
Proof.
  unfold getQuads. rewrite !list_filter_filter.
  apply list_filter_iff. intros q. tauto.
Qed.

Lemma filter_all {A} (f : A -> bool) (l : list A) :
  (forall x, x ∈ l -> f x = true) -> filter f l = l.
Proof.
  induction l as [|x l IH]; intros Hall; [done|].
  rewrite filter_cons, decide_True.
  - f_equal. apply IH. intros y Hy. apply Hall. by right.
  - rewrite (Hall x); [exact I | by left].
Qed.

Lemma matchTerm_Some p t : matchTerm (Some p) t = term_eqb p t.
Proof. reflexivity. Qed.

Lemma matchTerm_None t : matchTerm None t = true.
Proof. reflexivity. Qed.

Lemma getQuads_elem st s p o q :
  q ∈ getQuads st s p o <->
  q ∈ st /\ matchTerm s (subject q) = true /\ matchTerm p (predicate q) = true
  /\ matchTerm o (object q) = true.
Proof.
  unfold getQuads. rewrite list_elem_of_filter.
  rewrite !andb_True, !Is_true_true. tauto.
Qed.

Lemma schema_position_not_element :
  term_eqb (namedNode schema_itemListElement) (namedNode schema_position) = false.
Proof. reflexivity. Qed.

Lemma schema_item_not_element :
  term_eqb (namedNode schema_itemListElement) (namedNode schema_item) = false.
Proof. reflexivity. Qed.

Lemma dropMalformed_other_predicate st n t p :
  term_eqb (namedNode schema_itemListElement) p = false ->
  getQuads (dropMalformed st n) (Some t) (Some p) None = getQuads st (Some t) (Some p) None.
Proof.
  intros Hp. unfold dropMalformed. rewrite getQuads_filter.
  apply filter_all. intros q Hq. apply getQuads_elem in Hq as (_ & _ & Hpred & _).
  rewrite matchTerm_Some in Hpred. apply term_eqb_eq in Hpred. subst p.
  rewrite Hp. by rewrite andb_false_r.
Qed.

Lemma wellFormedItem_dropMalformed st n t :
  wellFormedItem (dropMalformed st n) t = wellFormedItem st t.
Proof.
  unfold wellFormedItem.
  by rewrite !dropMalformed_other_predicate.
Qed.

Lemma collect_dropMalformed st n vals :
  collectListItems (dropMalformed st n) vals = collectListItems st vals.
Proof.
  induction vals as [|q vals IH]; [done|].
  rewrite (collect_cons _ q vals), (collect_cons st q vals), IH, !collect_one.
  by rewrite wellFormedItem_dropMalformed, !dropMalformed_other_predicate.
Qed.

Lemma elements_dropMalformed st n :
  getQuads (dropMalformed st n) (Some (namedNode n))
           (Some (namedNode schema_itemListElement)) None
  = filter (fun q => wellFormedItem st (object q))
      (getQuads st (Some (namedNode n)) (Some (namedNode schema_itemListElement)) None).
Proof.
  unfold dropMalformed. rewrite getQuads_filter.
  unfold getQuads. rewrite !list_filter_filter.
  apply list_filter_iff. intros q. rewrite !matchTerm_Some, matchTerm_None.
  rewrite !andb_True, negb_True, !andb_True, negb_True.
  destruct (wellFormedItem st (object q)); simpl; tauto.
Qed.

(** C10. In [decodeArray] a list element whose list-item node does not carry
    exactly one [position] triple and exactly one [item] triple contributes
    nothing: the collected pairs are those of the well-formed elements only.
    For a literal array the call always returns, with one value per
    well-formed element and the same array as on the store without the
    malformed elements' [itemListElement] triples; for a resource array the
    recursive decoder runs on the items of well-formed elements only. *)
Theorem decodeArray_omits_malformed `{Host} (dr : NodeArg -> string -> M JsVal)
    (nodeUri ty propKey : string) (s : State) :
  let st := store s in
  let vals := getQuads st (Some (namedNode nodeUri))
                       (Some (namedNode schema_itemListElement)) None in
  let kept := filter (fun q => wellFormedItem st (object q)) vals in
  (forall q, wellFormedItem st (object q) = false -> collectListItems st [q] = [])
  /\ collectListItems st vals = collectListItems st kept
  /\ length (collectListItems st vals) = length kept
  /\ (exists out,
        decodeArray dr nodeUri true ty propKey s = (Ret (JArray out), s)
        /\ length out = length kept
        /\ decodeArray dr nodeUri true ty propKey (setStore (dropMalformed st nodeUri) s)
           = (Ret (JArray out), setStore (dropMalformed st nodeUri) s))
  /\ decodeArray dr nodeUri false ty propKey s
     = (let* l := mapM (fun r => dr (ByTerm (snd r)) "")
                       (jsSort comparePosition (collectListItems st kept)) in
        ret (JArray l)) s.
Proof.
  intros st vals kept. split; [|split; [|split; [|split]]].
  - intros q Hq. by rewrite collect_one, Hq.
  - symmetry. apply collect_filter.
  - apply collect_length.
  - eexists. split; [reflexivity|]. split.
    + rewrite length_map, jsSort_length. apply collect_length.
    + unfold decodeArray, bind, getStore, ret. cbn [store setStore].
      by rewrite elements_dropMalformed, collect_dropMalformed, collect_filter.
  - unfold decodeArray, bind, getStore. fold st. fold vals.
    unfold kept. by rewrite collect_filter.
Qed.

Example decodeArray_ragged :
  fst (@decodeArray exampleHost (@decodeResource exampleHost exampleBuilder 0)
         "l" true "string" "tags" (stateOfStore raggedList))
  = Ret (JArray [JString "a"]).
Proof. reflexivity. Qed.

(** ** Reasoning rules for the monad *)

Lemma bind_Ret {A B} (m : M A) (k : A -> M B) s a s' :
  m s = (Ret a, s') -> bind m k s = k a s'.
Proof. unfold bind. by intros ->. Qed.

Lemma bind_Throw {A B} (m : M A) (k : A -> M B) s e s' :
  m s = (Throw e, s') -> bind m k s = (Throw e, s').
Proof. unfold bind. by intros ->. Qed.

Lemma bind_Diverge {A B} (m : M A) (k : A -> M B) s s' :
  m s = (Diverge, s') -> bind m k s = (Diverge, s').
Proof. unfold bind. by intros ->. Qed.

Lemma bind_inv_Ret {A B} (m : M A) (k : A -> M B) s b s' :
  bind m k s = (Ret b, s') ->
  exists a s1, m s = (Ret a, s1) /\ k a s1 = (Ret b, s').
Proof.
  unfold bind. destruct (m s) as [[a| |] s1]; intros Hk; try discriminate.
  by exists a, s1.
Qed.

Section TripleRules.
  Context {A B : Type}.

Lemma triple_ret (P : State -> Prop) (a : A) (Q : A -> State -> Prop) E :
  (forall s, P s -> Q a s) -> triple P (ret a) Q E.
Proof. intros HQ s HP. by apply HQ. Qed.

Lemma triple_throw (P : State -> Prop) e (Q : A -> State -> Prop) (E : State -> Prop) :
  (forall s, P s -> E s) -> triple P (throw e) Q E.
Proof. intros HE s HP. by apply HE. Qed.

Lemma triple_diverge (P : State -> Prop) (Q : A -> State -> Prop) (E : State -> Prop) :
  (forall s, P s -> E s) -> triple P diverge Q E.
Proof. intros HE s HP. by apply HE. Qed.

Lemma triple_bind (P : State -> Prop) (m : M A) (k : A -> M B)
    (Q1 : A -> State -> Prop) (Q : B -> State -> Prop) (E : State -> Prop) :
  triple P m Q1 E ->
  (forall a, triple (Q1 a) (k a) Q E) ->
  triple P (bind m k) Q E.
Proof.
  intros Hm Hk s HP. specialize (Hm s HP). unfold bind.
  destruct (m s) as [[a| |] s1]; [|exact Hm..].
  by apply Hk.
Qed.

Lemma triple_conseq (P P' : State -> Prop) (m : M A)
    (Q Q' : A -> State -> Prop) (E E' : State -> Prop) :
  triple P' m Q' E' ->
  (forall s, P s -> P' s) ->
  (forall a s, Q' a s -> Q a s) ->
  (forall s, E' s -> E s) ->
  triple P m Q E.
Proof.
  intros Hm HP HQ HE s Hs. specialize (Hm s (HP s Hs)).
  destruct (m s) as [[a| |] s1]; auto.
Qed.

End TripleRules.

Lemma triple_pure_pre {A} (P : State -> Prop) (phi : Prop) (m : M A)
    (Q : A -> State -> Prop) (E : State -> Prop) :
  (phi -> triple P m Q E) -> triple (fun s => P s /\ phi) m Q E.
Proof. intros Hm s [HP Hphi]. by apply Hm. Qed.

Lemma triple_forEach {A} (I : State -> Prop) (E : State -> Prop)
    (f : A -> M unit) (l : list A) :
  (forall x, x ∈ l -> triple I (f x) (fun _ s => I s) E) ->
  triple I (forEach f l) (fun _ s => I s) E.
Proof.
  induction l as [|x l IH]; intros Hf; simpl.
  - by apply triple_ret.
  - eapply triple_bind; [apply Hf; by left|].
    intros u. apply IH. intros y Hy. apply Hf. by right.
Qed.

Lemma triple_foldM {A B} (I : B -> State -> Prop) (E : State -> Prop)
    (f : B -> A -> M B) (l : list A) (acc : B) :
  (forall b x, x ∈ l -> triple (I b) (f b x) I E) ->
  triple (I acc) (foldM f acc l) I E.
Proof.
  revert acc. induction l as [|x l IH]; intros acc Hf; simpl.
  - by apply triple_ret.
  - eapply triple_bind; [apply Hf; by left|].
    intros b. apply IH. intros b' y Hy. apply Hf. by right.
Qed.

Lemma triple_mapM {A B} (I : State -> Prop) (E : State -> Prop)
    (f : A -> M B) (l : list A) :
  (forall x, x ∈ l -> triple I (f x) (fun _ s => I s) E) ->
  triple I (mapM f l) (fun _ s => I s) E.
Proof.
  induction l as [|x l IH]; intros Hf; simpl.
  - by apply triple_ret.
  - eapply triple_bind; [apply Hf; by left|].
    intros y. eapply triple_bind; [apply IH; intros z Hz; apply Hf; by right|].
    intros ys. by apply triple_ret.
Qed.

(** Rules for [respects]. *)
Section RespectsRules.
  Context (R : State -> State -> Prop).

Lemma respects_ret {A} (a : A) : respects R (ret a).
Proof. intros s1 s2 HR. by split. Qed.

Lemma respects_throw {A} e : respects R (@throw A e).
Proof. intros s1 s2 HR. by split. Qed.

Lemma respects_diverge {A} : respects R (@diverge A).
Proof. intros s1 s2 HR. by split. Qed.

Lemma respects_bind {A B} (m : M A) (k : A -> M B) :
  respects R m -> (forall a, respects R (k a)) -> respects R (bind m k).
Proof.
  intros Hm Hk s1 s2 HR. destruct (Hm s1 s2 HR) as [Ho Hs]. unfold bind.
  destruct (m s1) as [o1 t1], (m s2) as [o2 t2]. simpl in Ho, Hs. subst o2.
  destruct o1 as [a| |]; [by apply Hk | by split..].
Qed.

Lemma respects_forEach {A} (f : A -> M unit) (l : list A) :
  (forall x, respects R (f x)) -> respects R (forEach f l).
Proof.
  intros Hf. induction l as [|x l IH]; simpl.
  - apply respects_ret.
  - apply respects_bind; [apply Hf | by intros u].
Qed.

Lemma respects_foldM {A B} (f : B -> A -> M B) (l : list A) (acc : B) :
  (forall b x, respects R (f b x)) -> respects R (foldM f acc l).
Proof.
  intros Hf. revert acc. induction l as [|x l IH]; intros acc; simpl.
  - apply respects_ret.
  - apply respects_bind; [apply Hf | intros b; apply IH].
Qed.

Lemma respects_mapM {A B} (f : A -> M B) (l : list A) :
  (forall x, respects R (f x)) -> respects R (mapM f l).
Proof.
  intros Hf. induction l as [|x l IH]; simpl.
  - apply respects_ret.
  - apply respects_bind; [apply Hf|]. intros y.
    apply respects_bind; [apply IH|]. intros ys. apply respects_ret.
Qed.

End RespectsRules.

(** ** The console does not influence the codec *)

Create HintDb codec discriminated.

Ltac prim_respects :=
  let s1 := fresh "s1" in
  let s2 := fresh "s2" in
  intros s1 s2 (?&?&?&?&?); unfold sameButConsole; simpl;
  repeat match goal with H : _ = _ |- _ => rewrite H; clear H end; done.

Lemma addQuad_console q : respects sameButConsole (addQuad q).
Proof. unfold addQuad. prim_respects. Qed.
Lemma freshUuid_console `{Host} : respects sameButConsole freshUuid.
Proof. unfold freshUuid. prim_respects. Qed.
Lemma consoleWrite_console l : respects sameButConsole (consoleWrite l).
Proof. unfold consoleWrite. prim_respects. Qed.
Lemma getStore_console : respects sameButConsole getStore.
Proof. unfold getStore. prim_respects. Qed.
Lemma cacheLookup_console ty : respects sameButConsole (cacheLookup ty).
Proof. unfold cacheLookup. prim_respects. Qed.
Lemma cacheStore_console ty e : respects sameButConsole (cacheStore ty e).
Proof. unfold cacheStore. prim_respects. Qed.
Lemma newPropMap_console : respects sameButConsole newPropMap.
Proof. unfold newPropMap. prim_respects. Qed.
Lemma newUriMap_console : respects sameButConsole newUriMap.
Proof. unfold newUriMap. prim_respects. Qed.
Lemma readPropMap_console r : respects sameButConsole (readPropMap r).
Proof. unfold readPropMap. prim_respects. Qed.
Lemma readUriMap_console r : respects sameButConsole (readUriMap r).
Proof. unfold readUriMap. prim_respects. Qed.
Lemma assignPropMap_console r src : respects sameButConsole (assignPropMap r src).
Proof. unfold assignPropMap. prim_respects. Qed.
Lemma assignUriMap_console r src : respects sameButConsole (assignUriMap r src).
Proof. unfold assignUriMap. prim_respects. Qed.

#[global] Hint Resolve addQuad_console freshUuid_console consoleWrite_console
  getStore_console cacheLookup_console cacheStore_console newPropMap_console
  newUriMap_console readPropMap_console readUriMap_console assignPropMap_console
  assignUriMap_console : codec.

Ltac respects_step :=
  first
    [ apply respects_ret | apply respects_throw | apply respects_diverge
    | solve [eauto with codec]
    | apply respects_bind; [|intros ?]
    | apply respects_forEach; intros ?
    | apply respects_mapM; intros ?
    | apply respects_foldM; intros ? ?
    | progress cbv zeta
    | match goal with
      | |- respects _ (match ?x with _ => _ end) => destruct x
      | |- respects _ (let '(_, _) := ?x in _) => destruct x
      end ].

Ltac solve_respects := repeat respects_step.

Lemma lookupDef_console this ty : respects sameButConsole (lookupDef this ty).
Proof. unfold lookupDef. solve_respects. Qed.
#[global] Hint Resolve lookupDef_console : codec.

Lemma getAllProperties_console this fuel ty :
  respects sameButConsole (getAllProperties this fuel ty).
Proof.
  revert ty. induction fuel as [|fuel IH]; intros ty; simpl; solve_respects.
Qed.

Lemma getAllPropertyUris_console this fuel ty :
  respects sameButConsole (getAllPropertyUris this fuel ty).
Proof.
  revert ty. induction fuel as [|fuel IH]; intros ty; simpl; solve_respects.
Qed.
#[global] Hint Resolve getAllProperties_console getAllPropertyUris_console : codec.

Lemma decodeArray_console `{Host} dr nodeUri literalVal ty propKey :
  (forall n t, respects sameButConsole (dr n t)) ->
  respects sameButConsole (decodeArray dr nodeUri literalVal ty propKey).
Proof. intros Hdr. unfold decodeArray. solve_respects. Qed.
#[global] Hint Resolve decodeArray_console : codec.

Lemma decodeTriple_console `{Host} dr st allProps allUris item q :
  (forall n t, respects sameButConsole (dr n t)) ->
  respects sameButConsole (decodeTriple dr st allProps allUris item q).
Proof.
  intros Hdr. unfold decodeTriple. solve_respects.
Qed.
#[global] Hint Resolve decodeTriple_console : codec.

Lemma decodeResource_console `{Host} this fuel nodeUri specifyType :
  respects sameButConsole (decodeResource this fuel nodeUri specifyType).
Proof.
  revert nodeUri specifyType.
  induction fuel as [|fuel IH]; intros nodeUri specifyType; simpl; solve_respects.
Qed.

(** ** Decoding a node of unknown type *)

Lemma discoverType_unregistered typeDefs types :
  Forall (fun q => Obj.get (termValue (object q)) typeDefs = None) types ->
  discoverType typeDefs types = "".
Proof.
  induction 1 as [|q types Hq _ IH]; simpl; [reflexivity|].
  by rewrite Hq.
Qed.

Lemma decodeResource_unknown_eq `{Host} (this : ObjectBuilder) (fuel : nat)
    (nodeUri : NodeArg) (s : State) :
  Forall (fun q => Obj.get (termValue (object q)) (typeDefs this) = None)
         (getQuads (store s) (Some (nodeOf nodeUri)) (Some (namedNode rdf_type)) None) ->
  exists line,
    decodeResource this (S fuel) nodeUri "" s
    = (Ret (JObject []), snd (consoleWrite line s)).
Proof.
  intros Hnone. eexists. cbn [decodeResource].
  unfold bind at 1, getStore at 1. cbv zeta.
  rewrite (discoverType_unregistered _ _ Hnone).
  change (("" =? "")%string && ("" =? "")%string)%bool with true. cbv iota.
  unfold bind, consoleWrite, ret. reflexivity.
Qed.

(** C6. When no [rdf:type] triple of a node names a registered type URI and
    no expected type is given, [decodeResource] returns the empty object
    without raising; it changes nothing but the console, so any other node
    decoded afterwards in the same pass yields what it would have yielded
    without that node. *)
Theorem decodeResource_unknown_type `{Host} (this : ObjectBuilder) (fuel : nat)
    (nodeUri : NodeArg) (s : State) :
  Forall (fun q => Obj.get (termValue (object q)) (typeDefs this) = None)
         (getQuads (store s) (Some (nodeOf nodeUri)) (Some (namedNode rdf_type)) None) ->
  let failed := decodeResource this (S fuel) nodeUri "" s in
  fst failed = Ret (JObject [])
  /\ sameButConsole (snd failed) s
  /\ forall fuel' other specifyType,
       let after := decodeResource this fuel' other specifyType (snd failed) in
       let alone := decodeResource this fuel' other specifyType s in
       fst after = fst alone /\ sameButConsole (snd after) (snd alone).
Proof.
  intros Hnone failed.
  destruct (decodeResource_unknown_eq this fuel nodeUri s Hnone) as [line Heq].
  assert (Hstate : sameButConsole (snd failed) s).
  { unfold failed. rewrite Heq. by repeat split. }
  split; [unfold failed; by rewrite Heq|]. split; [exact Hstate|].
  intros fuel' other specifyType after alone.
  by apply decodeResource_console.
Qed.

Lemma decodeResource_unknown_type_witness :
  Forall (fun q => Obj.get (termValue (object q)) (typeDefs exampleBuilder) = None)
         (getQuads strangerStore (Some (NamedNode "http://example.org/x"))
                   (Some (namedNode rdf_type)) None)
  /\ fst (@decodeResource exampleHost exampleBuilder 1 (ByUri "http://example.org/x") ""
            (stateOfStore strangerStore)) = Ret (JObject [])
  /\ fst (@decodeResource exampleHost exampleBuilder 1 (ByUri "http://example.org/p") ""
            (snd (@decodeResource exampleHost exampleBuilder 1
                    (ByUri "http://example.org/x") "" (stateOfStore strangerStore))))
     = Ret (JObject [("id", JString "http://example.org/p"); ("type", JString "Parent");
                     ("name", JString "p")]).
Proof.
  assert (Hnone : Forall (fun q => Obj.get (termValue (object q)) (typeDefs exampleBuilder) = None)
                    (getQuads strangerStore (Some (NamedNode "http://example.org/x"))
                              (Some (namedNode rdf_type)) None)).
  { vm_compute. repeat constructor. }
  split; [exact Hnone|].
  destruct (@decodeResource_unknown_type exampleHost exampleBuilder 0
              (ByUri "http://example.org/x") (stateOfStore strangerStore) Hnone)
    as (Hval & _ & Hsib).
  split; [exact Hval|].
  destruct (Hsib 1%nat (ByUri "http://example.org/p") "") as [-> _].
  reflexivity.
Defined.

(** ** Plain objects *)

Lemma Obj_get_set_eq {V} k (v : V) o : Obj.get k (Obj.set k v o) = Some v.
Proof.
  induction o as [|[k' v'] o IH]; simpl.
  - by rewrite String.eqb_refl.
  - destruct (String.eqb k k') eqn:E; simpl; rewrite ?String.eqb_refl, ?E; auto.
Qed.

Lemma Obj_get_set_ne {V} k k' (v : V) o :
  k <> k' -> Obj.get k' (Obj.set k v o) = Obj.get k' o.
Proof.
  intros Hne. induction o as [|[k0 v0] o IH]; simpl.
  - apply String.eqb_neq in Hne. rewrite String.eqb_sym. by rewrite Hne.
  - destruct (String.eqb k k0) eqn:E; simpl.
    + apply String.eqb_eq in E. subst k0.
      assert (String.eqb k' k = false) as -> by (apply String.eqb_neq; congruence).
      reflexivity.
    + by rewrite IH.
Qed.

Lemma Obj_has_set {V} k k' (v : V) o :
  Obj.has k' o = true -> Obj.has k' (Obj.set k v o) = true.
Proof.
  unfold Obj.has. destruct (String.eqb k k') eqn:E.
  - apply String.eqb_eq in E. subst k'. by rewrite Obj_get_set_eq.
  - apply String.eqb_neq in E. by rewrite Obj_get_set_ne.
Qed.

Lemma Obj_get_elem {V} k (v : V) o : Obj.get k o = Some v -> (k, v) ∈ o.
Proof.
  induction o as [|[k' v'] o IH]; simpl; [discriminate|].
  destruct (String.eqb k k') eqn:E.
  - apply String.eqb_eq in E. intros [= ->]. subst. by left.
  - intros Hget. right. by apply IH.
Qed.

Lemma Obj_set_Forall {V} (P : string * V -> Prop) k v o :
  P (k, v) -> Forall P o -> Forall P (Obj.set k v o).
Proof.
  intros Hkv. induction 1 as [|[k' v'] o Hx Ho IH]; simpl.
  - by repeat constructor.
  - destruct (String.eqb k k'); by constructor.
Qed.

Lemma Obj_assign_Forall {V} (P : string * V -> Prop) dst src :
  Forall P src -> Forall P dst -> Forall P (Obj.assign dst src).
Proof.
  unfold Obj.assign. intros Hsrc. revert dst.
  induction Hsrc as [|[k v] src Hkv Hsrc IH]; intros dst Hdst; simpl; [done|].
  apply IH. by apply Obj_set_Forall.
Qed.

(** ** The keys [id] and [type] of a decoded object *)

Section IdAndType.
  Context `{Host} (this : ObjectBuilder) (C : Prop).
  Hypothesis schema_ok : C -> schemaKeepsIdAndType this.

(** The invariant: under [C], no URI map of the heap leads to [id] or
    [type]. *)
Let J (s : State) : Prop := C -> heapKeepsIdAndType s.

Lemma J_same_uriHeap s s' : uriHeap s' = uriHeap s -> J s -> J s'.
Proof. unfold J, heapKeepsIdAndType. by intros ->. Qed.

Lemma preserves_bind {A B} (m : M A) (k : A -> M B) :
  preserves J m -> (forall a, preserves J (k a)) -> preserves J (bind m k).
Proof. intros Hm Hk. eapply triple_bind; [exact Hm | exact Hk]. Qed.

Lemma preserves_pure {A} (m : M A) :
  (forall s, uriHeap (snd (m s)) = uriHeap s) -> preserves J m.
Proof.
  intros Hm s HJ. specialize (Hm s).
  destruct (m s) as [[a| |] s']; simpl in Hm; by eapply J_same_uriHeap.
Qed.

Lemma getAllProperties_J fuel ty : preserves J (getAllProperties this fuel ty).
Proof.
  revert ty. induction fuel as [|fuel IH]; intros ty; simpl.
  - by apply preserves_pure.
  - apply preserves_bind; [by apply preserves_pure|]. intros [e|].
    + by apply preserves_pure.
    + apply preserves_bind.
      { unfold lookupDef. destruct (Obj.get ty (defs this)); by apply preserves_pure. }
      intros def. apply preserves_bind.
      { destruct (parentOf def); [apply IH | by apply preserves_pure]. }
      intros r. apply preserves_bind; [by apply preserves_pure|].
      intros u. by apply preserves_pure.
Qed.

Lemma assignUriMap_J r src :
  (C -> keepsIdAndType src) -> preserves J (assignUriMap r src).
Proof.
  intros Hsrc s HJ HC. unfold assignUriMap. cbn [snd uriHeap]. unfold heapKeepsIdAndType.
  cbn [uriHeap]. apply Forall_alter; [by apply HJ|].
  intros m _ Hm. apply Obj_assign_Forall; [by apply Hsrc | exact Hm].
Qed.

Lemma newUriMap_J : preserves J newUriMap.
Proof.
  intros s HJ HC. unfold newUriMap, heapKeepsIdAndType. cbn [snd uriHeap].
  apply Forall_app. split; [by apply HJ|]. by repeat constructor.
Qed.

Lemma bind_ret_l {A B} (a : A) (k : A -> M B) : bind (ret a) k = k a.
Proof. reflexivity. Qed.

Lemma bind_throw_l {A B} e (k : A -> M B) : bind (throw e) k = throw e.
Proof. reflexivity. Qed.

Lemma schema_def_keeps ty def :
  Obj.get ty (defs this) = Some def -> C -> keepsIdAndType (propertyUris def).
Proof.
  intros Hdef HC. apply Obj_get_elem in Hdef.
  specialize (schema_ok HC). unfold schemaKeepsIdAndType in schema_ok.
  rewrite Forall_forall in schema_ok. exact (schema_ok _ Hdef).
Qed.

Lemma getAllPropertyUris_J fuel ty : preserves J (getAllPropertyUris this fuel ty).
Proof.
  revert ty. induction fuel as [|fuel IH]; intros ty; simpl.
  - by apply preserves_pure.
  - apply preserves_bind; [by apply preserves_pure|]. intros [e|].
    + by apply preserves_pure.
    + unfold lookupDef. destruct (Obj.get ty (defs this)) as [def|] eqn:Hdef.
      2:{ rewrite bind_throw_l. by apply preserves_pure. }
      rewrite bind_ret_l. apply preserves_bind.
      { destruct (parentOf def); [apply IH | apply newUriMap_J]. }
      intros r. apply preserves_bind; [|intros u; by apply preserves_pure].
      apply assignUriMap_J. by eapply schema_def_keeps.
Qed.

Lemma decodeArray_J dr nodeUri literalVal ty propKey :
  (forall n t, preserves J (dr n t)) ->
  preserves J (decodeArray dr nodeUri literalVal ty propKey).
Proof.
  intros Hdr. unfold decodeArray.
  apply preserves_bind; [by apply preserves_pure|]. intros st. cbv zeta.
  destruct literalVal; [by apply preserves_pure|].
  apply preserves_bind; [|intros l; by apply preserves_pure].
  apply triple_mapM. intros r _. apply Hdr.
Qed.

Lemma keepsKeys_refl item : keepsKeys C item item.
Proof. by split. Qed.

Lemma keepsKeys_trans a b c : keepsKeys C a b -> keepsKeys C b c -> keepsKeys C a c.
Proof.
  intros [Hab1 Hab2] [Hbc1 Hbc2]. split; [auto|].
  intros HC. destruct (Hab2 HC) as [<- <-]. by apply Hbc2.
Qed.

Lemma keepsKeys_set propKey v item :
  (C -> propKey <> "id" /\ propKey <> "type") ->
  keepsKeys C item (Obj.set propKey v item).
Proof.
  intros Hkey. split.
  - intros k. apply Obj_has_set.
  - intros HC. destruct (Hkey HC) as [Hid Hty].
    by rewrite !Obj_get_set_ne.
Qed.

Lemma readUriMap_J {B} u (k : UriMap -> M B) (Q : B -> State -> Prop) :
  (forall m, (C -> keepsIdAndType m) -> triple J (k m) Q J) ->
  triple J (bind (readUriMap u) k) Q J.
Proof.
  intros Hk s HJ. unfold bind, readUriMap. apply Hk; [|exact HJ].
  intros HC. specialize (HJ HC). unfold heapKeepsIdAndType in HJ.
  destruct (uriHeap s !! u) as [m|] eqn:Hm; simpl; [|by constructor].
  rewrite Forall_lookup in HJ. by eapply HJ.
Qed.

Lemma triple_after {A B} (m : M A) (k : A -> M B) (Q : B -> State -> Prop) :
  preserves J m -> (forall a, triple J (k a) Q J) -> triple J (bind m k) Q J.
Proof. intros Hm Hk. eapply triple_bind; [exact Hm | exact Hk]. Qed.

Lemma decodeTriple_J dr st allProps allUris item q :
  (forall n t, preserves J (dr n t)) ->
  triple J (decodeTriple dr st allProps allUris item q)
         (fun item' s' => J s' /\ keepsKeys C item item') J.
Proof.
  intros Hdr. unfold decodeTriple. cbv zeta.
  apply readUriMap_J. intros uriMap HuriMap.
  destruct (Obj.get _ uriMap) as [propKey|] eqn:Hkey.
  2:{ apply triple_ret. intros s HJ. split; [done | apply keepsKeys_refl]. }
  assert (Hreserved : C -> propKey <> "id" /\ propKey <> "type").
  { intros HC. specialize (HuriMap HC). apply Obj_get_elem in Hkey.
    unfold keepsIdAndType in HuriMap. rewrite Forall_forall in HuriMap.
    exact (HuriMap _ Hkey). }
  apply triple_after; [by apply preserves_pure|]. intros propMap.
  destruct (Obj.get propKey propMap) as [prop|]; [|by apply triple_throw].
  destruct (isArray prop && isItemList st (object q))%bool.
  { apply triple_after; [by apply decodeArray_J|]. intros arr.
    apply triple_ret. intros s HJ. split; [done | by apply keepsKeys_set]. }
  apply triple_after.
  { destruct (isLiteral (type prop)); [by apply preserves_pure|].
    destruct (isMultiType prop); apply Hdr. }
  intros newval. destruct (isArray prop).
  - destruct (Obj.get propKey item) as [[]|];
      try (by apply triple_throw);
      apply triple_ret; intros s HJ; (split; [done | by apply keepsKeys_set]).
  - apply triple_ret. intros s HJ. split; [done | by apply keepsKeys_set].
Qed.

Lemma decodeResource_J fuel nodeUri specifyType :
  preserves J (decodeResource this fuel nodeUri specifyType).
Proof.
  revert nodeUri specifyType.
  induction fuel as [|fuel IH]; intros nodeUri specifyType; cbn [decodeResource].
  - by apply preserves_pure.
  - apply preserves_bind; [by apply preserves_pure|]. intros st. cbv zeta.
    destruct (_ && _)%bool.
    + apply preserves_bind; [by apply preserves_pure|]. intros u. by apply preserves_pure.
    + apply preserves_bind; [by apply preserves_pure|]. intros c.
      apply preserves_bind.
      { destruct c as [e|]; [by apply preserves_pure|].
        apply preserves_bind; [apply getAllProperties_J|]. intros p.
        apply preserves_bind; [apply getAllPropertyUris_J|]. intros u.
        apply preserves_bind; [by apply preserves_pure|]. intros ?. by apply preserves_pure. }
      intros maps. apply preserves_bind; [|intros; by apply preserves_pure].
      eapply triple_conseq;
        [apply (triple_foldM (fun _ s => J s) J) | auto ..].
      intros b x _. eapply triple_conseq; [by apply decodeTriple_J | auto ..].
      by intros a s [??].
Qed.

Lemma decodeLoop_J dr st allProps allUris item vals :
  (forall n t, preserves J (dr n t)) ->
  triple J (foldM (decodeTriple dr st allProps allUris) item vals)
         (fun item' s => J s /\ keepsKeys C item item') J.
Proof.
  intros Hdr.
  eapply triple_conseq;
    [apply (triple_foldM (fun item' s => J s /\ keepsKeys C item item') J) | | auto..].
  - intros b x _ s [HJ Hb].
    pose proof (decodeTriple_J dr st allProps allUris b x Hdr s HJ) as Hstep.
    destruct (decodeTriple _ _ _ _ _ _ s) as [[item'| |] s1]; [|done..].
    destruct Hstep as [HJ1 Hkeep]. split; [done|]. by eapply keepsKeys_trans.
  - intros s HJ. split; [done | apply keepsKeys_refl].
Qed.

Lemma decodeResource_keys fuel nodeUri specifyType st :
  triple (fun s => J s /\ store s = st)
         (decodeResource this fuel nodeUri specifyType)
         (fun v _ =>
            resolvedType this st (nodeOf nodeUri) specifyType <> "" ->
            exists item,
              v = JObject item
              /\ keepsKeys C [("id", JString (nodeIdOf (nodeOf nodeUri)));
                            ("type", JString (resolvedType this st (nodeOf nodeUri)
                                                           specifyType))] item)
         J.
Proof.
  destruct fuel as [|fuel]; [by intros s [??]|]. cbn [decodeResource].
  eapply triple_bind with (Q1 := fun st0 s => J s /\ st0 = st).
  { intros s [HJ Hst]. by split. }
  intros st0. cbv zeta. apply triple_pure_pre. intros ->.
  unfold resolvedType.
  destruct (discoverType _ _ =? "")%string eqn:Hfound; simpl andb.
  - destruct (specifyType =? "")%string eqn:Hspec.
    + apply String.eqb_eq in Hspec. subst specifyType.
      apply triple_after; [by apply preserves_pure|]. intros u.
      apply triple_ret. by intros s _ Hne.
    + apply triple_after; [by apply preserves_pure|]. intros c.
      apply triple_after.
      { destruct c as [e|]; [by apply preserves_pure|].
        apply preserves_bind; [apply getAllProperties_J|]. intros p.
        apply preserves_bind; [apply getAllPropertyUris_J|]. intros u.
        apply preserves_bind; [by apply preserves_pure|]. intros ?. by apply preserves_pure. }
      intros maps.
      eapply triple_bind; [apply decodeLoop_J, decodeResource_J|].
      intros item'. apply triple_ret. intros s [_ Hkeep] _. by exists item'.
  - apply triple_after; [by apply preserves_pure|]. intros c.
    apply triple_after.
    { destruct c as [e|]; [by apply preserves_pure|].
      apply preserves_bind; [apply getAllProperties_J|]. intros p.
      apply preserves_bind; [apply getAllPropertyUris_J|]. intros u.
      apply preserves_bind; [by apply preserves_pure|]. intros ?. by apply preserves_pure. }
    intros maps.
    eapply triple_bind; [apply decodeLoop_J, decodeResource_J|].
    intros item'. apply triple_ret. intros s [_ Hkeep] _. by exists item'.
Qed.

End IdAndType.

(** C9 (as stated, refuted). The type [Tagged] maps a property URI to the
    key [type]; a node of that type decodes with its [type] key holding the
    property's value, not the resolved type key. *)
Lemma decoded_type_key_overwritten :
  resolvedType exampleBuilder taggedStore (NamedNode "http://example.org/t") "" = "Tagged"
  /\ fst (@decodeResource exampleHost exampleBuilder 1 (ByUri "http://example.org/t") ""
            (stateOfStore taggedStore))
     = Ret (JObject [("id", JString "http://example.org/t"); ("type", JString "special")]).
Proof. split; reflexivity. Qed.

(** C9 (amended). When [decodeResource] returns for a node whose type is
    determined, the result is an object that has the keys [id] and [type];
    if moreover no URI map of the schema or of the heap sends a URI to the
    key [id] or [type], the [id] is the node's URI (with [_:] before a blank
    node's identifier) and the [type] is the resolved type key. *)
Theorem decodeResource_id_and_type `{Host} (this : ObjectBuilder) (fuel : nat)
    (nodeUri : NodeArg) (specifyType : string) (s s' : State) (v : JsVal) :
  decodeResource this fuel nodeUri specifyType s = (Ret v, s') ->
  resolvedType this (store s) (nodeOf nodeUri) specifyType <> "" ->
  exists item,
    v = JObject item
    /\ Obj.has "id" item = true
    /\ Obj.has "type" item = true
    /\ (schemaKeepsIdAndType this -> heapKeepsIdAndType s ->
        Obj.get "id" item = Some (JString (nodeIdOf (nodeOf nodeUri)))
        /\ Obj.get "type" item
           = Some (JString (resolvedType this (store s) (nodeOf nodeUri) specifyType))).
Proof.
  intros Hrun Hty.
  pose proof (decodeResource_keys this
                (schemaKeepsIdAndType this /\ heapKeepsIdAndType s)
                (fun HC => proj1 HC) fuel nodeUri specifyType (store s) s) as Hkeys.
  rewrite Hrun in Hkeys.
  destruct Hkeys as (item & -> & Hhas & Hget); [by split; [intros []|] | exact Hty |].
  exists item. split; [reflexivity|].
  split; [by apply Hhas|]. split; [by apply Hhas|].
  intros Hschema Hheap. destruct (Hget (conj Hschema Hheap)) as [-> ->]. by split.
Qed.

Lemma decodeResource_id_and_type_witness :
  let this := newObjectBuilder [("Parent", parentDef)] in
  schemaKeepsIdAndType this
  /\ heapKeepsIdAndType (stateOfStore strangerStore)
  /\ exists item,
       fst (@decodeResource exampleHost this 1 (ByUri "http://example.org/p") ""
              (stateOfStore strangerStore)) = Ret (JObject item)
       /\ Obj.has "id" item = true
       /\ Obj.has "type" item = true
       /\ Obj.get "id" item = Some (JString "http://example.org/p")
       /\ Obj.get "type" item = Some (JString "Parent").
Proof.
  intros this.
  assert (Hschema : schemaKeepsIdAndType this) by (repeat constructor; discriminate).
  assert (Hheap : heapKeepsIdAndType (stateOfStore strangerStore)) by constructor.
  split; [exact Hschema|]. split; [exact Hheap|].
  destruct (@decodeResource_id_and_type exampleHost this 1 (ByUri "http://example.org/p") ""
              (stateOfStore strangerStore)
              (snd (@decodeResource exampleHost this 1 (ByUri "http://example.org/p") ""
                      (stateOfStore strangerStore)))
              (JObject [("id", JString "http://example.org/p"); ("type", JString "Parent");
                        ("name", JString "p")]))
    as (item & Hv & Hid & Hty & Hvals).
  - reflexivity.
  - vm_compute. discriminate.
  - exists item. destruct (Hvals Hschema Hheap) as [Hgid Hgty].
    split; [by rewrite <- Hv|]. by repeat split.
Defined.

(** ** Resolving effective properties *)

Lemma Obj_get_assign {V} k (dst src : list (string * V)) :
  NoDup (map fst src) ->
  Obj.get k (Obj.assign dst src)
  = match Obj.get k src with Some v => Some v | None => Obj.get k dst end.
Proof.
  unfold Obj.assign. revert dst.
  induction src as [|[k0 v0] src IH]; intros dst Hnd; simpl; [reflexivity|].
  apply NoDup_cons in Hnd as [Hk0 Hnd]. rewrite (IH _ Hnd).
  destruct (String.eqb k k0) eqn:E.
  - apply String.eqb_eq in E. subst k0.
    destruct (Obj.get k src) as [v|] eqn:Hk.
    + exfalso. apply Hk0. apply Obj_get_elem in Hk.
      apply list_elem_of_fmap. by exists (k, v).
    + apply Obj_get_set_eq.
  - destruct (Obj.get k src); [reflexivity|].
    apply Obj_get_set_ne. apply String.eqb_neq in E. congruence.
Qed.

Lemma alter_last {A} (f : A -> A) (l : list A) (x : A) :
  alter f (length l) (l ++ [x]) = l ++ [f x].
Proof.
  replace (length l) with (length l + 0)%nat at 1 by lia.
  by rewrite alter_app_r.
Qed.

Lemma chain_head this ty chain :
  ExtendsChain this ty chain ->
  exists d rest, chain = (ty, d) :: rest /\ Obj.get ty (defs this) = Some d.
Proof. destruct 1; eauto. Qed.

Lemma chain_det this ty c1 c2 :
  ExtendsChain this ty c1 -> ExtendsChain this ty c2 -> c1 = c2.
Proof.
  intros H1. revert c2.
  induction H1 as [ty d Hd Hp | ty d p rest Hd Hp Hrest IH]; intros c2 H2;
    destruct H2 as [ty d2 Hd2 Hp2 | ty d2 p2 rest2 Hd2 Hp2 Hrest2];
    simplify_eq; try reflexivity.
  f_equal. by apply IH.
Qed.

Lemma chain_sub this ty chain t :
  ExtendsChain this ty chain -> t ∈ map fst chain ->
  exists c, ExtendsChain this t c /\ (length c <= length chain)%nat.
Proof.
  induction 1 as [ty d Hd Hp | ty d p rest Hd Hp Hrest IH]; simpl; intros Ht.
  - apply list_elem_of_singleton in Ht. subst t.
    exists [(ty, d)]. split; [by constructor | done].
  - apply elem_of_cons in Ht as [->|Ht].
    + exists ((ty, d) :: rest). split; [by econstructor | done].
    + destruct (IH Ht) as (c & Hc & Hlen). exists c. split; [done | simpl; lia].
Qed.

Lemma chain_NoDup this ty chain :
  ExtendsChain this ty chain -> NoDup (map fst chain).
Proof.
  induction 1 as [ty d Hd Hp | ty d p rest Hd Hp Hrest IH]; simpl.
  - apply NoDup_singleton.
  - apply NoDup_cons. split; [|exact IH].
    intros Hin. destruct (chain_sub _ _ _ _ Hrest Hin) as (c & Hc & Hlen).
    assert (c = (ty, d) :: rest) as ->.
    { eapply chain_det; [exact Hc | by econstructor]. }
    simpl in Hlen. lia.
Qed.

Lemma chain_defined this ty chain t :
  ExtendsChain this ty chain -> t ∈ map fst chain -> t ∈ map fst (defs this).
Proof.
  induction 1 as [ty d Hd Hp | ty d p rest Hd Hp Hrest IH]; simpl; intros Ht.
  - apply list_elem_of_singleton in Ht. subst t.
    apply list_elem_of_fmap. exists (ty, d). split; [done | by apply Obj_get_elem].
  - apply elem_of_cons in Ht as [->|Ht]; [|by apply IH].
    apply list_elem_of_fmap. exists (ty, d). split; [done | by apply Obj_get_elem].
Qed.

(** The budget [typeFuel] covers every chain. *)
Lemma chain_fits_typeFuel this ty chain :
  ExtendsChain this ty chain -> (length chain <= typeFuel this)%nat.
Proof.
  intros Hchain. unfold typeFuel.
  rewrite <- (length_map fst chain), <- (length_map fst (defs this)).
  apply Nat.le_le_succ_r, submseteq_length, NoDup_submseteq.
  - by eapply chain_NoDup.
  - intros t. by eapply chain_defined.
Qed.

Lemma getAllProperties_fresh this ty chain :
  ExtendsChain this ty chain ->
  forall fuel s,
    uncached s chain -> (length chain <= fuel)%nat ->
    getAllProperties this fuel ty s
    = (Ret (length (propHeap s)),
       setPropHeap (propHeap s ++ [overlayProperties chain]) s).
Proof.
  induction 1 as [ty d Hd Hp | ty d p rest Hd Hp Hrest IH];
    intros fuel s Hun Hfuel; (destruct fuel as [|fuel]; [simpl in Hfuel; lia|]);
    apply Forall_cons in Hun as [Hty Hun]; cbn [getAllProperties fst] in *;
    unfold bind at 1, cacheLookup at 1; rewrite Hty;
    unfold bind at 1, lookupDef at 1; rewrite Hd; cbn [ret]; rewrite Hp.
  - unfold bind, newPropMap, assignPropMap, ret, setPropHeap. cbn.
    by rewrite alter_last.
  - unfold bind at 1. rewrite (IH fuel s Hun) by (simpl in Hfuel; lia).
    unfold bind, assignPropMap, ret, setPropHeap. cbn.
    by rewrite alter_last.
Qed.

Lemma getAllPropertyUris_fresh this ty chain :
  ExtendsChain this ty chain ->
  forall fuel s,
    uncached s chain -> (length chain <= fuel)%nat ->
    getAllPropertyUris this fuel ty s
    = (Ret (length (uriHeap s)),
       setUriHeap (uriHeap s ++ [overlayUris chain]) s).
Proof.
  induction 1 as [ty d Hd Hp | ty d p rest Hd Hp Hrest IH];
    intros fuel s Hun Hfuel; (destruct fuel as [|fuel]; [simpl in Hfuel; lia|]);
    apply Forall_cons in Hun as [Hty Hun]; cbn [getAllPropertyUris fst] in *;
    unfold bind at 1, cacheLookup at 1; rewrite Hty;
    unfold bind at 1, lookupDef at 1; rewrite Hd; cbn [ret]; rewrite Hp.
  - unfold bind, newUriMap, assignUriMap, ret, setUriHeap. cbn.
    by rewrite alter_last.
  - unfold bind at 1. rewrite (IH fuel s Hun) by (simpl in Hfuel; lia).
    unfold bind, assignUriMap, ret, setUriHeap. cbn.
    by rewrite alter_last.
Qed.

Lemma resolveProperties_fresh this ty chain s :
  ExtendsChain this ty chain -> uncached s chain ->
  resolveProperties this ty s = Ret (overlayProperties chain).
Proof.
  intros Hchain Hun. unfold resolveProperties, bind.
  rewrite (getAllProperties_fresh _ _ _ Hchain) by (done || by eapply chain_fits_typeFuel).
  unfold readPropMap, setPropHeap. cbn.
  by rewrite lookup_app_r, Nat.sub_diag.
Qed.

Lemma resolveUris_fresh this ty chain s :
  ExtendsChain this ty chain -> uncached s chain ->
  resolveUris this ty s = Ret (overlayUris chain).
Proof.
  intros Hchain Hun. unfold resolveUris, bind.
  rewrite (getAllPropertyUris_fresh _ _ _ Hchain) by (done || by eapply chain_fits_typeFuel).
  unfold readUriMap, setUriHeap. cbn.
  by rewrite lookup_app_r, Nat.sub_diag.
Qed.



(** The resolved maps of the example: [label] is the child's, [name] the
    parent's, [note] is new. *)
Example child_resolution_example :
  resolveProperties exampleBuilder "Child" initState
  = Ret [("name", stringProp "http://example.org/name");
         ("label", stringProp "http://example.org/childLabel");
         ("note", stringProp "http://example.org/note")]
  /\ resolveUris exampleBuilder "Child" initState
     = Ret [("http://example.org/name", "name");
            ("http://example.org/label", "label");
            ("http://example.org/childLabel", "label");
            ("http://example.org/note", "note")].
Proof. split; reflexivity. Qed.

(** ** Memoisation and aliasing *)

(** C3. One cache, a [Parent] node decoded first and a [Child] node second.
    Resolving [Child] takes the map cached for [Parent] and writes the
    child's properties into it: both cache entries point to the same maps,
    the entry of [Parent] no longer equals a fresh resolution, and decoding
    the same [Parent] node again yields a different object. *)
Lemma cached_parent_changed_by_child :
  let s0 := stateOfStore familyStore in
  let first := @decodeResource exampleHost exampleBuilder 1 (ByUri "http://example.org/p") "" s0 in
  let s1 := snd first in
  let s2 := snd (@decodeResource exampleHost exampleBuilder 1
                   (ByUri "http://example.org/c") "" s1) in
  let again := @decodeResource exampleHost exampleBuilder 1 (ByUri "http://example.org/p") "" s2 in
  cache s1 !! "Parent" = Some {| uris := 0; props := 0 |}
  /\ cache s2 !! "Parent" = Some {| uris := 0; props := 0 |}
  /\ cache s2 !! "Child" = Some {| uris := 0; props := 0 |}
  /\ resolveProperties exampleBuilder "Parent" initState
     = Ret [("name", stringProp "http://example.org/name");
            ("label", stringProp "http://example.org/label")]
  /\ resolveProperties exampleBuilder "Parent" s1
     = Ret [("name", stringProp "http://example.org/name");
            ("label", stringProp "http://example.org/label")]
  /\ resolveProperties exampleBuilder "Parent" s2
     = Ret [("name", stringProp "http://example.org/name");
            ("label", stringProp "http://example.org/childLabel");
            ("note", stringProp "http://example.org/note")]
  /\ fst first
     = Ret (JObject [("id", JString "http://example.org/p"); ("type", JString "Parent");
                     ("name", JString "p")])
  /\ fst again
     = Ret (JObject [("id", JString "http://example.org/p"); ("type", JString "Parent");
                     ("name", JString "p"); ("note", JString "stray")]).
Proof. vm_compute. repeat split. Qed.

(** C5. One cache, a [Parent] node, a [Child] node and a [Sib] node decoded
    in this order, as one pass over a graph does.  [Child] redeclares
    [label] and inherits [name]; [Sib] redeclares both.  The three cache
    entries share one property map and one URI map, and resolving [Child]
    afterwards gives the definitions of [Sib] for both keys: neither the
    child's own [label] nor the parent's [name].  With an empty cache the
    same resolution gives the child's [label] and the parent's [name]. *)
Lemma child_definition_lost_to_sibling :
  let s0 := stateOfStore kinStore in
  let s1 := snd (@decodeResource exampleHost kinBuilder 1 (ByUri "http://example.org/p") "" s0) in
  let s2 := snd (@decodeResource exampleHost kinBuilder 1 (ByUri "http://example.org/c") "" s1) in
  let s3 := snd (@decodeResource exampleHost kinBuilder 1 (ByUri "http://example.org/s") "" s2) in
  Obj.get "label" (properties childDef) = Some (stringProp "http://example.org/childLabel")
  /\ Obj.get "name" (properties childDef) = None
  /\ Obj.get "name" (properties parentDef) = Some (stringProp "http://example.org/name")
  /\ resolveProperties kinBuilder "Child" s0
     = Ret [("name", stringProp "http://example.org/name");
            ("label", stringProp "http://example.org/childLabel");
            ("note", stringProp "http://example.org/note")]
  /\ resolveProperties kinBuilder "Child" s2
     = Ret [("name", stringProp "http://example.org/name");
            ("label", stringProp "http://example.org/childLabel");
            ("note", stringProp "http://example.org/note")]
  /\ resolveProperties kinBuilder "Child" s3
     = Ret [("name", stringProp "http://example.org/sibName");
            ("label", stringProp "http://example.org/sibLabel");
            ("note", stringProp "http://example.org/note")]
  /\ resolveUris kinBuilder "Child" s3
     = Ret [("http://example.org/name", "name");
            ("http://example.org/label", "label");
            ("http://example.org/childLabel", "label");
            ("http://example.org/note", "note");
            ("http://example.org/sibName", "name");
            ("http://example.org/sibLabel", "label")]
  /\ cache s3 !! "Parent" = Some {| uris := 0; props := 0 |}
  /\ cache s3 !! "Child" = Some {| uris := 0; props := 0 |}
  /\ cache s3 !! "Sib" = Some {| uris := 0; props := 0 |}.
Proof. vm_compute. repeat split. Qed.

(** ** Rules for [framed] *)

Section FramedRules.
  Context (F : State -> State -> Prop) `{!Reflexive F, !Transitive F}.

Lemma framed_ret {A} (P : State -> Prop) (a : A) (Q : A -> State -> Prop) :
  (forall s, P s -> Q a s) -> framed F P (ret a) Q.
Proof. intros HQ s HP. split; [reflexivity | by apply HQ]. Qed.

Lemma framed_throw {A} (P : State -> Prop) e (Q : A -> State -> Prop) :
  framed F P (throw e) Q.
Proof. intros s HP. simpl. reflexivity. Qed.

Lemma framed_diverge {A} (P : State -> Prop) (Q : A -> State -> Prop) :
  framed F P diverge Q.
Proof. intros s HP. simpl. reflexivity. Qed.

Lemma framed_bind {A B} (P : State -> Prop) (m : M A) (k : A -> M B)
    (Q1 : A -> State -> Prop) (Q : B -> State -> Prop) :
  framed F P m Q1 ->
  (forall a, framed F (Q1 a) (k a) Q) ->
  framed F P (bind m k) Q.
Proof.
  intros Hm Hk s HP. specialize (Hm s HP). unfold bind.
  destruct (m s) as [[a| |] s1]; [|exact Hm..].
  destruct Hm as [HF HQ1]. specialize (Hk a s1 HQ1).
  destruct (k a s1) as [[b| |] s2].
  - destruct Hk as [HF2 HQ]. split; [by etrans | done].
  - by etrans.
  - by etrans.
Qed.

Lemma framed_conseq {A} (P P' : State -> Prop) (m : M A) (Q Q' : A -> State -> Prop) :
  framed F P' m Q' ->
  (forall s, P s -> P' s) ->
  (forall a s, Q' a s -> Q a s) ->
  framed F P m Q.
Proof.
  intros Hm HP HQ s Hs. specialize (Hm s (HP s Hs)).
  destruct (m s) as [[a| |] s1]; [|exact Hm..].
  destruct Hm. split; auto.
Qed.

(** Facts that survive every [F]-step can be carried over a computation. *)
Lemma framed_stable {A} (R : State -> Prop) (P : State -> Prop) (m : M A)
    (Q : A -> State -> Prop) :
  (forall s s', R s -> F s s' -> R s') ->
  framed F P m Q ->
  framed F (fun s => P s /\ R s) m (fun a s => Q a s /\ R s).
Proof.
  intros HR Hm s [HP Hs]. specialize (Hm s HP).
  destruct (m s) as [[a| |] s1]; [|exact Hm..].
  destruct Hm as [HF HQ]. split; [done|]. split; [done | by eapply HR].
Qed.

Lemma framed_pure {A} (phi : Prop) (P : State -> Prop) (m : M A) (Q : A -> State -> Prop) :
  (phi -> framed F P m Q) -> framed F (fun s => P s /\ phi) m Q.
Proof. intros Hm s [HP Hphi]. by apply Hm. Qed.

Lemma framed_forEach {A} (I : State -> Prop) (f : A -> M unit) (l : list A) :
  (forall x, x ∈ l -> framed F I (f x) (fun _ s => I s)) ->
  framed F I (forEach f l) (fun _ s => I s).
Proof.
  induction l as [|x l IH]; intros Hf; simpl.
  - by apply framed_ret.
  - eapply framed_bind; [apply Hf; by left|].
    intros u. apply IH. intros y Hy. apply Hf. by right.
Qed.

(** A computation that leaves the state as it is. *)
Lemma framed_reader {A} (P : State -> Prop) (m : M A) (Q : A -> State -> Prop) :
  (forall s, P s -> snd (m s) = s /\ match fst (m s) with Ret a => Q a s | _ => True end) ->
  framed F P m Q.
Proof.
  intros Hm s HP. destruct (Hm s HP) as [Hs HQ].
  destruct (m s) as [[a| |] s1]; simpl in *; subst s1; [by split | reflexivity..].
Qed.

(** The precondition may be inspected at the entry state. *)
Lemma framed_from {A} (P : State -> Prop) (m : M A) (Q : A -> State -> Prop) :
  (forall s0, P s0 -> framed F (eq s0) m Q) -> framed F P m Q.
Proof. intros Hm s HP. by apply (Hm s HP s). Qed.

End FramedRules.

(** ** The store as a set *)

Lemma quad_eqb_eq a b : quad_eqb a b = true <-> a = b.
Proof.
  unfold quad_eqb. rewrite !andb_true_iff, !term_eqb_eq.
  destruct a, b; simpl. split; [by intros [[-> ->] ->] | by intros [= -> -> ->]].
Qed.

Lemma existsb_quad q st : existsb (quad_eqb q) st = true <-> q ∈ st.
Proof.
  rewrite existsb_exists. split.
  - intros (x & Hx & Heq). apply quad_eqb_eq in Heq. subst x. by apply list_elem_of_In.
  - intros Hq. exists q. split; [by apply list_elem_of_In | by apply quad_eqb_eq].
Qed.

Lemma elem_of_storeAdd q q' st : q ∈ storeAdd q' st <-> q = q' \/ q ∈ st.
Proof.
  unfold storeAdd. destruct (existsb (quad_eqb q') st) eqn:E.
  - apply existsb_quad in E. split; [by right | by intros [->|?]].
  - rewrite elem_of_app, list_elem_of_singleton. tauto.
Qed.

Lemma NoDup_storeAdd q st : NoDup st -> NoDup (storeAdd q st).
Proof.
  intros Hnd. unfold storeAdd. destruct (existsb (quad_eqb q) st) eqn:E; [done|].
  apply NoDup_app. split; [done|]. split; [|apply NoDup_singleton].
  intros x Hx Hx'. apply list_elem_of_singleton in Hx'. subst x.
  apply existsb_quad in Hx. congruence.
Qed.

(** ** Decimal numerals *)

Lemma string_of_uint_digit d :
  exists c r, NilZero.string_of_uint d = String c r /\ JsString.isDigit c = true.
Proof. destruct d; simpl; eauto. Qed.

Lemma ofZ_nat_digit (n : nat) :
  exists c r, JsString.ofZ (Z.of_nat n) = String c r /\ JsString.isDigit c = true.
Proof.
  unfold JsString.ofZ. destruct (Z.of_nat n) eqn:E; simpl; [eauto | | lia].
  apply string_of_uint_digit.
Qed.

Lemma indexKeys_digit k n :
  k ∈ indexKeys n -> exists c r, k = String c r /\ JsString.isDigit c = true.
Proof.
  unfold indexKeys. intros Hk. apply list_elem_of_fmap in Hk as (i & -> & _).
  apply ofZ_nat_digit.
Qed.

Lemma not_index_key k c r n :
  k = String c r -> JsString.isDigit c = false ->
  existsb (String.eqb k) (indexKeys n) = false.
Proof.
  intros -> Hc. apply not_true_is_false. intros Hex.
  apply existsb_exists in Hex as (x & Hx & Heq). apply String.eqb_eq in Heq. subst x.
  apply list_elem_of_In, indexKeys_digit in Hx as (c' & r' & [= <- <-] & Hd). congruence.
Qed.

(** ** The identifiers inside a value *)

Section IdsOf.
  Context `{Host}.

Lemma idsOf_field k o v : Obj.get k o = Some v -> idsOf v ⊆ idsOf (JObject o).
Proof.
  intros Hget x Hx. cbn [idsOf]. apply elem_of_app. right.
  apply list_elem_of_In, in_flat_map. exists (k, v).
  split; [apply list_elem_of_In; by apply Obj_get_elem | by apply list_elem_of_In].
Qed.

Lemma idsOf_nth i l : idsOf (nth i l JUndefined) ⊆ idsOf (JArray l).
Proof.
  intros x Hx. cbn [idsOf]. destruct (Nat.lt_ge_cases i (length l)) as [Hi|Hi].
  - apply list_elem_of_In, in_flat_map. exists (nth i l JUndefined).
    split; [by apply nth_In | by apply list_elem_of_In].
  - rewrite nth_overflow in Hx by done. by apply elem_of_nil in Hx.
Qed.

Lemma idsOf_charAt i s : idsOf (charAt i s) = [].
Proof. unfold charAt. by destruct (String.get i s). Qed.

Lemma idsOf_jsGet k v s a s' : jsGet k v s = (Ret a, s') -> idsOf a ⊆ idsOf v.
Proof.
  destruct v as [|str| | | |l|o|]; cbn [jsGet]; try (intros [= <- <-]; by (cbn [idsOf]; apply list_subseteq_nil)).
  - destruct (String.eqb k "length"); [intros [= <- <-]; by (cbn [idsOf]; apply list_subseteq_nil)|].
    destruct (indexOfKey _ _); intros [= <- <-]; [rewrite idsOf_charAt|]; by (cbn [idsOf]; apply list_subseteq_nil).
  - destruct (String.eqb k "length"); [intros [= <- <-]; by (cbn [idsOf]; apply list_subseteq_nil)|].
    destruct (indexOfKey _ _); intros [= <- <-]; [apply idsOf_nth | by (cbn [idsOf]; apply list_subseteq_nil)].
  - intros [= <- <-]. destruct (Obj.get k o) eqn:Hk; [by eapply idsOf_field | by (cbn [idsOf]; apply list_subseteq_nil)].
Qed.

Lemma idsOf_jsIndex i v s a s' : jsIndex i v s = (Ret a, s') -> idsOf a ⊆ idsOf v.
Proof.
  destruct v as [|str| | | |l|o|]; cbn [jsIndex]; try (intros [= <- <-]; by (cbn [idsOf]; apply list_subseteq_nil)).
  - intros [= <- <-]. rewrite idsOf_charAt. apply list_subseteq_nil.
  - intros [= <- <-]. apply idsOf_nth.
  - intros [= <- <-]. destruct (Obj.get _ o) eqn:Hk; [by eapply idsOf_field | by (cbn [idsOf]; apply list_subseteq_nil)].
Qed.

(** The [id] of a value that has one is among its identifiers. *)
Lemma idsOf_own_id v s s1 a s2 :
  jsIn "id" v s = (Ret true, s1) -> jsGet "id" v s1 = (Ret a, s2) ->
  jsToString a ∈ idsOf v.
Proof.
  destruct v as [|str| | | |l|o|]; cbn [jsIn jsGet]; try discriminate.
  - intros [= Hin _]. exfalso.
    rewrite (not_index_key "id" "i" "d" (length l)) in Hin by reflexivity.
    discriminate.
  - intros [= Hin _] [= <- _]. unfold Obj.has in Hin. cbn [idsOf].
    destruct (Obj.get "id" o); [|discriminate]. apply elem_of_app. left. by left.
Qed.

End IdsOf.

(** ** What a build may add to the store *)

Lemma quiet_ret {A} (a : A) : quiet (ret a).
Proof. by intros ?. Qed.
Lemma quiet_throw {A} e : quiet (@throw A e).
Proof. by intros ?. Qed.
Lemma quiet_diverge {A} : quiet (@diverge A).
Proof. by intros ?. Qed.

Lemma quiet_bind {A B} (m : M A) (k : A -> M B) :
  quiet m -> (forall a, quiet (k a)) -> quiet (bind m k).
Proof.
  intros Hm Hk s. specialize (Hm s). unfold bind.
  destruct (m s) as [[a| |] s1]; simpl in Hm; [|exact Hm..].
  destruct (Hk a s1) as [Hst Hmi]. destruct Hm as [Hst' Hmi']. split; congruence.
Qed.

Lemma quiet_cacheLookup ty : quiet (cacheLookup ty).
Proof. by intros ?. Qed.
Lemma quiet_cacheStore ty e : quiet (cacheStore ty e).
Proof. by intros ?. Qed.
Lemma quiet_newPropMap : quiet newPropMap.
Proof. by intros ?. Qed.
Lemma quiet_newUriMap : quiet newUriMap.
Proof. by intros ?. Qed.
Lemma quiet_readPropMap r : quiet (readPropMap r).
Proof. by intros ?. Qed.
Lemma quiet_readUriMap r : quiet (readUriMap r).
Proof. by intros ?. Qed.
Lemma quiet_assignPropMap r src : quiet (assignPropMap r src).
Proof. by intros ?. Qed.
Lemma quiet_assignUriMap r src : quiet (assignUriMap r src).
Proof. by intros ?. Qed.
Lemma quiet_consoleWrite l : quiet (consoleWrite l).
Proof. by intros ?. Qed.
Lemma quiet_getStore : quiet getStore.
Proof. by intros ?. Qed.
Lemma quiet_lookupDef this ty : quiet (lookupDef this ty).
Proof. unfold lookupDef. destruct (Obj.get ty (defs this)); by intros ?. Qed.
Lemma quiet_jsIn k v : quiet (jsIn k v).
Proof. destruct v; by intros ?. Qed.
Lemma quiet_jsGet k v : quiet (jsGet k v).
Proof.
  destruct v; try (by intros ?); unfold jsGet;
    destruct (String.eqb k "length"); try (by intros ?);
    destruct (indexOfKey _ _); by intros ?.
Qed.
Lemma quiet_jsIndex i v : quiet (jsIndex i v).
Proof. destruct v; by intros ?. Qed.
Lemma quiet_jsLength v : quiet (jsLength v).
Proof.
  unfold jsLength. apply quiet_bind; [apply quiet_jsGet|].
  intros [| |[]| | | | |]; apply quiet_ret.
Qed.

#[global] Hint Resolve quiet_ret quiet_throw quiet_diverge quiet_cacheLookup
  quiet_cacheStore quiet_newPropMap quiet_newUriMap quiet_readPropMap quiet_readUriMap
  quiet_assignPropMap quiet_assignUriMap quiet_consoleWrite quiet_getStore
  quiet_lookupDef quiet_jsIn quiet_jsGet quiet_jsIndex quiet_jsLength : codec.

Ltac quiet_step :=
  first
    [ solve [eauto with codec]
    | apply quiet_bind; [|intros ?]
    | progress cbv zeta
    | match goal with
      | |- quiet (match ?x with _ => _ end) => destruct x
      end ].
Ltac solve_quiet := repeat quiet_step.

Lemma quiet_getAllProperties this fuel ty : quiet (getAllProperties this fuel ty).
Proof. revert ty. induction fuel as [|fuel IH]; intros ty; simpl; solve_quiet. Qed.

Lemma quiet_getAllPropertyUris this fuel ty : quiet (getAllPropertyUris this fuel ty).
Proof. revert ty. induction fuel as [|fuel IH]; intros ty; simpl; solve_quiet. Qed.

#[global] Hint Resolve quiet_getAllProperties quiet_getAllPropertyUris : codec.

Lemma quiet_isBeginningOfDay `{Host} d : quiet (isBeginningOfDay d).
Proof. unfold isBeginningOfDay. solve_quiet. Qed.
#[global] Hint Resolve quiet_isBeginningOfDay : codec.

Section BuildFrame.
  Context `{Host} (this : ObjectBuilder) (b : string) (ids : list string) (lo : nat).
  Hypothesis base_nonempty : b <> "".

Local Abbreviation F := (addedUnder b ids lo).

Lemma allowedSubject_mono hi hi' t :
  (hi <= hi')%nat -> allowedSubject b ids lo hi t -> allowedSubject b ids lo hi' t.
Proof.
  intros Hle [Hid | (j & Hj & ->)]; [by left | right].
  exists j. split; [lia | done].
Qed.

#[local] Instance addedUnder_refl : Reflexive F.
Proof. intros s. unfold addedUnder. repeat split; auto. Qed.

#[local] Instance addedUnder_trans : Transitive F.
Proof.
  intros s1 s2 s3 (Hm1 & Hin1 & Hout1 & Hnd1) (Hm2 & Hin2 & Hout2 & Hnd2).
  repeat split; [lia | auto | | auto].
  intros q Hq. destruct (Hout2 q Hq) as [Hq2 | Hq2]; [|by right].
  destruct (Hout1 q Hq2) as [Hq1 | Hq1]; [by left | right].
  by eapply allowedSubject_mono.
Qed.

Lemma atLeast_stable hi s s' : atLeast hi s -> F s s' -> atLeast hi s'.
Proof. unfold atLeast. intros Hs (Hm & _). lia. Qed.

Lemma framed_quiet {A} hi (m : M A) :
  quiet m -> framed F (atLeast hi) m (fun _ => atLeast hi).
Proof.
  intros Hm s Hs. destruct (Hm s) as [Hst Hmi].
  assert (HF : F s (snd (m s))).
  { unfold addedUnder. rewrite Hst, Hmi. repeat split; auto. }
  destruct (m s) as [[a| |] s1]; simpl in *; [|done..].
  split; [done|]. unfold atLeast in *. lia.
Qed.

(** A quiet computation that does not change the state at all, with a fact
    about its result. *)
Lemma framed_quiet_value {A} hi (m : M A) (Q : A -> Prop) :
  quiet m -> (forall s a s', m s = (Ret a, s') -> Q a) ->
  framed F (atLeast hi) m (fun a s => atLeast hi s /\ Q a).
Proof.
  intros Hm HQ s Hs. pose proof (framed_quiet hi m Hm s Hs) as Hf.
  destruct (m s) as [[a| |] s1] eqn:Hms; [|done..].
  destruct Hf. split; [done|]. split; [done|]. by eapply HQ.
Qed.

Lemma framed_addQuad hi q :
  allowedSubject b ids lo hi (subject q) ->
  framed F (atLeast hi) (addQuad q) (fun _ => atLeast hi).
Proof.
  intros Hq s Hs. unfold addQuad. split; [|exact Hs].
  unfold addedUnder. cbn [store minted]. repeat split.
  - lia.
  - intros q' Hq'. apply elem_of_storeAdd. by right.
  - intros q' Hq'. apply elem_of_storeAdd in Hq' as [->|Hq']; [right | by left].
    by eapply allowedSubject_mono.
  - apply NoDup_storeAdd.
Qed.

Lemma framed_freshUuid hi :
  (lo <= hi)%nat ->
  framed F (atLeast hi) freshUuid
         (fun u s => exists j, (hi <= j)%nat /\ u = uuidv4 j /\ atLeast (S j) s).
Proof.
  intros Hlo s Hs. unfold freshUuid. split.
  - unfold addedUnder. cbn [store minted]. repeat split; auto.
  - exists (minted s). unfold atLeast in *. cbn [minted]. repeat split; lia.
Qed.

Lemma minted_allowed j hi :
  (lo <= j < hi)%nat -> allowedSubject b ids lo hi (NamedNode (mintedUri b j)).
Proof. intros Hj. right. by exists j. Qed.

Lemma framed_buildLiteral hi node property ty dkey dval :
  allowedSubject b ids lo hi (NamedNode node) ->
  framed F (atLeast hi) (buildLiteral node property ty dkey dval) (fun _ => atLeast hi).
Proof.
  intros Hnode. unfold buildLiteral.
  destruct (_ || _)%bool.
  - destruct (String.eqb dkey "uuid").
    + destruct dval; first [by apply framed_addQuad | apply (framed_throw F)].
    + by apply framed_addQuad.
  - destruct (String.eqb ty "Date"); [|by apply (framed_ret F)].
    eapply (framed_bind F); [apply framed_quiet, quiet_isBeginningOfDay |].
    intros [|]; [|by apply framed_addQuad].
    destruct dval as [| | | |[t|]| | |];
      first [by apply framed_addQuad | apply (framed_throw F)].
Qed.

Lemma jsIn_pure k v : (exists x, jsIn k v = ret x) \/ jsIn k v = throw typeError.
Proof. destruct v; cbn [jsIn]; eauto. Qed.

Lemma jsGet_pure k v : (exists x, jsGet k v = ret x) \/ jsGet k v = throw typeError.
Proof.
  destruct v; cbn [jsGet]; eauto;
    destruct (String.eqb k "length"); eauto; destruct (indexOfKey _ _); eauto.
Qed.

Lemma jsIndex_pure i v : (exists x, jsIndex i v = ret x) \/ jsIndex i v = throw typeError.
Proof. destruct v; cbn [jsIndex]; eauto. Qed.

Lemma jsLength_pure v : (exists x, jsLength v = ret x) \/ jsLength v = throw typeError.
Proof.
  unfold jsLength. destruct (jsGet_pure "length" v) as [[x ->] | ->]; [left | by right].
  rewrite bind_ret_l. destruct x as [| |[]| | | | |]; eauto.
Qed.

Section Rec.
  Variable rec : string -> string -> JsVal -> string -> M unit.
  Hypothesis rec_ok :
    forall ty node obj hi,
      (lo <= hi)%nat -> allowedSubject b ids lo hi (NamedNode node) -> idsOf obj ⊆ ids ->
      framed F (atLeast hi) (rec ty node obj b) (fun _ => atLeast hi).

Lemma framed_buildObject hi p dval :
  (lo <= hi)%nat -> idsOf dval ⊆ ids ->
  framed F (atLeast hi) (buildObject rec p dval b)
         (fun sub s => exists hi', (hi <= hi')%nat /\ atLeast hi' s
                                   /\ allowedSubject b ids lo hi' (NamedNode sub)).
Proof.
  intros Hlo Hids. unfold buildObject.
  destruct (jsIn_pure "id" dval) as [[hasId HhasId] | ->]; [|apply (framed_throw F)].
  rewrite HhasId, bind_ret_l.
  eapply (framed_bind F) with
    (Q1 := fun sub s => exists hi', (hi <= hi')%nat /\ atLeast hi' s
                                    /\ allowedSubject b ids lo hi' (NamedNode sub)).
  { destruct hasId.
    - destruct (jsGet_pure "id" dval) as [[a Ha] | ->]; [|apply (framed_throw F)].
      rewrite Ha, bind_ret_l. apply (framed_ret F). intros s Hs.
      exists hi. split; [done|]. split; [done|]. left. exists (jsToString a).
      split; [|done]. apply Hids.
      eapply (idsOf_own_id dval initState initState a initState);
        [by rewrite HhasId | by rewrite Ha].
    - eapply (framed_bind F); [by apply framed_freshUuid|].
      intros u. apply (framed_ret F). intros s (j & Hj & -> & Hs).
      exists (S j). split; [lia|]. split; [done|]. apply minted_allowed. lia. }
  intros sub. apply (framed_from F). intros s0 (hi' & Hhi' & Hs0 & Hsub).
  eapply (framed_conseq F) with (P' := atLeast hi')
    (Q' := fun a s => atLeast hi' s /\ a = sub);
    [|by intros s <- | intros a s [Hs ->]; by exists hi'].
  eapply (framed_bind F) with (Q1 := fun _ s => atLeast hi' s).
  { apply framed_quiet. solve_quiet. }
  intros subType. eapply (framed_bind F); [apply rec_ok; [lia | done | done]|].
  intros u. by apply (framed_ret F).
Qed.

Lemma framed_buildListItem hi itemList value dkey dval i :
  (lo <= hi)%nat -> allowedSubject b ids lo hi itemList -> idsOf dval ⊆ ids ->
  framed F (atLeast hi) (buildListItem (buildObject rec) itemList value dkey dval b i)
         (fun _ => atLeast hi).
Proof.
  intros Hlo Hlist Hids. unfold buildListItem.
  eapply (framed_bind F); [by apply framed_freshUuid|].
  intros u. apply (framed_from F). intros s0 (j & Hj & -> & Hs0). cbv zeta.
  fold (mintedUri b j).
  assert (Hitem : allowedSubject b ids lo (S j) (NamedNode (mintedUri b j)))
    by (apply minted_allowed; lia).
  eapply (framed_conseq F) with (P' := atLeast (S j)) (Q' := fun _ => atLeast (S j));
    [|by intros s <- | intros ? s Hs; unfold atLeast in *; lia].
  eapply (framed_bind F).
  { apply framed_addQuad. cbn [subject]. eapply allowedSubject_mono; [|exact Hlist]. lia. }
  intros ?. eapply (framed_bind F); [by apply framed_addQuad|].
  intros ?. destruct (jsIndex_pure i dval) as [[elem Helem] | ->]; [|apply (framed_throw F)].
  rewrite Helem, bind_ret_l.
  assert (Helem_ids : idsOf elem ⊆ ids).
  { etrans; [|exact Hids].
    eapply (idsOf_jsIndex i dval initState elem initState). by rewrite Helem. }
  destruct (isLiteral (type value)).
  - by apply framed_buildLiteral.
  - eapply (framed_bind F); [apply framed_buildObject; [lia | done]|].
    intros sub. apply (framed_from F). intros s1 (hi' & Hhi' & Hs1 & Hsub).
    eapply (framed_conseq F) with (P' := atLeast hi') (Q' := fun _ => atLeast hi');
      [|by intros s <- | intros ? s Hs; unfold atLeast in *; lia].
    apply framed_addQuad. cbn [subject]. eapply allowedSubject_mono; [|exact Hitem]. lia.
Qed.

Lemma framed_buildProperty hi node obj kv :
  (lo <= hi)%nat -> allowedSubject b ids lo hi (NamedNode node) -> idsOf obj ⊆ ids ->
  framed F (atLeast hi) (buildProperty (buildObject rec) node obj b kv)
         (fun _ => atLeast hi).
Proof.
  intros Hlo Hnode Hids. unfold buildProperty. cbv zeta.
  eapply (framed_bind F) with (Q1 := fun _ => atLeast hi).
  { apply framed_quiet. solve_quiet. }
  intros [|]; [by apply (framed_ret F)|].
  destruct (jsGet_pure (fst kv) obj) as [[dval Hdval] | ->]; [|apply (framed_throw F)].
  rewrite Hdval, bind_ret_l.
  assert (Hdval_ids : idsOf dval ⊆ ids).
  { etrans; [|exact Hids].
    eapply (idsOf_jsGet (fst kv) obj initState dval initState). by rewrite Hdval. }
  eapply (framed_bind F) with (Q1 := fun _ => atLeast hi).
  { apply framed_quiet. solve_quiet. }
  intros len. destruct (match len with Some n => 1 <? n | None => false end).
  - eapply (framed_bind F); [by apply framed_freshUuid|].
    intros u. apply (framed_from F). intros s0 (j & Hj & -> & Hs0).
    fold (mintedUri b j).
    assert (Hlist : allowedSubject b ids lo (S j) (NamedNode (mintedUri b j)))
      by (apply minted_allowed; lia).
    eapply (framed_conseq F) with (P' := atLeast (S j)) (Q' := fun _ => atLeast (S j));
      [|by intros s <- | intros ? s Hs; unfold atLeast in *; lia].
    eapply (framed_bind F); [by apply framed_addQuad|].
    intros ?. eapply (framed_bind F).
    { apply framed_addQuad. cbn [subject]. eapply allowedSubject_mono; [|exact Hnode]. lia. }
    intros ?. apply (framed_forEach F). intros i _.
    apply framed_buildListItem; [lia | done | done].
  - destruct (isArray (snd kv)).
    + destruct (jsIndex_pure 0 dval) as [[elem Helem] | ->]; [|apply (framed_throw F)].
      rewrite Helem, bind_ret_l.
      assert (Helem_ids : idsOf elem ⊆ ids).
      { etrans; [|exact Hdval_ids].
        eapply (idsOf_jsIndex 0 dval initState elem initState). by rewrite Helem. }
      destruct (isLiteral (type (snd kv))); [by apply framed_buildLiteral|].
      eapply (framed_bind F); [by apply framed_buildObject|].
      intros sub. apply (framed_from F). intros s1 (hi' & Hhi' & Hs1 & Hsub).
      eapply (framed_conseq F) with (P' := atLeast hi') (Q' := fun _ => atLeast hi');
        [|by intros s <- | intros ? s Hs; unfold atLeast in *; lia].
      apply framed_addQuad. cbn [subject]. eapply allowedSubject_mono; [|exact Hnode]. lia.
    + rewrite bind_ret_l.
      destruct (isLiteral (type (snd kv))); [by apply framed_buildLiteral|].
      eapply (framed_bind F); [by apply framed_buildObject|].
      intros sub. apply (framed_from F). intros s1 (hi' & Hhi' & Hs1 & Hsub).
      eapply (framed_conseq F) with (P' := atLeast hi') (Q' := fun _ => atLeast hi');
        [|by intros s <- | intros ? s Hs; unfold atLeast in *; lia].
      apply framed_addQuad. cbn [subject]. eapply allowedSubject_mono; [|exact Hnode]. lia.
Qed.

End Rec.

Lemma framed_buildResource fuel ty node obj hi :
  (lo <= hi)%nat -> allowedSubject b ids lo hi (NamedNode node) -> idsOf obj ⊆ ids ->
  framed F (atLeast hi) (buildResource this fuel ty node obj b) (fun _ => atLeast hi).
Proof.
  revert ty node obj hi.
  induction fuel as [|fuel IH]; intros ty node obj hi Hlo Hnode Hids; cbn [buildResource].
  - apply (framed_diverge F).
  - eapply (framed_bind F) with (Q1 := fun _ => atLeast hi).
    { apply framed_quiet. solve_quiet. }
    intros def. eapply (framed_bind F); [by apply framed_addQuad|].
    intros ?. eapply (framed_bind F) with (Q1 := fun _ => atLeast hi).
    { apply framed_quiet. solve_quiet. }
    intros c. eapply (framed_bind F) with (Q1 := fun _ => atLeast hi).
    { apply framed_quiet. solve_quiet. }
    intros allProps. cbv zeta.
    assert ((if String.eqb b "" then node else b) = b) as ->.
    { destruct (String.eqb b "") eqn:E; [|done]. by apply String.eqb_eq in E. }
    eapply (framed_bind F) with (Q1 := fun _ => atLeast hi).
    { apply framed_quiet. solve_quiet. }
    intros entries. apply (framed_forEach F). intros kv _.
    by apply framed_buildProperty.
Qed.

End BuildFrame.

(** ** Sorting by position *)

Lemma filter_singleton {A} (f : A -> bool) (l : list A) (x : A) :
  NoDup l -> x ∈ l -> f x = true -> (forall y, y ∈ l -> f y = true -> y = x) ->
  filter f l = [x].
Proof.
  intros Hnd Hx Hfx Huniq.
  assert (Hnd' : NoDup (filter f l)) by (by apply NoDup_filter).
  assert (Hin : x ∈ filter f l) by (apply list_elem_of_filter; split; [by rewrite Hfx | done]).
  assert (Hall : forall y, y ∈ filter f l -> y = x).
  { intros y Hy. apply list_elem_of_filter in Hy as [Hfy Hy].
    apply Huniq; [done | by apply Is_true_true]. }
  destruct (filter f l) as [|y [|z r]].
  - by apply elem_of_nil in Hin.
  - f_equal. apply Hall. by left.
  - exfalso. apply NoDup_cons in Hnd' as [Hy _]. apply Hy.
    rewrite (Hall y) by (by left). rewrite (Hall z) by (right; by left). by left.
Qed.

Lemma getQuads_singleton st s p x :
  NoDup st -> x ∈ st -> subject x = s -> predicate x = p ->
  (forall q, q ∈ st -> subject q = s -> predicate q = p -> q = x) ->
  getQuads st (Some s) (Some p) None = [x].
Proof.
  intros Hnd Hx Hs Hp Huniq. unfold getQuads.
  apply (filter_singleton (fun q => matchTerm (Some s) (subject q)
                                    && matchTerm (Some p) (predicate q)
                                    && matchTerm None (object q))%bool); [done..| |].
  - rewrite !matchTerm_Some, matchTerm_None, Hs, Hp, !term_eqb_refl. reflexivity.
  - intros q Hq Hf. rewrite !matchTerm_Some, matchTerm_None in Hf.
    apply andb_true_iff in Hf as [Hf _]. apply andb_true_iff in Hf as [Hqs Hqp].
    apply term_eqb_eq in Hqs, Hqp. by apply Huniq.
Qed.

Lemma positionLe_Some x y (t u : Term) : positionLe (Some x, t) (Some y, u) <-> x <= y.
Proof.
  unfold positionLe, comparePosition, numLt. cbn [fst].
  destruct (x <? y) eqn:E1; [apply Z.ltb_lt in E1; split; lia|].
  destruct (y <? x) eqn:E2; [apply Z.ltb_lt in E2; split; lia|].
  apply Z.ltb_ge in E1, E2. split; lia.
Qed.

Lemma sortInsert_sorted (x : option Z * Term) l :
  is_Some (fst x) -> Forall (fun y => is_Some (fst y)) l ->
  StronglySorted positionLe l ->
  StronglySorted positionLe (sortInsert comparePosition x l).
Proof.
  intros [px Hx] Hall Hsorted. destruct x as [ox tx]. cbn [fst] in Hx. subst ox.
  induction Hsorted as [|[oy ty] l Hsorted IH Hy]; simpl.
  - repeat constructor.
  - apply Forall_cons in Hall as [[py Hpy] Hall]. cbn [fst] in Hpy. subst oy.
    destruct (comparePosition (Some px, tx) (Some py, ty) <=? 0) eqn:E.
    + apply Z.leb_le in E. constructor; [by constructor|].
      constructor; [exact E|].
      rewrite Forall_forall in Hy, Hall |- *. intros [oz tz] Hz.
      destruct (Hall _ Hz) as [pz Hpz]. cbn [fst] in Hpz. subst oz.
      specialize (Hy _ Hz). apply positionLe_Some in Hy.
      apply (positionLe_Some px py tx ty) in E. apply positionLe_Some. lia.
    + apply Z.leb_gt in E. constructor; [by apply IH|].
      rewrite sortInsert_Permutation. constructor; [|done].
      apply positionLe_Some.
      assert (~ px <= py) by (intros Hle; apply (positionLe_Some px py tx ty) in Hle;
                               unfold positionLe in Hle; lia).
      lia.
Qed.

Lemma jsSort_sorted (l : list (option Z * Term)) :
  Forall (fun y => is_Some (fst y)) l ->
  StronglySorted positionLe (jsSort comparePosition l).
Proof.
  induction 1 as [|x l Hx Hl IH]; simpl; [constructor|].
  apply sortInsert_sorted; [done | | done].
  by rewrite jsSort_Permutation.
Qed.

Lemma positioned_cons from t terms :
  positioned from (t :: terms) = (Some (Z.of_nat from), t) :: positioned (S from) terms.
Proof.
  unfold positioned. cbn [imap]. rewrite Nat.add_0_r. f_equal.
  apply imap_ext. intros j x _. simpl. f_equal. f_equal. lia.
Qed.

Lemma positioned_elem from terms p :
  p ∈ positioned from terms ->
  exists j t, terms !! j = Some t /\ p = (Some (Z.of_nat (from + j)), t).
Proof.
  unfold positioned. intros Hp. apply elem_of_lookup_imap in Hp as (j & t & -> & Ht).
  by exists j, t.
Qed.

Lemma positioned_sorted from terms : StronglySorted positionLe (positioned from terms).
Proof.
  revert from. induction terms as [|t terms IH]; intros from.
  - constructor.
  - rewrite positioned_cons. constructor; [apply IH|].
    rewrite Forall_forall. intros p Hp.
    apply positioned_elem in Hp as (j & u & _ & ->). apply positionLe_Some. lia.
Qed.

Lemma jsSort_positioned from terms l :
  l ≡ₚ positioned from terms ->
  jsSort comparePosition l = positioned from terms.
Proof.
  intros Hperm.
  assert (Hsome : Forall (fun y => is_Some (fst y)) l).
  { rewrite Forall_forall. intros p Hp. rewrite Hperm in Hp.
    apply positioned_elem in Hp as (j & t & _ & ->). by eexists. }
  apply (StronglySorted_unique_strong positionLe).
  - intros p1 p2 Hp1 Hp2 H12 H21.
    rewrite jsSort_Permutation, Hperm in Hp1.
    pose proof Hp1 as Hp1'. pose proof Hp2 as Hp2'.
    apply positioned_elem in Hp1' as (j1 & t1 & Ht1 & ->).
    apply positioned_elem in Hp2' as (j2 & t2 & Ht2 & ->).
    apply positionLe_Some in H12, H21.
    assert (j1 = j2) by lia. subst j2. congruence.
  - by apply jsSort_sorted.
  - apply positioned_sorted.
  - by rewrite jsSort_Permutation.
Qed.

Lemma decDigits_digit a c r :
  JsString.isDigit c = true ->
  JsString.decDigits (Some a) (String c r)
  = JsString.decDigits (Some (10 * a + JsString.digitVal c)) r.
Proof. intros Hc. cbn [JsString.decDigits]. by rewrite Hc. Qed.

Lemma decDigits_acc d p :
  JsString.decDigits (Some (Z.pos p)) (NilEmpty.string_of_uint d)
  = (Some (Z.pos (Pos.of_uint_acc d p)), "").
Proof.
  revert p. induction d as [|d IH|d IH|d IH|d IH|d IH|d IH|d IH|d IH|d IH|d IH];
    intros p; [reflexivity|..]; cbn [NilEmpty.string_of_uint Pos.of_uint_acc];
    rewrite decDigits_digit by reflexivity; rewrite <- IH; f_equal; f_equal;
    unfold JsString.digitVal; simpl; lia.
Qed.

Lemma decDigits_zero d :
  JsString.decDigits (Some 0) (NilEmpty.string_of_uint d)
  = (Some (Z.of_N (Pos.of_uint d)), "").
Proof.
  induction d as [|d IH|d IH|d IH|d IH|d IH|d IH|d IH|d IH|d IH|d IH];
    [reflexivity | exact IH | ..]; cbn [NilEmpty.string_of_uint Pos.of_uint Z.of_N];
    rewrite decDigits_digit by reflexivity; rewrite <- decDigits_acc; reflexivity.
Qed.

Lemma parseInt_numeral d :
  d <> Nil ->
  JsString.parseInt (NilEmpty.string_of_uint d) = Some (Z.of_N (Pos.of_uint d)).
Proof.
  intros Hd.
  assert (Hparse : JsString.parseInt (NilEmpty.string_of_uint d)
                   = JsString.applySign false
                       <$> fst (JsString.decDigits (Some 0) (NilEmpty.string_of_uint d))).
  { destruct d as [|d|d|d|d|d|d|d|d|d|d]; [done|..]; destruct d; reflexivity. }
  rewrite Hparse, decDigits_zero. reflexivity.
Qed.

Lemma parseInt_ofZ (n : nat) : JsString.parseInt (JsString.ofZ (Z.of_nat n)) = Some (Z.of_nat n).
Proof.
  unfold JsString.ofZ. destruct (Z.of_nat n) as [|p|p] eqn:E; [reflexivity | | lia].
  cbn [Z.to_int NilZero.string_of_int]. unfold NilZero.string_of_uint.
  pose proof (DecimalPos.Unsigned.to_uint_nonnil p) as Hnil.
  destruct (Pos.to_uint p) eqn:Hd; [done|..]; rewrite <- Hd in *;
    rewrite parseInt_numeral by (rewrite Hd; discriminate);
    by rewrite DecimalPos.Unsigned.of_to.
Qed.

(** ** A list in the store and what [decodeArray] collects from it *)

Lemma quad_eta q : quad (subject q) (predicate q) (object q) = q.
Proof. by destruct q. Qed.

Lemma itemAt_perm st st' L j it : st ≡ₚ st' -> itemAt st L j it -> itemAt st' L j it.
Proof.
  intros Hperm (H1 & H2 & H3 & H4 & H5). unfold itemAt.
  setoid_rewrite <- Hperm. done.
Qed.

Lemma listShape_perm st st' L items :
  st ≡ₚ st' -> listShape st L items -> listShape st' L items.
Proof.
  intros Hperm (Hnd & Hel & Hit). split; [done|]. split.
  - intros q Hq. rewrite <- Hperm in Hq. by apply Hel.
  - intros j it Hj. eapply itemAt_perm; [done | by apply Hit].
Qed.

Lemma collect_item st L j it :
  NoDup st -> itemAt st L j it ->
  collectListItems st [quad L (NamedNode schema_itemListElement) (fst it)]
  = [(Some (Z.of_nat j), snd it)].
Proof.
  intros Hnd (_ & Hpos & Hpos1 & Hitem & Hitem1).
  unfold collectListItems. cbn [flat_map object]. rewrite app_nil_r.
  rewrite (getQuads_singleton st (fst it) (NamedNode schema_position) _ Hnd Hpos)
    by done.
  rewrite (getQuads_singleton st (fst it) (NamedNode schema_item) _ Hnd Hitem)
    by done.
  cbn [object positionLiteral termValue]. by rewrite parseInt_ofZ.
Qed.

Lemma collect_items st L from items :
  NoDup st ->
  (forall j it, items !! j = Some it -> itemAt st L (from + j) it) ->
  collectListItems st (map (fun it => quad L (NamedNode schema_itemListElement) (fst it)) items)
  = positioned from (map snd items).
Proof.
  intros Hnd. revert from. induction items as [|it items IH]; intros from Hitems.
  - reflexivity.
  - cbn [map]. rewrite collect_cons, positioned_cons.
    rewrite (collect_item st L from it Hnd).
    2:{ specialize (Hitems 0%nat it eq_refl). by rewrite Nat.add_0_r in Hitems. }
    cbn [app]. f_equal. apply IH. intros j it' Hj.
    specialize (Hitems (S j) it' Hj). by rewrite Nat.add_succ_r in Hitems.
Qed.

Lemma elements_of_shape st L items :
  NoDup st -> listShape st L items ->
  getQuads st (Some L) (Some (NamedNode schema_itemListElement)) None
  ≡ₚ map (fun it => quad L (NamedNode schema_itemListElement) (fst it)) items.
Proof.
  intros Hnd (Hnd' & Hel & Hit). apply NoDup_Permutation.
  - by apply NoDup_filter.
  - apply NoDup_fmap_2_strong; [|].
    + intros it1 it2 H1 H2 [= Heq].
      apply list_elem_of_lookup in H1 as [j1 H1], H2 as [j2 H2].
      assert (j1 = j2).
      { eapply NoDup_lookup; [exact Hnd' | |]; rewrite list_lookup_fmap.
        - by rewrite H1.
        - rewrite H2. simpl. by rewrite Heq. }
      congruence.
    + clear -Hnd'. induction items as [|it items IH]; [constructor|].
      cbn [map] in Hnd'. apply NoDup_cons in Hnd' as [Hit Hnd'].
      apply NoDup_cons. split; [|by apply IH].
      intros Hin. apply Hit. apply list_elem_of_fmap. by exists it.
  - intros q. rewrite getQuads_elem, !matchTerm_Some, matchTerm_None, !term_eqb_eq.
    rewrite list_elem_of_fmap. split.
    + intros (Hq & Hs & Hp & _). destruct (Hel q Hq (eq_sym Hs) (eq_sym Hp)) as (it & Hin & Hobj).
      exists it. split; [|done]. rewrite <- (quad_eta q). by rewrite <- Hs, <- Hp, Hobj.
    + intros (it & -> & Hin). apply list_elem_of_lookup in Hin as [j Hj].
      destruct (Hit j it Hj) as (Hq & _). by repeat split.
Qed.

Lemma collect_Permutation st vals vals' :
  vals ≡ₚ vals' -> collectListItems st vals ≡ₚ collectListItems st vals'.
Proof. intros Hperm. unfold collectListItems. by apply Permutation_flat_map. Qed.

(** Whatever the enumeration order, the sorted pairs are the items in the
    order of their positions. *)
Lemma sorted_items_of_shape st L items :
  NoDup st -> listShape st L items ->
  jsSort comparePosition
    (collectListItems st
       (getQuads st (Some L) (Some (NamedNode schema_itemListElement)) None))
  = positioned 0 (map snd items).
Proof.
  intros Hnd Hshape. apply jsSort_positioned.
  rewrite (collect_Permutation st _ _ (elements_of_shape st L items Hnd Hshape)).
  rewrite (collect_items st L 0 items Hnd); [done|].
  intros j it Hj. destruct Hshape as (_ & _ & Hit). by apply Hit.
Qed.

(** ** Building an array property *)

Lemma append_inj_l (p x y : string) : p +:+ x = p +:+ y -> x = y.
Proof. induction p as [|c p IH]; simpl; [done|]. intros [= Heq]. by apply IH. Qed.

Lemma framed_run {A} (F : State -> State -> Prop) (P : State -> Prop) (m : M A)
    (Q : A -> State -> Prop) s a s' :
  framed F P m Q -> P s -> m s = (Ret a, s') -> F s s' /\ Q a s'.
Proof. intros Hm HP Hrun. specialize (Hm s HP). by rewrite Hrun in Hm. Qed.

Section ArrayBuild.
  Context `{Host} (this : ObjectBuilder) (b : string).
  Hypothesis base_nonempty : b <> "".
  Hypothesis uuid_inj : forall i j, uuidv4 i = uuidv4 j -> i = j.

Lemma mintedUri_inj i j : mintedUri b i = mintedUri b j -> i = j.
Proof.
  unfold mintedUri. intros Heq. apply append_inj_l in Heq.
  apply (append_inj_l "#") in Heq. by apply uuid_inj.
Qed.

Lemma buildLiteral_object node property ty dkey dval :
  buildLiteral node property ty dkey dval
  = match literalObject ty dkey dval with
    | Some t => addQuad (quad (NamedNode node) (NamedNode property) t)
    | None => if isLiteral ty then throw typeError else ret tt
    end.
Proof.
  unfold buildLiteral, literalObject, isLiteral.
  destruct (String.eqb ty "string"), (String.eqb ty "number"), (String.eqb ty "boolean");
    cbn [orb]; try (destruct (String.eqb dkey "uuid"); [by destruct dval | done]).
  destruct (String.eqb ty "Date"); [|done].
  destruct dval as [| | | |[t|]| | |]; try reflexivity.
  cbn [isBeginningOfDay]. rewrite bind_ret_l. by destruct (startOfLocalDay t =? t).
Qed.

Lemma freshFrom_addedUnder ids lo s s' :
  foreignIds b ids -> freshFrom b (minted s) (store s) ->
  addedUnder b ids lo s s' -> freshFrom b (minted s') (store s').
Proof.
  intros Hforeign Hfresh (Hm & _ & Hout & _) q Hq j Hj.
  destruct (Hout q Hq) as [Hold | [(x & Hx & ->) | (j' & Hj' & ->)]].
  - apply Hfresh; [done | lia].
  - intros [= Heq]. by eapply Hforeign.
  - intros [= Heq]. apply mintedUri_inj in Heq. lia.
Qed.

Lemma framed_buildObject_rec ids lo fuel hi p dval :
  (lo <= hi)%nat -> idsOf dval ⊆ ids ->
  framed (addedUnder b ids lo) (atLeast hi)
         (buildObject (buildResource this fuel) p dval b)
         (fun sub s => exists hi', (hi <= hi')%nat /\ atLeast hi' s
                                   /\ allowedSubject b ids lo hi' (NamedNode sub)).
Proof.
  apply framed_buildObject. intros ty node obj hi'.
  by apply framed_buildResource.
Qed.

Lemma storeAdd_idem q st : storeAdd q (storeAdd q st) = storeAdd q st.
Proof.
  unfold storeAdd at 1. assert (Hin : q ∈ storeAdd q st) by (apply elem_of_storeAdd; by left).
  apply existsb_quad in Hin. by rewrite Hin.
Qed.

Lemma addQuad_twice {B} q (k : unit -> M B) s :
  bind (addQuad q) k (snd (addQuad q s)) = bind (addQuad q) k s.
Proof. unfold bind, addQuad. cbn. by rewrite storeAdd_idem. Qed.

(** A build that returns has typed its node. *)
Lemma buildResource_type_quad fuel ty node obj s s' :
  buildResource this fuel ty node obj b s = (Ret tt, s') ->
  exists d, Obj.get ty (defs this) = Some d
            /\ quad (NamedNode node) (NamedNode rdf_type) (NamedNode (def_uri d)) ∈ store s'.
Proof.
  intros Hrun. destruct fuel as [|fuel]; [discriminate|].
  destruct (Obj.get ty (defs this)) as [d|] eqn:Hd; cycle 1.
  { cbn [buildResource] in Hrun. unfold lookupDef in Hrun. by rewrite Hd in Hrun. }
  exists d. split; [done|].
  set (q := quad (NamedNode node) (NamedNode rdf_type) (NamedNode (def_uri d))).
  assert (Hsame : buildResource this (S fuel) ty node obj b (snd (addQuad q s))
                  = buildResource this (S fuel) ty node obj b s).
  { cbn [buildResource]. unfold lookupDef. rewrite Hd, !bind_ret_l.
    apply (addQuad_twice q). }
  rewrite Hrun in Hsame.
  destruct (framed_run _ _ _ _ _ _ _
              (framed_buildResource this b (node :: idsOf obj) (minted s) base_nonempty
                 (S fuel) ty node obj (minted s) (le_n _)
                 (or_introl (ex_intro _ node (conj (list_elem_of_here _ _) eq_refl)))
                 (fun x Hx => list_elem_of_further _ _ _ Hx))
              (le_n _ : atLeast (minted s) (snd (addQuad q s))) Hsame)
    as [(_ & Hkeep & _) _].
  apply Hkeep. cbn [addQuad snd store]. apply elem_of_storeAdd. by left.
Qed.

Lemma id_not_index n : existsb (String.eqb "id") (indexKeys n) = false.
Proof.
  destruct (existsb _ _) eqn:E; [|done]. apply existsb_exists in E as (k & Hk & Heq).
  apply String.eqb_eq in Heq. subst k. apply list_elem_of_In, indexKeys_digit in Hk
    as (c & r & [= <- _] & Hc). discriminate.
Qed.

Lemma type_not_index n : existsb (String.eqb "type") (indexKeys n) = false.
Proof.
  destruct (existsb _ _) eqn:E; [|done]. apply existsb_exists in E as (k & Hk & Heq).
  apply String.eqb_eq in Heq. subst k. apply list_elem_of_In, indexKeys_digit in Hk
    as (c & r & [= <- _] & Hc). discriminate.
Qed.

(** Where [buildObject] builds a value, and as what. *)
Lemma buildObject_built fuel p e s sub s' :
  buildObject (buildResource this fuel) p e b s = (Ret sub, s') ->
  sub = subjectOf b (minted s) e
  /\ exists d, Obj.get (subTypeOf p e) (defs this) = Some d
               /\ quad (NamedNode sub) (NamedNode rdf_type) (NamedNode (def_uri d)) ∈ store s'.
Proof.
  unfold buildObject. intros Hrun.
  apply bind_inv_Ret in Hrun as (hasId & s1 & HhasId & Hrun).
  apply bind_inv_Ret in Hrun as (sub' & s2 & Hsub & Hrun).
  apply bind_inv_Ret in Hrun as (subType & s3 & Hty & Hrun).
  apply bind_inv_Ret in Hrun as ([] & s4 & Hbuild & Hret).
  injection Hret as <- <-.
  assert (Hnode : sub' = subjectOf b (minted s) e /\ s1 = s).
  { destruct e as [| | | | |l|o|]; cbn [jsIn] in HhasId; try discriminate;
      injection HhasId as <- <-; cbn [subjectOf].
    - injection Hsub as <- _. done.
    - change (String.eqb "id" "length") with false in Hsub. cbn [orb] in Hsub.
      rewrite id_not_index in Hsub. injection Hsub as <- _. done.
    - unfold Obj.has in Hsub. destruct (Obj.get "id" o) as [i|] eqn:Hid.
      + cbn [jsGet] in Hsub. rewrite Hid in Hsub. injection Hsub as <- _. done.
      + injection Hsub as <- _. done. }
  destruct Hnode as [-> ->]. split; [done|].
  assert (HsubType : subType = subTypeOf p e).
  { unfold subTypeOf. destruct (isMultiType p); [|by injection Hty as <- _].
    apply bind_inv_Ret in Hty as (hasType & s5 & HhasType & Hty).
    destruct e as [| | | | |l|o|]; cbn [jsIn] in HhasType; try discriminate;
      injection HhasType as <- <-.
    - apply bind_inv_Ret in Hty as (? & ? & _ & Hty). by injection Hty as <- _.
    - change (String.eqb "type" "length") with false in Hty. cbn [orb] in Hty.
      rewrite type_not_index in Hty.
      apply bind_inv_Ret in Hty as (? & ? & _ & Hty). by injection Hty as <- _.
    - unfold Obj.has in Hty. destruct (Obj.get "type" o) as [t|] eqn:Ht.
      + cbn [jsGet] in Hty. rewrite Ht in Hty. by injection Hty as <- _.
      + apply bind_inv_Ret in Hty as (? & ? & _ & Hty). by injection Hty as <- _. }
  subst subType. by eapply buildResource_type_quad.
Qed.

(** The effect of one iteration of the loop over the elements. *)
Lemma buildListItem_effect fuel itemList value dkey dval i s s' :
  let k := minted s in
  let item := NamedNode (mintedUri b k) in
  buildListItem (buildObject (buildResource this fuel)) itemList value dkey dval b i s
    = (Ret tt, s') ->
  exists elem t,
    jsIndex i dval = ret elem
    /\ (isLiteral (type value) = true -> literalObject (type value) dkey elem = Some t)
    /\ (isLiteral (type value) = false ->
        exists d, t = NamedNode (subjectOf b (S k) elem)
                  /\ Obj.get (subTypeOf value elem) (defs this) = Some d
                  /\ quad t (NamedNode rdf_type) (NamedNode (def_uri d)) ∈ store s')
    /\ (minted s < minted s')%nat
    /\ (forall q, q ∈ store s -> q ∈ store s')
    /\ quad itemList (NamedNode schema_itemListElement) item ∈ store s'
    /\ quad item (NamedNode schema_position) (positionLiteral i) ∈ store s'
    /\ quad item (NamedNode schema_item) t ∈ store s'
    /\ (forall q, q ∈ store s' ->
          q ∈ store s
          \/ q = quad itemList (NamedNode schema_itemListElement) item
          \/ q = quad item (NamedNode schema_position) (positionLiteral i)
          \/ q = quad item (NamedNode schema_item) t
          \/ allowedSubject b (idsOf dval) (S k) (minted s') (subject q))
    /\ (NoDup (store s) -> NoDup (store s')).
Proof.
  intros k item. unfold buildListItem.
  unfold bind at 1, freshUuid at 1. fold k. fold (mintedUri b k). cbv zeta. fold item.
  unfold bind at 1, addQuad at 1. cbn [store cache propHeap uriHeap minted console].
  unfold bind at 1, addQuad at 1. cbn [store cache propHeap uriHeap minted console].
  change (literal (JNumber (Some (Z.of_nat i)))) with (positionLiteral i).
  set (q_el := quad itemList (NamedNode schema_itemListElement) item).
  set (q_pos := quad item (NamedNode schema_position) (positionLiteral i)).
  set (s3 := {| store := storeAdd q_pos (storeAdd q_el (store s)); cache := cache s;
                propHeap := propHeap s; uriHeap := uriHeap s; minted := S k;
                console := console s |}).
  destruct (jsIndex_pure i dval) as [[elem Helem] | ->]; [|discriminate].
  rewrite Helem, bind_ret_l.
  assert (Hs3 : forall q, q ∈ store s3 <-> q = q_pos \/ q = q_el \/ q ∈ store s).
  { intros q. unfold s3. cbn [store]. by rewrite !elem_of_storeAdd. }
  assert (Hnd3 : NoDup (store s) -> NoDup (store s3)).
  { intros Hnd. unfold s3. cbn [store]. by do 2 apply NoDup_storeAdd. }
  destruct (isLiteral (type value)) eqn:Hlit.
  - rewrite buildLiteral_object, Hlit.
    destruct (literalObject (type value) dkey elem) as [t|] eqn:Hobj; [|discriminate].
    unfold addQuad. intros [= <-]. exists elem, t. cbn [store minted s3].
    fold q_el q_pos.
    split; [done|]. split; [done|]. split; [done|]. split; [lia|].
    repeat setoid_rewrite elem_of_storeAdd.
    split; [by auto 7|]. split; [by auto 7|]. split; [by auto 7|]. split; [by auto 7|].
    split; [|intros Hnd; by do 3 apply NoDup_storeAdd].
    intros q [->|[->|[->|Hq]]]; auto 7.
  - destruct (buildObject (buildResource this fuel) value elem b s3)
      as [[sub| |] s4] eqn:Hbuild; unfold bind at 1; rewrite Hbuild; [|discriminate..].
    unfold addQuad. intros [= <-]. cbn [store minted].
    assert (Hids : idsOf elem ⊆ idsOf dval).
    { eapply (idsOf_jsIndex i dval initState elem initState). by rewrite Helem. }
    destruct (framed_run _ _ _ _ s3 sub s4
                (framed_buildObject_rec (idsOf dval) (S k) fuel (S k) value elem
                   (le_n _) Hids))
      as [(Hm4 & Hin4 & Hout4 & Hnd4) _]; [unfold atLeast, s3; cbn; lia | done |].
    exists elem, (NamedNode sub). fold q_el q_pos.
    split; [done|]. split; [done|].
    split.
    { intros _. destruct (buildObject_built _ _ _ _ _ _ Hbuild) as (Hsub & d & Hd & Hq).
      exists d. change (minted s3) with (S k) in Hsub. split; [by rewrite Hsub|].
      split; [done|]. cbn [store]. apply elem_of_storeAdd. by right. }
    split; [unfold s3 in Hm4; cbn in Hm4; lia|].
    repeat setoid_rewrite elem_of_storeAdd.
    split; [intros q Hq; right; apply Hin4, Hs3; auto|].
    split; [right; apply Hin4, Hs3; auto|].
    split; [right; apply Hin4, Hs3; auto|].
    split; [by left|].
    split; [|intros Hnd; by apply NoDup_storeAdd, Hnd4, Hnd3].
    intros q [->|Hq]; [by auto|].
    destruct (Hout4 q Hq) as [Hq3 | Hallowed]; [|by auto 6].
    apply Hs3 in Hq3 as [->|[->|Hq3]]; auto.
Qed.

Lemma ret_inj {A} (a a' : A) : @ret A a = ret a' -> a = a'.
Proof. intros Heq. apply (f_equal (fun m => m initState)) in Heq. by injection Heq. Qed.

Lemma schema_item_ne_position : NamedNode schema_item <> NamedNode schema_position.
Proof. discriminate. Qed.

Lemma listInv_step fuel k0 value dkey elems s items s' :
  foreignIds b (idsOf (JArray elems)) ->
  listInv this b k0 value dkey elems s items ->
  buildListItem (buildObject (buildResource this fuel)) (NamedNode (mintedUri b k0))
                value dkey (JArray elems) b (length items) s = (Ret tt, s') ->
  exists it, listInv this b k0 value dkey elems s' (items ++ [it])
             /\ (forall q, q ∈ store s -> q ∈ store s').
Proof.
  intros Hforeign (Hshape & Hnd & Hfresh & Hk0 & Hbound & Helems) Hrun.
  destruct Hshape as (Hnodes & Hels & Hitems).
  apply buildListItem_effect in Hrun
    as (elem & t & Helem & Hlit & Hres & Hm & Hmono & Hel & Hpos & Hitem & Hout & Hnd').
  cbn [jsIndex] in Helem. apply ret_inj in Helem. subst elem.
  set (k := minted s) in *. set (L := NamedNode (mintedUri b k0)) in *.
  set (I := NamedNode (mintedUri b k)) in *.
  set (q_el := quad L (NamedNode schema_itemListElement) I) in *.
  set (q_pos := quad I (NamedNode schema_position) (positionLiteral (length items))) in *.
  set (q_item := quad I (NamedNode schema_item) t) in *.
  assert (Hcases : forall q kT, q ∈ store s' -> (kT <= k)%nat ->
            subject q = NamedNode (mintedUri b kT) ->
            q ∈ store s \/ q = q_el \/ q = q_pos \/ q = q_item).
  { intros q kT Hq HkT Hsub.
    destruct (Hout q Hq) as [?|[?|[?|[?|[(x & Hx & Hxs)|(j & Hj & Hjs)]]]]]; auto.
    - exfalso. rewrite Hsub in Hxs. injection Hxs as Hxs. by eapply Hforeign.
    - exfalso. rewrite Hsub in Hjs. injection Hjs as Hjs. apply mintedUri_inj in Hjs. lia. }
  assert (HLI : L <> I).
  { intros [= Heq]. apply mintedUri_inj in Heq. lia. }
  assert (Hold : forall it, it ∈ items -> fst it <> I /\ fst it <> L
                   /\ exists k', (k' <= k)%nat /\ fst it = NamedNode (mintedUri b k')).
  { intros it Hit. destruct (Hbound it Hit) as (k' & Hk' & Hfst). rewrite Hfst.
    split; [|split; [|exists k'; split; [lia | done]]];
      intros [= Heq]; apply mintedUri_inj in Heq; lia. }
  exists (I, t). split; [|exact Hmono]. unfold listInv. split; [split; [|split]|].
  - rewrite map_app. apply NoDup_app. split; [done|]. split; [|apply NoDup_singleton].
    intros x Hx Hx'. apply list_elem_of_singleton in Hx'. subst x.
    apply list_elem_of_fmap in Hx as (it & Heq & Hit). destruct (Hold it Hit) as [HnI _].
    by apply HnI.
  - intros q Hq Hsub Hpred.
    destruct (Hcases q k0 Hq ltac:(lia) Hsub) as [Hq0 | [-> | [-> | ->]]].
    + destruct (Hels q Hq0 Hsub Hpred) as (it & Hit & Hobj).
      exists it. split; [apply elem_of_app; by left | done].
    + exists (I, t). split; [apply elem_of_app; right; by left | done].
    + by destruct HLI.
    + by destruct HLI.
  - intros j it Hj. apply lookup_app_Some in Hj as [Hj | [Hlen Hj]].
    + destruct (Hitems j it Hj) as (H1 & H2 & H3 & H4 & H5).
      assert (Hit : it ∈ items) by (by eapply list_elem_of_lookup_2).
      destruct (Hold it Hit) as (HnI & HnL & k' & Hk' & Hfst).
      unfold itemAt. split; [by apply Hmono|]. split; [by apply Hmono|].
      split; [|split; [by apply Hmono|]].
      * intros q Hq Hsub Hpred. rewrite Hfst in Hsub.
        destruct (Hcases q k' Hq Hk' Hsub) as [Hq0 | [-> | [-> | ->]]].
        -- apply H3; [done | by rewrite Hfst | done].
        -- cbn in Hsub. rewrite <- Hfst in Hsub. by destruct HnL.
        -- cbn in Hsub. rewrite <- Hfst in Hsub. by destruct HnI.
        -- cbn in Hsub. rewrite <- Hfst in Hsub. by destruct HnI.
      * intros q Hq Hsub Hpred. rewrite Hfst in Hsub.
        destruct (Hcases q k' Hq Hk' Hsub) as [Hq0 | [-> | [-> | ->]]].
        -- apply H5; [done | by rewrite Hfst | done].
        -- cbn in Hsub. rewrite <- Hfst in Hsub. by destruct HnL.
        -- cbn in Hsub. rewrite <- Hfst in Hsub. by destruct HnI.
        -- cbn in Hsub. rewrite <- Hfst in Hsub. by destruct HnI.
    + destruct (j - length items)%nat as [|?] eqn:Hidx; [|done]. injection Hj as <-.
      assert (j = length items) by lia. subst j. cbn [fst snd].
      unfold itemAt. cbn [fst snd]. fold q_el q_pos q_item.
      split; [done|]. split; [done|]. split; [|split; [done|]].
      * intros q Hq Hsub Hpred.
        destruct (Hcases q k Hq (le_n _) Hsub) as [Hq0 | [-> | [-> | ->]]].
        -- exfalso. by apply (Hfresh q Hq0 k (le_n _)).
        -- cbn in Hsub. by destruct HLI.
        -- done.
        -- cbn in Hpred. by destruct schema_item_ne_position.
      * intros q Hq Hsub Hpred.
        destruct (Hcases q k Hq (le_n _) Hsub) as [Hq0 | [-> | [-> | ->]]].
        -- exfalso. by apply (Hfresh q Hq0 k (le_n _)).
        -- cbn in Hsub. by destruct HLI.
        -- cbn in Hpred. symmetry in Hpred. by destruct schema_item_ne_position.
        -- done.
  - split; [by apply Hnd'|]. split; [|split; [lia|split]].
    + intros q Hq j Hj.
      destruct (Hout q Hq) as [Hq0 | [-> | [-> | [-> | [(x & Hx & ->) | (j' & Hj' & ->)]]]]].
      * apply Hfresh; [done | lia].
      * cbn. intros [= Heq]. apply mintedUri_inj in Heq. lia.
      * cbn. intros [= Heq]. apply mintedUri_inj in Heq. lia.
      * cbn. intros [= Heq]. apply mintedUri_inj in Heq. lia.
      * intros [= Heq]. by eapply Hforeign.
      * intros [= Heq]. apply mintedUri_inj in Heq. lia.
    + intros it Hit. apply elem_of_app in Hit as [Hit | Hit].
      * destruct (Hbound it Hit) as (k' & Hk' & Hfst). exists k'. split; [lia | done].
      * apply list_elem_of_singleton in Hit. subst it. exists k. split; [lia | done].
    + intros j it Hj. apply lookup_app_Some in Hj as [Hj | [Hlen Hj]].
      { destruct (Helems j it Hj) as [Hl Hr]. split; [done|]. intros Hnl.
        destruct (Hr Hnl) as (k1 & d & Hf & Hs & Hd & Hq). exists k1, d. auto. }
      destruct (j - length items)%nat as [|?] eqn:Hidx; [|done]. injection Hj as <-.
      assert (j = length items) by lia. subst j. split; [done|]. intros Hnl.
      destruct (Hres Hnl) as (d & Ht & Hd & Hq). exists k, d. cbn [fst snd].
      split; [done|]. split; [done|]. split; [done|]. exact Hq.
Qed.

Lemma listInv_loop fuel k0 value dkey elems m :
  foreignIds b (idsOf (JArray elems)) ->
  forall s items s',
    listInv this b k0 value dkey elems s items ->
    forEach (buildListItem (buildObject (buildResource this fuel))
                           (NamedNode (mintedUri b k0)) value dkey (JArray elems) b)
            (seq (length items) m) s = (Ret tt, s') ->
    exists items',
      length items' = m
      /\ listInv this b k0 value dkey elems s' (items ++ items')
      /\ (forall q, q ∈ store s -> q ∈ store s').
Proof.
  intros Hforeign. induction m as [|m IH]; intros s items s' Hinv Hrun.
  - cbn in Hrun. injection Hrun as <-. exists []. by rewrite app_nil_r.
  - cbn [seq forEach] in Hrun. unfold bind in Hrun.
    destruct (buildListItem _ _ _ _ _ _ _ s) as [[[]| |] s1] eqn:Hstep; [|discriminate..].
    destruct (listInv_step _ _ _ _ _ _ _ _ Hforeign Hinv Hstep) as (it & Hinv1 & Hmono1).
    assert (Hlen : S (length items) = length (items ++ [it]))
      by (rewrite length_app; simpl; lia).
    rewrite Hlen in Hrun.
    destruct (IH s1 (items ++ [it]) s' Hinv1 Hrun) as (items' & Hlen' & Hinv' & Hmono').
    exists (it :: items'). split; [simpl; lia|].
    split; [by rewrite <- app_assoc in Hinv' | auto].
Qed.

(** The array branch of [buildProperty]: a list node, its type and link,
    and one list item per element. *)
Lemma buildProperty_array fuel node o key value elems s s' :
  isArray value = true ->
  Obj.get key o = Some (JArray elems) ->
  (2 <= length elems)%nat ->
  NoDup (store s) ->
  freshFrom b (minted s) (store s) ->
  (forall j, (minted s <= j)%nat -> node <> mintedUri b j) ->
  foreignIds b (idsOf (JArray elems)) ->
  buildProperty (buildObject (buildResource this fuel)) node (JObject o) b (key, value) s
    = (Ret tt, s') ->
  exists items,
    length items = length elems
    /\ listInv this b (minted s) value key elems s' items
    /\ quad (NamedNode node) (NamedNode (uri value)) (NamedNode (mintedUri b (minted s)))
         ∈ store s'
    /\ quad (NamedNode (mintedUri b (minted s))) (NamedNode rdf_type)
             (NamedNode schema_ItemList) ∈ store s'
    /\ (forall q, q ∈ store s -> q ∈ store s').
Proof.
  intros Harr Hget Hlen Hnd Hfresh Hnode Hforeign.
  unfold buildProperty. cbn [fst snd jsIn jsGet]. rewrite Harr.
  assert (Hhas : Obj.has key o = true) by (unfold Obj.has; by rewrite Hget).
  rewrite Hhas, Hget. cbn [negb default from_option id].
  assert (Hskip : (if isOptional value then let* present := ret true in ret (negb present)
                   else ret false) = ret false) by (by destruct (isOptional value)).
  rewrite Hskip, !bind_ret_l.
  change (jsLength (JArray elems)) with (@ret (option Z) (Some (Z.of_nat (length elems)))).
  rewrite !bind_ret_l.
  assert ((1 <? Z.of_nat (length elems)) = true) as -> by (apply Z.ltb_lt; lia).
  cbn [default from_option id]. rewrite Nat2Z.id.
  unfold bind at 1, freshUuid at 1. fold (mintedUri b (minted s)).
  unfold bind at 1, addQuad at 1. cbn [store cache propHeap uriHeap minted console].
  unfold bind at 1, addQuad at 1. cbn [store cache propHeap uriHeap minted console].
  set (k0 := minted s). set (L := NamedNode (mintedUri b k0)).
  set (q_ty := quad L (NamedNode rdf_type) (NamedNode schema_ItemList)).
  set (q_link := quad (NamedNode node) (NamedNode (uri value)) L).
  set (s2 := {| store := storeAdd q_link (storeAdd q_ty (store s)); cache := cache s;
                propHeap := propHeap s; uriHeap := uriHeap s; minted := S k0;
                console := console s |}).
  intros Hrun.
  assert (Hs2 : forall q, q ∈ store s2 <-> q = q_link \/ q = q_ty \/ q ∈ store s).
  { intros q. unfold s2. cbn [store]. by rewrite !elem_of_storeAdd. }
  assert (Hinv : listInv this b k0 value key elems s2 []).
  { unfold listInv. split; [split; [constructor | split]|].
    - intros q Hq Hsub Hpred. exfalso. apply Hs2 in Hq as [-> | [-> | Hq]].
      + cbn in Hsub. injection Hsub as Hsub. by apply (Hnode k0 (le_n _)).
      + cbn in Hpred. discriminate.
      + by apply (Hfresh q Hq k0 (le_n _)).
    - intros j it Hj. by rewrite lookup_nil in Hj.
    - split; [unfold s2; cbn [store]; by do 2 apply NoDup_storeAdd|].
      split; [|split; [unfold s2; cbn; lia | split]].
      + intros q Hq j Hj. unfold s2 in Hj. cbn [minted] in Hj.
        apply Hs2 in Hq as [-> | [-> | Hq]].
        * cbn. intros [= Heq]. apply (Hnode j); [lia | done].
        * cbn. intros [= Heq]. apply mintedUri_inj in Heq. lia.
        * apply Hfresh; [done | lia].
      + intros it Hit. by apply elem_of_nil in Hit.
      + intros j it Hj. by rewrite lookup_nil in Hj. }
  change (seq 0 (length elems)) with (seq (length (@nil (Term * Term))) (length elems)) in Hrun.
  destruct (listInv_loop fuel k0 value key elems (length elems) Hforeign s2 [] s' Hinv Hrun)
    as (items & Hlen' & Hinv' & Hmono).
  exists items. split; [done|]. split; [done|].
  split; [apply Hmono, Hs2; by left|].
  split; [apply Hmono, Hs2; right; by left|].
  intros q Hq. apply Hmono, Hs2. auto.
Qed.

End ArrayBuild.

Lemma positioned_snd from terms : map snd (positioned from terms) = terms.
Proof.
  revert from. induction terms as [|t terms IH]; intros from; [done|].
  rewrite positioned_cons. cbn [map snd]. by rewrite IH.
Qed.

Lemma mapM_map {A B C} (f : B -> M C) (g : A -> B) (l : list A) :
  mapM f (map g l) = mapM (fun x => f (g x)) l.
Proof. induction l as [|x l IH]; simpl; [done|]. by rewrite IH. Qed.

Lemma ofZ_nat_inj (i j : nat) :
  JsString.ofZ (Z.of_nat i) = JsString.ofZ (Z.of_nat j) -> i = j.
Proof.
  intros Heq. apply (f_equal JsString.parseInt) in Heq.
  rewrite !parseInt_ofZ in Heq. injection Heq. lia.
Qed.

Lemma exampleHost_uuid_inj i j : @uuidv4 exampleHost i = @uuidv4 exampleHost j -> i = j.
Proof. cbn. intros [= Heq]. by apply ofZ_nat_inj. Qed.

Lemma base_not_minted `{Host} b j : b <> mintedUri b j.
Proof.
  unfold mintedUri. intros Heq.
  assert (Hnil : b +:+ "" = b).
  { clear. induction b as [|c b IH]; [done|].
    change (String c b +:+ "") with (String c (b +:+ "")). by rewrite IH. }
  assert (Hb : b +:+ "" = b +:+ "#" +:+ uuidv4 j) by (by rewrite Hnil).
  apply append_inj_l in Hb. discriminate.
Qed.

(** C4. An array property with at least two elements is built as a list
    whose [j]-th item carries the position literal [j]; for every store that
    enumerates the built quads in some order, sorting what [decodeArray]
    collects yields the items in input order, so the decoded array lists the
    decoded elements in input order, and a string array decodes to itself. *)
Theorem array_decodes_in_input_order `{Host} (this : ObjectBuilder) (fuel : nat)
    (b node key : string) (value : AbstractProperty) (o : list (string * JsVal))
    (elems : list JsVal) (s s' : State) :
  (forall i j, uuidv4 i = uuidv4 j -> i = j) ->
  b <> "" ->
  isArray value = true ->
  Obj.get key o = Some (JArray elems) ->
  (2 <= length elems)%nat ->
  NoDup (store s) ->
  freshFrom b (minted s) (store s) ->
  (forall j, (minted s <= j)%nat -> node <> mintedUri b j) ->
  foreignIds b (idsOf (JArray elems)) ->
  buildProperty (buildObject (buildResource this fuel)) node (JObject o) b (key, value) s
    = (Ret tt, s') ->
  let L := NamedNode (mintedUri b (minted s)) in
  exists items : list (Term * Term),
    length items = length elems
    /\ quad (NamedNode node) (NamedNode (uri value)) L ∈ store s'
    /\ (forall j it, items !! j = Some it ->
          quad L (NamedNode schema_itemListElement) (fst it) ∈ store s'
          /\ quad (fst it) (NamedNode schema_position)
                  (Literal (JsString.ofZ (Z.of_nat j)) xsd_integer) ∈ store s'
          /\ quad (fst it) (NamedNode schema_item) (snd it) ∈ store s'
          /\ (isLiteral (type value) = true ->
              literalObject (type value) key (nth j elems JUndefined) = Some (snd it))
          /\ (isLiteral (type value) = false ->
              exists k d,
                fst it = NamedNode (mintedUri b k)
                /\ snd it = NamedNode (subjectOf b (S k) (nth j elems JUndefined))
                /\ Obj.get (subTypeOf value (nth j elems JUndefined)) (defs this) = Some d
                /\ quad (snd it) (NamedNode rdf_type) (NamedNode (def_uri d)) ∈ store s'))
    /\ forall st', st' ≡ₚ store s' ->
         jsSort comparePosition
           (collectListItems st'
              (getQuads st' (Some L) (Some (NamedNode schema_itemListElement)) None))
         = positioned 0 (map snd items)
         /\ (forall dr sd, store sd = st' ->
               decodeArray dr (termValue L) false (type value) key sd
               = (let* l := mapM (fun t => dr (ByTerm t) "") (map snd items) in
                  ret (JArray l)) sd)
         /\ (forall dr sd, store sd = st' ->
               decodeArray dr (termValue L) true (type value) key sd
               = (Ret (JArray (map (fun it => decodeLiteral (type value) key
                                                (termValue (snd it))) items)), sd))
         /\ (type value = "string" -> key <> "uuid" ->
             Forall (fun e => exists x, e = JString x) elems ->
             forall dr sd, store sd = st' ->
               decodeArray dr (termValue L) true (type value) key sd
               = (Ret (JArray elems), sd)).
Proof.
  intros Hinj Hb Harr Hget Hlen Hnd Hfresh Hnode Hforeign Hrun L.
  destruct (buildProperty_array this b Hb Hinj fuel node o key value elems s s'
              Harr Hget Hlen Hnd Hfresh Hnode Hforeign Hrun)
    as (items & Hlen' & Hinv & Hlink & Hty & Hmono).
  destruct Hinv as (Hshape & Hnd' & _ & _ & _ & Helems).
  exists items. split; [done|]. split; [done|]. split.
  { intros j it Hj. destruct Hshape as (_ & _ & Hitems).
    destruct (Hitems j it Hj) as (H1 & H2 & _ & H4 & _).
    split; [done|]. split; [done|]. split; [done|]. by apply Helems. }
  intros st' Hperm.
  assert (Hnd'' : NoDup st') by (by rewrite Hperm).
  assert (Hshape' : listShape st' L items) by (eapply listShape_perm; [symmetry|]; done).
  pose proof (sorted_items_of_shape st' L items Hnd'' Hshape') as Hsorted.
  assert (Hlit : forall dr sd, store sd = st' ->
            decodeArray dr (termValue L) true (type value) key sd
            = (Ret (JArray (map (fun it => decodeLiteral (type value) key
                                             (termValue (snd it))) items)), sd)).
  { intros dr sd <-. unfold decodeArray, bind, getStore, ret. cbn [termValue L].
    fold L. rewrite Hsorted. do 3 f_equal.
    transitivity (map (fun t => decodeLiteral (type value) key (termValue t))
                      (map snd (positioned 0 (map snd items))));
      [by rewrite map_map | by rewrite positioned_snd, map_map]. }
  split; [done|]. split; [|split; [done|]].
  - intros dr sd <-. unfold decodeArray. unfold bind at 1, getStore at 1.
    cbn [termValue L]. fold L. rewrite Hsorted.
    replace (mapM (fun r : option Z * Term => dr (ByTerm (snd r)) "")
                  (positioned 0 (map snd items)))
      with (mapM (fun t => dr (ByTerm t) "") (map snd (positioned 0 (map snd items))))
      by (by rewrite mapM_map).
    by rewrite positioned_snd.
  - intros Hstr Hkey Hall dr sd Hsd. rewrite (Hlit dr sd Hsd). do 3 f_equal.
    apply list_eq. intros j. rewrite list_lookup_fmap.
    destruct (items !! j) as [it|] eqn:Hj; cbn [fmap option_fmap option_map].
    + destruct (Helems j it Hj) as [Hobj _].
      assert (Hj' : (j < length elems)%nat)
        by (rewrite <- Hlen'; by eapply lookup_lt_Some).
      destruct (lookup_lt_is_Some_2 elems j Hj') as [e He].
      rewrite He. f_equal.
      rewrite Forall_forall in Hall. destruct (Hall e) as [x ->];
        [by eapply list_elem_of_lookup_2|].
      rewrite (nth_lookup_Some _ _ _ _ He) in Hobj.
      rewrite Hstr in Hobj |- *. unfold literalObject in Hobj. cbn [String.eqb orb] in Hobj.
      apply String.eqb_neq in Hkey. rewrite Hkey in Hobj.
      specialize (Hobj eq_refl). injection Hobj as <-.
      unfold decodeLiteral. rewrite Hkey. reflexivity.
    + symmetry. apply lookup_ge_None. rewrite <- Hlen'. by apply lookup_ge_None.
Qed.

Lemma array_decodes_in_input_order_witness :
  let run := @buildProperty exampleHost
               (@buildObject exampleHost (@buildResource exampleHost exampleBuilder 1))
               "http://example.org/h" (JObject taggedHolder) "http://example.org/h"
               ("tags", stringArrayProp "http://example.org/tags") initState in
  fst run = Ret tt
  /\ forall dr,
       @decodeArray exampleHost dr "http://example.org/h#u0" true "string" "tags"
         (stateOfStore (rev (store (snd run))))
       = (Ret (JArray [JString "a"; JString "b"; JString "c"]),
          stateOfStore (rev (store (snd run)))).
Proof.
  intros run.
  assert (Hrun : run = (Ret tt, snd run)) by (vm_compute; reflexivity).
  pose proof (eq_refl run) as Hdef. unfold run in Hdef at 1. clearbody run.
  split; [by rewrite Hrun|]. intros dr.
  destruct (@array_decodes_in_input_order exampleHost exampleBuilder 1
              "http://example.org/h" "http://example.org/h" "tags"
              (stringArrayProp "http://example.org/tags") taggedHolder
              [JString "a"; JString "b"; JString "c"] initState (snd run))
    as (items & _ & _ & _ & Hany).
  - exact exampleHost_uuid_inj.
  - discriminate.
  - reflexivity.
  - reflexivity.
  - simpl. lia.
  - constructor.
  - intros q Hq. exfalso. exact (proj1 (elem_of_nil q) Hq).
  - intros j _. apply (@base_not_minted exampleHost).
  - intros x Hx. exfalso. exact (proj1 (elem_of_nil x) Hx).
  - rewrite Hdef. exact Hrun.
  - destruct (Hany (rev (store (snd run)))) as (_ & _ & _ & Hstrings).
    { symmetry. apply Permutation_rev. }
    apply Hstrings; [reflexivity | discriminate | | reflexivity].
    repeat constructor; by eexists.
Defined.

(** ** Round trip: literals *)

Lemma trimEnd_numeral d :
  JsString.trimEnd (NilEmpty.string_of_uint d) = NilEmpty.string_of_uint d.
Proof.
  induction d as [|d IH|d IH|d IH|d IH|d IH|d IH|d IH|d IH|d IH|d IH];
    [reflexivity|..]; cbn [NilEmpty.string_of_uint JsString.trimEnd]; rewrite IH;
    by destruct (NilEmpty.string_of_uint d).
Qed.

Lemma toNumber_numeral d :
  d <> Nil ->
  JsString.toNumber (NilEmpty.string_of_uint d) = Some (Z.of_N (Pos.of_uint d)).
Proof.
  intros Hd.
  assert (Hnum : JsString.toNumber (NilEmpty.string_of_uint d)
                 = JsString.applySign false
                     <$> JsString.wholeNumber
                           (JsString.decDigits (Some 0) (NilEmpty.string_of_uint d))).
  { unfold JsString.toNumber.
    assert (Hstart : JsString.trimStart (NilEmpty.string_of_uint d)
                     = NilEmpty.string_of_uint d) by (by destruct d).
    rewrite Hstart, trimEnd_numeral.
    destruct d as [|d|d|d|d|d|d|d|d|d|d]; [done|..]; destruct d; reflexivity. }
  rewrite Hnum, decDigits_zero. reflexivity.
Qed.

Lemma toNumber_negated d :
  d <> Nil ->
  JsString.toNumber (String "-" (NilEmpty.string_of_uint d))
  = Some (- Z.of_N (Pos.of_uint d)).
Proof.
  intros Hd.
  assert (Hnum : JsString.toNumber (String "-" (NilEmpty.string_of_uint d))
                 = JsString.applySign true
                     <$> JsString.wholeNumber
                           (JsString.decDigits (Some 0) (NilEmpty.string_of_uint d))).
  { unfold JsString.toNumber.
    change (JsString.trimStart (String "-" (NilEmpty.string_of_uint d)))
      with (String "-" (NilEmpty.string_of_uint d)).
    cbn [JsString.trimEnd]. rewrite trimEnd_numeral.
    destruct d as [|d|d|d|d|d|d|d|d|d|d]; [done|..]; destruct d; reflexivity. }
  rewrite Hnum, decDigits_zero. reflexivity.
Qed.

(** [Number(String(z))] is [z] for every integer. *)
Lemma toNumber_ofZ (z : Z) : JsString.toNumber (JsString.ofZ z) = Some z.
Proof.
  unfold JsString.ofZ. destruct z as [|p|p]; [reflexivity | |];
    cbn [Z.to_int NilZero.string_of_int]; unfold NilZero.string_of_uint;
    pose proof (DecimalPos.Unsigned.to_uint_nonnil p) as Hnil.
  - destruct (Pos.to_uint p) eqn:Hd; [done|..]; rewrite <- Hd in *;
      rewrite toNumber_numeral by (rewrite Hd; discriminate);
      by rewrite DecimalPos.Unsigned.of_to.
  - destruct (Pos.to_uint p) eqn:Hd; [done|..]; rewrite <- Hd in *;
      rewrite toNumber_negated by (rewrite Hd; discriminate);
      by rewrite DecimalPos.Unsigned.of_to.
Qed.

Section Literals.
Context `{Host}.

Lemma goodLiteral_string dkey x : dkey <> "uuid" -> goodLiteral "string" dkey (JString x).
Proof.
  intros Hkey. apply String.eqb_neq in Hkey. eexists.
  unfold literalObject, decodeLiteral. cbn [String.eqb Ascii.eqb Bool.eqb orb].
  rewrite Hkey. split; reflexivity.
Qed.

Lemma goodLiteral_uuid x :
  JsString.toLowerCase x = x -> goodLiteral "string" "uuid" (JString x).
Proof.
  intros Hlow. eexists. split; [reflexivity|].
  unfold decodeLiteral. cbn [String.eqb Ascii.eqb Bool.eqb termValue].
  rewrite (substringFrom_app "urn:uuid:"), toLowerCase_idem. by rewrite Hlow.
Qed.

Lemma goodLiteral_integer dkey z : dkey <> "uuid" -> goodLiteral "number" dkey (JNumber (Some z)).
Proof.
  intros Hkey. apply String.eqb_neq in Hkey. eexists.
  unfold literalObject, decodeLiteral. cbn [String.eqb Ascii.eqb Bool.eqb orb].
  rewrite Hkey. split; [reflexivity|].
  cbn [literal termValue jsToString]. by rewrite toNumber_ofZ.
Qed.

Lemma goodLiteral_boolean dkey v : dkey <> "uuid" -> goodLiteral "boolean" dkey (JBool v).
Proof.
  intros Hkey. apply String.eqb_neq in Hkey. eexists.
  unfold literalObject, decodeLiteral. cbn [String.eqb Ascii.eqb Bool.eqb orb].
  rewrite Hkey. split; [reflexivity|]. by destruct v.
Qed.

(** A number that is no integer survives when the host reads its own print
    of the number back. *)
Lemma goodLiteral_fraction dkey m e :
  dkey <> "uuid" -> e < 0 ->
  JsString.toNumber (numberToString m e) = None ->
  numberOfString (numberToString m e) = Some (m, e) ->
  goodLiteral "number" dkey (JFraction m e).
Proof.
  intros Hkey He Hnum Hread. apply String.eqb_neq in Hkey. eexists.
  unfold literalObject, decodeLiteral. cbn [String.eqb Ascii.eqb Bool.eqb orb].
  rewrite Hkey. split; [reflexivity|].
  cbn [literal termValue jsToString]. rewrite Hnum, Hread.
  by assert ((0 <=? e) = false) as -> by (apply Z.leb_gt; lia).
Qed.

(** A Date survives when the host reads the text written for it back as
    the same instant. *)
Lemma goodLiteral_date dkey t :
  dateParse (if startOfLocalDay t =? t then toLocaleDateString t else dateToString t) = Some t ->
  goodLiteral "Date" dkey (JDate (Some t)).
Proof.
  intros Hread.
  assert (Hobj : literalObject "Date" dkey (JDate (Some t))
                 = Some (Literal (if startOfLocalDay t =? t then toLocaleDateString t
                                  else dateToString t) xsd_string)).
  { unfold literalObject. cbn [String.eqb Ascii.eqb Bool.eqb orb].
    by destruct (startOfLocalDay t =? t). }
  eexists. split; [exact Hobj|].
  unfold decodeLiteral. cbn [String.eqb Ascii.eqb Bool.eqb termValue]. by rewrite Hread.
Qed.

Lemma goodLiteral_isLiteral ty dkey e : goodLiteral ty dkey e -> isLiteral ty = true.
Proof.
  intros (O & HO & _). unfold literalObject in HO. unfold isLiteral.
  destruct (String.eqb ty "string"), (String.eqb ty "number"), (String.eqb ty "boolean");
    cbn [orb] in *; try done.
  by destruct (String.eqb ty "Date").
Qed.

Lemma sameValue_decodeLiteral ty dkey x :
  sameValue (decodeLiteral ty dkey x) (decodeLiteral ty dkey x).
Proof.
  unfold decodeLiteral.
  repeat match goal with
         | |- context [if ?c then _ else _] => destruct c
         | |- context [match ?c with _ => _ end] => destruct c
         end; constructor.
Qed.

Lemma sameValue_literal ty dkey e : goodLiteral ty dkey e -> sameValue e e.
Proof. intros (O & _ & <-). apply sameValue_decodeLiteral. Qed.

End Literals.

(** ** Round trip: plain objects *)

Lemma Obj_get_None {V} k (o : list (string * V)) :
  Obj.get k o = None <-> k ∉ map fst o.
Proof.
  induction o as [|[k' v] o IH]; cbn [Obj.get map fst].
  - split; [intros _; apply not_elem_of_nil | done].
  - rewrite not_elem_of_cons. destruct (String.eqb k k') eqn:E.
    + apply String.eqb_eq in E. split; [done | by intros [? _]].
    + apply String.eqb_neq in E. rewrite IH. split; [by intros ? | by intros [_ ?]].
Qed.

Lemma Obj_get_of_elem {V} k (v : V) o :
  NoDup (map fst o) -> (k, v) ∈ o -> Obj.get k o = Some v.
Proof.
  induction o as [|[k' v'] o IH]; cbn [Obj.get map fst]; intros Hnd Hin.
  - by apply elem_of_nil in Hin.
  - apply NoDup_cons in Hnd as [Hk' Hnd]. apply elem_of_cons in Hin as [Heq | Hin].
    + inversion Heq; subst k' v'. by rewrite String.eqb_refl.
    + destruct (String.eqb k k') eqn:E; [|by apply IH].
      apply String.eqb_eq in E as ->. exfalso. apply Hk'.
      apply list_elem_of_fmap. by exists (k', v).
Qed.

Lemma Obj_has_get {V} k (o : list (string * V)) :
  Obj.has k o = true <-> exists v, Obj.get k o = Some v.
Proof.
  unfold Obj.has. destruct (Obj.get k o) as [v|]; split; try done.
  - by exists v.
  - by intros [? ?].
Qed.

Lemma Obj_set_fresh {V} k (v : V) o :
  k ∉ map fst o -> Obj.set k v o = o ++ [(k, v)].
Proof.
  induction o as [|[k' v'] o IH]; cbn [Obj.set map fst]; [done|].
  rewrite not_elem_of_cons. intros [Hne Hk]. apply String.eqb_neq in Hne.
  by rewrite Hne, IH.
Qed.

(** Assigning entries with distinct new keys appends them. *)
Lemma Obj_assign_fresh {V} (dst src : list (string * V)) :
  NoDup (map fst src) -> (forall k, k ∈ map fst src -> k ∉ map fst dst) ->
  Obj.assign dst src = dst ++ src.
Proof.
  unfold Obj.assign. revert dst.
  induction src as [|[k v] src IH]; intros dst Hnd Hdisj; cbn [fold_left fst snd].
  - by rewrite app_nil_r.
  - cbn [map fst] in Hnd. apply NoDup_cons in Hnd as [Hk Hnd].
    rewrite Obj_set_fresh by (apply Hdisj; cbn; left).
    rewrite IH; [by rewrite <- app_assoc | done |].
    intros k' Hk'. rewrite fmap_app, elem_of_app. intros [Hin | Hin].
    + by apply (Hdisj k'); [cbn; right|].
    + cbn in Hin. apply list_elem_of_singleton in Hin as ->. done.
Qed.

Lemma Obj_assign_nil {V} (src : list (string * V)) :
  NoDup (map fst src) -> Obj.assign [] src = src.
Proof.
  intros Hnd. rewrite Obj_assign_fresh; [done | done |].
  intros k _. apply not_elem_of_nil.
Qed.

(** The URI map that lists the declared properties sends the URI of a
    declared property back to its key. *)
Lemma Obj_get_uriMap (props : AbstractPropertyMap) key p :
  NoDup (map (fun kp => uri (snd kp)) props) -> (key, p) ∈ props ->
  Obj.get (uri p) (map (fun kp => (uri (snd kp), fst kp)) props) = Some key.
Proof.
  intros Hnd Hin. apply Obj_get_of_elem.
  - by rewrite <- list_fmap_compose.
  - apply list_elem_of_fmap. by exists (key, p).
Qed.

Lemma Obj_get_uriMap_None (props : AbstractPropertyMap) u :
  (forall key p, (key, p) ∈ props -> uri p <> u) ->
  Obj.get u (map (fun kp => (uri (snd kp), fst kp)) props) = None.
Proof.
  intros Hne. apply Obj_get_None. rewrite <- list_fmap_compose.
  intros Hin. apply list_elem_of_fmap in Hin as ([key p] & -> & Hin). by eapply Hne.
Qed.

Lemma same_uri_same_key (props : AbstractPropertyMap) key p key' p' :
  NoDup (map (fun kp => uri (snd kp)) props) ->
  (key, p) ∈ props -> (key', p') ∈ props -> uri p = uri p' -> (key, p) = (key', p').
Proof.
  intros Hnd Hin Hin' Heq.
  apply list_elem_of_lookup in Hin as [i Hi]. apply list_elem_of_lookup in Hin' as [j Hj].
  assert (i = j) as ->; [|congruence].
  eapply NoDup_lookup; [exact Hnd | |]; rewrite list_lookup_fmap.
  - by rewrite Hi.
  - rewrite Hj. cbn. by rewrite Heq.
Qed.

(** ** Round trip: decoding the graph of a value *)

#[global] Instance heapExt_refl : Reflexive heapExt.
Proof. by intros s. Qed.

#[global] Instance heapExt_trans : Transitive heapExt.
Proof.
  intros s1 s2 s3 (Hst & Hp & Hu) (Hst' & Hp' & Hu').
  split; [congruence|]. split; eauto.
Qed.

(** With all three positions given, [getQuads] finds the quad itself. *)
Lemma getQuads_exact st s p o :
  NoDup st -> quad s p o ∈ st ->
  getQuads st (Some s) (Some p) (Some o) = [quad s p o].
Proof.
  intros Hnd Hin. unfold getQuads. apply filter_singleton; [done | done | |].
  - cbn [subject predicate object]. by rewrite !matchTerm_Some, !term_eqb_refl.
  - intros q _ Hq. rewrite !matchTerm_Some in Hq.
    apply andb_prop in Hq as [Hq Ho]. apply andb_prop in Hq as [Hs Hp].
    apply term_eqb_eq in Hs, Hp, Ho. subst. by rewrite quad_eta.
Qed.

Lemma getQuads_absent st s p o :
  quad s p o ∉ st -> getQuads st (Some s) (Some p) (Some o) = [].
Proof.
  intros Hnot. apply elem_of_nil_inv. intros q Hq.
  apply getQuads_elem in Hq as (Hin & Hs & Hp & Ho).
  rewrite matchTerm_Some in Hs, Hp, Ho. apply term_eqb_eq in Hs, Hp, Ho.
  apply Hnot. subst. by rewrite quad_eta.
Qed.

Lemma isItemList_true st l :
  NoDup st ->
  quad (NamedNode l) (NamedNode rdf_type) (NamedNode schema_ItemList) ∈ st ->
  isItemList st (NamedNode l) = true.
Proof. intros Hnd Hin. unfold isItemList. by rewrite getQuads_exact. Qed.

Lemma isItemList_false st O :
  quad O (NamedNode rdf_type) (NamedNode schema_ItemList) ∉ st ->
  isItemList st O = false.
Proof.
  intros Hnot. unfold isItemList. rewrite getQuads_absent by done.
  apply andb_false_r.
Qed.

Lemma isItemList_literal st O : isNamedNode O = false -> isItemList st O = false.
Proof. intros HO. unfold isItemList. by rewrite HO. Qed.

(** The maps [decodeResource] works with, from the cache or resolved anew. *)
Lemma decode_maps this ty d sd :
  schemaOK this -> decodeInv this sd -> Obj.get ty (defs this) = Some d ->
  exists pr ur sd1,
    match cache sd !! ty with
    | Some e => ret (props e, uris e)
    | None =>
        let* p := getAllProperties this (typeFuel this) ty in
        let* u := getAllPropertyUris this (typeFuel this) ty in
        do cacheStore ty {| props := p; uris := u |} then
        ret (p, u)
    end sd = (Ret (pr, ur), sd1)
    /\ heapExt sd sd1 /\ decodeInv this sd1
    /\ propHeap sd1 !! pr = Some (properties d)
    /\ uriHeap sd1 !! ur = Some (propertyUris d).
Proof.
  intros Hok Hinv Hd.
  destruct (cache sd !! ty) as [e|] eqn:Hc.
  - exists (props e), (uris e), sd. split; [done|]. split; [done|]. split; [done|].
    destruct (Hinv ty e Hc) as (d' & Hd' & Hp & Hu).
    assert (d' = d) as -> by congruence. done.
  - assert (Hchain : ExtendsChain this ty [(ty, d)])
      by (constructor; [done | by eapply ok_parent]).
    assert (Hlen : (length [(ty, d)] <= typeFuel this)%nat)
      by (by eapply chain_fits_typeFuel).
    erewrite bind_Ret; cycle 1.
    { apply (getAllProperties_fresh _ _ _ Hchain); [|done]. by repeat constructor. }
    erewrite bind_Ret; cycle 1.
    { apply (getAllPropertyUris_fresh _ _ _ Hchain); [|done]. by repeat constructor. }
    cbn [overlayProperties overlayUris snd setPropHeap setUriHeap propHeap uriHeap
         store cache minted console].
    rewrite (Obj_assign_nil (properties d)) by (by eapply ok_keys).
    rewrite (Obj_assign_nil (propertyUris d)); cycle 1.
    { erewrite ok_uriMap by done. rewrite <- list_fmap_compose. by eapply ok_uris. }
    eexists _, _, _. split; [reflexivity|].
    unfold setUriHeap, setPropHeap. cbn [propHeap uriHeap store cache].
    split; [|split; [|split]].
    + split; [done|]. split; intros r m Hr; by apply lookup_app_l_Some.
    + intros ty' e'. cbn [cache]. intros He'.
      destruct (decide (ty' = ty)) as [->|Hne].
      * rewrite lookup_insert_eq in He'. inversion He'; subst e'. clear He'.
        exists d. cbn [props uris propHeap uriHeap].
        split; [done|]. split; by rewrite lookup_app_r, Nat.sub_diag.
      * rewrite lookup_insert_ne in He' by done.
        destruct (Hinv ty' e' He') as (d' & Hd' & Hp & Hu).
        exists d'. cbn [propHeap uriHeap].
        split; [done|]. split; by apply lookup_app_l_Some.
    + by rewrite lookup_app_r, Nat.sub_diag.
    + by rewrite lookup_app_r, Nat.sub_diag.
Qed.

Lemma Obj_get_set {V} k k' (v : V) o :
  Obj.get k' (Obj.set k v o) = if String.eqb k' k then Some v else Obj.get k' o.
Proof.
  destruct (String.eqb k' k) eqn:E.
  - apply String.eqb_eq in E as ->. apply Obj_get_set_eq.
  - apply String.eqb_neq in E. by apply Obj_get_set_ne.
Qed.

(** ** Round trip: the objects inside a value *)

(** Induction on values, through arrays and objects. *)
Lemma JsVal_nested_ind (P : JsVal -> Prop) :
  P JUndefined -> (forall s, P (JString s)) -> (forall n, P (JNumber n)) ->
  (forall v, P (JBool v)) -> (forall t, P (JDate t)) ->
  (forall l, Forall P l -> P (JArray l)) ->
  (forall o, Forall (fun kv => P (snd kv)) o -> P (JObject o)) ->
  (forall m e, P (JFraction m e)) ->
  forall v, P v.
Proof.
  intros Hu Hs Hn Hb Hd Ha Ho Hf.
  fix IH 1. intros [|s|n|v|t|l|o|m e]; [done..| | |done].
  - apply Ha. induction l as [|x l IHl]; constructor; [apply IH | exact IHl].
  - apply Ho. induction o as [|[k x] o IHo]; constructor; [apply IH | exact IHo].
Qed.

Lemma subObjects_self o : o ∈ subObjects (JObject o).
Proof. cbn [subObjects]. by left. Qed.

Lemma subObjects_field k o v : Obj.get k o = Some v -> subObjects v ⊆ subObjects (JObject o).
Proof.
  intros Hget x Hx. cbn [subObjects]. right.
  apply list_elem_of_In, in_flat_map. exists (k, v).
  split; [apply list_elem_of_In; by apply Obj_get_elem | by apply list_elem_of_In].
Qed.

Lemma subObjects_elem e l : e ∈ l -> subObjects e ⊆ subObjects (JArray l).
Proof.
  intros He x Hx. cbn [subObjects]. apply list_elem_of_In, in_flat_map. exists e.
  split; by apply list_elem_of_In.
Qed.

Lemma subObjects_trans v o : o ∈ subObjects v -> subObjects (JObject o) ⊆ subObjects v.
Proof.
  induction v as [| | | | |l IH|o' IH|] using JsVal_nested_ind; cbn [subObjects];
    try (intros Hin; by apply elem_of_nil in Hin).
  - intros Hin x Hx. apply list_elem_of_In, in_flat_map in Hin as (e & He & Hin).
    apply list_elem_of_In, in_flat_map. exists e. split; [done|].
    apply list_elem_of_In. rewrite Forall_forall in IH.
    apply (IH e); [by apply list_elem_of_In | by apply list_elem_of_In | done].
  - intros Hin x Hx. apply elem_of_cons in Hin as [-> | Hin]; [done|].
    right. apply list_elem_of_In, in_flat_map in Hin as (kv & Hkv & Hin).
    apply list_elem_of_In, in_flat_map. exists kv. split; [done|].
    apply list_elem_of_In. rewrite Forall_forall in IH.
    apply (IH kv); [by apply list_elem_of_In | by apply list_elem_of_In | done].
Qed.

(** An object held by a property of an object inside [v], directly or as
    an element of its array value, is inside [v]. *)
Lemma subObjects_child v o key val o' :
  o ∈ subObjects v -> Obj.get key o = Some val ->
  val = JObject o' \/ (exists l, val = JArray l /\ JObject o' ∈ l) ->
  o' ∈ subObjects v.
Proof.
  intros Ho Hval Hcase. apply (subObjects_trans v o Ho).
  apply (subObjects_field key o val Hval).
  destruct Hcase as [-> | (l & -> & Hin)]; [apply subObjects_self|].
  apply (subObjects_elem (JObject o') l Hin). apply subObjects_self.
Qed.


Lemma literal_not_named `{Host} v : isNamedNode (literal v) = false.
Proof. by destruct v as [| |[]| | | | |]. Qed.

(** [buildLiteral] writes a named node only for a string keyed [uuid]. *)
Lemma literalObject_named `{Host} ty dkey e x :
  literalObject ty dkey e = Some (NamedNode x) ->
  dkey = "uuid" /\ exists s, e = JString s /\ x = "urn:uuid:" +:+ JsString.toLowerCase s.
Proof.
  unfold literalObject. intros HO.
  assert (Hlit : forall v, Some (literal v) <> Some (NamedNode x)).
  { intros v [= Heq]. pose proof (literal_not_named v) as Hn. by rewrite Heq in Hn. }
  destruct (_ || _)%bool.
  - destruct (String.eqb dkey "uuid") eqn:E; [|by apply Hlit in HO].
    apply String.eqb_eq in E. split; [done|].
    destruct e as [|s| | | | | |]; try discriminate. injection HO as <-. by exists s.
  - destruct (String.eqb ty "Date"); [|done].
    destruct e as [| | | |[t|]| | |]; try discriminate.
    destruct (startOfLocalDay t =? t); by apply Hlit in HO.
Qed.

(** The [id] of an object inside a value is among the value's
    identifiers. *)
Lemma idsOf_subObjects `{Host} v o i :
  o ∈ subObjects v -> Obj.get "id" o = Some i -> jsToString i ∈ idsOf v.
Proof.
  induction v as [| | | | |l IH|o' IH|] using JsVal_nested_ind; cbn [subObjects idsOf];
    try (intros Hin; by apply elem_of_nil in Hin).
  - intros Hin Hid. apply list_elem_of_In, in_flat_map in Hin as (e & He & Hin).
    apply list_elem_of_In, in_flat_map. exists e. split; [done|].
    apply list_elem_of_In. rewrite Forall_forall in IH.
    apply (IH e); [by apply list_elem_of_In | by apply list_elem_of_In | done].
  - intros Hin Hid. apply elem_of_app. apply elem_of_cons in Hin as [-> | Hin].
    { left. rewrite Hid. by left. }
    right. apply list_elem_of_In, in_flat_map in Hin as (kv & Hkv & Hin).
    apply list_elem_of_In, in_flat_map. exists kv. split; [done|].
    apply list_elem_of_In. rewrite Forall_forall in IH.
    apply (IH kv); [by apply list_elem_of_In | by apply list_elem_of_In | done].
Qed.

(** One level of [decodeResource], given that the nested calls decode the
    nested objects. *)
Section DecodeLevel.
Context `{Host} (this : ObjectBuilder) (Hok : schemaOK this).
Context (b : string) (root : JsVal) (st : Store).
Hypothesis Hgraph : graphOf this (mintedNode b) root st.
Hypothesis Hids : properIds b root.
Context (n df : nat).
Hypothesis decode_inner : forall o id ty arg spec sd,
  o ∈ subObjects root -> conforms this n ty (JObject o) ->
  Obj.get "id" o = Some (JString id) -> nodeOf arg = NamedNode id ->
  store sd = st -> decodeInv this sd ->
  exists v' sd',
    decodeResource this df arg spec sd = (Ret v', sd')
    /\ sameValue (JObject o) v' /\ heapExt sd sd' /\ decodeInv this sd'.

(** The quads on the node of an object inside the value are explained by
    that object. *)
Lemma node_quads o id q :
  o ∈ subObjects root -> Obj.get "id" o = Some (JString id) ->
  q ∈ st -> subject q = NamedNode id ->
  explainedBy this (mintedNode b) st o q.
Proof.
  intros Ho Hid Hq Hs. destruct Hgraph as (_ & Hall & _).
  destruct (Hall q Hq) as [(k & Hk) | (o' & Ho' & Hex)].
  - exfalso. rewrite Hs in Hk. injection Hk as Hk. destruct Hids as (_ & Hforeign & _).
    eapply Hforeign; [|exact Hk]. by apply (idsOf_subObjects root o (JString id)).
  - assert (o' = o) as ->; [|done].
    destruct Hex as (id' & ty & d & Hid' & _ & _ & Hs' & _).
    rewrite Hs in Hs'. injection Hs' as <-. destruct Hids as (Hco & _).
    by apply (Hco o' o (JString id)).
Qed.

(** Only minted nodes are typed as item lists. *)
Lemma not_a_list O :
  (forall k, O <> NamedNode (mintedUri b k)) ->
  quad O (NamedNode rdf_type) (NamedNode schema_ItemList) ∉ st.
Proof.
  intros Hnm Hin. destruct Hgraph as (_ & Hall & _).
  destruct (Hall _ Hin)
    as [(k & Hk) | (o & Ho & (id & ty & d & Hid & Hty & Hd & Hs & Hcase))].
  - cbn [subject] in Hk. by apply (Hnm k).
  - destruct Hcase as [Heq | (key & p & val & Hp & _ & Hpred & _)].
    + apply (f_equal object) in Heq. cbn [object] in Heq. injection Heq as Huri.
      symmetry in Huri. by apply (ok_typeDefs _ Hok ty d Hd) in Huri.
    + cbn [predicate] in Hpred. injection Hpred as Huri. symmetry in Huri.
      by apply (ok_reserved _ Hok ty d key p Hd Hp) in Huri.
Qed.

Lemma object_not_list o id :
  o ∈ subObjects root -> Obj.get "id" o = Some (JString id) ->
  isItemList st (NamedNode id) = false.
Proof.
  intros Ho Hid. apply isItemList_false, not_a_list. intros k [= Heq].
  destruct Hids as (_ & Hforeign & _). eapply Hforeign; [|exact Heq].
  by apply (idsOf_subObjects root o (JString id)).
Qed.

Lemma literal_not_list o ty dkey e O :
  o ∈ subObjects root -> Obj.get dkey o = Some (JArray [e]) ->
  literalObject ty dkey e = Some O -> isItemList st O = false.
Proof.
  intros Ho Hget HO. destruct (isNamedNode O) eqn:HN; [|by apply isItemList_literal].
  destruct O as [x| |]; try discriminate.
  apply literalObject_named in HO as (-> & s & -> & ->).
  apply isItemList_false, not_a_list. intros k [= Heq].
  destruct Hids as (_ & _ & Huuid). by apply (Huuid o s Ho Hget k).
Qed.

Lemma decode_elements p dkey elems terms sd :
  isLiteral (type p) = false ->
  Forall (conformsElem (conforms this n) p dkey) elems ->
  (forall o', JObject o' ∈ elems -> o' ∈ subObjects root) ->
  Forall2 (elemTerm p dkey) elems terms ->
  store sd = st -> decodeInv this sd ->
  exists vs sd',
    mapM (fun t => decodeResource this df (ByTerm t) "") terms sd = (Ret vs, sd')
    /\ Forall2 sameValue elems vs /\ heapExt sd sd' /\ decodeInv this sd'.
Proof.
  intros Hlit Hconf Hin Hall. revert sd Hconf Hin.
  induction Hall as [|e t elems terms He Hall IH]; intros sd Hconf Hin Hst Hinv.
  - by exists [], sd.
  - apply Forall_cons in Hconf as [Hce Hconf].
    unfold elemTerm in He. unfold conformsElem in Hce. rewrite Hlit in He, Hce.
    destruct He as (o & id & -> & Hid & ->). destruct Hce as (ty & _ & Hce).
    destruct (decode_inner o id ty (ByTerm (NamedNode id)) "" sd)
      as (v' & sd1 & Hrun & Hsame & Hext & Hinv1); [apply Hin; by left|done..|].
    assert (Hst1 : store sd1 = st) by (destruct Hext as [-> _]; done).
    destruct (IH sd1 Hconf) as (vs & sd2 & Hrun2 & Hsames & Hext2 & Hinv2); [|done..|].
    { intros o' Ho'. apply Hin. by right. }
    exists (v' :: vs), sd2. cbn [mapM].
    erewrite bind_Ret by exact Hrun. erewrite bind_Ret by exact Hrun2.
    split; [done|]. split; [by constructor|]. split; [by etrans|done].
Qed.

Lemma decode_literals p dkey elems terms :
  isLiteral (type p) = true ->
  Forall (conformsElem (conforms this n) p dkey) elems ->
  Forall2 (elemTerm p dkey) elems terms ->
  map (fun t => decodeLiteral (type p) dkey (termValue t)) terms = elems
  /\ Forall2 sameValue elems elems.
Proof.
  intros Hlit Hconf Hall. revert Hconf.
  induction Hall as [|e t elems terms He Hall IH]; intros Hconf; [done|].
  apply Forall_cons in Hconf as [Hce Hconf]. destruct (IH Hconf) as [IH1 IH2].
  unfold elemTerm in He. unfold conformsElem in Hce. rewrite Hlit in He, Hce.
  pose proof (sameValue_literal _ _ _ Hce) as Hsame.
  destruct Hce as (O & HO & Hdec). assert (O = t) as -> by congruence.
  cbn [map]. rewrite Hdec, IH1. split; [done|]. by constructor.
Qed.

Lemma decodeArray_elements p dkey elems l items sd :
  NoDup st ->
  listShape st (NamedNode l) items ->
  Forall (conformsElem (conforms this n) p dkey) elems ->
  (forall o', JObject o' ∈ elems -> o' ∈ subObjects root) ->
  Forall2 (fun e it => elemTerm p dkey e (snd it)) elems items ->
  store sd = st -> decodeInv this sd ->
  exists vs sd',
    decodeArray (decodeResource this df) l (isLiteral (type p)) (type p) dkey sd
    = (Ret (JArray vs), sd')
    /\ Forall2 sameValue elems vs /\ heapExt sd sd' /\ decodeInv this sd'.
Proof.
  intros Hnd Hshape Hconf Hin Hall Hst Hinv.
  assert (Hall' : Forall2 (elemTerm p dkey) elems (map snd items))
    by (by apply Forall2_fmap_r).
  unfold decodeArray.
  rewrite (bind_Ret getStore _ sd (store sd) sd eq_refl), Hst. cbv zeta.
  rewrite (sorted_items_of_shape st (NamedNode l) items) by done.
  destruct (isLiteral (type p)) eqn:Hlit.
  - destruct (decode_literals p dkey elems _ Hlit Hconf Hall') as [Hmap Hsame].
    exists elems, sd.
    rewrite <- (map_map snd (fun t => decodeLiteral (type p) dkey (termValue t))).
    rewrite positioned_snd. change (@List.map) with (@map) in *. rewrite Hmap. done.
  - destruct (decode_elements p dkey elems _ sd Hlit Hconf Hin Hall' Hst Hinv)
      as (vs & sd1 & Hrun & Hsame & Hext & Hinv1).
    exists vs, sd1.
    rewrite <- (mapM_map (fun t => decodeResource this df (ByTerm t) "") snd).
    rewrite positioned_snd. erewrite bind_Ret by exact Hrun. done.
Qed.

(** The value a single triple decodes to. *)
Lemma decode_newval p dkey e O sd :
  conformsElem (conforms this n) p dkey e ->
  (forall o', e = JObject o' -> o' ∈ subObjects root) ->
  elemTerm p dkey e O ->
  store sd = st -> decodeInv this sd ->
  exists v' sd',
    (if isLiteral (type p) then ret (decodeLiteral (type p) dkey (termValue O))
     else if isMultiType p then decodeResource this df (ByTerm O) ""
          else decodeResource this df (ByTerm O) (type p)) sd = (Ret v', sd')
    /\ sameValue e v' /\ heapExt sd sd' /\ decodeInv this sd'.
Proof.
  intros Hce Hin He Hst Hinv. unfold elemTerm in He. unfold conformsElem in Hce.
  destruct (isLiteral (type p)) eqn:Hlit.
  - pose proof (sameValue_literal _ _ _ Hce) as Hsame.
    destruct Hce as (O' & HO' & Hdec). assert (O' = O) as -> by congruence.
    exists e, sd. by rewrite Hdec.
  - destruct He as (o & id & -> & Hid & ->). destruct Hce as (ty & _ & Hce).
    assert (Ho : o ∈ subObjects root) by (by apply Hin).
    destruct (isMultiType p); by apply (decode_inner o id ty (ByTerm (NamedNode id))).
Qed.

(** One step of the loop: a triple of a present property. *)
Lemma decode_property o ty d pr ur X dkey p val O acc sd :
  NoDup st ->
  o ∈ subObjects root ->
  Obj.get ty (defs this) = Some d ->
  (dkey, p) ∈ properties d ->
  Obj.get dkey o = Some val ->
  (if isArray p then
     exists elems, val = JArray elems /\ elems <> []
                   /\ Forall (conformsElem (conforms this n) p dkey) elems
   else conformsElem (conforms this n) p dkey val) ->
  valueTerm (mintedNode b) st p dkey val O ->
  ((exists e, val = JArray [e]) -> isArray p = true -> Obj.get dkey acc = None) ->
  propHeap sd !! pr = Some (properties d) ->
  uriHeap sd !! ur = Some (propertyUris d) ->
  store sd = st -> decodeInv this sd ->
  exists v' sd',
    decodeTriple (decodeResource this df) st pr ur acc (quad X (NamedNode (uri p)) O) sd
    = (Ret (Obj.set dkey v' acc), sd')
    /\ sameValue val v' /\ heapExt sd sd' /\ decodeInv this sd'.
Proof.
  intros Hnd Ho Hd Hp Hval Hconf Henc Hacc Hpr Hur Hst Hinv.
  unfold decodeTriple. cbn [predicate object termValue].
  rewrite (bind_Ret (readUriMap ur) _ sd (propertyUris d) sd)
    by (unfold readUriMap; by rewrite Hur).
  rewrite (ok_uriMap _ Hok ty d Hd).
  rewrite (Obj_get_uriMap _ dkey p (ok_uris _ Hok ty d Hd) Hp).
  rewrite (bind_Ret (readPropMap pr) _ sd (properties d) sd)
    by (unfold readPropMap; by rewrite Hpr).
  rewrite (Obj_get_of_elem dkey p _ (ok_keys _ Hok ty d Hd) Hp).
  cbv zeta. unfold valueTerm in Henc. destruct (isArray p) eqn:Harr.
  - destruct Henc as (elems & -> & Hel). destruct Hconf as (elems' & [= <-] & _ & Hconf).
    destruct elems as [|e [|e2 elems]]; [done| |].
    + apply Forall_cons in Hconf as [Hce _].
      assert (Hnl : isItemList st O = false).
      { unfold elemTerm in Hel. destruct (isLiteral (type p)).
        - by eapply literal_not_list.
        - destruct Hel as (o' & id & -> & Hid & ->). apply (object_not_list o' id); [|done].
          apply (subObjects_child root o dkey _ o' Ho Hval). right. eexists. split; [done|].
          by left. }
      destruct (decode_newval p dkey e O sd Hce) as (v' & sd1 & Hrun & Hsame & Hext & Hinv1);
        [|done..|].
      { intros o' ->. apply (subObjects_child root o dkey _ o' Ho Hval). right.
        eexists. split; [done|]. by left. }
      rewrite Hnl. cbn [andb].
      erewrite bind_Ret by exact Hrun. rewrite Hacc by (by eauto).
      exists (JArray [v']), sd1. split; [done|].
      split; [by repeat constructor | done].
    + destruct Hel as (items & [k ->] & HL & Hshape & _ & Hall).
      rewrite isItemList_true by done. cbn [andb termValue].
      destruct (decodeArray_elements p dkey _ (mintedUri b k) items sd Hnd Hshape Hconf)
        as (vs & sd1 & Hrun & Hsame & Hext & Hinv1); [|done..|].
      { intros o' Ho'. apply (subObjects_child root o dkey _ o' Ho Hval). right.
        eexists. by split. }
      erewrite bind_Ret by exact Hrun.
      exists (JArray vs), sd1. split; [done|]. split; [by constructor | done].
  - cbn [andb].
    destruct (decode_newval p dkey val O sd Hconf) as (v' & sd1 & Hrun & Hsame & Hext & Hinv1);
      [|done..|].
    { intros o' ->. apply (subObjects_child root o dkey _ o' Ho Hval). by left. }
    erewrite bind_Ret by exact Hrun. by exists v', sd1.
Qed.


Lemma elemTerm_fun p dkey e O1 O2 : elemTerm p dkey e O1 -> elemTerm p dkey e O2 -> O1 = O2.
Proof.
  unfold elemTerm. destruct (isLiteral (type p)); [congruence|].
  intros (o1 & id1 & -> & Hid1 & ->) (o2 & id2 & [= <-] & Hid2 & ->). congruence.
Qed.

(** A triple on the node of an object with the URI of a declared property
    stands for the value the object has for that property. *)
Lemma property_quad o id ty d key p O :
  o ∈ subObjects root ->
  Obj.get "id" o = Some (JString id) -> Obj.get "type" o = Some (JString ty) ->
  Obj.get ty (defs this) = Some d -> (key, p) ∈ properties d ->
  quad (NamedNode id) (NamedNode (uri p)) O ∈ st ->
  exists val, Obj.get key o = Some val /\ valueTerm (mintedNode b) st p key val O.
Proof.
  intros Ho Hid Hty Hd Hp Hq.
  destruct (node_quads o id _ Ho Hid Hq eq_refl)
    as (id' & ty' & d' & Hid' & Hty' & Hd' & _ & Hcase).
  assert (ty' = ty) as -> by congruence. assert (d' = d) as -> by congruence.
  destruct Hcase as [Heq | (key1 & p1 & val & Hp1 & Hval & Hpred & Henc)].
  - apply (f_equal predicate) in Heq. cbn [predicate] in Heq. injection Heq as Huri.
    by apply (ok_reserved _ Hok ty d key p Hd Hp) in Huri.
  - cbn [predicate object] in Hpred, Henc. injection Hpred as Huri.
    pose proof (same_uri_same_key _ key p key1 p1 (ok_uris _ Hok ty d Hd) Hp Hp1 Huri) as Heq.
    injection Heq as <- <-. by exists val.
Qed.

(** The loop of [decodeResource] over the triples of the node of an
    object inside the value. *)
Lemma decode_loop o ty d id pr ur :
  let X := NamedNode id in
  NoDup st ->
  o ∈ subObjects root ->
  Obj.get "id" o = Some (JString id) -> Obj.get "type" o = Some (JString ty) ->
  Obj.get ty (defs this) = Some d ->
  (forall key p, (key, p) ∈ properties d ->
     match Obj.get key o with
     | None => isOptional p = true
     | Some val =>
         if isArray p then
           exists elems, val = JArray elems /\ elems <> []
                         /\ Forall (conformsElem (conforms this n) p key) elems
         else conformsElem (conforms this n) p key val
     end) ->
  forall rest acc sd,
    NoDup rest -> (forall q, q ∈ rest -> q ∈ st /\ subject q = X) ->
    partlyDecoded st X id ty o d rest acc ->
    propHeap sd !! pr = Some (properties d) ->
    uriHeap sd !! ur = Some (propertyUris d) ->
    store sd = st -> decodeInv this sd ->
    exists acc' sd',
      foldM (decodeTriple (decodeResource this df) st pr ur) acc rest sd = (Ret acc', sd')
      /\ partlyDecoded st X id ty o d [] acc'
      /\ heapExt sd sd' /\ decodeInv this sd'.
Proof.
  intros X Hnd Ho Hid Hty Hd Hconf rest.
  induction rest as [|q rest IH]; intros acc sd Hndr Hrest Hpart Hpr Hur Hst Hinv.
  - by exists acc, sd.
  - apply NoDup_cons in Hndr as [Hq Hndr].
    destruct (Hrest q) as [Hqst HqX]; [left|].
    assert (Hrest' : forall q', q' ∈ rest -> q' ∈ st /\ subject q' = X)
      by (intros q' Hq'; apply Hrest; by right).
    cbn [foldM].
    destruct (node_quads o id q Ho Hid Hqst HqX)
      as (id' & ty' & d' & Hid' & Hty' & Hd' & _ & Hcase).
    assert (id' = id) as -> by congruence.
    assert (ty' = ty) as -> by congruence. assert (d' = d) as -> by congruence.
    destruct Hcase as [-> | (key & p & val & Hp & Hval & Hpred & Henc)].
    + (* the type triple *)
      assert (Hstep : decodeTriple (decodeResource this df) st pr ur acc
                        (quad X (NamedNode rdf_type) (NamedNode (def_uri d))) sd
                      = (Ret acc, sd)).
      { unfold decodeTriple. cbn [predicate termValue].
        rewrite (bind_Ret (readUriMap ur) _ sd (propertyUris d) sd)
          by (unfold readUriMap; by rewrite Hur).
        rewrite (ok_uriMap _ Hok ty d Hd), Obj_get_uriMap_None; [done|].
        intros key p Hp. by apply (ok_reserved _ Hok ty d key p Hd Hp). }
      erewrite bind_Ret by exact Hstep.
      apply IH; try done.
      destruct Hpart as (Hid1 & Hty1 & Hkeys & Hvals).
      split; [done|]. split; [done|]. split; [done|].
      intros key p Hp. specialize (Hvals key p Hp).
      destruct (Obj.get key o) as [val|]; [|done].
      destruct Hvals as [[Hin Hnone] | [(O & HO & Hnot) Hsome]].
      * left. split; [|done]. intros O HO.
        pose proof (Hin O HO) as Hin'. apply elem_of_cons in Hin' as [Heq | Hin']; [|done].
        injection Heq as Huri. by apply (ok_reserved _ Hok ty d key p Hd Hp) in Huri.
      * right. split; [|done]. exists O. split; [done|]. intros Hin. apply Hnot. by right.
    + (* a triple of a property *)
      destruct q as [qs qp O]. cbn [subject predicate object] in HqX, Hpred, Henc.
      subst qs qp.
      destruct Hpart as (Hid1 & Hty1 & Hkeys & Hvals).
      assert (Hacc : (exists e, val = JArray [e]) -> isArray p = true ->
                     Obj.get key acc = None).
      { intros [e ->] Harr. specialize (Hvals key p Hp). rewrite Hval in Hvals.
        destruct Hvals as [[_ Hnone] | [(O1 & HO1 & Hnot) _]]; [done|].
        exfalso. apply Hnot. apply elem_of_cons. left.
        destruct (property_quad o id ty d key p O1 Ho Hid Hty Hd Hp HO1) as (val1 & Hval1 & Henc1).
        assert (val1 = JArray [e]) as -> by congruence.
        unfold valueTerm in Henc, Henc1. rewrite Harr in Henc, Henc1.
        destruct Henc as (l & [= <-] & Hel). destruct Henc1 as (l1 & [= <-] & Hel1).
        by rewrite (elemTerm_fun p key e O1 O Hel1 Hel). }
      pose proof (Hconf key p Hp) as Hconf1. rewrite Hval in Hconf1.
      destruct (decode_property o ty d pr ur X key p val O acc sd Hnd Ho Hd Hp Hval Hconf1
                  Henc Hacc Hpr Hur Hst Hinv)
        as (v' & sd1 & Hrun & Hsame & Hext & Hinv1).
      erewrite bind_Ret by exact Hrun.
      assert (Hst1 : store sd1 = st) by (destruct Hext as [-> _]; done).
      destruct (ok_reserved _ Hok ty d key p Hd Hp) as (Hkid & Hkty & _).
      destruct (IH (Obj.set key v' acc) sd1) as (acc' & sd2 & Hrun2 & Hpart2 & Hext2 & Hinv2);
        try done.
      * split; [by rewrite Obj_get_set_ne|]. split; [by rewrite Obj_get_set_ne|].
        split.
        { intros k Hk. apply Obj_has_get in Hk as [w Hw]. rewrite Obj_get_set in Hw.
          destruct (String.eqb k key) eqn:E.
          - apply String.eqb_eq in E as ->. right; right.
            apply list_elem_of_fmap. by exists (key, p).
          - apply Hkeys. apply Obj_has_get. by exists w. }
        intros key2 p2 Hp2. specialize (Hvals key2 p2 Hp2).
        rewrite Obj_get_set.
        destruct (String.eqb key2 key) eqn:E.
        { apply String.eqb_eq in E as ->. rewrite Hval.
          assert (p2 = p) as ->.
          { pose proof (Obj_get_of_elem key p2 _ (ok_keys _ Hok ty d Hd) Hp2) as H2.
            pose proof (Obj_get_of_elem key p _ (ok_keys _ Hok ty d Hd) Hp) as H1.
            congruence. }
          right. split; [by exists O | by exists v']. }
        apply String.eqb_neq in E.
        destruct (Obj.get key2 o) as [val2|]; [|done].
        assert (Hne : forall O2, quad X (NamedNode (uri p2)) O2 <> quad X (NamedNode (uri p)) O).
        { intros O2 Heq. injection Heq as Huri HOO.
          pose proof (same_uri_same_key _ key2 p2 key p (ok_uris _ Hok ty d Hd) Hp2 Hp Huri)
            as Hsame'.
          by injection Hsame' as ? ?. }
        destruct Hvals as [[Hin Hnone] | [(O2 & HO2 & Hnot) Hsome]].
        -- left. split; [|done]. intros O2 HO2.
           pose proof (Hin O2 HO2) as Hin'.
           apply elem_of_cons in Hin' as [Heq | Hin']; [by apply Hne in Heq | done].
        -- right. split; [|done]. exists O2. split; [done|]. intros Hin. apply Hnot. by right.
      * destruct Hext as (_ & Hpe & _). by apply Hpe.
      * destruct Hext as (_ & _ & Hue). by apply Hue.
      * exists acc', sd2. split; [done|]. split; [done|]. split; [by etrans | done].
Qed.

(** One more level: an object inside the value decodes to an equal
    object. *)
Lemma decode_level o id ty arg spec sd :
  NoDup st ->
  o ∈ subObjects root -> conforms this (S n) ty (JObject o) ->
  Obj.get "id" o = Some (JString id) -> nodeOf arg = NamedNode id ->
  store sd = st -> decodeInv this sd ->
  exists v' sd',
    decodeResource this (S df) arg spec sd = (Ret v', sd')
    /\ sameValue (JObject o) v' /\ heapExt sd sd' /\ decodeInv this sd'.
Proof.
  cbn [conforms].
  intros Hnd Ho (o' & d & id' & [= <-] & Hd & Hndo & Hid' & Hty & Hkeys & Hconf) Hid Harg
         Hst Hinv.
  assert (id' = id) as -> by congruence. clear Hid'.
  destruct (ok_typeDefs _ Hok ty d Hd) as (Htd & Hne & _).
  apply String.eqb_neq in Hne.
  destruct Hgraph as (_ & _ & Hwritten).
  destruct (Hwritten o Ho) as (id1 & ty1 & d1 & Hid1 & Hty1 & Hd1 & Htq & Hprops).
  assert (id1 = id) as -> by congruence.
  assert (ty1 = ty) as -> by congruence. assert (d1 = d) as -> by congruence.
  cbn [decodeResource]. rewrite Harg.
  rewrite (bind_Ret getStore _ sd (store sd) sd eq_refl), Hst. cbv zeta.
  rewrite (getQuads_singleton st (NamedNode id) (NamedNode rdf_type)
             (quad (NamedNode id) (NamedNode rdf_type) (NamedNode (def_uri d))));
    [|done..|]; cycle 1.
  { intros q Hq Hs Hp.
    destruct (node_quads o id q Ho Hid Hq Hs)
      as (id2 & ty2 & d2 & Hid2 & Hty2 & Hd2 & _ & Hcase).
    assert (id2 = id) as -> by congruence.
    assert (ty2 = ty) as -> by congruence. assert (d2 = d) as -> by congruence.
    destruct Hcase as [-> | (key & p & val & Hkp & _ & Hpred & _)]; [done|].
    rewrite Hp in Hpred. injection Hpred as Huri. symmetry in Huri.
    by apply (ok_reserved _ Hok ty d key p Hd Hkp) in Huri. }
  cbn [discoverType object termValue isBlankNode]. rewrite Htd, !Hne. cbn [andb].
  rewrite (bind_Ret (cacheLookup ty) _ sd (cache sd !! ty) sd eq_refl).
  destruct (decode_maps this ty d sd Hok Hinv Hd)
    as (pr & ur & sd1 & Hmaps & Hext1 & Hinv1 & Hpr & Hur).
  erewrite bind_Ret by exact Hmaps. cbn [fst snd].
  assert (Hst1 : store sd1 = st) by (destruct Hext1 as [-> _]; done).
  destruct (decode_loop o ty d id pr ur Hnd Ho Hid Hty Hd Hconf
              (getQuads st (Some (NamedNode id)) None None)
              [("id", JString id); ("type", JString ty)] sd1)
    as (acc' & sd2 & Hrun & Hpart & Hext2 & Hinv2); try done.
  { by apply NoDup_filter. }
  { intros q Hq. apply getQuads_elem in Hq as (Hq & Hs & _).
    rewrite matchTerm_Some in Hs. apply term_eqb_eq in Hs. done. }
  { split; [done|]. split; [done|]. split.
    - intros k. unfold Obj.has. cbn [Obj.get].
      destruct (String.eqb k "id") eqn:E1; [apply String.eqb_eq in E1; by left|].
      destruct (String.eqb k "type") eqn:E2; [apply String.eqb_eq in E2; by right; left|].
      done.
    - intros key p Hp.
      destruct (ok_reserved _ Hok ty d key p Hd Hp) as (Hkid & Hkty & _).
      apply String.eqb_neq in Hkid, Hkty.
      assert (Hnone : Obj.get key [("id", JString id); ("type", JString ty)] = None)
        by (cbn [Obj.get]; by rewrite Hkid, Hkty).
      destruct (Obj.get key o) as [val|]; [|done].
      left. split; [|done]. intros O HO.
      apply getQuads_elem. cbn [subject]. by rewrite matchTerm_Some, term_eqb_refl. }
  erewrite bind_Ret by exact Hrun.
  exists (JObject acc'), sd2. split; [done|]. split; [|split; [by etrans | done]].
  destruct Hpart as (Hid' & Hty' & Hkeys' & Hvals').
  constructor. intros k.
  destruct (decide (k = "id")) as [->|Hkid]; [rewrite Hid, Hid'; by repeat constructor|].
  destruct (decide (k = "type")) as [->|Hkty]; [rewrite Hty, Hty'; by repeat constructor|].
  destruct (decide (k ∈ map fst (properties d))) as [Hk|Hk].
  - apply list_elem_of_fmap in Hk as ([key p] & -> & Hp). cbn [fst].
    specialize (Hvals' key p Hp).
    destruct (Obj.get key o) as [val|] eqn:Hval; [|rewrite Hvals'; constructor].
    destruct (Hprops key p val Hp Hval) as (O & HO).
    destruct Hvals' as [[Hin _] | [_ (v' & -> & Hsame)]]; [|by constructor].
    specialize (Hin O HO). by apply elem_of_nil in Hin.
  - assert (Hno : Obj.get k o = None).
    { apply Obj_get_None. intros Hin. by destruct (Hkeys k Hin) as [? | [? | ?]]. }
    assert (Ha : Obj.get k acc' = None).
    { destruct (Obj.get k acc') eqn:E; [|done]. exfalso.
      destruct (Hkeys' k) as [? | [? | ?]]; [|done..]. unfold Obj.has. by rewrite E. }
    rewrite Hno, Ha. constructor.
Qed.

End DecodeLevel.

(** The graph of a value decodes, with enough budget, at the node of each
    object inside the value to an object equal to it up to the order of
    keys. *)
Lemma decode_graph `{Host} (this : ObjectBuilder) (b : string) (root : JsVal) (st : Store) :
  schemaOK this -> graphOf this (mintedNode b) root st -> properIds b root ->
  forall n df o id ty arg spec sd,
    o ∈ subObjects root -> conforms this n ty (JObject o) ->
    Obj.get "id" o = Some (JString id) -> nodeOf arg = NamedNode id ->
    (n <= df)%nat -> store sd = st -> decodeInv this sd ->
    exists v' sd',
      decodeResource this df arg spec sd = (Ret v', sd')
      /\ sameValue (JObject o) v' /\ heapExt sd sd' /\ decodeInv this sd'.
Proof.
  intros Hok Hgraph Hids n.
  induction n as [|n IH]; intros df o id ty arg spec sd Ho Hconf Hid Harg Hle Hst Hinv.
  - done.
  - destruct df as [|df]; [lia|].
    eapply (decode_level this Hok b root st Hgraph Hids n df); try done.
    + intros o' id' ty' arg' spec' sd' Ho' Hconf' Hid' Harg' Hst' Hinv'.
      apply (IH df o' id' ty'); [done..| lia | done | done].
    + by destruct Hgraph.
Qed.

(** ** Round trip: what an explanation depends on *)

Section Transfer.
Context `{Host} (this : ObjectBuilder).
Context (fp fp' : Term -> Prop) (st st' : Store).
Hypothesis fp_weaken : forall t, fp t -> fp' t.
Hypothesis st_grows : forall q, q ∈ st -> q ∈ st'.
Hypothesis st_frame : forall q, q ∈ st' -> q ∈ st \/ ~ fp (subject q).

Lemma old_quad q : q ∈ st' -> fp (subject q) -> q ∈ st.
Proof. intros Hq Hfp. by destruct (st_frame q Hq). Qed.

Lemma itemAt_transfer L j it :
  fp (fst it) -> itemAt st L j it -> itemAt st' L j it.
Proof.
  intros Hfp (Hel & Hpos & Hpos1 & Hitem & Hitem1).
  split; [by apply st_grows|]. split; [by apply st_grows|].
  split; [|split; [by apply st_grows|]].
  - intros q Hq Hs Hp. apply Hpos1; [|done..]. apply old_quad; [done | by rewrite Hs].
  - intros q Hq Hs Hp. apply Hitem1; [|done..]. apply old_quad; [done | by rewrite Hs].
Qed.

Lemma listShape_transfer L items :
  fp L -> Forall (fun it => fp (fst it)) items ->
  listShape st L items -> listShape st' L items.
Proof.
  intros HL Hitems (Hnd & Hels & Hat).
  split; [done|]. split.
  - intros q Hq Hs Hp. apply Hels; [|done..]. apply old_quad; [done | by rewrite Hs].
  - intros j it Hj. apply itemAt_transfer; [|by apply Hat].
    rewrite Forall_forall in Hitems. apply Hitems. by eapply list_elem_of_lookup_2.
Qed.

(** An explanation survives new quads on nodes outside its footprint, and
    a larger footprint. *)
Lemma valueTerm_transfer p dkey val O :
  valueTerm fp st p dkey val O -> valueTerm fp' st' p dkey val O.
Proof.
  unfold valueTerm. destruct (isArray p); [|done].
  intros (elems & -> & Hel). exists elems. split; [done|].
  destruct elems as [|e [|e2 elems]]; [done | done |].
  destruct Hel as (items & HfpO & HL & Hshape & Hfps & Hels).
  exists items. split; [by apply fp_weaken|]. split; [by apply st_grows|].
  split; [by apply listShape_transfer|].
  split; [eapply Forall_impl; [exact Hfps | intros it; apply fp_weaken] | done].
Qed.

Lemma explainedBy_transfer o q :
  explainedBy this fp st o q -> explainedBy this fp' st' o q.
Proof.
  intros (id & ty & d & Hid & Hty & Hd & Hs & Hcase).
  exists id, ty, d. do 4 (split; [done|]).
  destruct Hcase as [? | (key & p & val & Hp & Hval & Hpred & Henc)]; [by left | right].
  exists key, p, val. do 3 (split; [done|]). by apply valueTerm_transfer.
Qed.

End Transfer.

Lemma elem_of_flat_map {A B} (f : A -> list B) (l : list A) (z : B) :
  z ∈ flat_map f l <-> exists x, x ∈ l /\ z ∈ f x.
Proof.
  rewrite list_elem_of_In, in_flat_map. split.
  - intros (x & Hx & Hz). exists x. by rewrite !list_elem_of_In.
  - intros (x & Hx & Hz). exists x. by rewrite <- !list_elem_of_In.
Qed.


Lemma written_mono `{Host} this st st' o :
  (forall q, q ∈ st -> q ∈ st') -> written this st o -> written this st' o.
Proof.
  intros Hgrow (id & ty & d & Hid & Hty & Hd & Htq & Hprops).
  exists id, ty, d. do 3 (split; [done|]). split; [by apply Hgrow|].
  intros key p val Hp Hval. destruct (Hprops key p val Hp Hval) as [O HO].
  exists O. by apply Hgrow.
Qed.

Lemma subObjects_decodeLiteral `{Host} ty dkey x : subObjects (decodeLiteral ty dkey x) = [].
Proof.
  unfold decodeLiteral.
  repeat match goal with
         | |- context [if ?c then _ else _] => destruct c
         | |- context [match ?c with _ => _ end] => destruct c
         end; reflexivity.
Qed.

Lemma subObjects_literal `{Host} ty dkey e : goodLiteral ty dkey e -> subObjects e = [].
Proof. intros (O & _ & <-). apply subObjects_decodeLiteral. Qed.

Lemma conforms_inv `{Host} this n ty v :
  conforms this n ty v ->
  exists o id, v = JObject o /\ Obj.get "id" o = Some (JString id)
               /\ Obj.get "type" o = Some (JString ty).
Proof.
  destruct n as [|n]; [done|]. cbn [conforms].
  intros (o & d & id & -> & _ & _ & Hid & Hty & _). by exists o, id.
Qed.

(** ** Round trip: the steps of a build *)

Section BuildSteps.
Context `{Host} (this : ObjectBuilder) (b : string).
Hypothesis uuid_inj : forall i j, uuidv4 i = uuidv4 j -> i = j.

Lemma mintedIn_wider lo hi lo' hi' t :
  (lo' <= lo)%nat -> (hi <= hi')%nat -> mintedIn b lo hi t -> mintedIn b lo' hi' t.
Proof. intros Hlo Hhi (k & Hk & ->). exists k. split; [lia | done]. Qed.

Lemma explainedWithin_stable lo hi lo2 hi2 st st' v v2 q :
  explainedWithin this b lo hi st v q ->
  (forall q', q' ∈ st -> q' ∈ st') ->
  (forall q', q' ∈ st' -> q' ∈ st \/ ~ mintedIn b lo hi (subject q')) ->
  (lo2 <= lo)%nat -> (hi <= hi2)%nat -> subObjects v ⊆ subObjects v2 ->
  explainedWithin this b lo2 hi2 st' v2 q.
Proof.
  intros (o & lo' & hi' & Ho & Hlo & Hhi & Hex) Hgrow Hframe Hlo2 Hhi2 Hsub.
  exists o, lo', hi'. split; [by apply Hsub|]. split; [lia|]. split; [lia|].
  eapply (explainedBy_transfer this (mintedIn b lo' hi') (mintedIn b lo' hi') st st');
    [done | done | | done].
  intros q' Hq'. destruct (Hframe q' Hq') as [? | Hn]; [by left | right].
  intros Hin. apply Hn. eapply mintedIn_wider; [| |exact Hin]; lia.
Qed.

Lemma explainedWithin_wider lo hi lo2 hi2 st v v2 q :
  explainedWithin this b lo hi st v q ->
  (lo2 <= lo)%nat -> (hi <= hi2)%nat -> subObjects v ⊆ subObjects v2 ->
  explainedWithin this b lo2 hi2 st v2 q.
Proof.
  intros Hex Hlo Hhi Hsub.
  apply (explainedWithin_stable lo hi lo2 hi2 st st v v2 q); auto.
Qed.

(** An explained quad sits on the node of an object, which is no minted
    node. *)
Lemma explained_subject lo hi st v q :
  foreignIds b (idsOf v) -> explainedWithin this b lo hi st v q ->
  forall k, subject q <> NamedNode (mintedUri b k).
Proof.
  intros Hforeign (o & lo' & hi' & Ho & _ & _ & (id & ty & d & Hid & _ & _ & Hs & _)) k.
  rewrite Hs. intros [= Heq]. eapply Hforeign; [|exact Heq].
  by apply (idsOf_subObjects v o (JString id)).
Qed.

Lemma wrote_refl P v s : buildReady this b s -> wrote this b P v s s.
Proof. intros Hready. split; [done|]. split; [done|]. split; [done|]. by left. Qed.

(** Two parts of a build, one after the other. *)
Lemma wrote_trans P v s s1 s2 :
  foreignIds b (idsOf v) ->
  (forall q, P q -> ~ mintedIn b (minted s) (minted s1) (subject q)) ->
  wrote this b P v s s1 -> wrote this b P v s1 s2 -> wrote this b P v s s2.
Proof.
  intros Hforeign HP (_ & Hm1 & Hg1 & Ho1) (Hr2 & Hm2 & Hg2 & Ho2).
  split; [done|]. split; [lia|]. split; [auto|].
  intros q Hq. destruct (Ho2 q Hq) as [Hq1 | [HPq | [Hmint | Hex]]].
  - destruct (Ho1 q Hq1) as [? | [? | [Hmint | Hex]]];
      [by left | by right; left | right; right; left | right; right; right].
    + eapply mintedIn_wider; [| |exact Hmint]; lia.
    + apply (explainedWithin_stable (minted s) (minted s1) _ _ (store s1) _ v v q Hex Hg2);
        [|lia|lia|done].
      intros q' Hq'. destruct (Ho2 q' Hq') as [? | [HP' | [(k & Hk & Hs) | Hex']]];
        [by left | right..].
      * by apply HP.
      * intros (k' & Hk' & Hs'). rewrite Hs in Hs'. injection Hs' as Hs'.
        unfold mintedUri in Hs'. apply append_inj_l in Hs'.
        apply (append_inj_l "#") in Hs'. apply uuid_inj in Hs'. lia.
      * intros (k' & _ & Hs'). by eapply explained_subject.
  - by right; left.
  - right; right; left. eapply mintedIn_wider; [| |exact Hmint]; lia.
  - right; right; right. eapply explainedWithin_wider; [exact Hex|lia|lia|done].
Qed.

(** A part of a build that follows steps which explained nothing. *)
Lemma wrote_after P P' v s s1 s2 :
  (minted s <= minted s1)%nat ->
  (forall q, q ∈ store s -> q ∈ store s1) ->
  (forall q, q ∈ store s1 ->
     q ∈ store s \/ P' q \/ mintedIn b (minted s) (minted s1) (subject q)) ->
  wrote this b P v s1 s2 -> wrote this b (fun q => P q \/ P' q) v s s2.
Proof.
  intros Hm1 Hg1 Ho1 (Hr2 & Hm2 & Hg2 & Ho2).
  split; [done|]. split; [lia|]. split; [auto|].
  intros q Hq. destruct (Ho2 q Hq) as [Hq1 | [HPq | [Hmint | Hex]]].
  - destruct (Ho1 q Hq1) as [? | [? | Hmint]]; [by left | right; left; by right|].
    right; right; left. eapply mintedIn_wider; [| |exact Hmint]; lia.
  - right; left. by left.
  - right; right; left. eapply mintedIn_wider; [| |exact Hmint]; lia.
  - right; right; right. eapply explainedWithin_wider; [exact Hex|lia|lia|done].
Qed.

Lemma wrote_weaken P P' v v' s s' :
  wrote this b P v s s' ->
  (forall q, q ∈ store s' -> P q ->
     q ∈ store s \/ P' q \/ mintedIn b (minted s) (minted s') (subject q)
     \/ explainedWithin this b (minted s) (minted s') (store s') v' q) ->
  subObjects v ⊆ subObjects v' ->
  wrote this b P' v' s s'.
Proof.
  intros (Hr & Hm & Hg & Ho) HP Hsub.
  split; [done|]. split; [done|]. split; [done|].
  intros q Hq. destruct (Ho q Hq) as [? | [HPq | [Hmint | Hex]]];
    [by left | by apply HP | by right; right; left | right; right; right].
  eapply explainedWithin_wider; [exact Hex|lia|lia|done].
Qed.

Lemma buildReady_addQuad q s :
  buildReady this b s ->
  (forall j, (minted s <= j)%nat -> subject q <> NamedNode (mintedUri b j)) ->
  buildReady this b (snd (addQuad q s)).
Proof.
  intros (Hinv & Hnd & Hfresh) Hq. split; [done|].
  split; [cbn [addQuad snd store]; by apply NoDup_storeAdd|].
  intros q' Hq' j Hj. cbn [addQuad snd store minted] in Hq', Hj.
  apply elem_of_storeAdd in Hq' as [-> | Hq']; [by apply Hq | by apply Hfresh].
Qed.

Lemma buildReady_freshUuid s : buildReady this b s -> buildReady this b (snd (freshUuid s)).
Proof.
  intros (Hinv & Hnd & Hfresh). split; [done|]. split; [done|].
  intros q Hq j Hj. cbn [freshUuid snd store minted] in Hq, Hj. apply Hfresh; [done | lia].
Qed.

Lemma wrote_addQuad v q s :
  buildReady this b s ->
  (forall j, (minted s <= j)%nat -> subject q <> NamedNode (mintedUri b j)) ->
  wrote this b (fun q' => q' = q) v s (snd (addQuad q s)).
Proof.
  intros Hready Hq. split; [by apply buildReady_addQuad|]. split; [done|].
  split; [intros q' Hq'; cbn [addQuad snd store]; apply elem_of_storeAdd; by right|].
  intros q' Hq'. cbn [addQuad snd store] in Hq'.
  apply elem_of_storeAdd in Hq' as [-> | Hq']; [right; by left | by left].
Qed.

End BuildSteps.

(** The property map [buildResource] iterates over, from the cache or
    resolved anew. *)
Lemma build_maps this ty d s :
  schemaOK this -> buildInv this s -> Obj.get ty (defs this) = Some d ->
  exists r s1,
    match cache s !! ty with
    | Some e => ret (props e)
    | None =>
        let* r := getAllProperties this (typeFuel this) ty in
        let* u := newUriMap in
        do cacheStore ty {| props := r; uris := u |} then
        ret r
    end s = (Ret r, s1)
    /\ buildInv this s1
    /\ propHeap s1 !! r = Some (properties d)
    /\ store s1 = store s /\ minted s1 = minted s.
Proof.
  intros Hok Hinv Hd.
  destruct (cache s !! ty) as [e|] eqn:Hc.
  - exists (props e), s. split; [done|]. split; [done|].
    destruct (Hinv ty e Hc) as (d' & Hd' & Hp).
    assert (d' = d) as -> by congruence. done.
  - assert (Hchain : ExtendsChain this ty [(ty, d)])
      by (constructor; [done | by eapply ok_parent]).
    assert (Hlen : (length [(ty, d)] <= typeFuel this)%nat)
      by (by eapply chain_fits_typeFuel).
    erewrite bind_Ret; cycle 1.
    { apply (getAllProperties_fresh _ _ _ Hchain); [|done]. by repeat constructor. }
    cbn [overlayProperties snd].
    rewrite (Obj_assign_nil (properties d)) by (by eapply ok_keys).
    eexists _, _. split; [reflexivity|].
    unfold setPropHeap. cbn [propHeap uriHeap store cache minted].
    split; [|split; [|done]].
    + intros ty' e'. cbn [cache]. intros He'.
      destruct (decide (ty' = ty)) as [->|Hne].
      * rewrite lookup_insert_eq in He'. inversion He'; subst e'. clear He'.
        exists d. cbn [props propHeap].
        split; [done|]. by rewrite lookup_app_r, Nat.sub_diag.
      * rewrite lookup_insert_ne in He' by done.
        destruct (Hinv ty' e' He') as (d' & Hd' & Hp).
        exists d'. cbn [propHeap]. split; [done|]. by apply lookup_app_l_Some.
    + by rewrite lookup_app_r, Nat.sub_diag.
Qed.

(** ** Round trip: building one level *)

Section BuildLevel.
Context `{Host} (this : ObjectBuilder) (b : string).
Hypothesis schema_ok : schemaOK this.
Hypothesis base_nonempty : b <> "".
Hypothesis uuid_inj : forall i j, uuidv4 i = uuidv4 j -> i = j.
Context (n : nat).
Hypothesis build_inner : forall ty o id s,
  conforms this n ty (JObject o) -> Obj.get "id" o = Some (JString id) ->
  foreignIds b (idsOf (JObject o)) -> buildReady this b s ->
  exists s',
    buildResource this n ty id (JObject o) b s = (Ret tt, s')
    /\ wrote this b (fun _ => False) (JObject o) s s'
    /\ (forall o', o' ∈ subObjects (JObject o) -> written this (store s') o').

(** On an object that carries its [id] and [type], [buildObject] builds
    the object under its own identifier and type. *)
Lemma buildObject_conforming rec p o id ty :
  Obj.get "id" o = Some (JString id) -> Obj.get "type" o = Some (JString ty) ->
  (isMultiType p = false -> ty = type p) ->
  buildObject rec p (JObject o) b = (do rec ty id (JObject o) b then ret id).
Proof.
  intros Hid Hty Hmulti. unfold buildObject. cbn [jsIn jsGet]. unfold Obj.has.
  rewrite Hid, Hty, !bind_ret_l. cbn [default from_option jsToString]. rewrite ?bind_ret_l.
  destruct (isMultiType p).
  - by rewrite ?bind_ret_l.
  - by rewrite ?bind_ret_l, Hmulti.
Qed.

Lemma minted_ne i j : i <> j -> NamedNode (mintedUri b i) <> NamedNode (mintedUri b j).
Proof. intros Hne [= Heq]. by apply (mintedUri_inj b uuid_inj) in Heq. Qed.

(** Building one element under subject [subj] and predicate [pred]. *)
Lemma buildElem_ok subj pred p dkey e s :
  conformsElem (conforms this n) p dkey e ->
  foreignIds b (idsOf e) -> buildReady this b s ->
  (forall j, (minted s <= j)%nat -> subj <> mintedUri b j) ->
  exists O s',
    (if isLiteral (type p) then buildLiteral subj pred (type p) dkey e
     else
       let* sub := buildObject (buildResource this n) p e b in
       addQuad (quad (NamedNode subj) (NamedNode pred) (NamedNode sub))) s = (Ret tt, s')
    /\ elemTerm p dkey e O
    /\ wrote this b (fun q => q = quad (NamedNode subj) (NamedNode pred) O) e s s'
    /\ quad (NamedNode subj) (NamedNode pred) O ∈ store s'
    /\ (forall o', o' ∈ subObjects e -> written this (store s') o').
Proof.
  intros Hconf Hforeign Hready Hnew.
  unfold conformsElem, elemTerm in *. destruct (isLiteral (type p)) eqn:Hlit.
  - pose proof (subObjects_literal _ _ _ Hconf) as Hsub.
    destruct Hconf as (O & HO & _).
    rewrite buildLiteral_object, HO.
    exists O, (snd (addQuad (quad (NamedNode subj) (NamedNode pred) O) s)).
    split; [done|]. split; [done|]. split.
    { apply wrote_addQuad; [done|]. intros j Hj [= Heq]. by apply (Hnew j). }
    split; [cbn [addQuad snd store]; apply elem_of_storeAdd; by left|].
    intros o' Ho'. rewrite Hsub in Ho'. by apply elem_of_nil in Ho'.
  - destruct Hconf as (ty & Hmulti & Hconf).
    destruct (conforms_inv _ _ _ _ Hconf) as (o & id & -> & Hid & Hty).
    rewrite (buildObject_conforming _ p o id ty Hid Hty Hmulti).
    destruct (build_inner ty o id s Hconf Hid Hforeign Hready) as (s1 & Hrun & Hw & Hwr).
    set (link := quad (NamedNode subj) (NamedNode pred) (NamedNode id)).
    exists (NamedNode id), (snd (addQuad link s1)).
    pose proof Hw as (Hready1 & Hm1 & _).
    split; [|split; [by exists o, id|split; [|split]]].
    + change (bind (bind (buildResource this n ty id (JObject o) b) (fun _ => ret id))
                   (fun sub => addQuad (quad (NamedNode subj) (NamedNode pred) (NamedNode sub))) s
              = (Ret tt, snd (addQuad link s1))).
      unfold bind at 1 2. by rewrite Hrun.
    + apply (wrote_trans this b uuid_inj _ _ s s1); [done | | |].
      * intros q -> (k & Hk & [= Heq]). apply (Hnew k); [lia | done].
      * eapply wrote_weaken; [exact Hw | done | done].
      * apply wrote_addQuad; [done|]. intros j Hj [= Heq]. apply (Hnew j); [lia | done].
    + cbn [addQuad snd store]. apply elem_of_storeAdd. by left.
    + intros o' Ho'. eapply written_mono; [|by apply Hwr].
      intros q Hq. cbn [addQuad snd store]. apply elem_of_storeAdd. by right.
Qed.

(** One turn of the loop over the elements of an array value. *)
Lemma buildListItem_ok k0 p dkey elems i e s :
  elems !! i = Some e ->
  conformsElem (conforms this n) p dkey e ->
  foreignIds b (idsOf e) -> buildReady this b s ->
  (k0 < minted s)%nat ->
  let L := NamedNode (mintedUri b k0) in
  exists s',
    buildListItem (buildObject (buildResource this n)) L p dkey (JArray elems) b i s
    = (Ret tt, s')
    /\ (minted s < minted s')%nat
    /\ wrote this b (fun q => subject q = L) e s s'
    /\ (forall o', o' ∈ subObjects e -> written this (store s') o').
Proof.
  intros Hi Hconf Hforeign Hready Hk0 L.
  set (I := NamedNode (mintedUri b (minted s))).
  set (q_el := quad L (NamedNode schema_itemListElement) I).
  set (q_pos := quad I (NamedNode schema_position) (positionLiteral i)).
  set (sa := snd (freshUuid s)).
  set (sb := snd (addQuad q_el sa)).
  set (s3 := snd (addQuad q_pos sb)).
  assert (Hm3 : minted s3 = S (minted s)) by done.
  assert (Hready3 : buildReady this b s3).
  { apply buildReady_addQuad; [apply buildReady_addQuad; [by apply buildReady_freshUuid|]|].
    - intros j Hj. cbn [subject q_el L]. apply minted_ne. cbn in Hj. lia.
    - intros j Hj. cbn [subject q_pos I]. apply minted_ne. cbn in Hj. lia. }
  destruct (buildElem_ok (mintedUri b (minted s)) schema_item p dkey e s3 Hconf Hforeign Hready3)
    as (t & s' & Hrun & _ & Hw & Hitem & Hwr).
  { intros j Hj Heq. rewrite Hm3 in Hj. apply (mintedUri_inj b uuid_inj) in Heq. lia. }
  exists s'. pose proof Hw as (_ & Hm' & _). rewrite Hm3 in Hm'.
  split; [|split; [lia|split; [|done]]].
  - assert (Heq : buildListItem (buildObject (buildResource this n)) L p dkey (JArray elems) b i s
                  = (if isLiteral (type p)
                     then buildLiteral (mintedUri b (minted s)) schema_item (type p) dkey
                                       (nth i elems JUndefined)
                     else
                       let* sub := buildObject (buildResource this n) p
                                               (nth i elems JUndefined) b in
                       addQuad (quad (NamedNode (mintedUri b (minted s)))
                                     (NamedNode schema_item) (NamedNode sub))) s3)
      by reflexivity.
    rewrite Heq, (nth_lookup_Some _ _ _ _ Hi). exact Hrun.
  - eapply wrote_weaken;
      [apply (wrote_after this b (fun q => q = quad I (NamedNode schema_item) t)
                (fun q => subject q = L) e s s3 s')| |done].
    + rewrite Hm3. lia.
    + intros q Hq. unfold s3, sb, sa. cbn [addQuad freshUuid snd store].
      rewrite !elem_of_storeAdd. auto.
    + intros q Hq. unfold s3, sb, sa in Hq. cbn [addQuad freshUuid snd store] in Hq.
      rewrite !elem_of_storeAdd in Hq. destruct Hq as [-> | [-> | Hq]]; [|by right; left|by left].
      right; right. exists (minted s). rewrite Hm3. split; [lia | done].
    + exact Hw.
    + intros q Hq [-> | HL]; [|by right; left].
      right; right; left. exists (minted s). split; [lia | done].
Qed.

(** The loop over the elements of an array value. *)
Lemma listLoop_ok k0 p dkey elems :
  Forall (conformsElem (conforms this n) p dkey) elems ->
  foreignIds b (idsOf (JArray elems)) ->
  let L := NamedNode (mintedUri b k0) in
  forall m i s,
    (i + m = length elems)%nat -> buildReady this b s -> (k0 < minted s)%nat ->
    exists s',
      forEach (buildListItem (buildObject (buildResource this n)) L p dkey (JArray elems) b)
              (seq i m) s = (Ret tt, s')
      /\ wrote this b (fun q => subject q = L) (JArray elems) s s'
      /\ (forall j e o', (i <= j)%nat -> elems !! j = Some e -> o' ∈ subObjects e ->
            written this (store s') o').
Proof.
  intros Hconf Hforeign L m. induction m as [|m IH]; intros i s Hlen Hready Hk0.
  - exists s. split; [done|]. split; [by apply wrote_refl|].
    intros j e o' Hj He. apply lookup_lt_Some in He. lia.
  - destruct (lookup_lt_is_Some_2 elems i) as [e He]; [lia|].
    pose proof (Forall_lookup_1 _ _ _ _ Hconf He) as Hce.
    assert (Hin : e ∈ elems) by (by eapply list_elem_of_lookup_2).
    assert (Hfe : foreignIds b (idsOf e)).
    { intros x Hx. apply Hforeign. cbn [idsOf]. apply elem_of_flat_map. by exists e. }
    destruct (buildListItem_ok k0 p dkey elems i e s He Hce Hfe Hready Hk0)
      as (s1 & Hrun & Hm & Hw & Hwr).
    pose proof Hw as (Hready1 & _).
    destruct (IH (S i) s1) as (s' & Hrun' & Hw' & Hwr'); [lia | done | lia |].
    exists s'. split; [|split].
    + cbn [seq forEach]. by erewrite bind_Ret by exact Hrun.
    + apply (wrote_trans this b uuid_inj _ _ s s1); [done | | |done].
      * intros q -> (k & Hk & Heq). apply (minted_ne k0 k) in Heq; [done | lia].
      * eapply wrote_weaken; [exact Hw | by right; left | by apply subObjects_elem].
    + intros j e' o' Hj He' Ho'. destruct (decide (j = i)) as [->|Hne].
      * assert (e' = e) as -> by congruence.
        eapply written_mono; [|by apply Hwr]. by destruct Hw' as (_ & _ & ? & _).
      * apply (Hwr' j e' o'); [lia | done | done].
Qed.

(** An optional property the object does not have writes nothing. *)
Lemma buildProperty_absent rec id o dkey p s :
  Obj.get dkey o = None -> isOptional p = true ->
  buildProperty rec id (JObject o) b (dkey, p) s = (Ret tt, s).
Proof.
  intros Hnone Hopt. unfold buildProperty. cbn [fst snd jsIn]. unfold Obj.has.
  by rewrite Hopt, Hnone.
Qed.

Lemma idsOf_singleton e : idsOf (JArray [e]) = idsOf e.
Proof. cbn [idsOf flat_map]. apply app_nil_r. Qed.

Lemma subObjects_singleton e : subObjects (JArray [e]) = subObjects e.
Proof. cbn [subObjects flat_map]. apply app_nil_r. Qed.

(** A property the object has: its value is built and linked from the
    node. *)
Lemma buildProperty_present id o dkey p val s :
  Obj.get dkey o = Some val ->
  (if isArray p then
     exists elems, val = JArray elems /\ elems <> []
                   /\ Forall (conformsElem (conforms this n) p dkey) elems
   else conformsElem (conforms this n) p dkey val) ->
  foreignIds b (idsOf val) -> buildReady this b s ->
  (forall j, id <> mintedUri b j) ->
  exists O s',
    buildProperty (buildObject (buildResource this n)) id (JObject o) b (dkey, p) s
    = (Ret tt, s')
    /\ wrote this b (fun q => q = quad (NamedNode id) (NamedNode (uri p)) O) val s s'
    /\ quad (NamedNode id) (NamedNode (uri p)) O ∈ store s'
    /\ valueTerm (mintedIn b (minted s) (minted s')) (store s') p dkey val O
    /\ (forall o', o' ∈ subObjects val -> written this (store s') o').
Proof.
  intros Hval Hconf Hforeign Hready Hnew.
  assert (Hhas : Obj.has dkey o = true) by (unfold Obj.has; by rewrite Hval).
  assert (Hskip : (if isOptional p then let* present := ret true in ret (negb present)
                   else ret false) = ret false) by (by destruct (isOptional p)).
  destruct (isArray p) eqn:Harr.
  - destruct Hconf as (elems & -> & Hne & Hall).
    destruct elems as [|e [|e2 elems]]; [done | |].
    + (* one element *)
      unfold buildProperty, valueTerm. cbn [fst snd jsIn jsGet].
      rewrite Hhas, Hval, Hskip, Harr, !bind_ret_l. cbn [negb default from_option Datatypes.id].
      change (jsLength (JArray [e])) with (@ret (option Z) (Some 1)).
      rewrite !bind_ret_l. cbn [Z.ltb Z.compare Pos.compare Pos.compare_cont jsIndex nth].
      rewrite bind_ret_l. rewrite idsOf_singleton in Hforeign.
      apply Forall_cons in Hall as [He _].
      destruct (buildElem_ok id (uri p) p dkey e s He Hforeign Hready)
        as (O & s' & Hrun & Hel & Hw & Hlink & Hwr); [by intros j _|].
      exists O, s'. split; [done|].
      split; [eapply wrote_weaken; [exact Hw | by right; left | by rewrite subObjects_singleton]|].
      split; [done|]. split; [by exists [e]|]. by rewrite subObjects_singleton.
    + (* a list *)
      remember (e :: e2 :: elems) as elems' eqn:Helems.
      assert (Hlen2 : (2 <= length elems')%nat) by (rewrite Helems; cbn; lia).
      set (k0 := minted s). set (L := NamedNode (mintedUri b k0)).
      set (q_ty := quad L (NamedNode rdf_type) (NamedNode schema_ItemList)).
      set (q_link := quad (NamedNode id) (NamedNode (uri p)) L).
      set (sa := snd (freshUuid s)). set (sb := snd (addQuad q_ty sa)).
      set (s2 := snd (addQuad q_link sb)).
      assert (Hs2 : forall q, q ∈ store s2 <-> q = q_link \/ q = q_ty \/ q ∈ store s).
      { intros q. unfold s2, sb, sa. cbn [store addQuad freshUuid snd].
        by rewrite !elem_of_storeAdd. }
      assert (Hm2 : minted s2 = S k0) by done.
      assert (Hready2 : buildReady this b s2).
      { apply buildReady_addQuad; [apply buildReady_addQuad; [by apply buildReady_freshUuid|]|].
        - intros j Hj. cbn [subject q_ty L]. apply minted_ne. cbn in Hj. unfold k0. lia.
        - intros j Hj [= Heq]. by apply (Hnew j). }
      destruct (listLoop_ok k0 p dkey elems' Hall Hforeign (length elems') 0%nat s2)
        as (s' & Hloop & Hw & Hwr); [done | done | rewrite Hm2; lia |].
      assert (Hrun : buildProperty (buildObject (buildResource this n)) id (JObject o) b
                       (dkey, p) s = (Ret tt, s')).
      { unfold buildProperty. cbn [fst snd jsIn jsGet].
        rewrite Hhas, Hval, Hskip, Harr, !bind_ret_l.
        cbn [negb default from_option Datatypes.id].
        change (jsLength (JArray elems'))
          with (@ret (option Z) (Some (Z.of_nat (length elems')))).
        rewrite !bind_ret_l.
        assert ((1 <? Z.of_nat (length elems')) = true) as -> by (apply Z.ltb_lt; lia).
        cbn [default from_option Datatypes.id]. rewrite Nat2Z.id. exact Hloop. }
      destruct Hready as (Hinv & Hnd & Hfresh).
      destruct (buildProperty_array this b base_nonempty uuid_inj n id o dkey p elems' s s'
                  Harr Hval Hlen2 Hnd Hfresh (fun j _ => Hnew j) Hforeign Hrun)
        as (items & Hlen & Hlinv & Hlink & Hty & Hmono).
      fold k0 in Hlinv, Hlink, Hty. fold L in Hlink, Hty. fold q_link in Hlink.
      pose proof Hw as (_ & Hm' & _). rewrite Hm2 in Hm'.
      exists L, s'. split; [exact Hrun|]. split; [|split; [done|split]].
      * eapply wrote_weaken;
          [apply (wrote_after this b (fun q => subject q = L) (fun q => q = q_link)
                    (JArray elems') s s2 s')| |done].
        -- rewrite Hm2. unfold k0. lia.
        -- intros q Hq. apply Hs2. auto.
        -- intros q Hq. apply Hs2 in Hq as [-> | [-> | Hq]]; [by right; left | | by left].
           right; right. exists k0. rewrite Hm2. split; [unfold k0; lia | done].
        -- exact Hw.
        -- intros q Hq [HL | ->]; [|by right; left].
           right; right; left. exists k0. split; [unfold k0 in *; lia | done].
      * unfold valueTerm. rewrite Harr. exists elems'. split; [done|].
        rewrite Helems. rewrite <- Helems.
        destruct Hlinv as (Hshape & _ & _ & Hk0 & Hminted & Hitems).
        exists items. split; [exists k0; split; [unfold k0 in *; lia | done]|].
        split; [done|]. split; [done|]. split.
        -- apply Forall_forall. intros it Hit. destruct (Hminted it Hit) as (k & Hk & ->).
           exists k. split; [unfold k0 in *; lia | done].
        -- apply Forall2_same_length_lookup_2; [by rewrite Hlen|].
           intros j e' it' Hj Hj'. destruct (Hitems j it' Hj') as [Hlit Hres].
           rewrite (nth_lookup_Some _ _ _ _ Hj) in Hlit, Hres.
           pose proof (Forall_lookup_1 _ _ _ _ Hall Hj) as Hce.
           unfold elemTerm. unfold conformsElem in Hce.
           destruct (isLiteral (type p)); [by apply Hlit|].
           destruct (Hres eq_refl) as (k & d & _ & Hsnd & _).
           destruct Hce as (ty & _ & Hce).
           destruct (conforms_inv _ _ _ _ Hce) as (o' & id' & -> & Hid' & _).
           exists o', id'. split; [done|]. split; [done|].
           rewrite Hsnd. cbn [subjectOf]. by rewrite Hid'.
      * intros o' Ho'. cbn [subObjects] in Ho'.
        apply list_elem_of_In, in_flat_map in Ho' as (e' & He' & Ho').
        apply list_elem_of_In, list_elem_of_lookup in He' as [j Hj].
        apply (Hwr j e' o'); [lia | done | by apply list_elem_of_In].
  - unfold buildProperty, valueTerm. cbn [fst snd jsIn jsGet].
    rewrite Hhas, Hval, Hskip, Harr, !bind_ret_l. cbn [negb default from_option Datatypes.id].
    rewrite ?bind_ret_l. cbn [Z.ltb].
    destruct (buildElem_ok id (uri p) p dkey val s Hconf Hforeign Hready)
      as (O & s' & Hrun & Hel & Hw & Hlink & Hwr); [by intros j _|].
    by exists O, s'.
Qed.


(** The loop of [buildResource] over the declared properties. *)
Lemma buildLoop_ok id o d ty :
  let X := NamedNode id in
  Obj.get ty (defs this) = Some d ->
  Obj.get "id" o = Some (JString id) -> Obj.get "type" o = Some (JString ty) ->
  foreignIds b (idsOf (JObject o)) ->
  (forall key p, (key, p) ∈ properties d ->
     match Obj.get key o with
     | None => isOptional p = true
     | Some val =>
         if isArray p then
           exists elems, val = JArray elems /\ elems <> []
                         /\ Forall (conformsElem (conforms this n) p key) elems
         else conformsElem (conforms this n) p key val
     end) ->
  forall todo s,
    (forall kp, kp ∈ todo -> kp ∈ properties d) ->
    buildReady this b s ->
    exists s',
      forEach (buildProperty (buildObject (buildResource this n)) id (JObject o) b) todo s
      = (Ret tt, s')
      /\ wrote this b (fun _ => False) (JObject o) s s'
      /\ (forall key p val, (key, p) ∈ todo -> Obj.get key o = Some val ->
            (exists O, quad X (NamedNode (uri p)) O ∈ store s')
            /\ forall o', o' ∈ subObjects val -> written this (store s') o').
Proof.
  intros X Hd Hid Hty Hforeign Hconf todo.
  assert (Hown : forall j, id <> mintedUri b j).
  { apply Hforeign. exact (idsOf_subObjects (JObject o) o (JString id) (subObjects_self o) Hid). }
  induction todo as [|[key p] todo IH]; intros s Htodo Hready.
  - exists s. split; [done|]. split; [by apply wrote_refl|].
    intros key p val Hp. by apply elem_of_nil in Hp.
  - assert (Hp : (key, p) ∈ properties d) by (apply Htodo; left).
    assert (Htodo' : forall kp, kp ∈ todo -> kp ∈ properties d)
      by (intros kp Hkp; apply Htodo; by right).
    cbn [forEach]. specialize (Hconf key p Hp) as Hconfp.
    destruct (Obj.get key o) as [val|] eqn:Hval.
    + (* the property is present *)
      assert (Hfv : foreignIds b (idsOf val)).
      { intros x Hx. apply Hforeign. by eapply idsOf_field. }
      destruct (buildProperty_present id o key p val s Hval Hconfp Hfv Hready Hown)
        as (O & s1 & Hrun & Hw & Hlink & Henc & Hwr).
      pose proof Hw as (Hready1 & Hm1 & _).
      destruct (IH s1 Htodo' Hready1) as (s' & Hrun' & Hw' & Hrest).
      pose proof Hw' as (_ & _ & Hmono' & _).
      exists s'. split; [by erewrite bind_Ret by exact Hrun|]. split.
      * apply (wrote_trans this b uuid_inj _ _ s s1); [done | done | | done].
        eapply wrote_weaken; [exact Hw | | by eapply subObjects_field].
        intros q Hq ->. right; right; right.
        exists o, (minted s), (minted s1). split; [apply subObjects_self|].
        split; [done|]. split; [done|].
        exists id, ty, d. do 4 (split; [done|]). right. by exists key, p, val.
      * intros key' p' val' Hp' Hval'. apply elem_of_cons in Hp' as [[= -> ->] | Hp'].
        -- assert (val' = val) as -> by congruence.
           split; [exists O; by apply Hmono'|].
           intros o' Ho'. eapply written_mono; [exact Hmono' | by apply Hwr].
        -- exact (Hrest key' p' val' Hp' Hval').
    + (* the property is absent *)
      rewrite (bind_Ret _ _ _ _ _ (buildProperty_absent _ id o key p s Hval Hconfp)).
      destruct (IH s Htodo' Hready) as (s' & Hrun' & Hw' & Hrest).
      exists s'. split; [done|]. split; [done|].
      intros key' p' val' Hp' Hval'. apply elem_of_cons in Hp' as [[= -> ->] | Hp'].
      * congruence.
      * exact (Hrest key' p' val' Hp' Hval').
Qed.

(** One more level: a conforming object is built, what the build added is
    explained, and every object inside the object is written. *)
Lemma build_level ty o id s :
  conforms this (S n) ty (JObject o) -> Obj.get "id" o = Some (JString id) ->
  foreignIds b (idsOf (JObject o)) -> buildReady this b s ->
  exists s',
    buildResource this (S n) ty id (JObject o) b s = (Ret tt, s')
    /\ wrote this b (fun _ => False) (JObject o) s s'
    /\ (forall o', o' ∈ subObjects (JObject o) -> written this (store s') o').
Proof.
  cbn [conforms].
  intros (o' & d & id' & [= <-] & Hd & Hndo & Hid' & Hty & Hkeys & Hconf) Hid Hforeign Hready.
  assert (id' = id) as -> by congruence. clear Hid'.
  assert (Hown : forall j, id <> mintedUri b j).
  { apply Hforeign. exact (idsOf_subObjects (JObject o) o (JString id) (subObjects_self o) Hid). }
  set (X := NamedNode id).
  set (typeQuad := quad X (NamedNode rdf_type) (NamedNode (def_uri d))).
  set (s1 := snd (addQuad typeQuad s)).
  assert (Hready1 : buildReady this b s1).
  { apply buildReady_addQuad; [done|]. intros j _ [= Heq]. by apply (Hown j). }
  destruct (build_maps this ty d s1 schema_ok (proj1 Hready1) Hd)
    as (r & s2 & Hmaps & Hinv2 & Hr & Hst2 & Hm2).
  assert (Hs2 : forall q, q ∈ store s2 <-> q = typeQuad \/ q ∈ store s).
  { intros q. rewrite Hst2. unfold s1. cbn [addQuad snd store]. apply elem_of_storeAdd. }
  assert (Hm2' : minted s2 = minted s) by (by rewrite Hm2).
  assert (Hready2 : buildReady this b s2).
  { destruct Hready1 as (_ & Hnd1 & Hfresh1). split; [done|]. by rewrite Hst2, Hm2. }
  destruct (buildLoop_ok id o d ty Hd Hid Hty Hforeign Hconf (properties d) s2)
    as (s' & Hrun & Hw & Hrest); [done | done |].
  pose proof Hw as (_ & Hm' & Hmono' & _).
  assert (Hwritten : written this (store s') o).
  { exists id, ty, d. do 3 (split; [done|]). split; [apply Hmono', Hs2; by left|].
    intros key p val Hp Hval. by destruct (Hrest key p val Hp Hval). }
  exists s'. split; [|split].
  - cbn [buildResource]. unfold lookupDef. rewrite Hd, bind_ret_l.
    rewrite (bind_Ret (addQuad typeQuad) _ s tt s1 eq_refl).
    rewrite (bind_Ret (cacheLookup ty) _ s1 (cache s1 !! ty) s1 eq_refl).
    erewrite bind_Ret by exact Hmaps.
    apply String.eqb_neq in base_nonempty. rewrite base_nonempty. cbv zeta.
    rewrite (bind_Ret (readPropMap r) _ s2 (properties d) s2)
      by (unfold readPropMap; by rewrite Hr).
    exact Hrun.
  - eapply wrote_weaken;
      [apply (wrote_after this b (fun _ => False) (fun q => q = typeQuad) (JObject o) s s2 s')
      | | done].
    + lia.
    + intros q Hq. apply Hs2. by right.
    + intros q Hq. apply Hs2 in Hq as [-> | Hq]; [right; by left | by left].
    + exact Hw.
    + intros q Hq [[] | ->]. right; right; right.
      exists o, (minted s), (minted s). split; [apply subObjects_self|].
      split; [done|]. split; [lia|].
      exists id, ty, d. do 4 (split; [done|]). by left.
  - intros o2 Ho2. cbn [subObjects] in Ho2. apply elem_of_cons in Ho2 as [-> | Ho2]; [done|].
    apply list_elem_of_In, in_flat_map in Ho2 as ([k val] & Hkv & Ho2).
    apply list_elem_of_In in Hkv, Ho2. cbn [snd] in Ho2.
    pose proof (Obj_get_of_elem k val o Hndo Hkv) as Hget.
    destruct (Hkeys k) as [-> | [-> | Hk]].
    { apply list_elem_of_fmap. by exists (k, val). }
    + assert (val = JString id) as -> by congruence. by apply elem_of_nil in Ho2.
    + assert (val = JString ty) as -> by congruence. by apply elem_of_nil in Ho2.
    + apply list_elem_of_fmap in Hk as ([key p] & -> & Hp). cbn [fst] in Hget.
      by destruct (Hrest key p val Hp Hget) as [_ Hw2]; apply Hw2.
Qed.

End BuildLevel.

(** A conforming object is built without error; what the build added is
    explained by the objects inside it, each of which is written. *)
Lemma build_graph `{Host} (this : ObjectBuilder) (b : string) :
  schemaOK this -> b <> "" -> (forall i j, uuidv4 i = uuidv4 j -> i = j) ->
  forall n ty o id s,
    conforms this n ty (JObject o) -> Obj.get "id" o = Some (JString id) ->
    foreignIds b (idsOf (JObject o)) -> buildReady this b s ->
    exists s',
      buildResource this n ty id (JObject o) b s = (Ret tt, s')
      /\ wrote this b (fun _ => False) (JObject o) s s'
      /\ (forall o', o' ∈ subObjects (JObject o) -> written this (store s') o').
Proof.
  intros Hok Hb Hinj n. induction n as [|n IH]; intros ty o id s Hconf; [done|].
  by apply build_level.
Qed.

(** With no base URI given, the node is the base. *)
Lemma buildResource_root `{Host} this n ty id v :
  buildResource this n ty id v "" = buildResource this n ty id v id.
Proof.
  destruct n as [|n]; [done|]. cbn [buildResource].
  change (String.eqb "" "") with true. cbv iota.
  by destruct (String.eqb id "").
Qed.

(** ** Round trip *)

Lemma graphOf_perm `{Host} this fp v st st' :
  st ≡ₚ st' -> graphOf this fp v st -> graphOf this fp v st'.
Proof.
  intros Hperm (Hnd & Hall & Hwr).
  assert (Hin : forall q, q ∈ st <-> q ∈ st') by (intros q; by rewrite Hperm).
  split; [by rewrite <- Hperm|]. split.
  - intros q Hq. destruct (Hall q (proj2 (Hin q) Hq)) as [? | (o & Ho & Hex)]; [by left|].
    right. exists o. split; [done|].
    eapply (explainedBy_transfer this fp fp st st'); [done | by intros ? ?%Hin | | done].
    intros q' Hq'. left. by apply Hin.
  - intros o Ho. eapply written_mono; [|by apply Hwr]. by intros ? ?%Hin.
Qed.

Lemma buildReady_initState `{Host} this b : buildReady this b initState.
Proof.
  split; [|split; [constructor|]].
  - intros ty e He. unfold initState in He. cbn [cache] in He. by rewrite lookup_empty in He.
  - intros q Hq. by apply elem_of_nil in Hq.
Qed.

(** The store a build of a conforming object into the empty store ends
    with is a graph of the object. *)
Lemma build_graphOf `{Host} (this : ObjectBuilder) (n : nat) (ty id : string)
    (o : list (string * JsVal)) :
  schemaOK this -> (forall i j, uuidv4 i = uuidv4 j -> i = j) -> id <> "" ->
  conforms this n ty (JObject o) -> Obj.get "id" o = Some (JString id) ->
  foreignIds id (idsOf (JObject o)) ->
  exists s',
    buildResource this n ty id (JObject o) "" initState = (Ret tt, s')
    /\ graphOf this (mintedNode id) (JObject o) (store s').
Proof.
  intros Hok Hinj Hne Hconf Hid Hforeign.
  destruct (build_graph this id Hok Hne Hinj n ty o id initState Hconf Hid Hforeign
              (buildReady_initState this id))
    as (s' & Hrun & ((_ & Hnd & _) & _ & _ & Hout) & Hwr).
  exists s'. split; [by rewrite buildResource_root|].
  split; [done|]. split; [|done].
  intros q Hq. destruct (Hout q Hq) as [Hq0 | [[] | [(k & _ & Hs) | Hex]]].
  - by apply elem_of_nil in Hq0.
  - left. by exists k.
  - right. destruct Hex as (o' & lo & hi & Ho' & _ & _ & Hex). exists o'. split; [done|].
    eapply (explainedBy_transfer this (mintedIn id lo hi) (mintedNode id) (store s') (store s'));
      [|done|by left|done].
    intros t (k & _ & ->). by exists k.
Qed.


(** *** The catalogue example *)

Lemma prefix_append (p r : string) : String.prefix p (p +:+ r) = true.
Proof.
  induction p as [|c p IH]; [by destruct r|].
  change (String.prefix (String c p) (String c p +:+ r))
    with (if ascii_dec c c then String.prefix p (p +:+ r) else false).
  by destruct (ascii_dec c c).
Qed.

Lemma not_minted_prefix `{Host} (b x : string) :
  String.prefix b x = false -> forall j, x <> mintedUri b j.
Proof.
  intros Hp j ->. unfold mintedUri in Hp. by rewrite prefix_append in Hp.
Qed.

Ltac elem_cases H :=
  repeat (apply elem_of_cons in H as [H | H];
          [first [progress subst | inversion H; subst]|]);
  try (by apply elem_of_nil in H).

Ltac eval_shape :=
  lazy [Obj.get exampleShelf exampleItem String.eqb Ascii.eqb Bool.eqb isArray isLiteral
        isOptional isMultiType type stringArrayProp objectProp objectArrayProp numberProp
        booleanProp stringProp conformsElem orb app].

Lemma catalog_defs ty d :
  Obj.get ty (defs catalogBuilder) = Some d ->
  (ty, d) = ("Item", itemDef) \/ (ty, d) = ("Shelf", shelfDef).
Proof.
  intros Hget. apply Obj_get_elem in Hget.
  cbn [catalogBuilder newObjectBuilder defs catalogDefs] in Hget.
  apply elem_of_cons in Hget as [Hget | Hget]; [by left|].
  apply list_elem_of_singleton in Hget. by right.
Qed.

Lemma catalog_schemaOK : schemaOK catalogBuilder.
Proof.
  split.
  - intros ty d Hget. destruct (catalog_defs ty d Hget) as [[= -> ->] | [= -> ->]]; reflexivity.
  - intros ty d Hget. destruct (catalog_defs ty d Hget) as [[= -> ->] | [= -> ->]];
      apply (bool_decide_unpack _); vm_compute; exact I.
  - intros ty d Hget. destruct (catalog_defs ty d Hget) as [[= -> ->] | [= -> ->]];
      apply (bool_decide_unpack _); vm_compute; exact I.
  - intros ty d Hget. destruct (catalog_defs ty d Hget) as [[= -> ->] | [= -> ->]]; reflexivity.
  - intros ty d key p Hget Hp.
    destruct (catalog_defs ty d Hget) as [[= -> ->] | [= -> ->]];
      cbn [itemDef shelfDef properties] in Hp; elem_cases Hp; repeat split; discriminate.
  - intros ty d Hget. destruct (catalog_defs ty d Hget) as [[= -> ->] | [= -> ->]];
      (split; [reflexivity | split; discriminate]).
Qed.

Lemma exampleShelf_conforms :
  @conforms exampleHost catalogBuilder 2 "Shelf" (JObject exampleShelf).
Proof.
  assert (Hitem : forall id name price flag,
            @conforms exampleHost catalogBuilder 1 "Item"
              (JObject ([("id", JString id); ("type", JString "Item");
                         ("name", JString name); ("price", JNumber (Some price))]
                        ++ match flag with
                           | Some f => [("inStock", JBool f)]
                           | None => []
                           end))).
  { intros id name price flag. cbn [conforms]. eexists. exists itemDef, id.
    split; [reflexivity|]. split; [reflexivity|].
    split; [destruct flag; apply (bool_decide_unpack _); vm_compute; exact I|].
    split; [reflexivity|]. split; [reflexivity|]. split.
    - intros k Hk. destruct flag; cbn in Hk; elem_cases Hk; auto;
        right; right; apply (bool_decide_unpack _); vm_compute; exact I.
    - intros key p Hp. cbn [itemDef properties] in Hp. elem_cases Hp; eval_shape.
      + by apply goodLiteral_string.
      + by apply goodLiteral_integer.
      + destruct flag; eval_shape; [|reflexivity]. by apply goodLiteral_boolean. }
  exists exampleShelf, shelfDef, "http://example.org/shelf".
  split; [reflexivity|]. split; [reflexivity|].
  split; [apply (bool_decide_unpack _); vm_compute; exact I|].
  split; [reflexivity|]. split; [reflexivity|]. split.
  - intros k Hk. cbn in Hk. elem_cases Hk; auto;
      right; right; apply (bool_decide_unpack _); vm_compute; exact I.
  - intros key p Hp. cbn [shelfDef properties] in Hp. elem_cases Hp; eval_shape.
    + exists "Item". split; [discriminate|]. apply (Hitem _ _ _ None).
    + eexists. split; [reflexivity|]. split; [discriminate|].
      repeat (apply Forall_cons; split; [by apply goodLiteral_string|]).
      constructor.
    + eexists. split; [reflexivity|]. split; [discriminate|].
      apply Forall_cons; split.
      { exists "Item". split; [done|]. apply (Hitem _ _ _ None). }
      apply Forall_cons; split; [|constructor].
      exists "Item". split; [done|]. apply (Hitem _ _ _ (Some true)).
    + eexists. split; [reflexivity|]. split; [discriminate|].
      apply Forall_cons; split; [|constructor].
      exists "Item". split; [done|]. apply (Hitem _ _ _ None).
Qed.

(** Objects with pairwise distinct [id]s: two of them with the same [id]
    are the same. *)
Lemma distinct_ids_coherent (l : list (list (string * JsVal))) o1 o2 id :
  NoDup (map idText l) -> o1 ∈ l -> o2 ∈ l ->
  Obj.get "id" o1 = Some (JString id) -> Obj.get "id" o2 = Some (JString id) -> o1 = o2.
Proof.
  intros Hnd H1 H2 Hid1 Hid2.
  apply list_elem_of_lookup in H1 as [i Hi]. apply list_elem_of_lookup in H2 as [j Hj].
  assert (i = j) as ->; [|congruence].
  eapply NoDup_lookup; [exact Hnd | |]; rewrite list_lookup_fmap.
  - rewrite Hi. cbn. unfold idText. by rewrite Hid1.
  - rewrite Hj. cbn. unfold idText. by rewrite Hid2.
Qed.

Lemma exampleShelf_properIds :
  @properIds exampleHost "http://example.org/shelf" (JObject exampleShelf).
Proof.
  split; [|split].
  - intros o1 o2 id H1 H2 Hid1 Hid2.
    assert (Hstr : exists x, id = JString x).
    { cbn in H1. elem_cases H1; cbn in Hid1; injection Hid1 as <-; by eexists. }
    destruct Hstr as [x ->].
    apply (distinct_ids_coherent (subObjects (JObject exampleShelf)) o1 o2 x); try done.
    apply (bool_decide_unpack _). vm_compute. exact I.
  - intros x Hx. cbn in Hx. elem_cases Hx.
    + apply base_not_minted.
    + by apply not_minted_prefix.
    + by apply not_minted_prefix.
    + by apply not_minted_prefix.
    + by apply not_minted_prefix.
  - intros o x Ho Hu. cbn in Ho. elem_cases Ho; discriminate.
Qed.

(** *** The ledger example *)

Lemma ledger_defs ty d :
  Obj.get ty (defs ledgerBuilder) = Some d ->
  (ty, d) = ("Entry", entryDef) \/ (ty, d) = ("Ledger", ledgerDef).
Proof.
  intros Hget. apply Obj_get_elem in Hget.
  cbn [ledgerBuilder newObjectBuilder defs ledgerDefs] in Hget.
  apply elem_of_cons in Hget as [Hget | Hget]; [by left|].
  apply list_elem_of_singleton in Hget. by right.
Qed.

Lemma ledger_schemaOK : schemaOK ledgerBuilder.
Proof.
  split.
  - intros ty d Hget. destruct (ledger_defs ty d Hget) as [[= -> ->] | [= -> ->]]; reflexivity.
  - intros ty d Hget. destruct (ledger_defs ty d Hget) as [[= -> ->] | [= -> ->]];
      apply (bool_decide_unpack _); vm_compute; exact I.
  - intros ty d Hget. destruct (ledger_defs ty d Hget) as [[= -> ->] | [= -> ->]];
      apply (bool_decide_unpack _); vm_compute; exact I.
  - intros ty d Hget. destruct (ledger_defs ty d Hget) as [[= -> ->] | [= -> ->]]; reflexivity.
  - intros ty d key p Hget Hp.
    destruct (ledger_defs ty d Hget) as [[= -> ->] | [= -> ->]];
      cbn [entryDef ledgerDef properties] in Hp; elem_cases Hp; repeat split; discriminate.
  - intros ty d Hget. destruct (ledger_defs ty d Hget) as [[= -> ->] | [= -> ->]];
      (split; [reflexivity | split; discriminate]).
Qed.

Ltac eval_ledger :=
  lazy [Obj.get exampleLedger entryA entryB String.eqb Ascii.eqb Bool.eqb isArray isLiteral
        isOptional isMultiType type stringArrayProp objectProp objectArrayProp numberProp
        dateProp stringProp conformsElem orb app].

Lemma entryA_conforms : @conforms exampleHost ledgerBuilder 1 "Entry" (JObject entryA).
Proof.
  exists entryA, entryDef, "http://example.org/e1".
  split; [reflexivity|]. split; [reflexivity|].
  split; [apply (bool_decide_unpack _); vm_compute; exact I|].
  split; [reflexivity|]. split; [reflexivity|]. split.
  - intros k Hk. cbn in Hk. elem_cases Hk; auto;
      right; right; apply (bool_decide_unpack _); vm_compute; exact I.
  - intros key p Hp. cbn [entryDef properties] in Hp. elem_cases Hp; eval_ledger.
    + by apply goodLiteral_uuid.
    + by apply goodLiteral_fraction.
    + by apply goodLiteral_date.
Qed.

Lemma entryB_conforms : @conforms exampleHost ledgerBuilder 1 "Entry" (JObject entryB).
Proof.
  exists entryB, entryDef, "http://example.org/e2".
  split; [reflexivity|]. split; [reflexivity|].
  split; [apply (bool_decide_unpack _); vm_compute; exact I|].
  split; [reflexivity|]. split; [reflexivity|]. split.
  - intros k Hk. cbn in Hk. elem_cases Hk; auto;
      right; right; apply (bool_decide_unpack _); vm_compute; exact I.
  - intros key p Hp. cbn [entryDef properties] in Hp. elem_cases Hp; eval_ledger.
    + by apply goodLiteral_uuid.
    + by apply goodLiteral_integer.
    + by apply goodLiteral_date.
Qed.

Lemma exampleLedger_conforms :
  @conforms exampleHost ledgerBuilder 2 "Ledger" (JObject exampleLedger).
Proof.
  exists exampleLedger, ledgerDef, "http://example.org/ledger".
  split; [reflexivity|]. split; [reflexivity|].
  split; [apply (bool_decide_unpack _); vm_compute; exact I|].
  split; [reflexivity|]. split; [reflexivity|]. split.
  - intros k Hk. cbn in Hk. elem_cases Hk; auto;
      right; right; apply (bool_decide_unpack _); vm_compute; exact I.
  - intros key p Hp. cbn [ledgerDef properties] in Hp. elem_cases Hp; eval_ledger.
    + exists "Entry". split; [done|]. apply entryA_conforms.
    + eexists. split; [reflexivity|]. split; [discriminate|].
      constructor; [exists "Entry"; split; [done | apply entryA_conforms]|].
      constructor; [exists "Entry"; split; [done | apply entryB_conforms]|].
      constructor; [exists "Entry"; split; [done | apply entryA_conforms]|].
      constructor.
    + eexists. split; [reflexivity|]. split; [discriminate|].
      apply Forall_cons; split; [by apply goodLiteral_uuid | constructor].
Qed.

Lemma exampleLedger_properIds :
  @properIds exampleHost "http://example.org/ledger" (JObject exampleLedger).
Proof.
  split; [|split].
  - intros o1 o2 id H1 H2. cbn in H1, H2. elem_cases H1; elem_cases H2;
      intros Hid1 Hid2; try reflexivity; vm_compute in Hid1, Hid2; congruence.
  - intros x Hx. cbn in Hx. elem_cases Hx;
      first [apply base_not_minted | by apply not_minted_prefix].
  - intros o x Ho Hu. cbn in Ho. elem_cases Ho; discriminate.
Qed.


(** The ledger of the example, built and decoded: the shared entry is
    written once, with one list of three items pointing at it twice. *)
Example ledger_round_trip :
  let built := @buildResource exampleHost ledgerBuilder 2 "Ledger" "http://example.org/ledger"
                 (JObject exampleLedger) "" initState in
  fst built = Ret tt
  /\ length (store (snd built)) = 22%nat
  /\ fst (@decodeResource exampleHost ledgerBuilder 2 (ByUri "http://example.org/ledger") ""
            (stateOfStore (store (snd built))))
     = Ret (JObject exampleLedger).
Proof. repeat split; vm_compute; reflexivity. Qed.


(** *** Where the round trip stops *)

(** With a child type in the schema the round trip can fail: once the
    [Child] value has been built, the cached map of [Parent] holds the
    child's [note], and the [Parent] value built after it gets a [note]
    triple with the text of [undefined], which the decoder reads back. *)
Example round_trip_with_inheritance :
  let built := @buildResource exampleHost familyBuilder 2 "Trio" "http://example.org/t"
                 exampleTrio "" initState in
  fst built = Ret tt
  /\ fst (@decodeResource exampleHost familyBuilder 2 (ByUri "http://example.org/t") ""
            (stateOfStore (store (snd built))))
     = Ret (JObject
              [("id", JString "http://example.org/t"); ("type", JString "Trio");
               ("first", person "http://example.org/p1" "Parent" "a" "b" None);
               ("second", person "http://example.org/c" "Child" "c" "d" (Some "n"));
               ("third", person "http://example.org/p2" "Parent" "e" "f" (Some "undefined"))]).
Proof. split; vm_compute; reflexivity. Qed.

(** Decoding with the cache the build has filled returns only [id] and
    [type]: [buildResource] caches an empty URI map for every type it
    builds. *)
Example round_trip_with_the_cache_of_the_build :
  let built := @buildResource exampleHost catalogBuilder 2 "Shelf" "http://example.org/shelf"
                 (JObject exampleShelf) "" initState in
  fst built = Ret tt
  /\ fst (@decodeResource exampleHost catalogBuilder 2 (ByUri "http://example.org/shelf") ""
            (snd built))
     = Ret (JObject [("id", JString "http://example.org/shelf"); ("type", JString "Shelf")]).
Proof. split; vm_compute; reflexivity. Qed.

(** ** Dates *)

(** A [Date] value at the start of its local day is written as the text of
    its calendar date, every other valid [Date] as the text of the instant;
    both texts are the host's. *)
Lemma buildLiteral_Date `{Host} node property dkey t :
  buildLiteral node property "Date" dkey (JDate (Some t))
  = addQuad (quad (NamedNode node) (NamedNode property)
                  (Literal (if startOfLocalDay t =? t then toLocaleDateString t
                            else dateToString t) xsd_string)).
Proof.
  unfold buildLiteral.
  change (String.eqb "Date" "string" || String.eqb "Date" "number"
          || String.eqb "Date" "boolean")%bool with false.
  change (String.eqb "Date" "Date") with true. cbv iota.
  cbn [isBeginningOfDay]. rewrite bind_ret_l.
  by destruct (startOfLocalDay t =? t).
Qed.

(** C8, as stated, fails on a host whose [String(d)] has no milliseconds: the
    instant 14:30:00.500 of day 0 is not the start of its day, is written
    as the text of its second, and is read back as 14:30:00.000. *)
Lemma date_timestamp_loses_milliseconds :
  let t := 52200500 in
  @startOfLocalDay secondsHost t <> t
  /\ @buildLiteral secondsHost "http://example.org/n" "http://example.org/when" "Date" "when"
       (JDate (Some t)) initState
     = addQuad (quad (NamedNode "http://example.org/n") (NamedNode "http://example.org/when")
                     (Literal "T52200" xsd_string)) initState
  /\ @decodeLiteral secondsHost "Date" "when" "T52200" = JDate (Some 52200000)
  /\ JDate (Some 52200000) <> JDate (Some t).
Proof. vm_compute. repeat split; discriminate. Qed.

(** C8 (amended). A [Date] value is written as the host's calendar-date text
    when the instant is the start of its local day and as the text
    [String(d)] otherwise, and decoding is the host's [Date] parsing of the
    text.  On a host whose parser reads its calendar-date text as the local
    midnight and the text [String(d)] as the printed second, the decoded
    instant lies on the same local day as the original; it is the original
    in the midnight case, the original cut to the second in the timestamp
    case, and so the original in full exactly when the instant has no
    milliseconds. *)
Theorem date_build_decode `{Host} (node property dkey : string) (t : Z) (s : State) :
  (forall x, dateParse (toLocaleDateString x) = Some (startOfLocalDay x)) ->
  (forall x, dateParse (dateToString x) = Some (x - x mod 1000)) ->
  (forall x, startOfLocalDay x <= x /\ startOfLocalDay x mod 1000 = 0) ->
  (forall x y, startOfLocalDay x <= y <= x -> startOfLocalDay y = startOfLocalDay x) ->
  exists txt d,
    txt = (if startOfLocalDay t =? t then toLocaleDateString t else dateToString t)
    /\ buildLiteral node property "Date" dkey (JDate (Some t)) s
       = addQuad (quad (NamedNode node) (NamedNode property) (Literal txt xsd_string)) s
    /\ decodeLiteral "Date" dkey txt = JDate (Some d)
    /\ startOfLocalDay d = startOfLocalDay t
    /\ (startOfLocalDay t = t -> d = t)
    /\ (startOfLocalDay t <> t -> d = t - t mod 1000)
    /\ (d = t <-> t mod 1000 = 0).
Proof.
  intros Hdate Hstamp Hstart Hday.
  assert (Hdec : forall txt, decodeLiteral "Date" dkey txt = JDate (dateParse txt)).
  { intros txt. unfold decodeLiteral.
    change (String.eqb "Date" "string") with false.
    by change (String.eqb "Date" "Date") with true. }
  assert (Hmod : 0 <= t mod 1000 < 1000) by (apply Z.mod_pos_bound; lia).
  destruct (Hstart t) as [Hle Hwhole].
  eexists _, (if startOfLocalDay t =? t then t else t - t mod 1000).
  split; [reflexivity|]. split; [by rewrite buildLiteral_Date|].
  destruct (startOfLocalDay t =? t) eqn:Heq.
  - apply Z.eqb_eq in Heq. rewrite Hdec, Hdate, Heq.
    split; [done|]. split; [done|]. split; [done|]. split; [done|].
    split; [intros _; by rewrite <- Heq | done].
  - apply Z.eqb_neq in Heq. rewrite Hdec, Hstamp.
    split; [done|]. split.
    { apply Hday. split; [|lia].
      (* the start of the day is a whole second not after [t] *)
      assert (Hs : startOfLocalDay t = 1000 * (startOfLocalDay t / 1000))
        by (apply Z_div_exact_full_2; lia).
      assert (Ht : t = 1000 * (t / 1000) + t mod 1000) by (apply Z.div_mod; lia).
      assert (Hq : startOfLocalDay t / 1000 <= t / 1000) by (apply Z.div_le_mono; lia).
      lia. }
    split; [done|]. split; [done|]. lia.
Qed.

Lemma secondsHost_parses_dates x :
  @dateParse secondsHost (@toLocaleDateString secondsHost x)
  = Some (@startOfLocalDay secondsHost x).
Proof.
  cbn [dateParse toLocaleDateString startOfLocalDay secondsHost].
  change (Ascii.eqb "D" "D") with true. cbv iota.
  rewrite toNumber_ofZ. cbn [fmap option_fmap option_map]. f_equal.
  pose proof (Z.div_mod x 86400000). lia.
Qed.

Lemma secondsHost_parses_stamps x :
  @dateParse secondsHost (@dateToString secondsHost x) = Some (x - x mod 1000).
Proof.
  cbn [dateParse dateToString secondsHost].
  change (Ascii.eqb "T" "D") with false. change (Ascii.eqb "T" "T") with true. cbv iota.
  rewrite toNumber_ofZ. cbn [fmap option_fmap option_map]. f_equal.
  pose proof (Z.div_mod x 1000). lia.
Qed.

Lemma secondsHost_start x :
  @startOfLocalDay secondsHost x <= x /\ @startOfLocalDay secondsHost x mod 1000 = 0.
Proof.
  cbn [startOfLocalDay secondsHost].
  pose proof (Z.mod_pos_bound x 86400000). split; [lia|].
  assert (Hx : x - x mod 86400000 = 86400000 * (x / 86400000))
    by (pose proof (Z.div_mod x 86400000); lia).
  rewrite Hx. change 86400000 with (1000 * 86400) at 1.
  rewrite <- Z.mul_assoc, Z.mul_comm. apply Z.mod_mul. lia.
Qed.

Lemma secondsHost_day x y :
  @startOfLocalDay secondsHost x <= y <= x ->
  @startOfLocalDay secondsHost y = @startOfLocalDay secondsHost x.
Proof.
  cbn [startOfLocalDay secondsHost]. intros [Hlo Hhi].
  pose proof (Z.mod_pos_bound x 86400000). pose proof (Z.mod_pos_bound y 86400000).
  pose proof (Z.div_mod x 86400000). pose proof (Z.div_mod y 86400000).
  assert (Hq : y / 86400000 = x / 86400000).
  { symmetry. apply (Z.div_unique y 86400000 (x / 86400000) (y - 86400000 * (x / 86400000)));
      lia. }
  lia.
Qed.

Lemma date_build_decode_witness :
  exists txt d,
    txt = (if @startOfLocalDay secondsHost 52200500 =? 52200500
           then @toLocaleDateString secondsHost 52200500
           else @dateToString secondsHost 52200500)
    /\ @buildLiteral secondsHost "http://example.org/n" "http://example.org/when" "Date" "when"
         (JDate (Some 52200500)) initState
       = addQuad (quad (NamedNode "http://example.org/n") (NamedNode "http://example.org/when")
                       (Literal txt xsd_string)) initState
    /\ @decodeLiteral secondsHost "Date" "when" txt = JDate (Some d)
    /\ @startOfLocalDay secondsHost d = @startOfLocalDay secondsHost 52200500
    /\ (@startOfLocalDay secondsHost 52200500 = 52200500 -> d = 52200500)
    /\ (@startOfLocalDay secondsHost 52200500 <> 52200500 -> d = 52200500 - 52200500 mod 1000)
    /\ (d = 52200500 <-> 52200500 mod 1000 = 0).
Proof.
  apply (@date_build_decode secondsHost "http://example.org/n" "http://example.org/when"
           "when" 52200500 initState).
  - exact secondsHost_parses_dates.
  - exact secondsHost_parses_stamps.
  - exact secondsHost_start.
  - exact secondsHost_day.
Defined.

(** * Further properties of the codec *)

(** ** The constructor *)

Lemma typeDefs_fold (d : AbstractDefinitionMap) (acc : AbstractTypeUriMap) (u : string) :
  Obj.get u (fold_left (fun acc kv => Obj.set (def_uri (snd kv)) (fst kv) acc) d acc)
  = match last (filter (fun kv => def_uri (snd kv) = u) d) with
    | Some kv => Some (fst kv)
    | None => Obj.get u acc
    end.
Proof.
  revert acc. induction d as [|[k def] d IH]; intros acc; [done|].
  cbn [fold_left fst snd]. rewrite IH. rewrite filter_cons. cbn [snd].
  destruct (decide (def_uri def = u)) as [<-|Hne].
  - rewrite last_cons. destruct (last (filter _ d)); [done|].
    cbn [fst]. apply Obj_get_set_eq.
  - destruct (last (filter _ d)); [done|]. by apply Obj_get_set_ne.
Qed.

(** X1. The reverse map the constructor builds sends a type URI to the key
    of the last definition that declares it, and has no entry for a URI no
    definition declares: when two definitions share a URI, the later key
    wins. *)
Theorem constructor_typeDefs (d : AbstractDefinitionMap) (u : string) :
  Obj.get u (typeDefs (newObjectBuilder d))
  = fst <$> last (filter (fun kv => def_uri (snd kv) = u) d).
Proof.
  unfold newObjectBuilder. cbn [typeDefs]. rewrite typeDefs_fold.
  by destruct (last _).
Qed.

(** ** Lookup by uuid *)

#[global] Instance Term_eq_dec : EqDecision Term.
Proof. solve_decision. Defined.

#[global] Instance Quad_eq_dec : EqDecision Quad.
Proof. solve_decision. Defined.

(** X2. In a store without duplicates [getUriForUUID] returns a node
    exactly when one triple, and no other, has the uuid predicate and the
    lower-cased uuid reference as object; the node is the subject of that
    triple.  With no carrier, or with two, the result is [null]. *)
Theorem getUriForUUID_unique (st : Store) (uuid x : string) :
  NoDup st ->
  let carries q :=
    predicate q = NamedNode object_uuid
    /\ object q = NamedNode ("urn:uuid:" +:+ JsString.toLowerCase uuid) in
  getUriForUUID st uuid = Some x
  <-> exists q, q ∈ st /\ carries q /\ termValue (subject q) = x
                /\ forall q', q' ∈ st -> carries q' -> q' = q.
Proof.
  intros Hnd carries. unfold getUriForUUID. cbv zeta.
  remember (getQuads st None (Some (namedNode object_uuid))
              (Some (namedNode ("urn:uuid:" +:+ JsString.toLowerCase uuid)))) as vals eqn:Hdef.
  assert (Hvals : forall q, q ∈ vals <-> q ∈ st /\ carries q).
  { intros q. rewrite Hdef, getQuads_elem, matchTerm_None, !matchTerm_Some.
    unfold carries. rewrite !term_eqb_eq. split.
    - by intros (? & _ & <- & <-).
    - by intros (? & <- & <-). }
  split.
  - clear Hdef. destruct vals as [|q [|q2 rest]]; [done | | done].
    intros [= <-]. exists q.
    destruct (proj1 (Hvals q)) as [Hq Hc]; [left|].
    split; [done|]. split; [done|]. split; [done|].
    intros q' Hq' Hc'. assert (Hin : q' ∈ [q]) by (apply Hvals; by split).
    by apply list_elem_of_singleton in Hin.
  - intros (q & Hq & Hc & <- & Huniq).
    assert (Heq : vals = [q]).
    { rewrite Hdef. unfold getQuads. apply filter_singleton; [done | done | |].
      - destruct Hc as [<- <-]. by rewrite matchTerm_None, !matchTerm_Some, !term_eqb_refl.
      - intros q' Hq' Hm. apply Huniq; [done|].
        rewrite matchTerm_None, !matchTerm_Some in Hm.
        apply andb_prop in Hm as [Hm Ho]. apply andb_prop in Hm as [_ Hp].
        apply term_eqb_eq in Hp, Ho. by split. }
    by rewrite Heq.
Qed.

Lemma getUriForUUID_unique_witness :
  getUriForUUID uuidStore "6FA459EA-EE8A-3CA4-894E-DB77E160355E" = Some "http://example.org/c"
  <-> exists q, q ∈ uuidStore
        /\ (predicate q = NamedNode object_uuid
            /\ object q = NamedNode ("urn:uuid:" +:+ JsString.toLowerCase
                                       "6FA459EA-EE8A-3CA4-894E-DB77E160355E"))
        /\ termValue (subject q) = "http://example.org/c"
        /\ forall q', q' ∈ uuidStore ->
             (predicate q' = NamedNode object_uuid
              /\ object q' = NamedNode ("urn:uuid:" +:+ JsString.toLowerCase
                                          "6FA459EA-EE8A-3CA4-894E-DB77E160355E")) ->
             q' = q.
Proof.
  apply (getUriForUUID_unique uuidStore "6FA459EA-EE8A-3CA4-894E-DB77E160355E"
           "http://example.org/c").
  apply (bool_decide_unpack _). vm_compute. exact I.
Defined.

(** The lookup on the example store: the uuid of one node is found under
    any spelling, the uuid two nodes share is not. *)
Example getUriForUUID_examples :
  getUriForUUID uuidStore "6FA459EA-EE8A-3CA4-894E-DB77E160355E" = Some "http://example.org/c"
  /\ getUriForUUID uuidStore "1b4e28ba-2fa1-11d2-883f-0016d3cca427" = None
  /\ getUriForUUID uuidStore "00000000-0000-0000-0000-000000000000" = None.
Proof. repeat split. Qed.

(** X3. Once [buildLiteral] has written the [uuid] of a node on the uuid
    predicate, [getUriForUUID] finds the node under every spelling of the
    uuid that differs only in letter case, provided no other node of the
    store carries the same uuid. *)
Theorem getUriForUUID_after_buildLiteral `{Host} (node v u : string) (s : State) :
  NoDup (store s) ->
  (forall q, q ∈ store s -> predicate q = NamedNode object_uuid ->
             object q = NamedNode ("urn:uuid:" +:+ JsString.toLowerCase v) ->
             subject q = NamedNode node) ->
  JsString.toLowerCase u = JsString.toLowerCase v ->
  getUriForUUID (store (snd (buildLiteral node object_uuid "string" "uuid" (JString v) s))) u
  = Some node.
Proof.
  intros Hnd Hother Hcase.
  set (q0 := quad (NamedNode node) (NamedNode object_uuid)
                  (NamedNode ("urn:uuid:" +:+ JsString.toLowerCase v))).
  assert (Hrun : buildLiteral node object_uuid "string" "uuid" (JString v) s
                 = addQuad q0 s) by reflexivity.
  rewrite Hrun. cbn [addQuad snd store]. unfold getUriForUUID. cbv zeta. rewrite Hcase.
  unfold getQuads. rewrite (filter_singleton _ _ q0).
  - done.
  - by apply NoDup_storeAdd.
  - apply elem_of_storeAdd. by left.
  - cbn [subject predicate object q0].
    by rewrite matchTerm_None, !matchTerm_Some, !term_eqb_refl.
  - intros q Hq Hm. rewrite matchTerm_None, !matchTerm_Some in Hm.
    apply andb_prop in Hm as [Hm Ho]. apply andb_prop in Hm as [_ Hp].
    apply term_eqb_eq in Hp, Ho.
    apply elem_of_storeAdd in Hq as [-> | Hq]; [done|].
    rewrite <- (quad_eta q). unfold q0. f_equal; [|done..].
    by apply Hother.
Qed.

Lemma getUriForUUID_after_buildLiteral_witness :
  getUriForUUID
    (store (snd (@buildLiteral exampleHost "http://example.org/d" object_uuid "string" "uuid"
                   (JString "C73BCDCC-2669-4BF6-81D3-E4AE73FB11FD") (stateOfStore uuidStore))))
    "c73bcdcc-2669-4Bf6-81d3-e4ae73fb11fd"
  = Some "http://example.org/d".
Proof.
  apply (@getUriForUUID_after_buildLiteral exampleHost).
  - apply (bool_decide_unpack _). vm_compute. exact I.
  - intros q Hq. cbn [stateOfStore store uuidStore] in Hq.
    repeat (apply elem_of_cons in Hq as [-> | Hq]); try (by apply elem_of_nil in Hq);
      intros _ Ho; discriminate Ho.
  - reflexivity.
Defined.

(** ** The type of a node *)

(** [getType] runs the type-discovery loop of [decodeResource]. *)
Lemma getType_discover (this : ObjectBuilder) (st : Store) (u : string) :
  let types := getQuads st (Some (NamedNode u)) (Some (NamedNode rdf_type)) None in
  match getType this st u with
  | Some k => discoverType (typeDefs this) types = k
  | None =>
      Forall (fun q => Obj.get (termValue (object q)) (typeDefs this) = None) types
  end.
Proof.
  unfold getType. cbv zeta.
  induction (getQuads st (Some (namedNode u)) (Some (namedNode rdf_type)) None)
    as [|q r IH]; [constructor|].
  cbn [discoverType].
  destruct (Obj.get (termValue (object q)) (typeDefs this)) as [k|] eqn:E; [done|].
  destruct ((fix scan (l : list Quad) : option string := _) r) as [k|].
  - done.
  - by constructor.
Qed.

(** X4. When [getType] returns [null] for a node, decoding the node with no
    expected type returns the empty object, and leaves the store, the cache
    and the maps as they were. *)
Theorem getType_null_decodes_empty `{Host} (this : ObjectBuilder) (fuel : nat) (u : string)
    (s : State) :
  getType this (store s) u = None ->
  fst (decodeResource this (S fuel) (ByUri u) "" s) = Ret (JObject [])
  /\ sameButConsole s (snd (decodeResource this (S fuel) (ByUri u) "" s)).
Proof.
  intros Hnone. pose proof (getType_discover this (store s) u) as Hd.
  rewrite Hnone in Hd. cbv zeta in Hd.
  destruct (decodeResource_unknown_eq this fuel (ByUri u) s Hd) as [line ->].
  by split.
Qed.

Lemma getType_null_decodes_empty_witness :
  fst (@decodeResource exampleHost exampleBuilder 1 (ByUri "http://example.org/x") ""
         (stateOfStore strangerStore)) = Ret (JObject [])
  /\ sameButConsole (stateOfStore strangerStore)
       (snd (@decodeResource exampleHost exampleBuilder 1 (ByUri "http://example.org/x") ""
               (stateOfStore strangerStore))).
Proof.
  apply (@getType_null_decodes_empty exampleHost exampleBuilder 0 "http://example.org/x"
           (stateOfStore strangerStore)).
  reflexivity.
Defined.

(** X5. When [getType] returns a non-empty type key for a node, every
    object [decodeResource] returns for the node carries that key as its
    [type] and the node URI as its [id], whatever expected type the caller
    passes, as long as no URI map sends a property to the key [id] or
    [type]. *)
Theorem getType_is_decoded_type `{Host} (this : ObjectBuilder) (fuel : nat)
    (u k specifyType : string) (s s' : State) (v : JsVal) :
  getType this (store s) u = Some k -> k <> "" ->
  schemaKeepsIdAndType this -> heapKeepsIdAndType s ->
  decodeResource this fuel (ByUri u) specifyType s = (Ret v, s') ->
  exists item, v = JObject item
               /\ Obj.get "id" item = Some (JString u)
               /\ Obj.get "type" item = Some (JString k).
Proof.
  intros Hty Hk Hschema Hheap Hrun.
  pose proof (getType_discover this (store s) u) as Hd. rewrite Hty in Hd. cbv zeta in Hd.
  assert (Hres : resolvedType this (store s) (NamedNode u) specifyType = k).
  { unfold resolvedType. cbv zeta. rewrite Hd.
    apply String.eqb_neq in Hk. by rewrite Hk. }
  pose proof (decodeResource_keys this True (fun _ => Hschema) fuel (ByUri u) specifyType
                (store s) s (conj (fun _ => Hheap) eq_refl)) as Hkeys.
  rewrite Hrun in Hkeys. cbn [nodeOf] in Hkeys. rewrite Hres in Hkeys.
  destruct (Hkeys Hk) as (item & -> & _ & Hsame).
  destruct (Hsame I) as [Hid Htype]. exists item. split; [done|].
  by rewrite Hid, Htype.
Qed.

Lemma catalog_keeps_id_and_type : schemaKeepsIdAndType catalogBuilder.
Proof.
  unfold schemaKeepsIdAndType, keepsIdAndType.
  repeat (constructor; [repeat (constructor; [split; discriminate|]); constructor|]).
  constructor.
Qed.

Lemma getType_is_decoded_type_witness :
  exists item,
    JObject [("id", JString "http://example.org/i0"); ("type", JString "Item");
             ("name", JString "lamp")] = JObject item
    /\ Obj.get "id" item = Some (JString "http://example.org/i0")
    /\ Obj.get "type" item = Some (JString "Item").
Proof.
  apply (@getType_is_decoded_type exampleHost catalogBuilder 1 "http://example.org/i0" "Item"
           "Shelf" (stateOfStore itemStore)
           (snd (@decodeResource exampleHost catalogBuilder 1 (ByUri "http://example.org/i0")
                   "Shelf" (stateOfStore itemStore)))).
  - reflexivity.
  - discriminate.
  - exact catalog_keeps_id_and_type.
  - constructor.
  - vm_compute. reflexivity.
Defined.

(** ** Decoding reads only *)

Lemma quiet_foldM {A B} (f : B -> A -> M B) (l : list A) :
  (forall b x, quiet (f b x)) -> forall acc, quiet (foldM f acc l).
Proof.
  intros Hf. induction l as [|x l IH]; intros acc; cbn [foldM].
  - apply quiet_ret.
  - apply quiet_bind; [apply Hf | intros ?; apply IH].
Qed.

Lemma quiet_mapM {A B} (f : A -> M B) (l : list A) :
  (forall x, quiet (f x)) -> quiet (mapM f l).
Proof.
  intros Hf. induction l as [|x l IH]; cbn [mapM].
  - apply quiet_ret.
  - apply quiet_bind; [apply Hf|]. intros ?.
    apply quiet_bind; [apply IH|]. intros ?. apply quiet_ret.
Qed.

Section Quiet.
Context `{Host} (rec : NodeArg -> string -> M JsVal).
Hypothesis quiet_rec : forall a spec, quiet (rec a spec).

Lemma quiet_decodeArray nodeUri literalVal ty propKey :
  quiet (decodeArray rec nodeUri literalVal ty propKey).
Proof.
  unfold decodeArray. apply quiet_bind; [apply quiet_getStore|]. intros st. cbv zeta.
  destruct literalVal; [apply quiet_ret|].
  apply quiet_bind; [by apply quiet_mapM|]. intros ?. apply quiet_ret.
Qed.

Lemma quiet_decodeTriple st allProps allUris item q :
  quiet (decodeTriple rec st allProps allUris item q).
Proof.
  unfold decodeTriple. cbv zeta.
  apply quiet_bind; [apply quiet_readUriMap|]. intros uriMap.
  destruct (Obj.get _ uriMap) as [propKey|]; [|apply quiet_ret].
  apply quiet_bind; [apply quiet_readPropMap|]. intros propMap.
  destruct (Obj.get propKey propMap) as [prop|]; [|apply quiet_throw].
  destruct (isArray prop && isItemList st (object q))%bool.
  - apply quiet_bind; [apply quiet_decodeArray|]. intros ?. apply quiet_ret.
  - apply quiet_bind.
    + destruct (isLiteral (type prop)); [apply quiet_ret|].
      destruct (isMultiType prop); apply quiet_rec.
    + intros newval. destruct (isArray prop); [|apply quiet_ret].
      destruct (Obj.get propKey item) as [[]|];
        first [apply quiet_ret | apply quiet_throw].
Qed.

End Quiet.

Lemma quiet_decodeResource `{Host} (this : ObjectBuilder) (fuel : nat)
    (nodeUri : NodeArg) (specifyType : string) :
  quiet (decodeResource this fuel nodeUri specifyType).
Proof.
  revert nodeUri specifyType.
  induction fuel as [|fuel IH]; intros a spec; cbn [decodeResource]; [apply quiet_diverge|].
  cbv zeta. apply quiet_bind; [apply quiet_getStore|]. intros st.
  destruct (_ && _)%bool.
  - apply quiet_bind; [apply quiet_consoleWrite|]. intros ?. apply quiet_ret.
  - apply quiet_bind; [apply quiet_cacheLookup|]. intros c.
    apply quiet_bind.
    + destruct c; [apply quiet_ret|].
      apply quiet_bind; [apply quiet_getAllProperties|]. intros p.
      apply quiet_bind; [apply quiet_getAllPropertyUris|]. intros u.
      apply quiet_bind; [apply quiet_cacheStore|]. intros ?. apply quiet_ret.
    + intros maps. apply quiet_bind; [|intros ?; apply quiet_ret].
      apply quiet_foldM. intros item q. by apply quiet_decodeTriple.
Qed.

(** X6. Decoding is read-only on the graph: however [decodeResource] ends,
    the store holds the same quads in the same order and no uuid has been
    drawn. *)
Theorem decodeResource_reads_only `{Host} (this : ObjectBuilder) (fuel : nat)
    (nodeUri : NodeArg) (specifyType : string) (s : State) :
  store (snd (decodeResource this fuel nodeUri specifyType s)) = store s
  /\ minted (snd (decodeResource this fuel nodeUri specifyType s)) = minted s.
Proof. apply quiet_decodeResource. Qed.

(** X7. A registered [rdf:type] of the node overrides the type the caller
    expects: when [getType] returns a non-empty key for the node,
    [decodeResource] ends the same way, with the same result and the same
    state, for every expected type. *)
Theorem decodeResource_registered_type_wins `{Host} (this : ObjectBuilder) (fuel : nat)
    (u k spec spec' : string) (s : State) :
  getType this (store s) u = Some k -> k <> "" ->
  decodeResource this fuel (ByUri u) spec s = decodeResource this fuel (ByUri u) spec' s.
Proof.
  intros Hty Hk.
  pose proof (getType_discover this (store s) u) as Hd. rewrite Hty in Hd. cbv zeta in Hd.
  apply String.eqb_neq in Hk.
  destruct fuel as [|fuel]; [done|]. cbn [decodeResource nodeOf].
  rewrite !(bind_Ret getStore _ s (store s) s eq_refl). cbv zeta.
  by rewrite Hd, !Hk.
Qed.

Lemma decodeResource_registered_type_wins_witness :
  @decodeResource exampleHost catalogBuilder 1 (ByUri "http://example.org/i0") "Shelf"
                  (stateOfStore itemStore)
  = @decodeResource exampleHost catalogBuilder 1 (ByUri "http://example.org/i0") ""
                    (stateOfStore itemStore).
Proof.
  apply (@decodeResource_registered_type_wins exampleHost catalogBuilder 1
           "http://example.org/i0" "Item" "Shelf" "" (stateOfStore itemStore)).
  - reflexivity.
  - discriminate.
Defined.

(** ** The cache a build leaves behind *)

Lemma keepsCache_ret {A} (a : A) : keepsCache (ret a).
Proof. by intros ?. Qed.
Lemma keepsCache_throw {A} e : keepsCache (@throw A e).
Proof. by intros ?. Qed.
Lemma keepsCache_diverge {A} : keepsCache (@diverge A).
Proof. by intros ?. Qed.

Lemma keepsCache_bind {A B} (m : M A) (k : A -> M B) :
  keepsCache m -> (forall a, keepsCache (k a)) -> keepsCache (bind m k).
Proof.
  intros Hm Hk s. specialize (Hm s). unfold bind.
  destruct (m s) as [[a| |] s1]; cbn [snd] in *; [|done..].
  destruct Hm as [Hc1 Hu1]. destruct (Hk a s1) as [Hc Hu]. split; congruence.
Qed.

Lemma keepsCache_addQuad q : keepsCache (addQuad q).
Proof. by intros ?. Qed.
Lemma keepsCache_freshUuid `{Host} : keepsCache freshUuid.
Proof. by intros ?. Qed.
Lemma keepsCache_consoleWrite l : keepsCache (consoleWrite l).
Proof. by intros ?. Qed.
Lemma keepsCache_cacheLookup ty : keepsCache (cacheLookup ty).
Proof. by intros ?. Qed.
Lemma keepsCache_newPropMap : keepsCache newPropMap.
Proof. by intros ?. Qed.
Lemma keepsCache_readPropMap r : keepsCache (readPropMap r).
Proof. by intros ?. Qed.
Lemma keepsCache_assignPropMap r src : keepsCache (assignPropMap r src).
Proof. by intros ?. Qed.
Lemma keepsCache_lookupDef this ty : keepsCache (lookupDef this ty).
Proof. unfold lookupDef. destruct (Obj.get ty (defs this)); by intros ?. Qed.
Lemma keepsCache_jsIn k v : keepsCache (jsIn k v).
Proof. destruct v; by intros ?. Qed.
Lemma keepsCache_jsGet k v : keepsCache (jsGet k v).
Proof.
  destruct (jsGet_pure k v) as [[x ->] | ->]; [apply keepsCache_ret | apply keepsCache_throw].
Qed.
Lemma keepsCache_jsIndex i v : keepsCache (jsIndex i v).
Proof. destruct v; by intros ?. Qed.
Lemma keepsCache_jsLength v : keepsCache (jsLength v).
Proof.
  destruct (jsLength_pure v) as [[x ->] | ->]; [apply keepsCache_ret | apply keepsCache_throw].
Qed.

Create HintDb cachekeep discriminated.
#[global] Hint Resolve keepsCache_ret keepsCache_throw keepsCache_diverge keepsCache_addQuad
  keepsCache_freshUuid keepsCache_consoleWrite keepsCache_cacheLookup keepsCache_newPropMap
  keepsCache_readPropMap keepsCache_assignPropMap keepsCache_lookupDef keepsCache_jsIn
  keepsCache_jsGet keepsCache_jsIndex keepsCache_jsLength : cachekeep.

Ltac keeps_step :=
  first
    [ solve [eauto with cachekeep]
    | apply keepsCache_bind; [|intros ?]
    | progress cbv zeta
    | match goal with
      | |- keepsCache (match ?x with _ => _ end) => destruct x
      end ].
Ltac solve_keeps := repeat keeps_step.

Lemma keepsCache_getAllProperties this fuel ty : keepsCache (getAllProperties this fuel ty).
Proof. revert ty. induction fuel as [|fuel IH]; intros ty; simpl; solve_keeps. Qed.

Lemma keepsCache_buildLiteral `{Host} node property ty dkey dval :
  keepsCache (buildLiteral node property ty dkey dval).
Proof.
  rewrite buildLiteral_object.
  destruct (literalObject ty dkey dval); [apply keepsCache_addQuad|].
  destruct (isLiteral ty); [apply keepsCache_throw | apply keepsCache_ret].
Qed.

#[global] Hint Resolve keepsCache_getAllProperties keepsCache_buildLiteral : cachekeep.

Section CacheOfBuild.
Context `{Host} (this : ObjectBuilder) (ty : string).

Lemma keepsCache_preserves {A} (m : M A) :
  keepsCache m -> preserves (emptyUrisFor ty) m.
Proof.
  intros Hm s (e & He & Hu). destruct (Hm s) as [Hc Hh].
  assert (Hgoal : emptyUrisFor ty (snd (m s))).
  { exists e. by rewrite Hc, Hh. }
  by destruct (m s) as [[a| |] s'].
Qed.

Lemma emptyUris_bind {A B} (m : M A) (k : A -> M B) :
  preserves (emptyUrisFor ty) m -> (forall a, preserves (emptyUrisFor ty) (k a)) ->
  preserves (emptyUrisFor ty) (bind m k).
Proof. intros Hm Hk. eapply triple_bind; [exact Hm | exact Hk]. Qed.

(** Caching a type with a fresh, empty URI map. *)
Lemma emptyUris_cacheStore ty' r (s : State) :
  let s' := snd ((let* u := newUriMap in
                  do cacheStore ty' {| props := r; uris := u |} then ret r) s) in
  emptyUrisFor ty' s' /\ (emptyUrisFor ty s -> emptyUrisFor ty s').
Proof.
  assert (Hnew : forall h : list UriMap, (h ++ [[]]) !! length h = Some []).
  { intros h. by rewrite lookup_app_r, Nat.sub_diag by lia. }
  unfold bind, newUriMap, cacheStore, ret, emptyUrisFor; cbn [fst snd cache uriHeap]. split.
  - eexists. split; [apply lookup_insert_eq|]. cbn [uris]. apply Hnew.
  - intros (e & He & Hu). destruct (decide (ty = ty')) as [->|Hne].
    + eexists. split; [apply lookup_insert_eq|]. cbn [uris]. apply Hnew.
    + exists e. split; [by rewrite lookup_insert_ne | by apply lookup_app_l_Some].
Qed.

Section Rec.
Context (rec : string -> string -> JsVal -> string -> M unit).
Hypothesis rec_preserves : forall t n o b, preserves (emptyUrisFor ty) (rec t n o b).

Lemma emptyUris_buildObject p dval b :
  preserves (emptyUrisFor ty) (buildObject rec p dval b).
Proof.
  unfold buildObject.
  apply emptyUris_bind; [apply keepsCache_preserves; solve_keeps|]. intros hasId.
  apply emptyUris_bind; [apply keepsCache_preserves; solve_keeps|]. intros sub.
  apply emptyUris_bind; [apply keepsCache_preserves; solve_keeps|]. intros subType.
  apply emptyUris_bind; [apply rec_preserves|]. intros ?.
  apply keepsCache_preserves, keepsCache_ret.
Qed.

Lemma emptyUris_buildListItem itemList value dkey dval b i :
  preserves (emptyUrisFor ty)
            (buildListItem (buildObject rec) itemList value dkey dval b i).
Proof.
  unfold buildListItem.
  apply emptyUris_bind; [apply keepsCache_preserves; solve_keeps|]. intros u. cbv zeta.
  apply emptyUris_bind; [apply keepsCache_preserves; solve_keeps|]. intros ?.
  apply emptyUris_bind; [apply keepsCache_preserves; solve_keeps|]. intros ?.
  apply emptyUris_bind; [apply keepsCache_preserves; solve_keeps|]. intros elem.
  destruct (isLiteral (type value)); [apply keepsCache_preserves; solve_keeps|].
  apply emptyUris_bind; [apply emptyUris_buildObject|]. intros ?.
  apply keepsCache_preserves; solve_keeps.
Qed.

Lemma emptyUris_buildProperty node obj b kv :
  preserves (emptyUrisFor ty) (buildProperty (buildObject rec) node obj b kv).
Proof.
  unfold buildProperty. cbv zeta.
  apply emptyUris_bind; [apply keepsCache_preserves; solve_keeps|]. intros skip.
  destruct skip; [apply keepsCache_preserves; solve_keeps|].
  apply emptyUris_bind; [apply keepsCache_preserves; solve_keeps|]. intros dval.
  apply emptyUris_bind; [apply keepsCache_preserves; solve_keeps|]. intros len.
  destruct (match len with Some n => 1 <? n | None => false end).
  - apply emptyUris_bind; [apply keepsCache_preserves; solve_keeps|]. intros u.
    apply emptyUris_bind; [apply keepsCache_preserves; solve_keeps|]. intros ?.
    apply emptyUris_bind; [apply keepsCache_preserves; solve_keeps|]. intros ?.
    apply triple_forEach. intros i _. apply emptyUris_buildListItem.
  - apply emptyUris_bind; [apply keepsCache_preserves; solve_keeps|]. intros dval'.
    destruct (isLiteral (type (snd kv))); [apply keepsCache_preserves; solve_keeps|].
    apply emptyUris_bind; [apply emptyUris_buildObject|]. intros ?.
    apply keepsCache_preserves; solve_keeps.
Qed.

End Rec.

Lemma emptyUris_buildResource fuel ty' node obj b :
  preserves (emptyUrisFor ty) (buildResource this fuel ty' node obj b).
Proof.
  revert ty' node obj b. induction fuel as [|fuel IH]; intros ty' node obj b;
    cbn [buildResource]; [apply keepsCache_preserves, keepsCache_diverge|].
  apply emptyUris_bind; [apply keepsCache_preserves; solve_keeps|]. intros def.
  apply emptyUris_bind; [apply keepsCache_preserves; solve_keeps|]. intros ?.
  apply emptyUris_bind; [apply keepsCache_preserves; solve_keeps|]. intros c.
  apply emptyUris_bind.
  - destruct c; [apply keepsCache_preserves; solve_keeps|].
    apply emptyUris_bind; [apply keepsCache_preserves; solve_keeps|]. intros r.
    intros s Hs. by apply (emptyUris_cacheStore ty' r s).
  - intros allProps. cbv zeta.
    apply emptyUris_bind; [apply keepsCache_preserves; solve_keeps|]. intros entries.
    apply triple_forEach. intros kv _. by apply emptyUris_buildProperty.
Qed.

End CacheOfBuild.

(** A build that finds its type uncached leaves it cached with an empty
    URI map. *)
Lemma buildResource_caches_emptyUris `{Host} this fuel ty node obj b s s' :
  cache s !! ty = None ->
  buildResource this fuel ty node obj b s = (Ret tt, s') ->
  emptyUrisFor ty s'.
Proof.
  intros Hc Hrun. destruct fuel as [|fuel]; [discriminate|].
  cbn [buildResource] in Hrun.
  apply bind_inv_Ret in Hrun as (def & s1 & Hdef & Hrun).
  assert (s1 = s) as ->.
  { unfold lookupDef in Hdef. destruct (Obj.get ty (defs this)); by inversion Hdef. }
  apply bind_inv_Ret in Hrun as (? & s2 & Hadd & Hrun).
  apply bind_inv_Ret in Hrun as (c & s3 & Hlook & Hrun).
  unfold addQuad in Hadd. inversion Hadd; subst s2.
  unfold cacheLookup in Hlook. cbn [cache] in Hlook. inversion Hlook; subst c s3.
  rewrite Hc in Hrun.
  apply bind_inv_Ret in Hrun as (allProps & s4 & Hall & Hrun).
  apply bind_inv_Ret in Hall as (r & s5 & _ & Hall).
  assert (Hs4 : emptyUrisFor ty s4).
  { pose proof (emptyUris_cacheStore ty ty r s5) as [Hnew _].
    cbv zeta in Hnew. by rewrite Hall in Hnew. }
  assert (Hrest : preserves (emptyUrisFor ty)
            (let* entries := readPropMap allProps in
             forEach (buildProperty (buildObject (buildResource this fuel)) node obj
                        (if String.eqb b "" then node else b)) entries)).
  { apply emptyUris_bind; [apply keepsCache_preserves; solve_keeps|]. intros entries.
    apply triple_forEach. intros kv _. apply emptyUris_buildProperty.
    intros. by apply emptyUris_buildResource. }
  specialize (Hrest s4 Hs4). cbv zeta in Hrun. by rewrite Hrun in Hrest.
Qed.

(** With an empty URI map cached for the type a node resolves to,
    [decodeResource] skips every triple of the node. *)
Lemma decodeResource_emptyUris `{Host} this fuel arg spec ty s :
  resolvedType this (store s) (nodeOf arg) spec = ty -> ty <> "" ->
  emptyUrisFor ty s ->
  decodeResource this (S fuel) arg spec s
  = (Ret (JObject [("id", JString (nodeIdOf (nodeOf arg))); ("type", JString ty)]), s).
Proof.
  intros Hty Hne (e & He & Hu). cbn [decodeResource].
  unfold resolvedType in Hty. unfold bind at 1. cbn [getStore fst snd]. cbv zeta.
  set (found := discoverType _ _) in *.
  assert (String.eqb found "" && String.eqb spec "" = false)%bool as ->.
  { apply andb_false_iff. destruct (String.eqb found "") eqn:Hf; [|by left].
    right. apply String.eqb_neq. congruence. }
  rewrite Hty. unfold bind at 1, cacheLookup at 1. cbn [fst snd]. rewrite He.
  rewrite bind_ret_l. cbn [fst snd].
  fold (nodeIdOf (nodeOf arg)).
  set (item := [("id", _); ("type", _)]).
  assert (Hfold : forall vals,
            foldM (decodeTriple (decodeResource this fuel) (store s) (props e) (uris e))
                  item vals s = (Ret item, s)).
  { induction vals as [|q vals IH]; [done|]. cbn [foldM].
    erewrite bind_Ret; [exact IH|].
    unfold decodeTriple. cbv zeta. unfold bind, readUriMap. cbn [fst snd].
    by rewrite Hu. }
  by erewrite bind_Ret by apply Hfold.
Qed.

(** X8. A build caches every type it meets with an empty table of property
    URIs.  So when [buildResource] has returned for a type that was not
    cached before, [decodeResource] run with the same cache on a node that
    resolves to this type returns only [id] and [type], whatever the store
    holds for the node, and changes nothing. *)
Theorem decode_with_the_cache_of_a_build `{Host} (this : ObjectBuilder)
    (n fuel : nat) (ty node b : string) (obj : JsVal) (s s' : State)
    (arg : NodeArg) (spec : string) :
  cache s !! ty = None ->
  buildResource this n ty node obj b s = (Ret tt, s') ->
  resolvedType this (store s') (nodeOf arg) spec = ty -> ty <> "" ->
  decodeResource this (S fuel) arg spec s'
  = (Ret (JObject [("id", JString (nodeIdOf (nodeOf arg))); ("type", JString ty)]), s').
Proof.
  intros Hc Hrun Hty Hne. apply decodeResource_emptyUris; [done..|].
  by eapply buildResource_caches_emptyUris.
Qed.

Lemma decode_with_the_cache_of_a_build_witness :
  let s' := snd (@buildResource exampleHost catalogBuilder 2 "Shelf"
                   "http://example.org/shelf" (JObject exampleShelf) "" initState) in
  @decodeResource exampleHost catalogBuilder 3 (ByUri "http://example.org/shelf") "" s'
  = (Ret (JObject [("id", JString "http://example.org/shelf"); ("type", JString "Shelf")]),
     s').
Proof.
  intros s'.
  apply (@decode_with_the_cache_of_a_build exampleHost catalogBuilder 2 2 "Shelf"
           "http://example.org/shelf" "" (JObject exampleShelf) initState s'
           (ByUri "http://example.org/shelf") "").
  - reflexivity.
  - vm_compute. reflexivity.
  - vm_compute. reflexivity.
  - discriminate.
Defined.

(** ** What a build writes *)

(** X9. However [buildResource] ends, normally or with an exception, it
    removes no quad, and every quad it adds has as subject the node it was
    called for, the [id] of an object inside the value, or a node it minted
    under the base URI during this call. *)
Theorem buildResource_writes_under_base `{Host} (this : ObjectBuilder) (fuel : nat)
    (ty node : string) (obj : JsVal) (b : string) (s : State) :
  let base := if String.eqb b "" then node else b in
  let s' := snd (buildResource this fuel ty node obj b s) in
  base <> "" ->
  (forall q, q ∈ store s -> q ∈ store s')
  /\ (forall q, q ∈ store s' ->
        q ∈ store s
        \/ exists x, subject q = NamedNode x
             /\ (x = node \/ x ∈ idsOf obj
                 \/ exists j, (minted s <= j < minted s')%nat
                              /\ x = base +:+ "#" +:+ uuidv4 j))
  /\ (NoDup (store s) -> NoDup (store s')).
Proof.
  intros base s' Hbase.
  assert (Hrun : buildResource this fuel ty node obj b = buildResource this fuel ty node obj base).
  { subst base. destruct (String.eqb b "") eqn:Hb; [|done].
    apply String.eqb_eq in Hb as ->. apply buildResource_root. }
  assert (HF : addedUnder base (node :: idsOf obj) (minted s) s s').
  { pose proof (framed_buildResource this base (node :: idsOf obj) (minted s) Hbase
                  fuel ty node obj (minted s)) as Hfr.
    specialize (Hfr (le_n _)).
    assert (Hn : allowedSubject base (node :: idsOf obj) (minted s) (minted s)
                   (NamedNode node)).
    { left. exists node. split; [by left | done]. }
    specialize (Hfr Hn).
    assert (Hi : idsOf obj ⊆ node :: idsOf obj) by (intros x Hx; by right).
    specialize (Hfr Hi s (le_n _)).
    subst s'. rewrite Hrun.
    destruct (buildResource this fuel ty node obj base s) as [[a| |] s1]; cbn [snd];
      [by destruct Hfr | done..]. }
  destruct HF as (_ & Hkeep & Hnew & Hnd). split; [done|]. split; [|done].
  intros q Hq. destruct (Hnew q Hq) as [Hold | [(x & Hx & Hsub) | (j & Hj & Hsub)]].
  - by left.
  - right. exists x. split; [done|].
    apply elem_of_cons in Hx as [->|Hx]; [by left | right; by left].
  - right. exists (mintedUri base j). split; [done|]. right; right. by exists j.
Qed.

Lemma buildResource_writes_under_base_witness :
  let s' := snd (@buildResource exampleHost catalogBuilder 2 "Shelf"
                   "http://example.org/shelf" (JObject exampleShelf) "" initState) in
  (forall q, q ∈ store initState -> q ∈ store s')
  /\ (forall q, q ∈ store s' ->
        q ∈ store initState
        \/ exists x, subject q = NamedNode x
             /\ (x = "http://example.org/shelf" \/ x ∈ @idsOf exampleHost (JObject exampleShelf)
                 \/ exists j, (minted initState <= j < minted s')%nat
                              /\ x = "http://example.org/shelf" +:+ "#" +:+ @uuidv4 exampleHost j))
  /\ (NoDup (store initState) -> NoDup (store s')).
Proof.
  apply (@buildResource_writes_under_base exampleHost catalogBuilder 2 "Shelf"
           "http://example.org/shelf" (JObject exampleShelf) "" initState).
  discriminate.
Defined.

(** ** Cyclic [extends] *)

(** X10. When the [extends] links lead from a type through types that are
    all registered and uncached back into the same set of types, the
    recursion of [getAllProperties] and of [getAllPropertyUris] never
    bottoms out: whatever the recursion budget, the call exhausts it, and
    the state is left as it was. *)
Theorem getAllProperties_cyclic_extends (this : ObjectBuilder) (cyc : string -> Prop)
    (s : State) :
  (forall t, cyc t ->
     cache s !! t = None
     /\ exists d p, Obj.get t (defs this) = Some d /\ parentOf d = Some p /\ cyc p) ->
  forall fuel ty, cyc ty ->
    getAllProperties this fuel ty s = (Diverge, s)
    /\ getAllPropertyUris this fuel ty s = (Diverge, s).
Proof.
  intros Hcyc fuel. induction fuel as [|fuel IH]; intros ty Hty; [done|].
  destruct (Hcyc ty Hty) as (Hc & d & p & Hd & Hp & Hnext).
  destruct (IH p Hnext) as [IHp IHu].
  split.
  - cbn [getAllProperties].
    unfold bind at 1, cacheLookup at 1. cbn [fst snd]. rewrite Hc.
    unfold bind at 1, lookupDef at 1. rewrite Hd. cbn [ret]. rewrite Hp.
    unfold bind. by rewrite IHp.
  - cbn [getAllPropertyUris].
    unfold bind at 1, cacheLookup at 1. cbn [fst snd]. rewrite Hc.
    unfold bind at 1, lookupDef at 1. rewrite Hd. cbn [ret]. rewrite Hp.
    unfold bind. by rewrite IHu.
Qed.

Lemma getAllProperties_cyclic_extends_witness :
  getAllProperties loopBuilder 5 "A" initState = (Diverge, initState)
  /\ getAllPropertyUris loopBuilder 5 "A" initState = (Diverge, initState).
Proof.
  apply (getAllProperties_cyclic_extends loopBuilder (fun t => t = "A" \/ t = "B") initState).
  - intros t [-> | ->].
    + split; [reflexivity|].
      eexists _, "B". split; [reflexivity|]. split; [reflexivity | by right].
    + split; [reflexivity|].
      eexists _, "A". split; [reflexivity|]. split; [reflexivity | by left].
  - by left.
Defined.

(** ** The type of a built node *)

(** In a graph of a value, [getType] finds the type of each object inside
    the value at the node of the object. *)
Lemma graphOf_getType `{Host} this b v st o id ty :
  schemaOK this -> graphOf this (mintedNode b) v st -> properIds b v ->
  o ∈ subObjects v -> Obj.get "id" o = Some (JString id) ->
  Obj.get "type" o = Some (JString ty) ->
  getType this st id = Some ty.
Proof.
  intros Hok Hgraph Hids Ho Hid Hty.
  pose proof Hgraph as (Hnd & _ & Hwr).
  destruct (Hwr o Ho) as (id1 & ty1 & d & Hid1 & Hty1 & Hd & Htq & _).
  assert (id1 = id) as -> by congruence. assert (ty1 = ty) as -> by congruence.
  unfold getType.
  rewrite (getQuads_singleton st (NamedNode id) (NamedNode rdf_type)
             (quad (NamedNode id) (NamedNode rdf_type) (NamedNode (def_uri d))));
    [|done..|].
  - cbn [object termValue]. by destruct (ok_typeDefs this Hok ty d Hd) as [-> _].
  - intros q Hin Hs Hp.
    destruct (node_quads this b v st Hgraph Hids o id q Ho Hid Hin Hs)
      as (id2 & ty2 & d2 & Hid2 & Hty2 & Hd2 & _ & Hcase).
    assert (id2 = id) as -> by congruence.
    assert (ty2 = ty) as -> by congruence. assert (d2 = d) as -> by congruence.
    destruct Hcase as [-> | (key & p & val & Hkp & _ & Hpred & _)]; [done|].
    rewrite Hp in Hpred. injection Hpred as Hpred.
    destruct (ok_reserved this Hok ty d key p Hd Hkp) as (_ & _ & Hne). congruence.
Qed.

(** X11. After a conforming object has been built at its [id], [getType]
    returns the type key it was built with, in whatever order the store
    enumerates its quads. *)
Theorem getType_after_build `{Host} (this : ObjectBuilder) (n : nat) (ty id : string)
    (o : list (string * JsVal)) :
  schemaOK this ->
  (forall i j, uuidv4 i = uuidv4 j -> i = j) ->
  id <> "" ->
  conforms this n ty (JObject o) ->
  Obj.get "id" o = Some (JString id) ->
  properIds id (JObject o) ->
  exists s',
    buildResource this n ty id (JObject o) "" initState = (Ret tt, s')
    /\ forall st', st' ≡ₚ store s' -> getType this st' id = Some ty.
Proof.
  intros Hok Hinj Hne Hconf Hid Hids.
  destruct (build_graphOf this n ty id o Hok Hinj Hne Hconf Hid (proj1 (proj2 Hids)))
    as (s' & Hrun & Hgraph).
  exists s'. split; [done|].
  intros st' Hperm. symmetry in Hperm.
  apply (graphOf_perm _ _ _ _ _ Hperm) in Hgraph.
  destruct (conforms_inv _ _ _ _ Hconf) as (o' & id' & [= <-] & _ & Hty).
  by apply (graphOf_getType this id (JObject o) st' o id ty Hok Hgraph Hids (subObjects_self o)).
Qed.

Lemma getType_after_build_witness :
  exists s',
    @buildResource exampleHost catalogBuilder 2 "Shelf" "http://example.org/shelf"
                   (JObject exampleShelf) "" initState = (Ret tt, s')
    /\ forall st', st' ≡ₚ store s' ->
         getType catalogBuilder st' "http://example.org/shelf" = Some "Shelf".
Proof.
  apply (@getType_after_build exampleHost catalogBuilder 2 "Shelf" "http://example.org/shelf"
           exampleShelf).
  - exact catalog_schemaOK.
  - exact exampleHost_uuid_inj.
  - discriminate.
  - exact exampleShelf_conforms.
  - reflexivity.
  - exact exampleShelf_properIds.
Defined.

(** ** Decoding again *)

(** X12. The cache a decode has filled serves the next decode: after a
    conforming object has been built, decoding its node from a fresh cache
    and then once more with the cache the first decode left both return
    the object, up to the order of its keys. *)
Theorem decode_twice_with_one_cache `{Host} (this : ObjectBuilder) (n df : nat)
    (ty id : string) (o : list (string * JsVal)) :
  schemaOK this ->
  (forall i j, uuidv4 i = uuidv4 j -> i = j) ->
  id <> "" ->
  conforms this n ty (JObject o) ->
  Obj.get "id" o = Some (JString id) ->
  properIds id (JObject o) ->
  (n <= df)%nat ->
  exists s',
    buildResource this n ty id (JObject o) "" initState = (Ret tt, s')
    /\ forall st' spec spec', st' ≡ₚ store s' ->
         exists v1 sd1 v2 sd2,
           decodeResource this df (ByUri id) spec (stateOfStore st') = (Ret v1, sd1)
           /\ decodeResource this df (ByUri id) spec' sd1 = (Ret v2, sd2)
           /\ sameValue (JObject o) v1 /\ sameValue (JObject o) v2.
Proof.
  intros Hok Hinj Hne Hconf Hid Hids Hle.
  destruct (build_graphOf this n ty id o Hok Hinj Hne Hconf Hid (proj1 (proj2 Hids)))
    as (s' & Hrun & Hgraph).
  exists s'. split; [done|].
  intros st' spec spec' Hperm. symmetry in Hperm.
  apply (graphOf_perm _ _ _ _ _ Hperm) in Hgraph.
  assert (Hinv : decodeInv this (stateOfStore st')).
  { intros ty' e He. unfold stateOfStore in He. cbn [cache] in He.
    by rewrite lookup_empty in He. }
  destruct (decode_graph this id (JObject o) st' Hok Hgraph Hids n df o id ty (ByUri id) spec
              (stateOfStore st') (subObjects_self o) Hconf Hid eq_refl Hle eq_refl Hinv)
    as (v1 & sd1 & Hdec1 & Hsame1 & _ & Hinv1).
  assert (Hst : store sd1 = st').
  { destruct (quiet_decodeResource this df (ByUri id) spec (stateOfStore st'))
      as [Hs _]. by rewrite Hdec1 in Hs. }
  destruct (decode_graph this id (JObject o) st' Hok Hgraph Hids n df o id ty (ByUri id) spec'
              sd1 (subObjects_self o) Hconf Hid eq_refl Hle Hst Hinv1)
    as (v2 & sd2 & Hdec2 & Hsame2 & _).
  by exists v1, sd1, v2, sd2.
Qed.

Lemma decode_twice_with_one_cache_witness :
  exists s',
    @buildResource exampleHost catalogBuilder 2 "Shelf" "http://example.org/shelf"
                   (JObject exampleShelf) "" initState = (Ret tt, s')
    /\ forall st' spec spec', st' ≡ₚ store s' ->
         exists v1 sd1 v2 sd2,
           @decodeResource exampleHost catalogBuilder 2 (ByUri "http://example.org/shelf")
                           spec (stateOfStore st') = (Ret v1, sd1)
           /\ @decodeResource exampleHost catalogBuilder 2 (ByUri "http://example.org/shelf")
                              spec' sd1 = (Ret v2, sd2)
           /\ sameValue (JObject exampleShelf) v1 /\ sameValue (JObject exampleShelf) v2.
Proof.
  apply (@decode_twice_with_one_cache exampleHost catalogBuilder 2 2 "Shelf"
           "http://example.org/shelf" exampleShelf).
  - exact catalog_schemaOK.
  - exact exampleHost_uuid_inj.
  - discriminate.
  - exact exampleShelf_conforms.
  - reflexivity.
  - exact exampleShelf_properIds.
  - lia.
Defined.

(** ** Decoding raises no TypeError *)

Section NeverThrows.
Context `{Host} (this : ObjectBuilder) (Hok : schemaOK this) (Hclosed : typesClosed this).
Context (st : Store).

Lemma safe_bind {A B} (T : Prop) (m : M A) (k : A -> M B) (Q1 : A -> Prop)
    (Q : B -> Prop) s :
  decodesSafely this T Q1 (m s) s ->
  (forall a s1, Q1 a -> decodeInv this s1 -> heapExt s s1 ->
                decodesSafely this T Q (k a s1) s1) ->
  decodesSafely this T Q (bind m k s) s.
Proof.
  unfold bind, decodesSafely. destruct (m s) as [[a| |] s1]; [|done..].
  intros (Hinv & Hext & Ha) Hk. specialize (Hk a s1 Ha Hinv Hext).
  destruct (k a s1) as [[b| |] s2]; [|done..].
  destruct Hk as (Hinv2 & Hext2 & Hb). split; [done|]. split; [by etrans | done].
Qed.

Lemma safe_ret {A} (T : Prop) (a : A) (Q : A -> Prop) s :
  decodeInv this s -> Q a -> decodesSafely this T Q (ret a s) s.
Proof. intros Hinv Ha. by split; [|split]. Qed.

Lemma safe_weaken {A} (T T' : Prop) (Q : A -> Prop) r s :
  (T -> T') -> decodesSafely this T' Q r s -> decodesSafely this T Q r s.
Proof. intros HT. destruct r as [[a| |] s']; cbn [decodesSafely]; tauto. Qed.

Lemma safe_mapM {X} (T : Prop) (f : X -> M JsVal) (l : list X) s :
  (forall x s1, x ∈ l -> decodeInv this s1 -> store s1 = store s ->
                decodesSafely this T (fun _ => True) (f x s1) s1) ->
  decodeInv this s ->
  decodesSafely this T (fun _ : list JsVal => True) (mapM f l s) s.
Proof.
  revert s. induction l as [|x l IH]; intros s Hf Hinv; cbn [mapM].
  - by apply safe_ret.
  - eapply safe_bind; [apply Hf; [by left | done..]|]. intros y s1 _ Hinv1 (Hst1 & _).
    eapply safe_bind.
    + apply IH; [|done]. intros z s2 Hz Hinv2 Hst2. apply Hf; [by right | done | congruence].
    + intros ys s2 _ Hinv2 _. by apply safe_ret.
Qed.

(** A key listed in the URI map of a definition is a property of it. *)
Lemma uriMap_property ty d u k :
  Obj.get ty (defs this) = Some d -> Obj.get u (propertyUris d) = Some k ->
  exists p, Obj.get k (properties d) = Some p /\ (k, p) ∈ properties d.
Proof.
  intros Hd Hu. apply Obj_get_elem in Hu.
  rewrite (ok_uriMap this Hok ty d Hd) in Hu.
  apply list_elem_of_fmap in Hu as ([k' p] & [= _ ->] & Hin).
  destruct (Obj.get k' (properties d)) as [p'|] eqn:Hget.
  - exists p'. split; [done | by apply Obj_get_elem].
  - apply Obj_get_None in Hget. exfalso. apply Hget.
    apply list_elem_of_fmap. by exists (k', p).
Qed.

(** What [decodeArray] collects are the items of list elements. *)
Lemma collect_elem (vals : list Quad) (r : option Z * Term) :
  r ∈ collectListItems st vals ->
  exists q it, q ∈ vals /\ it ∈ st /\ subject it = object q /\ snd r = object it.
Proof.
  unfold collectListItems. intros Hr.
  apply list_elem_of_In, in_flat_map in Hr as (q & Hq & Hr).
  apply list_elem_of_In in Hq, Hr. cbv zeta in Hr.
  destruct (getQuads st (Some (object q)) (Some (namedNode schema_position)) None)
    as [|p [|]]; try (by apply elem_of_nil in Hr).
  destruct (getQuads st (Some (object q)) (Some (namedNode schema_item)) None)
    as [|it [|]] eqn:Hit; try (by apply elem_of_nil in Hr).
  apply list_elem_of_singleton in Hr as ->.
  assert (Hin : it ∈ getQuads st (Some (object q)) (Some (namedNode schema_item)) None)
    by (rewrite Hit; by left).
  apply getQuads_elem in Hin as (Hin & Hs & _).
  rewrite matchTerm_Some in Hs. apply term_eqb_eq in Hs.
  exists q, it. by repeat split.
Qed.

Section Rec.
Context (rec : NodeArg -> string -> M JsVal) (good : Term -> Prop).
Hypothesis rec_safe : forall a spec s,
  spec = "" \/ is_Some (Obj.get spec (defs this)) -> decodeInv this s -> store s = st ->
  decodesSafely this (good (nodeOf a)) (fun _ => True) (rec a spec s) s.

Lemma safe_decodeArray (T : Prop) nodeUri literalVal ty propKey s :
  (T -> forall q it, q ∈ st -> subject q = NamedNode nodeUri ->
        it ∈ st -> subject it = object q -> good (object it)) ->
  decodeInv this s -> store s = st ->
  decodesSafely this T (fun v => exists l, v = JArray l)
                (decodeArray rec nodeUri literalVal ty propKey s) s.
Proof.
  intros HT Hinv Hst. unfold decodeArray. unfold bind at 1. cbn [getStore fst snd]. cbv zeta.
  destruct literalVal; [apply safe_ret; eauto|].
  eapply safe_bind.
  - apply safe_mapM; [|done]. intros r s1 Hr Hinv1 Hst1.
    eapply safe_weaken; [|apply rec_safe; [by left | done | congruence]].
    intros HT'. cbn [nodeOf].
    rewrite jsSort_Permutation in Hr. rewrite Hst in Hr.
    apply collect_elem in Hr as (q & it & Hq & Hit & Hsub & ->).
    apply getQuads_elem in Hq as (Hq & Hs & _).
    rewrite matchTerm_Some in Hs. apply term_eqb_eq in Hs.
    by eapply (HT HT' q it).
  - intros l s1 _ Hinv1 _. apply safe_ret; eauto.
Qed.

Lemma safe_decodeTriple (T : Prop) ty d allProps allUris item q s :
  Obj.get ty (defs this) = Some d ->
  (T -> good (object q)
        /\ forall e it, e ∈ st -> subject e = object q ->
                        it ∈ st -> subject it = object e -> good (object it)) ->
  decodeInv this s -> store s = st ->
  propHeap s !! allProps = Some (properties d) ->
  uriHeap s !! allUris = Some (propertyUris d) ->
  arraysOK d item ->
  decodesSafely this T (arraysOK d) (decodeTriple rec st allProps allUris item q s) s.
Proof.
  intros Hd HT Hinv Hst Hp Hu Hitem. unfold decodeTriple. cbv zeta.
  unfold bind at 1, readUriMap at 1. cbn [fst snd]. rewrite Hu.
  unfold default. cbn [from_option Datatypes.id].
  destruct (Obj.get (termValue (predicate q)) (propertyUris d)) as [propKey|] eqn:Hkey;
    [|by apply safe_ret].
  unfold bind at 1, readPropMap at 1. cbn [fst snd]. rewrite Hp.
  unfold default. cbn [from_option Datatypes.id].
  destruct (uriMap_property ty d _ propKey Hd Hkey) as (prop & Hprop & Hin).
  rewrite Hprop.
  assert (Hset : forall v, (isArray prop = true -> exists l, v = JArray l) ->
                           arraysOK d (Obj.set propKey v item)).
  { intros v Hv k p w Hk Ha. rewrite Obj_get_set.
    destruct (String.eqb k propKey) eqn:E; [|by apply (Hitem k p w)].
    apply String.eqb_eq in E as ->. intros [= <-]. apply Hv. congruence. }
  destruct (isArray prop && isItemList st (object q))%bool eqn:Hlist.
  { eapply safe_bind.
    - apply safe_decodeArray; [|done..]. intros HT' e it He Hsub Hit Hsub'.
      apply andb_true_iff in Hlist as [_ Hlist]. unfold isItemList in Hlist.
      apply andb_true_iff in Hlist as [Hnamed _].
      destruct (object q) as [l| |] eqn:Hobj; try discriminate. cbn [termValue] in Hsub.
      destruct (HT HT') as [_ Hitems]. by apply (Hitems e it).
    - intros arr s1 Harr Hinv1 _. apply safe_ret; [done|]. by apply Hset. }
  eapply safe_bind with (Q1 := fun _ => True).
  { destruct (isLiteral (type prop)) eqn:Hlit; [by apply safe_ret|].
    assert (Hgood : T -> good (nodeOf (ByTerm (object q)))) by (intros HT'; by apply HT).
    destruct (isMultiType prop) eqn:Hmulti;
      (eapply safe_weaken; [exact Hgood|]; apply rec_safe; [|done..]); [by left|].
    right. destruct Hclosed as [Hprops _]. by eapply Hprops. }
  intros newval s1 _ Hinv1 _.
  destruct (isArray prop) eqn:Harr; [|apply safe_ret; [done|apply Hset; done]].
  destruct (Obj.get propKey item) as [old|] eqn:Hold.
  - destruct (Hitem propKey prop old Hprop Harr Hold) as [l ->].
    apply safe_ret; [done|]. apply Hset. eauto.
  - apply safe_ret; [done|]. apply Hset. eauto.
Qed.

Lemma safe_decodeLoop (T : Prop) ty d allProps allUris vals item s :
  Obj.get ty (defs this) = Some d ->
  (forall q, q ∈ vals ->
     T -> good (object q)
          /\ forall e it, e ∈ st -> subject e = object q ->
                          it ∈ st -> subject it = object e -> good (object it)) ->
  decodeInv this s -> store s = st ->
  propHeap s !! allProps = Some (properties d) ->
  uriHeap s !! allUris = Some (propertyUris d) ->
  arraysOK d item ->
  decodesSafely this T (fun _ => True)
                (foldM (decodeTriple rec st allProps allUris) item vals s) s.
Proof.
  intros Hd. revert item s.
  induction vals as [|q vals IH]; intros item s HT Hinv Hst Hp Hu Hitem;
    cbn [foldM]; [by apply safe_ret|].
  eapply safe_bind.
  - eapply safe_decodeTriple; [exact Hd | apply HT; by left | done..].
  - intros item' s1 Hitem' Hinv1 (Hst1 & Hpe & Hue).
    apply IH; auto; [|congruence]. intros q' Hq'. apply HT. by right.
Qed.

End Rec.

(** With [rank] falling along every quad the budget [fuel] is enough for a
    node of rank below it. *)
Lemma safe_decodeResource (bounded : Prop) (rank : Term -> nat) :
  (bounded -> forall q, q ∈ st -> (rank (object q) < rank (subject q))%nat) ->
  forall fuel arg spec s,
    spec = "" \/ is_Some (Obj.get spec (defs this)) -> decodeInv this s -> store s = st ->
    decodesSafely this (bounded /\ (rank (nodeOf arg) < fuel)%nat) (fun _ => True)
                  (decodeResource this fuel arg spec s) s.
Proof.
  intros Hrank fuel. induction fuel as [|fuel IH]; intros arg spec s Hspec Hinv Hst.
  { cbn. lia. }
  cbn [decodeResource]. cbv zeta. unfold bind at 1. cbn [getStore fst snd].
  set (found := discoverType _ _).
  destruct (String.eqb found "" && String.eqb spec "")%bool eqn:Hnone.
  - unfold bind, consoleWrite, ret. cbn [fst snd decodesSafely]. split; [done|]. by split.
  - set (ty := if String.eqb found "" then spec else found).
    assert (Hty : is_Some (Obj.get ty (defs this))).
    { subst ty. destruct (String.eqb found "") eqn:Hf.
      - by destruct Hspec as [-> | Hs].
      - apply String.eqb_neq in Hf. destruct Hclosed as [_ Hkeys].
        clear Hnone. subst found.
        induction (getQuads (store s) _ _ _) as [|q r IHr]; [done|].
        cbn [discoverType] in *.
        destruct (Obj.get _ (typeDefs this)) as [k|] eqn:Hk; [by eapply Hkeys | by apply IHr]. }
    destruct Hty as [d Hd].
    unfold bind at 1, cacheLookup at 1. cbn [fst snd].
    destruct (decode_maps this ty d s Hok Hinv Hd)
      as (pr & ur & s1 & Hmaps & Hext1 & Hinv1 & Hp & Hu).
    erewrite bind_Ret by exact Hmaps. cbn [fst snd].
    assert (Hst1 : store s1 = st) by (destruct Hext1 as [-> _]; done).
    assert (Hloop : decodesSafely this (bounded /\ (rank (nodeOf arg) < S fuel)%nat)
              (fun _ => True)
              (foldM (decodeTriple (decodeResource this fuel) (store s) pr ur)
                     [("id", JString (if isBlankNode (nodeOf arg)
                                      then "_:" +:+ termValue (nodeOf arg)
                                      else termValue (nodeOf arg)));
                      ("type", JString ty)]
                     (getQuads (store s) (Some (nodeOf arg)) None None) s1) s1).
    { rewrite Hst.
      eapply (safe_decodeLoop (decodeResource this fuel)
                (fun O => bounded /\ (rank O < fuel)%nat));
        [by apply IH | exact Hd | | done..|].
      - intros q Hq [Hb Hlt]. apply getQuads_elem in Hq as (Hq & Hs & _).
        rewrite matchTerm_Some in Hs. apply term_eqb_eq in Hs.
        pose proof (Hrank Hb q Hq) as Hq'. rewrite <- Hs in Hq'. split; [split; [done|lia]|].
        intros e it He Hse Hit Hsit. split; [done|].
        pose proof (Hrank Hb e He) as He'. pose proof (Hrank Hb it Hit) as Hit'.
        rewrite Hse in He'. rewrite Hsit in Hit'. lia.
      - intros k p v Hk Ha Hget.
        apply Obj_get_elem in Hk.
        destruct (ok_reserved this Hok ty d k p Hd Hk) as (Hid & Htype & _).
        apply String.eqb_neq in Hid, Htype. cbn [Obj.get] in Hget.
        by rewrite Hid, Htype in Hget. }
    unfold bind. unfold decodesSafely in Hloop.
    destruct (foldM _ _ _ s1) as [[item| |] s2]; [|done..].
    destruct Hloop as (Hinv2 & Hext2 & _). cbn [ret decodesSafely].
    split; [done|]. split; [by etrans | done].
Qed.

End NeverThrows.

(** The reverse type map the constructor computes returns registered keys
    only. *)
Lemma constructor_typeDefs_registered (ds : AbstractDefinitionMap) (u k : string) :
  Obj.get u (typeDefs (newObjectBuilder ds)) = Some k -> is_Some (Obj.get k ds).
Proof.
  cbn [typeDefs newObjectBuilder]. rewrite typeDefs_fold. cbn [Obj.get].
  destruct (last _) as [[k' d]|] eqn:Hlast; [|done]. intros [= <-].
  apply last_Some_elem_of, list_elem_of_filter in Hlast as [_ Hin]. cbn [fst].
  destruct (Obj.get k' ds) eqn:Hget; [done|].
  apply Obj_get_None in Hget. exfalso. apply Hget. apply list_elem_of_fmap. by exists (k', d).
Qed.

(** X13. With a schema of the shape of the round trip whose object
    properties name registered types, decoding raises no [TypeError] on any
    graph: whatever quads the store holds (spelled unlike the names every
    object inherits from [Object.prototype]) and whichever node is asked
    for, [decodeResource], started with an empty cache and no expected
    type or a registered one, returns or recurses beyond the budget.  The
    endless recursion, which the engine ends with a [RangeError], needs a
    cycle in the graph: when a rank falls from the subject to the object of
    every quad, a budget above the rank of the node makes the call
    return. *)
Theorem decodeResource_raises_no_TypeError `{Host} (this : ObjectBuilder) (fuel : nat)
    (nodeUri : NodeArg) (specifyType : string) (st : Store) :
  schemaOK this -> typesClosed this -> plainTerms st ->
  specifyType = "" \/ is_Some (Obj.get specifyType (defs this)) ->
  let r := fst (decodeResource this fuel nodeUri specifyType (stateOfStore st)) in
  ((exists v, r = Ret v) \/ r = Diverge)
  /\ forall rank : Term -> nat,
       (forall q, q ∈ st -> (rank (object q) < rank (subject q))%nat) ->
       (rank (nodeOf nodeUri) < fuel)%nat ->
       exists v, r = Ret v.
Proof.
  intros Hok Hclosed _ Hspec r.
  assert (Hinv : decodeInv this (stateOfStore st)).
  { intros ty e0 He0. unfold stateOfStore in He0. cbn [cache] in He0.
    by rewrite lookup_empty in He0. }
  split.
  - pose proof (safe_decodeResource this Hok Hclosed st False (fun _ => O)
                  (fun F _ _ => False_rect _ F) fuel nodeUri specifyType (stateOfStore st)
                  Hspec Hinv eq_refl) as Hsafe.
    subst r. unfold decodesSafely in Hsafe.
    destruct (decodeResource _ _ _ _ _) as [[v|e'|] s']; cbn [fst]; [by eauto | done | by right].
  - intros rank Hrank Hlt.
    pose proof (safe_decodeResource this Hok Hclosed st True rank
                  (fun _ => Hrank) fuel nodeUri specifyType (stateOfStore st)
                  Hspec Hinv eq_refl) as Hsafe.
    subst r. unfold decodesSafely in Hsafe.
    destruct (decodeResource _ _ _ _ _) as [[v|e'|] s']; cbn [fst]; [by eauto | done |].
    exfalso. by apply Hsafe.
Qed.

Lemma catalog_typesClosed : typesClosed catalogBuilder.
Proof.
  split.
  - intros ty d key p Hd Hin Hlit Hmulti.
    destruct (catalog_defs ty d Hd) as [[= -> ->] | [= -> ->]];
      elem_cases Hin; try discriminate; by eexists.
  - apply constructor_typeDefs_registered.
Qed.

Lemma decodeResource_raises_no_TypeError_witness :
  let r := fst (@decodeResource exampleHost catalogBuilder 3 (ByUri "http://example.org/i0")
                  "Shelf" (stateOfStore itemStore)) in
  ((exists v, r = Ret v) \/ r = Diverge)
  /\ forall rank : Term -> nat,
       (forall q, q ∈ itemStore -> (rank (object q) < rank (subject q))%nat) ->
       (rank (nodeOf (ByUri "http://example.org/i0")) < 3)%nat ->
       exists v, r = Ret v.
Proof.
  apply (@decodeResource_raises_no_TypeError exampleHost catalogBuilder 3
           (ByUri "http://example.org/i0") "Shelf" itemStore).
  - exact catalog_schemaOK.
  - exact catalog_typesClosed.
  - intros q Hq. unfold itemStore in Hq.
    elem_cases Hq; split; apply (bool_decide_unpack _); vm_compute; exact I.
  - right. by eexists.
Defined.

(** ** Quads outside the schema *)

Section Undeclared.
Context `{Host} (this : ObjectBuilder) (keep : Quad -> bool) (st' : Store).
Hypothesis dropped_undeclared : forall q, q ∈ st' -> keep q = false -> undeclared this q.

Local Abbreviation sim := (simulates this keep st').

Lemma filter_cons_bool (f : Quad -> bool) (q : Quad) (l : list Quad) :
  filter f (q :: l) = if f q then q :: filter f l else filter f l.
Proof. rewrite filter_cons. by destruct (f q). Qed.

Lemma filter_filter_keep (f : Quad -> bool) (l : list Quad) :
  (forall q, q ∈ l -> keep q = false -> f q = false) ->
  filter f (filter keep l) = filter f l.
Proof.
  induction l as [|q l IH]; intros Hf; [done|].
  assert (IH' : filter f (filter keep l) = filter f l).
  { apply IH. intros q' Hq'. apply Hf. by right. }
  rewrite (filter_cons_bool keep), (filter_cons_bool f).
  destruct (keep q) eqn:Hk.
  - by rewrite filter_cons_bool, IH'.
  - rewrite IH'. by rewrite (Hf q) by (done || by left).
Qed.

(** The codec's own look-ups see no difference. *)
Lemma getQuads_codec S p O :
  p ∈ codecPredicates ->
  getQuads (filter keep st') S (Some (NamedNode p)) O = getQuads st' S (Some (NamedNode p)) O.
Proof.
  intros Hp. unfold getQuads. apply filter_filter_keep. intros q Hq Hk.
  destruct (dropped_undeclared q Hq Hk) as [Hcodec _].
  rewrite (matchTerm_Some (NamedNode p)).
  destruct (term_eqb (NamedNode p) (predicate q)) eqn:E.
  - apply term_eqb_eq in E. exfalso. by apply (Hcodec p).
  - by rewrite andb_false_r.
Qed.

Lemma getQuads_subject_keep n :
  getQuads (filter keep st') (Some n) None None
  = filter keep (getQuads st' (Some n) None None).
Proof.
  unfold getQuads. clear dropped_undeclared. induction st' as [|q l IH]; [done|].
  rewrite (filter_cons_bool keep), (filter_cons_bool (fun q => _ && _ && _)%bool q l).
  destruct (keep q) eqn:Hk, (matchTerm (Some n) (subject q) && matchTerm None (predicate q)
                             && matchTerm None (object q))%bool eqn:Hm.
  - by rewrite !filter_cons_bool, Hk, Hm, IH.
  - by rewrite filter_cons_bool, Hm.
  - by rewrite filter_cons_bool, Hk.
  - done.
Qed.

Lemma isItemList_keep t : isItemList (filter keep st') t = isItemList st' t.
Proof. unfold isItemList. rewrite getQuads_codec; [done | by left]. Qed.

Lemma collectListItems_keep vals :
  collectListItems (filter keep st') vals = collectListItems st' vals.
Proof.
  unfold collectListItems. apply flat_map_ext. intros q. cbv zeta.
  rewrite !getQuads_codec; [done|..].
  - right; right; right; by left.
  - right; right; by left.
Qed.

(** *** Rules *)

Lemma sim_ret {A} (a : A) : sim (ret a) (ret a).
Proof. by intros s Hs Hu. Qed.
Lemma sim_throw {A} e : sim (@throw A e) (throw e).
Proof. by intros s Hs Hu. Qed.
Lemma sim_diverge {A} : sim (@diverge A) diverge.
Proof. by intros s Hs Hu. Qed.

Lemma sim_bind {A B} (m1 m2 : M A) (k1 k2 : A -> M B) :
  sim m1 m2 -> (forall a, sim (k1 a) (k2 a)) -> sim (bind m1 k1) (bind m2 k2).
Proof.
  intros Hm Hk s Hs Hu. destruct (Hm s Hs Hu) as (Hrun & Hs1 & Hu1).
  unfold bind. rewrite Hrun. destruct (m1 s) as [[a| |] s1]; cbn [fst snd] in *; [|done..].
  by apply Hk.
Qed.

(** Reading the store: the one run sees the kept part, the other the
    whole. *)
Lemma sim_getStore {A} (k1 k2 : Store -> M A) :
  sim (k1 (filter keep st')) (k2 st') -> sim (bind getStore k1) (bind getStore k2).
Proof.
  intros Hk s Hs Hu. unfold bind, getStore. cbn [fst snd setStore store].
  rewrite Hs. exact (Hk s Hs Hu).
Qed.

Lemma sim_mapM {X B} (f1 f2 : X -> M B) (l : list X) :
  (forall x, sim (f1 x) (f2 x)) -> sim (mapM f1 l) (mapM f2 l).
Proof.
  intros Hf. induction l as [|x l IH]; cbn [mapM]; [apply sim_ret|].
  apply sim_bind; [apply Hf|]. intros y.
  apply sim_bind; [apply IH|]. intros ys. apply sim_ret.
Qed.

Lemma sim_cacheLookup ty : sim (cacheLookup ty) (cacheLookup ty).
Proof. by intros s Hs Hu. Qed.
Lemma sim_cacheStore ty e : sim (cacheStore ty e) (cacheStore ty e).
Proof. by intros s Hs Hu. Qed.
Lemma sim_consoleWrite l : sim (consoleWrite l) (consoleWrite l).
Proof. by intros s Hs Hu. Qed.
Lemma sim_newPropMap : sim newPropMap newPropMap.
Proof. by intros s Hs Hu. Qed.
Lemma sim_readPropMap r : sim (readPropMap r) (readPropMap r).
Proof. by intros s Hs Hu. Qed.
Lemma sim_readUriMap r : sim (readUriMap r) (readUriMap r).
Proof. by intros s Hs Hu. Qed.
Lemma sim_assignPropMap r src : sim (assignPropMap r src) (assignPropMap r src).
Proof. by intros s Hs Hu. Qed.

Lemma sim_newUriMap : sim newUriMap newUriMap.
Proof.
  intros s Hs Hu. split; [done|]. split; [done|].
  unfold urisDeclared, newUriMap. cbn [snd uriHeap].
  apply Forall_app. split; [done|]. by repeat constructor.
Qed.

Lemma sim_assignUriMap r src :
  Forall (fun uk => declaredUri this (fst uk)) src ->
  sim (assignUriMap r src) (assignUriMap r src).
Proof.
  intros Hsrc s Hs Hu. split; [done|]. split; [done|].
  unfold urisDeclared, assignUriMap. cbn [snd uriHeap].
  apply Forall_alter; [done|]. intros m _ Hm. by apply Obj_assign_Forall.
Qed.

Lemma propertyUris_declared ty d :
  Obj.get ty (defs this) = Some d ->
  Forall (fun uk => declaredUri this (fst uk)) (propertyUris d).
Proof.
  intros Hd. apply Obj_get_elem in Hd. apply Forall_forall. intros [u k] Hin.
  by exists ty, d, k.
Qed.

Lemma sim_getAllProperties fuel ty :
  sim (getAllProperties this fuel ty) (getAllProperties this fuel ty).
Proof.
  revert ty. induction fuel as [|fuel IH]; intros ty; cbn [getAllProperties];
    [apply sim_diverge|].
  apply sim_bind; [apply sim_cacheLookup|]. intros [e|]; [apply sim_ret|].
  unfold lookupDef. destruct (Obj.get ty (defs this)) as [d|]; rewrite ?bind_ret_l.
  - apply sim_bind.
    + destruct (parentOf d); [apply IH | apply sim_newPropMap].
    + intros r. apply sim_bind; [apply sim_assignPropMap|]. intros ?. apply sim_ret.
  - apply sim_bind; [apply sim_throw|]. intros ?.
    apply sim_bind; [|intros r; apply sim_bind; [apply sim_assignPropMap|intros ?; apply sim_ret]].
    destruct (parentOf a); [apply IH | apply sim_newPropMap].
Qed.

Lemma sim_getAllPropertyUris fuel ty :
  sim (getAllPropertyUris this fuel ty) (getAllPropertyUris this fuel ty).
Proof.
  revert ty. induction fuel as [|fuel IH]; intros ty; cbn [getAllPropertyUris];
    [apply sim_diverge|].
  apply sim_bind; [apply sim_cacheLookup|]. intros [e|]; [apply sim_ret|].
  unfold lookupDef. destruct (Obj.get ty (defs this)) as [d|] eqn:Hd.
  - rewrite bind_ret_l. apply sim_bind.
    + destruct (parentOf d); [apply IH | apply sim_newUriMap].
    + intros r. apply sim_bind; [|intros ?; apply sim_ret].
      apply sim_assignUriMap. by eapply propertyUris_declared.
  - intros s Hs Hu. by split.
Qed.

Section Rec.
Context (rec : NodeArg -> string -> M JsVal).
Hypothesis rec_sim : forall a spec, sim (rec a spec) (rec a spec).

Lemma sim_decodeArray nodeUri literalVal ty propKey :
  sim (decodeArray rec nodeUri literalVal ty propKey)
      (decodeArray rec nodeUri literalVal ty propKey).
Proof.
  unfold decodeArray. apply sim_getStore. cbv zeta.
  rewrite getQuads_codec by (right; by left). rewrite collectListItems_keep.
  destruct literalVal; [apply sim_ret|].
  apply sim_bind; [|intros l; apply sim_ret].
  apply sim_mapM. intros r. apply rec_sim.
Qed.

Lemma sim_decodeTriple allProps allUris item q :
  sim (decodeTriple rec (filter keep st') allProps allUris item q)
      (decodeTriple rec st' allProps allUris item q).
Proof.
  unfold decodeTriple. cbv zeta.
  apply sim_bind; [apply sim_readUriMap|]. intros uriMap.
  destruct (Obj.get _ uriMap) as [propKey|]; [|apply sim_ret].
  apply sim_bind; [apply sim_readPropMap|]. intros propMap.
  destruct (Obj.get propKey propMap) as [prop|]; [|apply sim_throw].
  rewrite isItemList_keep.
  destruct (isArray prop && isItemList st' (object q))%bool.
  - apply sim_bind; [apply sim_decodeArray|]. intros arr. apply sim_ret.
  - apply sim_bind.
    + destruct (isLiteral (type prop)); [apply sim_ret|].
      destruct (isMultiType prop); apply rec_sim.
    + intros newval. destruct (isArray prop); [|apply sim_ret].
      destruct (Obj.get propKey item) as [[]|]; first [apply sim_ret | apply sim_throw].
Qed.

(** A dropped triple leaves the object under construction as it is. *)
Lemma decodeTriple_dropped {B} allProps allUris item q (k : list (string * JsVal) -> M B) s :
  q ∈ st' -> keep q = false -> urisDeclared this s ->
  bind (decodeTriple rec st' allProps allUris item q) k (setStore st' s)
  = k item (setStore st' s).
Proof.
  intros Hq Hk Hu. destruct (dropped_undeclared q Hq Hk) as [_ Hnot].
  unfold decodeTriple. cbv zeta. unfold bind at 1 2, readUriMap at 1.
  cbn [fst snd setStore uriHeap].
  destruct (Obj.get _ _) as [propKey|] eqn:Hget; [|done].
  exfalso. apply Hnot. apply Obj_get_elem in Hget.
  destruct (uriHeap s !! allUris) as [m|] eqn:Hm; [|by apply elem_of_nil in Hget].
  cbn [default from_option] in Hget.
  apply (Forall_lookup_1 _ _ _ _ Hu) in Hm.
  by apply (proj1 (Forall_forall _ _) Hm (termValue (predicate q), propKey)).
Qed.

Lemma sim_decodeLoop allProps allUris vals item :
  vals ⊆ st' ->
  sim (foldM (decodeTriple rec (filter keep st') allProps allUris) item (filter keep vals))
      (foldM (decodeTriple rec st' allProps allUris) item vals).
Proof.
  revert item. induction vals as [|q vals IH]; intros item Hsub; [apply sim_ret|].
  assert (Hq : q ∈ st') by (apply Hsub; by left).
  assert (Hsub' : vals ⊆ st') by (intros x Hx; apply Hsub; by right).
  rewrite filter_cons_bool. destruct (keep q) eqn:Hk.
  - cbn [foldM].
    apply sim_bind; [apply sim_decodeTriple|]. intros item'. by apply IH.
  - cbn [foldM].
    intros s Hs Hu. rewrite decodeTriple_dropped by done. by apply IH.
Qed.

End Rec.

Lemma sim_decodeResource fuel arg spec :
  sim (decodeResource this fuel arg spec) (decodeResource this fuel arg spec).
Proof.
  revert arg spec. induction fuel as [|fuel IH]; intros arg spec; [apply sim_diverge|].
  cbn [decodeResource]. cbv zeta. apply sim_getStore.
  rewrite getQuads_codec by (by left).
  rewrite getQuads_subject_keep.
  destruct (_ && _)%bool.
  - apply sim_bind; [apply sim_consoleWrite|]. intros ?. apply sim_ret.
  - apply sim_bind; [apply sim_cacheLookup|]. intros c.
    apply sim_bind.
    + destruct c; [apply sim_ret|].
      apply sim_bind; [apply sim_getAllProperties|]. intros p.
      apply sim_bind; [apply sim_getAllPropertyUris|]. intros u.
      apply sim_bind; [apply sim_cacheStore|]. intros ?. apply sim_ret.
    + intros maps. apply sim_bind; [|intros ?; apply sim_ret].
      apply sim_decodeLoop; [exact IH|].
      intros q Hq. by apply getQuads_elem in Hq as [Hq _].
Qed.

End Undeclared.

(** X14. Quads outside the schema do not influence decoding.  When every
    quad that [keep] drops from the store has a predicate that is neither
    one the codec reads itself nor a property URI of a registered
    definition, [decodeResource] with an empty cache ends the same way,
    with the same result, on the whole store and on the kept part. *)
Theorem decodeResource_ignores_undeclared `{Host} (this : ObjectBuilder)
    (keep : Quad -> bool) (st' : Store) (fuel : nat) (nodeUri : NodeArg)
    (specifyType : string) :
  (forall q, q ∈ st' -> keep q = false -> undeclared this q) ->
  fst (decodeResource this fuel nodeUri specifyType (stateOfStore st'))
  = fst (decodeResource this fuel nodeUri specifyType (stateOfStore (filter keep st'))).
Proof.
  intros Hdrop.
  destruct (sim_decodeResource this keep st' Hdrop fuel nodeUri specifyType
              (stateOfStore (filter keep st')) eq_refl) as (Hrun & _).
  { constructor. }
  change (setStore st' (stateOfStore (filter keep st'))) with (stateOfStore st') in Hrun.
  by rewrite Hrun.
Qed.

Lemma decodeResource_ignores_undeclared_witness :
  let keep q := negb (term_eqb (NamedNode "http://example.org/color") (predicate q)) in
  fst (@decodeResource exampleHost catalogBuilder 2 (ByUri "http://example.org/i0") ""
         (stateOfStore paintedStore))
  = fst (@decodeResource exampleHost catalogBuilder 2 (ByUri "http://example.org/i0") ""
           (stateOfStore (filter keep paintedStore))).
Proof.
  intros keep.
  apply (@decodeResource_ignores_undeclared exampleHost catalogBuilder keep paintedStore 2
           (ByUri "http://example.org/i0") "").
  intros q Hq Hk. unfold paintedStore in Hq. elem_cases Hq; try discriminate Hk.
  split.
  - intros p Hp. unfold codecPredicates in Hp. elem_cases Hp; discriminate.
  - intros (ty & d & k & Hd & Hin). cbn [predicate termValue] in Hin.
    unfold catalogBuilder, newObjectBuilder, catalogDefs in Hd. cbn [defs] in Hd.
    elem_cases Hd; cbn [propertyUris itemDef shelfDef] in Hin; elem_cases Hin.
Defined.

(** ** A line more on the console *)

Section LineInserted.
Context `{Host} (pre : list string) (line : string).

Local Abbreviation shifted := (respects (lineInserted pre line)).

Ltac prim_shifted :=
  let s1 := fresh "s1" in
  let s2 := fresh "s2" in
  intros s1 s2 (?&?&?&?&?&?); unfold lineInserted; simpl;
  repeat match goal with H : _ = _ |- _ => rewrite H; clear H end; done.

Lemma shifted_addQuad q : shifted (addQuad q).
Proof. unfold addQuad. prim_shifted. Qed.
Lemma shifted_freshUuid : shifted freshUuid.
Proof. unfold freshUuid. prim_shifted. Qed.
Lemma shifted_cacheLookup ty : shifted (cacheLookup ty).
Proof. unfold cacheLookup. prim_shifted. Qed.
Lemma shifted_cacheStore ty e : shifted (cacheStore ty e).
Proof. unfold cacheStore. prim_shifted. Qed.
Lemma shifted_newPropMap : shifted newPropMap.
Proof. unfold newPropMap. prim_shifted. Qed.
Lemma shifted_newUriMap : shifted newUriMap.
Proof. unfold newUriMap. prim_shifted. Qed.
Lemma shifted_readPropMap r : shifted (readPropMap r).
Proof. unfold readPropMap. prim_shifted. Qed.
Lemma shifted_assignPropMap r src : shifted (assignPropMap r src).
Proof. unfold assignPropMap. prim_shifted. Qed.

Lemma shifted_consoleWrite l : shifted (consoleWrite l).
Proof.
  intros s1 s2 (Hst & Hc & Hp & Hu & Hm & post & H1 & H2). split; [done|].
  unfold consoleWrite, lineInserted. cbn [snd store cache propHeap uriHeap minted console].
  do 5 (split; [done|]). exists (post ++ [l]). rewrite H1, H2. by rewrite <- !app_assoc.
Qed.

Lemma shifted_pure {A} (m : M A) :
  (exists x, m = ret x) \/ m = throw typeError -> shifted m.
Proof. intros [[x ->] | ->]; [apply respects_ret | apply respects_throw]. Qed.

Lemma shifted_lookupDef this ty : shifted (lookupDef this ty).
Proof.
  unfold lookupDef. destruct (Obj.get ty (defs this)); [apply respects_ret | apply respects_throw].
Qed.

Lemma shifted_getAllProperties this fuel ty : shifted (getAllProperties this fuel ty).
Proof.
  revert ty. induction fuel as [|fuel IH]; intros ty; cbn [getAllProperties];
    [apply respects_diverge|].
  apply respects_bind; [apply shifted_cacheLookup|]. intros [e|]; [apply respects_ret|].
  apply respects_bind; [apply shifted_lookupDef|]. intros d.
  apply respects_bind; [destruct (parentOf d); [apply IH | apply shifted_newPropMap]|].
  intros r. apply respects_bind; [apply shifted_assignPropMap|]. intros ?. apply respects_ret.
Qed.

Lemma shifted_buildLiteral node property ty dkey dval :
  shifted (buildLiteral node property ty dkey dval).
Proof.
  rewrite buildLiteral_object.
  destruct (literalObject ty dkey dval); [apply shifted_addQuad|].
  destruct (isLiteral ty); [apply respects_throw | apply respects_ret].
Qed.

Section Rec.
Context (rec : string -> string -> JsVal -> string -> M unit).
Hypothesis rec_shifted : forall t n o b, shifted (rec t n o b).

Lemma shifted_buildObject p dval b : shifted (buildObject rec p dval b).
Proof.
  unfold buildObject.
  apply respects_bind; [apply shifted_pure, jsIn_pure|]. intros hasId.
  apply respects_bind.
  { destruct hasId.
    - apply respects_bind; [apply shifted_pure, jsGet_pure|]. intros v. apply respects_ret.
    - apply respects_bind; [apply shifted_freshUuid|]. intros u. apply respects_ret. }
  intros sub. apply respects_bind.
  { destruct (isMultiType p); [|apply respects_ret].
    apply respects_bind; [apply shifted_pure, jsIn_pure|]. intros hasType.
    destruct hasType.
    - apply respects_bind; [apply shifted_pure, jsGet_pure|]. intros v. apply respects_ret.
    - apply respects_bind; [apply shifted_consoleWrite|]. intros ?. apply respects_ret. }
  intros subType. apply respects_bind; [apply rec_shifted|]. intros ?. apply respects_ret.
Qed.

Lemma shifted_buildListItem itemList value dkey dval b i :
  shifted (buildListItem (buildObject rec) itemList value dkey dval b i).
Proof.
  unfold buildListItem.
  apply respects_bind; [apply shifted_freshUuid|]. intros u. cbv zeta.
  apply respects_bind; [apply shifted_addQuad|]. intros ?.
  apply respects_bind; [apply shifted_addQuad|]. intros ?.
  apply respects_bind; [apply shifted_pure, jsIndex_pure|]. intros elem.
  destruct (isLiteral (type value)); [apply shifted_buildLiteral|].
  apply respects_bind; [apply shifted_buildObject|]. intros ?. apply shifted_addQuad.
Qed.

Lemma shifted_buildProperty node obj b kv :
  shifted (buildProperty (buildObject rec) node obj b kv).
Proof.
  unfold buildProperty. cbv zeta.
  apply respects_bind.
  { destruct (isOptional (snd kv)); [|apply respects_ret].
    apply respects_bind; [apply shifted_pure, jsIn_pure|]. intros ?. apply respects_ret. }
  intros skip. destruct skip; [apply respects_ret|].
  apply respects_bind; [apply shifted_pure, jsGet_pure|]. intros dval.
  apply respects_bind.
  { destruct (isArray (snd kv)); [apply shifted_pure, jsLength_pure | apply respects_ret]. }
  intros len. destruct (match len with Some n => 1 <? n | None => false end).
  - apply respects_bind; [apply shifted_freshUuid|]. intros u. cbv zeta.
    apply respects_bind; [apply shifted_addQuad|]. intros ?.
    apply respects_bind; [apply shifted_addQuad|]. intros ?.
    apply respects_forEach. intros i. apply shifted_buildListItem.
  - apply respects_bind.
    { destruct (isArray (snd kv)); [apply shifted_pure, jsIndex_pure | apply respects_ret]. }
    intros dval'. destruct (isLiteral (type (snd kv))); [apply shifted_buildLiteral|].
    apply respects_bind; [apply shifted_buildObject|]. intros ?. apply shifted_addQuad.
Qed.

End Rec.

Lemma shifted_buildResource this fuel ty node obj b :
  shifted (buildResource this fuel ty node obj b).
Proof.
  revert ty node obj b. induction fuel as [|fuel IH]; intros ty node obj b;
    cbn [buildResource]; [apply respects_diverge|].
  apply respects_bind; [apply shifted_lookupDef|]. intros def.
  apply respects_bind; [apply shifted_addQuad|]. intros ?.
  apply respects_bind; [apply shifted_cacheLookup|]. intros c.
  apply respects_bind.
  { destruct c; [apply respects_ret|].
    apply respects_bind; [apply shifted_getAllProperties|]. intros r.
    apply respects_bind; [apply shifted_newUriMap|]. intros u.
    apply respects_bind; [apply shifted_cacheStore|]. intros ?. apply respects_ret. }
  intros allProps. cbv zeta.
  apply respects_bind; [apply shifted_readPropMap|]. intros entries.
  apply respects_forEach. intros kv. by apply shifted_buildProperty.
Qed.

End LineInserted.



(** ** A build does not read the graph *)

Section Blind.
Context `{Host} (st1 st2 : Store).

Local Abbreviation blind := (respects (wroteSame st1 st2)).

Ltac prim_blind :=
  let s1 := fresh "s1" in
  let s2 := fresh "s2" in
  intros s1 s2 (?&?&?&?&?&?); unfold wroteSame; simpl;
  repeat match goal with H : _ = _ |- _ => rewrite H; clear H end; done.

Lemma blind_addQuad q : blind (addQuad q).
Proof.
  intros s1 s2 (Hc & Hp & Hu & Hm & Hl & w & Hw1 & Hw2). split; [done|].
  unfold addQuad, wroteSame. cbn [snd store cache propHeap uriHeap minted console].
  do 5 (split; [done|]). exists (w ++ [q]).
  unfold addQuads in *. rewrite !fold_left_app. cbn [fold_left]. by rewrite Hw1, Hw2.
Qed.

Lemma blind_freshUuid : blind freshUuid.
Proof. unfold freshUuid. prim_blind. Qed.
Lemma blind_consoleWrite l : blind (consoleWrite l).
Proof. unfold consoleWrite. prim_blind. Qed.
Lemma blind_cacheLookup ty : blind (cacheLookup ty).
Proof. unfold cacheLookup. prim_blind. Qed.
Lemma blind_cacheStore ty e : blind (cacheStore ty e).
Proof. unfold cacheStore. prim_blind. Qed.
Lemma blind_newPropMap : blind newPropMap.
Proof. unfold newPropMap. prim_blind. Qed.
Lemma blind_newUriMap : blind newUriMap.
Proof. unfold newUriMap. prim_blind. Qed.
Lemma blind_readPropMap r : blind (readPropMap r).
Proof. unfold readPropMap. prim_blind. Qed.
Lemma blind_assignPropMap r src : blind (assignPropMap r src).
Proof. unfold assignPropMap. prim_blind. Qed.

Lemma blind_pure {A} (m : M A) :
  (exists x, m = ret x) \/ m = throw typeError -> blind m.
Proof. intros [[x ->] | ->]; [apply respects_ret | apply respects_throw]. Qed.

Lemma blind_lookupDef this ty : blind (lookupDef this ty).
Proof.
  unfold lookupDef. destruct (Obj.get ty (defs this)); [apply respects_ret | apply respects_throw].
Qed.

Lemma blind_getAllProperties this fuel ty : blind (getAllProperties this fuel ty).
Proof.
  revert ty. induction fuel as [|fuel IH]; intros ty; cbn [getAllProperties];
    [apply respects_diverge|].
  apply respects_bind; [apply blind_cacheLookup|]. intros [e|]; [apply respects_ret|].
  apply respects_bind; [apply blind_lookupDef|]. intros d.
  apply respects_bind; [destruct (parentOf d); [apply IH | apply blind_newPropMap]|].
  intros r. apply respects_bind; [apply blind_assignPropMap|]. intros ?. apply respects_ret.
Qed.

Lemma blind_buildLiteral node property ty dkey dval :
  blind (buildLiteral node property ty dkey dval).
Proof.
  rewrite buildLiteral_object.
  destruct (literalObject ty dkey dval); [apply blind_addQuad|].
  destruct (isLiteral ty); [apply respects_throw | apply respects_ret].
Qed.

Section Rec.
Context (rec : string -> string -> JsVal -> string -> M unit).
Hypothesis rec_blind : forall t n o b, blind (rec t n o b).

Lemma blind_buildObject p dval b : blind (buildObject rec p dval b).
Proof.
  unfold buildObject.
  apply respects_bind; [apply blind_pure, jsIn_pure|]. intros hasId.
  apply respects_bind.
  { destruct hasId.
    - apply respects_bind; [apply blind_pure, jsGet_pure|]. intros v. apply respects_ret.
    - apply respects_bind; [apply blind_freshUuid|]. intros u. apply respects_ret. }
  intros sub. apply respects_bind.
  { destruct (isMultiType p); [|apply respects_ret].
    apply respects_bind; [apply blind_pure, jsIn_pure|]. intros hasType.
    destruct hasType.
    - apply respects_bind; [apply blind_pure, jsGet_pure|]. intros v. apply respects_ret.
    - apply respects_bind; [apply blind_consoleWrite|]. intros ?. apply respects_ret. }
  intros subType. apply respects_bind; [apply rec_blind|]. intros ?. apply respects_ret.
Qed.

Lemma blind_buildListItem itemList value dkey dval b i :
  blind (buildListItem (buildObject rec) itemList value dkey dval b i).
Proof.
  unfold buildListItem.
  apply respects_bind; [apply blind_freshUuid|]. intros u. cbv zeta.
  apply respects_bind; [apply blind_addQuad|]. intros ?.
  apply respects_bind; [apply blind_addQuad|]. intros ?.
  apply respects_bind; [apply blind_pure, jsIndex_pure|]. intros elem.
  destruct (isLiteral (type value)); [apply blind_buildLiteral|].
  apply respects_bind; [apply blind_buildObject|]. intros ?. apply blind_addQuad.
Qed.

Lemma blind_buildProperty node obj b kv :
  blind (buildProperty (buildObject rec) node obj b kv).
Proof.
  unfold buildProperty. cbv zeta.
  apply respects_bind.
  { destruct (isOptional (snd kv)); [|apply respects_ret].
    apply respects_bind; [apply blind_pure, jsIn_pure|]. intros ?. apply respects_ret. }
  intros skip. destruct skip; [apply respects_ret|].
  apply respects_bind; [apply blind_pure, jsGet_pure|]. intros dval.
  apply respects_bind.
  { destruct (isArray (snd kv)); [apply blind_pure, jsLength_pure | apply respects_ret]. }
  intros len. destruct (match len with Some n => 1 <? n | None => false end).
  - apply respects_bind; [apply blind_freshUuid|]. intros u. cbv zeta.
    apply respects_bind; [apply blind_addQuad|]. intros ?.
    apply respects_bind; [apply blind_addQuad|]. intros ?.
    apply respects_forEach. intros i. apply blind_buildListItem.
  - apply respects_bind.
    { destruct (isArray (snd kv)); [apply blind_pure, jsIndex_pure | apply respects_ret]. }
    intros dval'. destruct (isLiteral (type (snd kv))); [apply blind_buildLiteral|].
    apply respects_bind; [apply blind_buildObject|]. intros ?. apply blind_addQuad.
Qed.

End Rec.

Lemma blind_buildResource this fuel ty node obj b :
  blind (buildResource this fuel ty node obj b).
Proof.
  revert ty node obj b. induction fuel as [|fuel IH]; intros ty node obj b;
    cbn [buildResource]; [apply respects_diverge|].
  apply respects_bind; [apply blind_lookupDef|]. intros def.
  apply respects_bind; [apply blind_addQuad|]. intros ?.
  apply respects_bind; [apply blind_cacheLookup|]. intros c.
  apply respects_bind.
  { destruct c; [apply respects_ret|].
    apply respects_bind; [apply blind_getAllProperties|]. intros r.
    apply respects_bind; [apply blind_newUriMap|]. intros u.
    apply respects_bind; [apply blind_cacheStore|]. intros ?. apply respects_ret. }
  intros allProps. cbv zeta.
  apply respects_bind; [apply blind_readPropMap|]. intros entries.
  apply respects_forEach. intros kv. by apply blind_buildProperty.
Qed.

End Blind.

(** X15. [buildResource] never reads the graph it writes to.  Run on the
    same object from two states that differ in the store only, it ends the
    same way; it leaves the same cache, maps, uuid count and console; and
    it has added the same quads, in the same order, to either store. *)
Theorem buildResource_never_reads_store `{Host} (this : ObjectBuilder) (fuel : nat)
    (ty node : string) (obj : JsVal) (b : string) (s : State) (st : Store) :
  let r1 := buildResource this fuel ty node obj b s in
  let r2 := buildResource this fuel ty node obj b (setStore st s) in
  fst r1 = fst r2
  /\ cache (snd r1) = cache (snd r2) /\ propHeap (snd r1) = propHeap (snd r2)
  /\ uriHeap (snd r1) = uriHeap (snd r2) /\ minted (snd r1) = minted (snd r2)
  /\ console (snd r1) = console (snd r2)
  /\ exists w, store (snd r1) = addQuads (store s) w /\ store (snd r2) = addQuads st w.
Proof.
  apply (blind_buildResource (store s) st this fuel ty node obj b s (setStore st s)).
  unfold wroteSame, setStore. cbn [cache propHeap uriHeap minted console store].
  do 5 (split; [done|]). by exists [].
Qed.

(** ** A required literal that is missing *)

Lemma elem_of_addQuads q st w : q ∈ st -> q ∈ addQuads st w.
Proof.
  revert st. induction w as [|q' w IH]; intros st Hq; [done|].
  cbn [addQuads fold_left]. apply IH. apply elem_of_storeAdd. by right.
Qed.

(** What does not read the store does not remove from it either. *)
Lemma blind_keeps_quads {A} (m : M A) (s : State) (q : Quad) :
  respects (wroteSame (store s) (store s)) m -> q ∈ store s -> q ∈ store (snd (m s)).
Proof.
  intros Hm Hq.
  destruct (Hm s s) as (_ & _ & _ & _ & _ & _ & w & Hw & _).
  { unfold wroteSame. do 5 (split; [done|]). by exists []. }
  rewrite Hw. by apply elem_of_addQuads.
Qed.

(** A loop that returns has run its body on every element: what one run of
    the body establishes and no run destroys holds at the end. *)
Lemma forEach_reaches {A} (f : A -> M unit) (P : State -> Prop) (x : A) (l : list A) s s' :
  forEach f l s = (Ret tt, s') -> x ∈ l ->
  (forall s1 s2, f x s1 = (Ret tt, s2) -> P s2) ->
  (forall y s1 s2, f y s1 = (Ret tt, s2) -> P s1 -> P s2) ->
  P s'.
Proof.
  intros Hrun Hx Hest Hkeep.
  assert (Hrest : forall r s1 s2, forEach f r s1 = (Ret tt, s2) -> P s1 -> P s2).
  { induction r as [|y r IHr]; intros s1 s2 Hr HP; cbn [forEach] in Hr.
    - inversion Hr; by subst.
    - apply bind_inv_Ret in Hr as ([] & s3 & Hy & Hr). eauto. }
  revert s Hrun. induction l as [|y l IH]; intros s Hrun; [by apply elem_of_nil in Hx|].
  cbn [forEach] in Hrun. apply bind_inv_Ret in Hrun as ([] & s1 & Hy & Hrun).
  apply elem_of_cons in Hx as [->|Hx]; eauto.
Qed.

(** X16. A required property of type string, number or boolean (other than
    [uuid]) whose key the object lacks, or whose array is empty, does not
    stop the build: when [buildResource] returns, the node carries the
    property with the literal text [undefined]. *)
Theorem missing_literal_is_written_undefined `{Host} (this : ObjectBuilder) (fuel : nat)
    (ty node b : string) (o : list (string * JsVal)) (s s' : State)
    (pm : AbstractPropertyMap) (key : string) (p : AbstractProperty) :
  buildResource this fuel ty node (JObject o) b s = (Ret tt, s') ->
  resolveProperties this ty s = Ret pm ->
  (key, p) ∈ pm ->
  isOptional p = false ->
  type p ∈ ["string"; "number"; "boolean"] ->
  key <> "uuid" ->
  (isArray p = false /\ Obj.get key o = None)
  \/ (isArray p = true /\ Obj.get key o = Some (JArray [])) ->
  quad (NamedNode node) (NamedNode (uri p)) (Literal "undefined" xsd_string) ∈ store s'.
Proof.
  intros Hrun Hres Hin Hopt Hty Hkey Hval.
  assert (Hty' : type p = "string" \/ type p = "number" \/ type p = "boolean").
  { repeat (apply elem_of_cons in Hty as [Hty|Hty]; [tauto|]). by apply elem_of_nil in Hty. }
  clear Hty.
  destruct fuel as [|fuel]; [discriminate|]. cbn [buildResource] in Hrun.
  apply bind_inv_Ret in Hrun as (def & s1 & Hdef & Hrun).
  assert (s1 = s) as ->.
  { unfold lookupDef in Hdef. destruct (Obj.get ty (defs this)); by inversion Hdef. }
  apply bind_inv_Ret in Hrun as ([] & s2 & Hadd & Hrun).
  apply bind_inv_Ret in Hrun as (c & s3 & Hlook & Hrun).
  unfold cacheLookup in Hlook. inversion Hlook; subst c s3. clear Hlook.
  apply bind_inv_Ret in Hrun as (allProps & s4 & Hall & Hrun).
  cbv zeta in Hrun.
  apply bind_inv_Ret in Hrun as (entries & s5 & Hread & Hrun).
  unfold readPropMap in Hread. inversion Hread; subst entries s5. clear Hread.
  (* the entries are the effective properties of the type *)
  assert (Hpm : default [] (propHeap s4 !! allProps) = pm).
  { unfold resolveProperties in Hres.
    pose proof (blind_getAllProperties (store s) (store s2) this (typeFuel this) ty s s2)
      as Hblind.
    destruct Hblind as (Hfst & _ & Hheap & _).
    { unfold addQuad in Hadd. inversion Hadd; subst s2.
      unfold wroteSame. cbn [cache propHeap uriHeap minted console store].
      do 5 (split; [done|]). by exists []. }
    unfold bind in Hres.
    destruct (getAllProperties this (typeFuel this) ty s) as [[r| |] t] eqn:Hget;
      cbn [fst snd] in *; try discriminate.
    unfold readPropMap in Hres. cbn [fst] in Hres. injection Hres as <-.
    destruct (cache s2 !! ty) as [e|] eqn:Hc.
    - inversion Hall; subst allProps s4.
      assert (Hc' : cache s !! ty = Some e).
      { unfold addQuad in Hadd. inversion Hadd; subst s2. exact Hc. }
      unfold typeFuel in Hget. cbn [getAllProperties] in Hget.
      unfold bind, cacheLookup in Hget. cbn [fst snd] in Hget. rewrite Hc' in Hget.
      inversion Hget; subst r t.
      unfold addQuad in Hadd. by inversion Hadd.
    - apply bind_inv_Ret in Hall as (r' & s6 & Hget2 & Hall).
      rewrite Hget2 in Hfst, Hheap. cbn [fst snd] in Hfst, Hheap.
      injection Hfst as ->.
      unfold bind, newUriMap, cacheStore, ret in Hall. cbn [fst snd] in Hall.
      inversion Hall; subst allProps s4. cbn [propHeap]. by rewrite Hheap. }
  rewrite Hpm in Hrun.
  set (base := if String.eqb b "" then node else b) in Hrun.
  apply (forEach_reaches _ (fun t => quad (NamedNode node) (NamedNode (uri p))
                                          (Literal "undefined" xsd_string) ∈ store t)
           (key, p) pm s4 s' Hrun Hin).
  - intros t1 t2 Hstep.
    assert (Hlit : literalObject (type p) key JUndefined
                   = Some (Literal "undefined" xsd_string)).
    { unfold literalObject. apply String.eqb_neq in Hkey. rewrite Hkey.
      destruct Hty' as [E | [E | E]]; rewrite E; reflexivity. }
    assert (Hisl : isLiteral (type p) = true).
    { unfold isLiteral. destruct Hty' as [E | [E | E]]; rewrite E; reflexivity. }
    assert (Hwrite : buildProperty (buildObject (buildResource this fuel)) node (JObject o)
                       base (key, p) t1
                     = addQuad (quad (NamedNode node) (NamedNode (uri p))
                                     (Literal "undefined" xsd_string)) t1).
    { unfold buildProperty. cbv zeta. cbn [fst snd]. rewrite Hopt, bind_ret_l.
      cbn [jsGet]. rewrite bind_ret_l.
      destruct Hval as [[Harr Hget] | [Harr Hget]]; rewrite Harr, Hget;
        unfold default; cbn [from_option Datatypes.id].
      - rewrite !bind_ret_l. rewrite Hisl. by rewrite buildLiteral_object, Hlit.
      - unfold jsLength. cbn [jsGet]. change (String.eqb "length" "length") with true.
        cbv iota. rewrite !bind_ret_l. cbn [length Z.of_nat Z.ltb Z.compare].
        cbn [jsIndex nth]. rewrite bind_ret_l. rewrite Hisl.
        by rewrite buildLiteral_object, Hlit. }
    rewrite Hwrite in Hstep. unfold addQuad in Hstep. inversion Hstep.
    cbn [store]. apply elem_of_storeAdd. by left.
  - intros kv t1 t2 Hstep Hq.
    pose proof (blind_keeps_quads
                  (buildProperty (buildObject (buildResource this fuel)) node (JObject o)
                                 base kv) t1 _
                  (blind_buildProperty _ _ _ (blind_buildResource _ _ this fuel) _ _ _ _) Hq)
      as Hkeep.
    by rewrite Hstep in Hkeep.
Qed.

Lemma missing_literal_is_written_undefined_witness :
  quad (NamedNode "http://example.org/i0") (NamedNode "http://example.org/price")
       (Literal "undefined" xsd_string)
  ∈ store (snd (@buildResource exampleHost catalogBuilder 2 "Item" "http://example.org/i0"
                  (JObject [("id", JString "http://example.org/i0");
                            ("name", JString "lamp")]) "" initState)).
Proof.
  apply (@missing_literal_is_written_undefined exampleHost catalogBuilder 2 "Item"
           "http://example.org/i0" ""
           [("id", JString "http://example.org/i0"); ("name", JString "lamp")] initState _
           (properties itemDef) "price" (numberProp "http://example.org/price")).
  - vm_compute. reflexivity.
  - vm_compute. reflexivity.
  - right; left.
  - reflexivity.
  - right; left.
  - discriminate.
  - left. split; reflexivity.
Defined.
